(** * ToyForth: a shallow embedding of the interpreter and its properties

    The development follows the C sources file by file:

    - the C library functions the program calls ([isspace], [isdigit],
      [strcmp], [strtol], [printf "%d"]);
    - [tforth.h]: the object type, the parser state, the context;
    - [mem.c]: reference-counted objects on a heap;
    - [list.c], [stack.c]: growable lists and the data stack;
    - [ops.c], [dictionary.c]: the primitives and the operation table;
    - [parser.c]: the tokenizer / compiler;
    - [engine.c], [main.c]: the execution loop and the driver.

    The heap is a finite map from addresses to objects; every function
    that touches it lives in a small state-and-exit monad.

    Conventions of the model:

    - the [int] payload of an Integer object is a mathematical integer
      kept in the range of a 32-bit [int]; the results of [+], [-] and
      [*] in [ops.c] are brought back into that range with
      two's-complement wrap-around ([to_int]), which is what the usual
      compilers generate (ISO C leaves signed overflow undefined); the
      one quotient that leaves the range, [INT_MIN / -1], is undefined
      behaviour and traps on the usual hosts: there [/] faults;
    - the counters [refcount], [line], [column] (an [int] in the source)
      and [capacity] (a [size_t]) are unbounded integers: they would only
      overflow after more than 2^31 references or characters;
    - [malloc] and [realloc] always succeed and never hand out an address
      twice; the branches of the source on a failed allocation are
      therefore not reachable in the model;
    - characters are bytes; bytes above 127 are neither space nor digit,
      as in the "C" locale.  *)

From Stdlib Require Import ZArith String Ascii List Lia DecimalString.
From Stdlib Require DecimalPos.
From stdpp Require Import gmap list strings.

Local Open Scope string_scope.
Local Open Scope Z_scope.

(* ================================================================== *)
(** * The host: integer widths and the C library *)
(* ================================================================== *)

(** [int] is 32 bits wide.  [to_int] is the conversion of a mathematical
    integer to [int] with two's-complement wrap-around; it is the
    identity on the range of [int]. *)
Definition INT_MIN : Z := -2147483648.
Definition INT_MAX : Z := 2147483647.

Definition to_int (z : Z) : Z := (z + 2147483648) mod 4294967296 - 2147483648.

Definition in_int (z : Z) : Prop := INT_MIN <= z <= INT_MAX.

(** The width of [long] depends on the ABI: 64 bits on LP64 hosts,
    32 bits on ILP32 hosts.  It only matters for [strtol]. *)
Class HostABI : Type := { LONG_BIT : Z; LONG_BIT_ge_32 : 32 <= LONG_BIT }.

Definition LONG_MAX `{HostABI} : Z := 2 ^ (LONG_BIT - 1) - 1.
Definition LONG_MIN `{HostABI} : Z := - 2 ^ (LONG_BIT - 1).

Definition LP64 : HostABI.
Proof. refine {| LONG_BIT := 64 |}. lia. Defined.

Definition ILP32 : HostABI.
Proof. refine {| LONG_BIT := 32 |}. lia. Defined.

(** The string terminator, and the character classes of the "C" locale. *)
Definition NUL : ascii := Ascii.zero.

Definition is_nul (c : ascii) : bool := (N_of_ascii c =? 0)%N.

Definition isspace (c : ascii) : bool :=
  let n := N_of_ascii c in ((n =? 32) || ((9 <=? n) && (n <=? 13)))%N.

Definition isdigit (c : ascii) : bool :=
  let n := N_of_ascii c in ((48 <=? n) && (n <=? 57))%N.

Definition digit_val (c : ascii) : Z := Z.of_N (N_of_ascii c) - 48.

(** [strcmp]: byte-wise comparison up to the first NUL; the end of a
    Rocq string stands for the terminator.  The result is the difference
    of the first two bytes that differ, [0] when there is none. *)
Fixpoint strcmp (s1 s2 : string) : Z :=
  match s1, s2 with
  | EmptyString, EmptyString => 0
  | EmptyString, String c2 _ => - Z.of_N (N_of_ascii c2)
  | String c1 _, EmptyString => Z.of_N (N_of_ascii c1)
  | String c1 t1, String c2 t2 =>
      if (N_of_ascii c1 =? N_of_ascii c2)%N
      then (if is_nul c1 then 0 else strcmp t1 t2)
      else Z.of_N (N_of_ascii c1) - Z.of_N (N_of_ascii c2)
  end.

(** [strtol (nptr, &end, 10)], after ISO C 7.22.1.4: skip white space,
    read an optional sign and the longest run of decimal digits; the
    value is clamped to the range of [long]; without any digit the
    value is [0] and [end] is [nptr].  The result pairs the value with
    the text [end] points to. *)
Fixpoint strtol_skip (s : string) : string :=
  match s with
  | String c t => if isspace c then strtol_skip t else s
  | EmptyString => s
  end.

Fixpoint strtol_digits (acc : Z) (s : string) : Z * string :=
  match s with
  | String c t =>
      if isdigit c then strtol_digits (10 * acc + digit_val c) t else (acc, s)
  | EmptyString => (acc, s)
  end.

Definition clamp_long `{HostABI} (z : Z) : Z := Z.max LONG_MIN (Z.min LONG_MAX z).

Definition starts_with_digit (s : string) : bool :=
  match s with String c _ => isdigit c | EmptyString => false end.

Definition strtol `{HostABI} (nptr : string) : Z * string :=
  let s := strtol_skip nptr in
  let '(neg, body) :=
    match s with
    | String "-" t => (true, t)
    | String "+" t => (false, t)
    | _ => (false, s)
    end in
  if starts_with_digit body then
    let '(v, e) := strtol_digits 0 body in
    (clamp_long (if neg then - v else v), e)
  else (0, nptr).

(** [printf ("%d", n)]: the decimal digits of [n], with a leading minus
    sign for negative numbers. *)
Definition printf_d (n : Z) : string := NilZero.string_of_int (Z.to_int n).

(* ================================================================== *)
(** * tforth.h: objects, parser state, context *)
(* ================================================================== *)

Definition INITIAL_STACK_CAPACITY : Z := 16.

Inductive TF_OBJ_TYPE : Type :=
  | TF_OBJ_INT | TF_OBJ_STR | TF_OBJ_BOOL | TF_OBJ_LIST | TF_OBJ_SYMBOL.

Definition type_eqb (a b : TF_OBJ_TYPE) : bool :=
  match a, b with
  | TF_OBJ_INT, TF_OBJ_INT | TF_OBJ_STR, TF_OBJ_STR | TF_OBJ_BOOL, TF_OBJ_BOOL
  | TF_OBJ_LIST, TF_OBJ_LIST | TF_OBJ_SYMBOL, TF_OBJ_SYMBOL => true
  | _, _ => false
  end.

(** Addresses of heap blocks.  Address [0] is the null pointer and is
    never allocated. *)
Abbreviation addr := nat (only parsing).
Definition NULL : addr := 0%nat.

(** The anonymous union of [tfobj].  [uninit] is the state of the union
    right after [createObject]; [str_obj] holds the bytes of the
    heap-allocated buffer (owned by the object) and [list_obj] the first
    [len] slots of the element array, so that [len] is the length of
    [element]. *)
Inductive tfunion : Type :=
  | uninit
  | number (n : Z)
  | str_obj (str : string) (len : Z)
  | list_obj (element : list addr) (capacity : Z).

Record tfobj : Type := mk_tfobj {
  type : TF_OBJ_TYPE;
  refcount : Z;
  data : tfunion
}.

Record tfparser : Type := mk_tfparser {
  program : string;   (* the text from the current position on *)
  line : Z;
  column : Z
}.

Record tfcontext : Type := mk_tfcontext { stack : addr }.

(* ================================================================== *)
(** * The machine state and the monad of effects *)
(* ================================================================== *)

(** [heap] holds the live [tfobj] blocks, [brk] is the next address
    [malloc] hands out (blocks are never reused, and [malloc] never
    fails), [out] and [err] are what was written to [stdout] and
    [stderr]. *)
Record world : Type := mk_world {
  heap : gmap nat tfobj;
  brk : addr;
  out : string;
  err : string
}.

Definition initial_world : world :=
  {| heap := ∅; brk := 1%nat; out := ""; err := "" |}.

(** The call sites of [exit (EXIT_FAILURE)]. *)
Inductive fatal : Type :=
  | StackUnderflow | DivisionByZero | UnknownWord | UnexecutableObject.

(** A computation returns normally, leaves through [exit], runs into
    undefined behaviour ([Fault]: a dangling or null dereference, a read
    of the inactive union member, a write past the capacity of an array,
    the division of [INT_MIN] by [-1]), or exhausts the fuel of a loop
    ([Timeout]). *)
Inductive res (A : Type) : Type :=
  | Ret (a : A) (w : world)
  | Exit (f : fatal) (w : world)
  | Fault
  | Timeout.
Arguments Ret {A} a w.
Arguments Exit {A} f w.
Arguments Fault {A}.
Arguments Timeout {A}.

Definition M (A : Type) : Type := world -> res A.

Definition ret {A} (a : A) : M A := fun w => Ret a w.

Definition bind {A B} (m : M A) (k : A -> M B) : M B :=
  fun w =>
    match m w with
    | Ret a w' => k a w'
    | Exit f w' => Exit f w'
    | Fault => Fault
    | Timeout => Timeout
    end.

Notation "x <- m ;; k" := (bind m (fun x => k))
  (at level 100, m at next level, right associativity).
Notation "m ;;; k" := (bind m (fun _ => k))
  (at level 100, right associativity).

Definition exit {A} (f : fatal) : M A := fun w => Exit f w.
Definition fault {A} : M A := fun _ => Fault.
Definition timeout {A} : M A := fun _ => Timeout.

Definition set_heap (h : gmap nat tfobj) (w : world) : world :=
  {| heap := h; brk := brk w; out := out w; err := err w |}.

(** [*p] as an rvalue, [*p = o], [malloc], [free]. *)
Definition load (p : addr) : M tfobj :=
  fun w => match heap w !! p with Some o => Ret o w | None => Fault end.

Definition store (p : addr) (o : tfobj) : M unit :=
  fun w =>
    match heap w !! p with
    | Some _ => Ret tt (set_heap (<[p := o]> (heap w)) w)
    | None => Fault
    end.

Definition malloc (o : tfobj) : M addr :=
  fun w =>
    Ret (brk w)
        {| heap := <[brk w := o]> (heap w); brk := S (brk w);
           out := out w; err := err w |}.

Definition free (p : addr) : M unit :=
  fun w =>
    match heap w !! p with
    | Some _ => Ret tt (set_heap (delete p (heap w)) w)
    | None => Fault
    end.

Definition print_out (s : string) : M unit :=
  fun w => Ret tt {| heap := heap w; brk := brk w; out := (out w ++ s)%string; err := err w |}.

Definition print_err (s : string) : M unit :=
  fun w => Ret tt {| heap := heap w; brk := brk w; out := out w; err := (err w ++ s)%string |}.

(** Reading the members of the union through the tag the code tests. *)
Definition get_number (o : tfobj) : M Z :=
  match data o with number n => ret n | _ => fault end.

Definition get_str (o : tfobj) : M string :=
  match data o with str_obj s _ => ret s | _ => fault end.

Definition get_list (o : tfobj) : M (list addr * Z) :=
  match data o with list_obj el cap => ret (el, cap) | _ => fault end.

(* ================================================================== *)
(** * mem.c *)
(* ================================================================== *)

Definition createObject (ty : TF_OBJ_TYPE) : M addr :=
  malloc {| type := ty; refcount := 1; data := uninit |}.

(** [memcpy (object->str_obj.str, str, len)] copies the first [len]
    bytes of [str]; reading past the end of the source is undefined. *)
Definition createStringObject (str : string) (len : nat) : M addr :=
  object <- createObject TF_OBJ_STR ;;
  o <- load object ;;
  if (len <=? String.length str)%nat then
    store object {| type := type o; refcount := refcount o;
                    data := str_obj (substring 0 len str) (Z.of_nat len) |} ;;;
    ret object
  else fault.

Definition createIntegerObject (n : Z) : M addr :=
  object <- createObject TF_OBJ_INT ;;
  o <- load object ;;
  store object {| type := type o; refcount := refcount o; data := number n |} ;;;
  ret object.

Definition createBooleanObject (n : Z) : M addr :=
  object <- createObject TF_OBJ_BOOL ;;
  o <- load object ;;
  store object {| type := type o; refcount := refcount o; data := number n |} ;;;
  ret object.

Definition createSymbolObject (str : string) (len : nat) : M addr :=
  object <- createStringObject str len ;;
  o <- load object ;;
  store object {| type := TF_OBJ_SYMBOL; refcount := refcount o; data := data o |} ;;;
  ret object.

Definition createListObject : M addr :=
  object <- createObject TF_OBJ_LIST ;;
  o <- load object ;;
  store object {| type := type o; refcount := refcount o;
                  data := list_obj [] INITIAL_STACK_CAPACITY |} ;;;
  ret object.

Definition createContext : M tfcontext :=
  s <- createListObject ;;
  ret {| stack := s |}.

Definition incrementReferenceCount (object : addr) : M unit :=
  if (object =? NULL)%nat then ret tt
  else
    o <- load object ;;
    store object {| type := type o; refcount := refcount o + 1; data := data o |}.

(** The elements of a list are released in index order. *)
Fixpoint for_each (f : addr -> M unit) (l : list addr) : M unit :=
  match l with
  | [] => ret tt
  | x :: l' => f x ;;; for_each f l'
  end.

(** [freeObject], with the recursive call to [decrementReferenceCount]
    taken as a parameter.  The string buffer and the element array are
    part of the modelled object and are freed with it.  The loop over
    the elements only changes reference counts and frees other blocks,
    never the array it walks, so the array is read once. *)
Definition freeObject_with (release : addr -> M unit) (object : addr) : M unit :=
  if (object =? NULL)%nat then ret tt
  else
    o <- load object ;;
    (if type_eqb (type o) TF_OBJ_LIST then
       l <- get_list o ;;
       for_each release (fst l)
     else ret tt) ;;;
    free object.

(** [decrementReferenceCount] and [freeObject] call each other; [fuel]
    bounds the depth of that recursion, which descends through nested
    lists. *)
Fixpoint decrementReferenceCount_fuel (fuel : nat) (object : addr) : M unit :=
  match fuel with
  | O => timeout
  | S fuel' =>
      if (object =? NULL)%nat then ret tt
      else
        o <- load object ;;
        store object {| type := type o; refcount := refcount o - 1; data := data o |} ;;;
        if refcount o - 1 =? 0
        then freeObject_with (decrementReferenceCount_fuel fuel') object
        else ret tt
  end.

(** The recursion visits distinct live blocks, one per level, so the
    number of blocks in the heap bounds its depth. *)
Definition decrementReferenceCount (object : addr) : M unit :=
  fun w => decrementReferenceCount_fuel (S (size (heap w))) object w.

Definition freeObject (object : addr) : M unit :=
  fun w => freeObject_with (decrementReferenceCount_fuel (size (heap w))) object w.

Definition freeContext (context : tfcontext) : M unit :=
  decrementReferenceCount (stack context).

(* ================================================================== *)
(** * list.c *)
(* ================================================================== *)

(** When the array is full its capacity doubles ([wrealloc]); the new
    element is written at index [len], which must lie inside the
    array. *)
Definition listAppendObject (list object : addr) : M unit :=
  l <- load list ;;
  lo <- get_list l ;;
  let len := Z.of_nat (length (fst lo)) in
  let capacity := if len >=? snd lo then snd lo * 2 else snd lo in
  if len <? capacity then
    store list {| type := type l; refcount := refcount l;
                  data := list_obj (fst lo ++ [object]) capacity |} ;;;
    incrementReferenceCount object
  else fault.

(* ================================================================== *)
(** * stack.c *)
(* ================================================================== *)

Definition nl : string := String (ascii_of_nat 10) "".

Definition stackPush (context : tfcontext) (object : addr) : M unit :=
  listAppendObject (stack context) object.

Definition stackPop (context : tfcontext) : M addr :=
  s <- load (stack context) ;;
  lo <- get_list s ;;
  if (length (fst lo) =? 0)%nat then
    print_err ("Stack underflow error." ++ nl) ;;;
    exit StackUnderflow
  else
    let top_index := (length (fst lo) - 1)%nat in
    match fst lo !! top_index with
    | Some object =>
        store (stack context)
              {| type := type s; refcount := refcount s;
                 data := list_obj (take top_index (fst lo)) (snd lo) |} ;;;
        ret object
    | None => fault
    end.

(* ================================================================== *)
(** * ops.c *)
(* ================================================================== *)

(** [printf ("%s", s)] prints the bytes of [s] up to the terminator. *)
Fixpoint c_str (s : string) : string :=
  match s with
  | EmptyString => EmptyString
  | String c t => if is_nul c then EmptyString else String c (c_str t)
  end.

Definition both_int (a b : tfobj) : bool :=
  type_eqb (type a) TF_OBJ_INT && type_eqb (type b) TF_OBJ_INT.

Definition operationAdd (context : tfcontext) : M unit :=
  b <- stackPop context ;;
  a <- stackPop context ;;
  oa <- load a ;;
  ob <- load b ;;
  (if both_int oa ob then
     na <- get_number oa ;;
     nb <- get_number ob ;;
     result <- createIntegerObject (to_int (na + nb)) ;;
     stackPush context result ;;;
     decrementReferenceCount result
   else ret tt) ;;;
  decrementReferenceCount a ;;;
  decrementReferenceCount b.

Definition operationSub (context : tfcontext) : M unit :=
  b <- stackPop context ;;
  a <- stackPop context ;;
  oa <- load a ;;
  ob <- load b ;;
  (if both_int oa ob then
     na <- get_number oa ;;
     nb <- get_number ob ;;
     result <- createIntegerObject (to_int (na - nb)) ;;
     stackPush context result ;;;
     decrementReferenceCount result
   else ret tt) ;;;
  decrementReferenceCount a ;;;
  decrementReferenceCount b.

Definition operationMul (context : tfcontext) : M unit :=
  b <- stackPop context ;;
  a <- stackPop context ;;
  oa <- load a ;;
  ob <- load b ;;
  (if both_int oa ob then
     na <- get_number oa ;;
     nb <- get_number ob ;;
     result <- createIntegerObject (to_int (na * nb)) ;;
     stackPush context result ;;;
     decrementReferenceCount result
   else ret tt) ;;;
  decrementReferenceCount a ;;;
  decrementReferenceCount b.

(** C division truncates towards zero ([Z.quot]).  The quotient of
    [INT_MIN] by [-1] is not an [int]: the division [a->number /
    b->number] overflows, which is undefined behaviour (the process is
    killed by a signal on the usual hosts). *)
Definition operationDiv (context : tfcontext) : M unit :=
  b <- stackPop context ;;
  a <- stackPop context ;;
  oa <- load a ;;
  ob <- load b ;;
  (if both_int oa ob then
     na <- get_number oa ;;
     nb <- get_number ob ;;
     (if nb =? 0 then
        print_err ("Division by zero error." ++ nl) ;;;
        exit DivisionByZero
      else ret tt) ;;;
     (if (na =? INT_MIN) && (nb =? -1) then fault else ret tt) ;;;
     result <- createIntegerObject (to_int (na ÷ nb)) ;;
     stackPush context result ;;;
     decrementReferenceCount result
   else ret tt) ;;;
  decrementReferenceCount a ;;;
  decrementReferenceCount b.

Definition operationPrint (context : tfcontext) : M unit :=
  object <- stackPop context ;;
  o <- load object ;;
  (if type_eqb (type o) TF_OBJ_INT then
     n <- get_number o ;;
     print_out (printf_d n ++ " ")
   else if type_eqb (type o) TF_OBJ_STR then
     s <- get_str o ;;
     print_out (c_str s ++ " ")
   else if type_eqb (type o) TF_OBJ_BOOL then
     n <- get_number o ;;
     print_out ((if n =? 0 then "FALSE" else "TRUE") ++ " ")
   else ret tt) ;;;
  decrementReferenceCount object.

Definition operationDup (context : tfcontext) : M unit :=
  s <- load (stack context) ;;
  lo <- get_list s ;;
  if (length (fst lo) =? 0)%nat then ret tt
  else
    object <- stackPop context ;;
    stackPush context object ;;;
    stackPush context object ;;;
    decrementReferenceCount object.

Definition operationDrop (context : tfcontext) : M unit :=
  object <- stackPop context ;;
  decrementReferenceCount object.

Definition operationSwap (context : tfcontext) : M unit :=
  b <- stackPop context ;;
  a <- stackPop context ;;
  stackPush context b ;;;
  stackPush context a ;;;
  decrementReferenceCount a ;;;
  decrementReferenceCount b.

(* ================================================================== *)
(** * dictionary.c *)
(* ================================================================== *)

(** A function pointer of type [Operation]; the null pointer is [None]. *)
Definition Operation : Type := tfcontext -> M unit.

Definition operations : list (string * Operation) :=
  [ ("+", operationAdd); ("-", operationSub); ("*", operationMul);
    ("/", operationDiv); (".", operationPrint); ("dup", operationDup);
    ("drop", operationDrop); ("swap", operationSwap) ].

Fixpoint lookupOperation_in (table : list (string * Operation))
    (operation : string) : option Operation :=
  match table with
  | [] => None
  | (name, op) :: table' =>
      if strcmp operation name =? 0 then Some op
      else lookupOperation_in table' operation
  end.

Definition lookupOperation (operation : string) : option Operation :=
  lookupOperation_in operations operation.

(* ================================================================== *)
(** * parser.c *)
(* ================================================================== *)

(** [line] and [column] are [int] counters that only ever grow by one
    per character read. *)
Definition parserPeek (parser : tfparser) : ascii :=
  match program parser with
  | String c _ => c
  | EmptyString => NUL
  end.

Definition parserAdvance (parser : tfparser) : tfparser :=
  if is_nul (parserPeek parser) then parser
  else
    let rest := match program parser with String _ t => t | EmptyString => EmptyString end in
    if (N_of_ascii (parserPeek parser) =? 10)%N
    then {| program := rest; line := line parser + 1; column := 1 |}
    else {| program := rest; line := line parser; column := column parser + 1 |}.

(** The scanning loops take one character per iteration, so the length
    of the remaining text is enough fuel for them. *)
Fixpoint parserSkipWhiteSpace_fuel (fuel : nat) (parser : tfparser) : option tfparser :=
  if negb (is_nul (parserPeek parser)) && isspace (parserPeek parser) then
    match fuel with
    | O => None
    | S fuel' => parserSkipWhiteSpace_fuel fuel' (parserAdvance parser)
    end
  else Some parser.

Definition parserSkipWhiteSpace (parser : tfparser) : option tfparser :=
  parserSkipWhiteSpace_fuel (String.length (program parser)) parser.

Definition within_fuel {A} (o : option A) : M A :=
  match o with Some a => ret a | None => timeout end.

(** [parser->program < end] compares two pointers into the same text:
    the one with the longer remaining text is the smaller. *)
Fixpoint parseNumber_loop (fuel : nat) (endp : string) (parser : tfparser) : option tfparser :=
  if (String.length endp <? String.length (program parser))%nat then
    match fuel with
    | O => None
    | S fuel' => parseNumber_loop fuel' endp (parserAdvance parser)
    end
  else Some parser.

(** The [long] result of [strtol] is converted to the [int] parameter of
    [createIntegerObject]. *)
Definition parseNumber `{HostABI} (parser : tfparser) : M (addr * tfparser) :=
  let start := program parser in
  let r := strtol start in
  parser' <- within_fuel (parseNumber_loop (String.length start) (snd r) parser) ;;
  object <- createIntegerObject (to_int (fst r)) ;;
  ret (object, parser').

Fixpoint parseSymbol_loop (fuel : nat) (parser : tfparser) : option tfparser :=
  if negb (isspace (parserPeek parser)) && negb (is_nul (parserPeek parser)) then
    match fuel with
    | O => None
    | S fuel' => parseSymbol_loop fuel' (parserAdvance parser)
    end
  else Some parser.

Definition parseSymbol (parser : tfparser) : M (addr * tfparser) :=
  let start := program parser in
  parser' <- within_fuel (parseSymbol_loop (String.length start) parser) ;;
  let len_symbol := (String.length start - String.length (program parser'))%nat in
  new_object <- createSymbolObject start len_symbol ;;
  o <- load new_object ;;
  s <- get_str o ;;
  match lookupOperation s with
  | None => decrementReferenceCount new_object ;;; ret (NULL, parser')
  | Some _ => ret (new_object, parser')
  end.

Definition second_char (s : string) : ascii :=
  match s with
  | String _ (String c _) => c
  | _ => NUL
  end.

Definition syntax_error_message (line column : Z) : string :=
  "Syntax error. Check line " ++ printf_d line ++ " column " ++ printf_d column
  ++ "." ++ nl.

(** The loop of [compile].  Every iteration that does not leave the loop
    reads at least one character. *)
Fixpoint compile_loop `{HostABI} (fuel : nat) (program_list : addr)
    (parser : tfparser) : M addr :=
  if is_nul (parserPeek parser) then ret program_list
  else
    match fuel with
    | O => timeout
    | S fuel' =>
        parser <- within_fuel (parserSkipWhiteSpace parser) ;;
        let line := line parser in
        let column := column parser in
        let c := parserPeek parser in
        if is_nul c then ret program_list
        else
          r <- (if isdigit c
                   || ((N_of_ascii c =? 45)%N && isdigit (second_char (program parser)))
                then parseNumber parser
                else parseSymbol parser) ;;
          let new_object := fst r in
          if (new_object =? NULL)%nat then
            print_err (syntax_error_message line column) ;;;
            decrementReferenceCount program_list ;;;
            ret NULL
          else
            listAppendObject program_list new_object ;;;
            decrementReferenceCount new_object ;;;
            compile_loop fuel' program_list (snd r)
    end.

Definition compile `{HostABI} (program_txt : string) : M addr :=
  program_list <- createListObject ;;
  compile_loop (String.length program_txt) program_list
               {| program := program_txt; line := 1; column := 1 |}.

(* ================================================================== *)
(** * engine.c *)
(* ================================================================== *)

Definition is_literal_type (t : TF_OBJ_TYPE) : bool :=
  type_eqb t TF_OBJ_INT || type_eqb t TF_OBJ_BOOL.

(** The body of the [for] loop, for the element [object]. *)
Definition execute_object (context : tfcontext) (object : addr) : M unit :=
  o <- load object ;;
  if is_literal_type (type o) then stackPush context object
  else if type_eqb (type o) TF_OBJ_SYMBOL then
    s <- get_str o ;;
    match lookupOperation s with
    | Some op => op context
    | None =>
        print_err ("Unknown word: " ++ c_str s ++ nl) ;;;
        exit UnknownWord
    end
  else
    print_err ("Found an unexecutable object during execution." ++ nl) ;;;
    exit UnexecutableObject.

(** The [for] loop from index [i] on; the length of the list is read
    again before every iteration. *)
Fixpoint execute_loop (fuel : nat) (program_list : addr) (context : tfcontext)
    (i : nat) : M unit :=
  pl <- load program_list ;;
  lo <- get_list pl ;;
  if (i <? length (fst lo))%nat then
    match fuel with
    | O => timeout
    | S fuel' =>
        match fst lo !! i with
        | Some object =>
            execute_object context object ;;;
            execute_loop fuel' program_list context (S i)
        | None => fault
        end
    end
  else ret tt.

(** A null [context] is [None].  The loop runs once per element of the
    program. *)
Definition execute (program_list : addr) (context : option tfcontext) : M unit :=
  if (program_list =? NULL)%nat then ret tt
  else
    match context with
    | None => ret tt
    | Some context =>
        pl <- load program_list ;;
        lo <- get_list pl ;;
        execute_loop (length (fst lo)) program_list context 0
    end.

(* ================================================================== *)
(** * main.c *)
(* ================================================================== *)

Definition EXIT_SUCCESS : Z := 0.

(** [main] from the point where [readFromFile] has returned the text. *)
Definition main `{HostABI} (program_txt : string) : M Z :=
  program <- compile program_txt ;;
  context <- createContext ;;
  execute program (Some context) ;;;
  decrementReferenceCount program ;;;
  freeContext context ;;;
  ret EXIT_SUCCESS.

(** The first three statements of [main]: the state in which the
    program has run and nothing has been cleaned up yet. *)
Definition compile_and_execute `{HostABI} (program_txt : string) : M (addr * tfcontext) :=
  program <- compile program_txt ;;
  context <- createContext ;;
  execute program (Some context) ;;;
  ret (program, context).



(** From here on [++] is the concatenation of lists; strings are
    concatenated under an explicit scope. *)
Local Open Scope list_scope.

(* ================================================================== *)
(** * The values of objects and lists *)
(* ================================================================== *)

(** The value an object stands for: its tag together with the active
    member of its union.  List objects have no scalar value. *)
Inductive val : Type :=
  | VInt (n : Z)
  | VBool (n : Z)
  | VStr (s : string)
  | VSym (s : string).

Definition val_of (o : tfobj) : option val :=
  match type o, data o with
  | TF_OBJ_INT, number n => Some (VInt n)
  | TF_OBJ_BOOL, number n => Some (VBool n)
  | TF_OBJ_STR, str_obj s _ => Some (VStr s)
  | TF_OBJ_SYMBOL, str_obj s _ => Some (VSym s)
  | _, _ => None
  end.

Definition object_value (w : world) (a : addr) : option val :=
  match heap w !! a with
  | Some o => val_of o
  | None => None
  end.

Fixpoint object_values (w : world) (l : list addr) : option (list val) :=
  match l with
  | [] => Some []
  | a :: l' =>
      match object_value w a, object_values w l' with
      | Some v, Some vs => Some (v :: vs)
      | _, _ => None
      end
  end.

(** The elements of the list object at [l], first to last, and their
    values. *)
Definition list_elements (w : world) (l : addr) : option (list addr) :=
  match heap w !! l with
  | Some o =>
      match type o, data o with
      | TF_OBJ_LIST, list_obj el _ => Some el
      | _, _ => None
      end
  | None => None
  end.

Definition list_values (w : world) (l : addr) : option (list val) :=
  match list_elements w l with
  | Some el => object_values w el
  | None => None
  end.

(* ================================================================== *)
(** * Weakest preconditions *)
(* ================================================================== *)

(** [wp m w Q E]: from [w], [m] either returns [a] in a state with
    [Q a w'], or leaves through [exit f] in a state with [E f w']; it
    neither faults nor runs out of fuel. *)
Definition wp {A} (m : M A) (w : world)
    (Q : A -> world -> Prop) (E : fatal -> world -> Prop) : Prop :=
  match m w with
  | Ret a w' => Q a w'
  | Exit f w' => E f w'
  | Fault => False
  | Timeout => False
  end.

(** [wpx m w Q E F]: as [wp], except that [m] may fault, and then [F]
    holds. *)
Definition wpx {A} (m : M A) (w : world)
    (Q : A -> world -> Prop) (E : fatal -> world -> Prop) (F : Prop) : Prop :=
  match m w with
  | Ret a w' => Q a w'
  | Exit f w' => E f w'
  | Fault => F
  | Timeout => False
  end.

(* ================================================================== *)
(** * The reference-count invariant *)
(* ================================================================== *)

(** Number of occurrences of an address in a list of references. *)
Fixpoint count (a : addr) (l : list addr) : Z :=
  match l with
  | [] => 0
  | x :: l' => (if (x =? a)%nat then 1 else 0) + count a l'
  end.

(** The lists the program owns ([roots]: the compiled program, the
    data stack), each with its elements, and the references they
    hold. *)
Definition roots : Type := list (nat * list nat).

Definition refs (R : roots) : list addr := concat (R.*2).

(** [inv_gen D w R ext V]:
    - every block lies between the null pointer and [brk];
    - every root is a list object with reference count one, whose
      array respects its capacity;
    - every other block, except those in [Z], is a scalar whose
      reference count is the number of references to it: those in the
      roots and those in [ext], the references held by local
      variables; there is at least one;
    - every reference points to such a block;
    - [V] records the value of every scalar ever allocated.
    [D] lists blocks under destruction. *)
Record inv_gen (D : list addr) (w : world) (R : roots) (ext : list addr)
    (V : gmap nat val) : Prop := {
  inv_brk : (0 < brk w)%nat;
  inv_dom : forall a o, heap w !! a = Some o -> (0 < a < brk w)%nat;
  inv_ghost : forall a v, V !! a = Some v -> (a < brk w)%nat;
  inv_nodup : NoDup (R.*1);
  inv_root : forall r els, (r, els) ∈ R ->
    exists cap, heap w !! r = Some (mk_tfobj TF_OBJ_LIST 1 (list_obj els cap))
                /\ Z.of_nat (length els) <= cap /\ 0 < cap;
  inv_obj : forall a o, heap w !! a = Some o -> a ∉ R.*1 -> a ∉ D ->
    V !! a = val_of o /\ is_Some (val_of o)
    /\ refcount o = count a (refs R ++ ext) /\ 0 < refcount o;
  inv_ref : forall a : nat, a ∈ (refs R ++ ext)%list ->
    (a ∉ R.*1) /\ (a ∉ D) /\ is_Some (heap w !! a)
}.

Definition inv : world -> roots -> list addr -> gmap nat val -> Prop := inv_gen [].

(** [vals V els vs]: the values of the objects [els] are [vs]. *)
Definition vals (V : gmap nat val) (els : list addr) (vs : list val) : Prop :=
  Forall2 (fun a v => V !! a = Some v) els vs.

Definition same_io (w w' : world) : Prop := out w' = out w /\ err w' = err w.

(* ================================================================== *)
(** * States and diagnostics *)
(* ================================================================== *)

Definition add_err (s : string) (w : world) : world :=
  {| heap := heap w; brk := brk w; out := out w; err := (err w ++ s)%string |}.

Definition add_out (s : string) (w : world) : world :=
  {| heap := heap w; brk := brk w; out := (out w ++ s)%string; err := err w |}.

Definition alloc (o : tfobj) (w : world) : world :=
  {| heap := <[brk w := o]> (heap w); brk := S (brk w); out := out w; err := err w |}.

Definition underflow_message : string := ("Stack underflow error." ++ nl)%string.

(* ================================================================== *)
(** * The primitives on stacks of values *)
(* ================================================================== *)

(** What a primitive does to the values on the stack (bottom first):
    either it returns, leaving a stack and some printed text, or it
    exits, with the stack as it is then and a diagnostic, or its
    behaviour is undefined. *)
Inductive outcome : Type :=
  | Next (st : list val) (o : string)
  | Halt (f : fatal) (st : list val) (e : string)
  | Undefined.

Definition unsnoc (st : list val) : option (list val * val) :=
  match rev st with
  | [] => None
  | x :: r => Some (rev r, x)
  end.

Definition division_message : string := ("Division by zero error." ++ nl)%string.

Definition sem_arith (f : Z -> Z -> Z) (st : list val) : outcome :=
  match unsnoc st with
  | None => Halt StackUnderflow [] underflow_message
  | Some (st1, b) =>
      match unsnoc st1 with
      | None => Halt StackUnderflow [] underflow_message
      | Some (st2, a) =>
          match a, b with
          | VInt na, VInt nb => Next (st2 ++ [VInt (to_int (f na nb))]) ""
          | _, _ => Next st2 ""
          end
      end
  end.

Definition sem_div (st : list val) : outcome :=
  match unsnoc st with
  | None => Halt StackUnderflow [] underflow_message
  | Some (st1, b) =>
      match unsnoc st1 with
      | None => Halt StackUnderflow [] underflow_message
      | Some (st2, a) =>
          match a, b with
          | VInt na, VInt nb =>
              if nb =? 0 then Halt DivisionByZero st2 division_message
              else if (na =? INT_MIN) && (nb =? -1) then Undefined
              else Next (st2 ++ [VInt (to_int (na ÷ nb))]) ""
          | _, _ => Next st2 ""
          end
      end
  end.

Definition printed (v : val) : string :=
  match v with
  | VInt n => printf_d n ++ " "
  | VStr s => c_str s ++ " "
  | VBool n => (if n =? 0 then "FALSE" else "TRUE") ++ " "
  | VSym _ => ""
  end.

Definition sem_print (st : list val) : outcome :=
  match unsnoc st with
  | None => Halt StackUnderflow [] underflow_message
  | Some (st1, v) => Next st1 (printed v)
  end.

Definition sem_dup (st : list val) : outcome :=
  match unsnoc st with
  | None => Next [] ""
  | Some (st1, v) => Next (st1 ++ [v; v]) ""
  end.

Definition sem_drop (st : list val) : outcome :=
  match unsnoc st with
  | None => Halt StackUnderflow [] underflow_message
  | Some (st1, v) => Next st1 ""
  end.

Definition sem_swap (st : list val) : outcome :=
  match unsnoc st with
  | None => Halt StackUnderflow [] underflow_message
  | Some (st1, b) =>
      match unsnoc st1 with
      | None => Halt StackUnderflow [] underflow_message
      | Some (st2, a) => Next (st2 ++ [b; a]) ""
      end
  end.

Inductive prim : Type :=
  | PAdd | PSub | PMul | PDiv | PPrint | PDup | PDrop | PSwap.

Definition denote (p : prim) : Operation :=
  match p with
  | PAdd => operationAdd | PSub => operationSub | PMul => operationMul
  | PDiv => operationDiv | PPrint => operationPrint | PDup => operationDup
  | PDrop => operationDrop | PSwap => operationSwap
  end.

Definition sem_prim (p : prim) : list val -> outcome :=
  match p with
  | PAdd => sem_arith Z.add | PSub => sem_arith Z.sub | PMul => sem_arith Z.mul
  | PDiv => sem_div | PPrint => sem_print | PDup => sem_dup
  | PDrop => sem_drop | PSwap => sem_swap
  end.

(** The relation between a state of the machine and a stack of values,
    after a primitive returned or exited. *)
Definition returns_with (ctx : tfcontext) (R : roots) (V : gmap nat val)
    (w : world) (r : outcome) (w' : world) : Prop :=
  exists svs' o sels' V',
    r = Next svs' o
    /\ inv w' ((stack ctx, sels') :: R) [] V' /\ V ⊆ V' /\ vals V' sels' svs'
    /\ out w' = (out w ++ o)%string /\ err w' = err w.

Definition exits_with (ctx : tfcontext) (R : roots) (V : gmap nat val)
    (w : world) (r : outcome) (f : fatal) (w' : world) : Prop :=
  exists svs' e sels' ext' V',
    r = Halt f svs' e
    /\ inv w' ((stack ctx, sels') :: R) ext' V' /\ V ⊆ V' /\ vals V' sels' svs'
    /\ out w' = out w /\ err w' = (err w ++ e)%string.

(** The arithmetic primitives share one shape. *)
Definition arith (f : Z -> Z -> Z) (context : tfcontext) : M unit :=
  b <- stackPop context ;;
  a <- stackPop context ;;
  oa <- load a ;;
  ob <- load b ;;
  (if both_int oa ob then
     na <- get_number oa ;;
     nb <- get_number ob ;;
     result <- createIntegerObject (to_int (f na nb)) ;;
     stackPush context result ;;;
     decrementReferenceCount result
   else ret tt) ;;;
  decrementReferenceCount a ;;;
  decrementReferenceCount b.

(* ================================================================== *)
(** * The dictionary and the engine on values *)
(* ================================================================== *)

Definition prim_table : list (string * prim) :=
  [ ("+", PAdd); ("-", PSub); ("*", PMul); ("/", PDiv); (".", PPrint);
    ("dup", PDup); ("drop", PDrop); ("swap", PSwap) ].

Fixpoint lookup_prim_in (table : list (string * prim)) (operation : string) : option prim :=
  match table with
  | [] => None
  | (name, p) :: table' =>
      if strcmp operation name =? 0 then Some p
      else lookup_prim_in table' operation
  end.

Definition lookup_prim (operation : string) : option prim :=
  lookup_prim_in prim_table operation.

Definition unknown_word_message (s : string) : string :=
  ("Unknown word: " ++ c_str s ++ nl)%string.

Definition unexecutable_message : string :=
  ("Found an unexecutable object during execution." ++ nl)%string.

(** One element of the program. *)
Definition sem_object (v : val) (st : list val) : outcome :=
  match v with
  | VInt _ | VBool _ => Next (st ++ [v]) ""
  | VSym s =>
      match lookup_prim s with
      | Some p => sem_prim p st
      | None => Halt UnknownWord st (unknown_word_message s)
      end
  | VStr _ => Halt UnexecutableObject st unexecutable_message
  end.

(** A whole program: the final stack and everything printed, or the
    fatal error, with the stack and the output at that point, or a
    primitive whose behaviour is undefined. *)
Inductive run : Type :=
  | Finished (st : list val) (o : string)
  | Aborted (f : fatal) (st : list val) (o e : string)
  | Crashed.

Fixpoint sem_program (prog : list val) (st : list val) : run :=
  match prog with
  | [] => Finished st ""
  | v :: prog' =>
      match sem_object v st with
      | Next st' o =>
          match sem_program prog' st' with
          | Finished st'' o' => Finished st'' (o ++ o')
          | Aborted f st'' o' e => Aborted f st'' (o ++ o') e
          | Crashed => Crashed
          end
      | Halt f st' e => Aborted f st' "" e
      | Undefined => Crashed
      end
  end.

Definition run_returns (ctx : tfcontext) (R : roots) (V : gmap nat val)
    (w : world) (r : run) (w' : world) : Prop :=
  exists svs' o sels' V',
    r = Finished svs' o
    /\ inv w' ((stack ctx, sels') :: R) [] V' /\ V ⊆ V' /\ vals V' sels' svs'
    /\ out w' = (out w ++ o)%string /\ err w' = err w.

Definition run_exits (ctx : tfcontext) (R : roots) (V : gmap nat val)
    (w : world) (r : run) (f : fatal) (w' : world) : Prop :=
  exists svs' o e sels' ext' V',
    r = Aborted f svs' o e
    /\ inv w' ((stack ctx, sels') :: R) ext' V' /\ V ⊆ V' /\ vals V' sels' svs'
    /\ out w' = (out w ++ o)%string /\ err w' = (err w ++ e)%string.

(* ================================================================== *)
(** * The compiler on values *)
(* ================================================================== *)

(** The test at the head of a token. *)
Definition is_number_start (parser : tfparser) : bool :=
  isdigit (parserPeek parser)
  || ((N_of_ascii (parserPeek parser) =? 45)%N && isdigit (second_char (program parser))).

(** The text [parseSymbol] copies into the symbol: from [start] up to
    where the parser stopped. *)
Definition symbol_text (start : string) (parser' : tfparser) : string :=
  substring 0 (String.length start - String.length (program parser')) start.

(** The result of scanning: the values of the objects compiled so far
    and, when a word is unknown, its line and column. *)
Definition scanned : Type := list val * option (Z * Z).

Definition scanned_cons (v : val) (r : option scanned) : option scanned :=
  match r with
  | Some (toks, e) => Some (v :: toks, e)
  | None => None
  end.

(** [compile_loop] without the heap; [None] when the fuel runs out. *)
Fixpoint tokens_from `{HostABI} (fuel : nat) (parser : tfparser) : option scanned :=
  if is_nul (parserPeek parser) then Some ([], None)
  else
    match fuel with
    | O => None
    | S fuel' =>
        match parserSkipWhiteSpace parser with
        | None => None
        | Some parser =>
            if is_nul (parserPeek parser) then Some ([], None)
            else if is_number_start parser then
              let r := strtol (program parser) in
              match parseNumber_loop (String.length (program parser)) (snd r) parser with
              | None => None
              | Some parser' =>
                  scanned_cons (VInt (to_int (fst r))) (tokens_from fuel' parser')
              end
            else
              match parseSymbol_loop (String.length (program parser)) parser with
              | None => None
              | Some parser' =>
                  let s := symbol_text (program parser) parser' in
                  match lookup_prim s with
                  | None => Some ([], Some (line parser, column parser))
                  | Some _ => scanned_cons (VSym s) (tokens_from fuel' parser')
                  end
              end
        end
    end.

Definition tokens `{HostABI} (program_txt : string) : option scanned :=
  tokens_from (String.length program_txt)
              {| program := program_txt; line := 1; column := 1 |}.

(** What [compile] leaves behind, for a given scanning result. *)
Definition compiled (pl : addr) (R : roots) (V : gmap nat val) (pvs : list val)
    (w : world) (sc : scanned) (r : addr) (w' : world) : Prop :=
  match sc with
  | (toks, None) =>
      r = pl /\ exists pels' V',
        inv w' ((pl, pels') :: R) [] V' /\ V ⊆ V'
        /\ vals V' pels' (pvs ++ toks) /\ same_io w w'
        /\ brk w' = (brk w + length toks)%nat
  | (toks, Some (l, c)) =>
      r = NULL /\ exists V',
        inv w' R [] V' /\ V ⊆ V'
        /\ out w' = out w /\ err w' = (err w ++ syntax_error_message l c)%string
  end.

(* ================================================================== *)
(** * Positions and scanning *)
(* ================================================================== *)

(** Line and column after reading a character, and after reading a
    text, starting from the position [lc]. *)
Definition next_pos (c : ascii) (lc : Z * Z) : Z * Z :=
  if (N_of_ascii c =? 10)%N then (fst lc + 1, 1) else (fst lc, snd lc + 1).

Fixpoint position_after (pre : string) (lc : Z * Z) : Z * Z :=
  match pre with
  | EmptyString => lc
  | String c t => position_after t (next_pos c lc)
  end.

Definition at_pos (s : string) (lc : Z * Z) : tfparser :=
  {| program := s; line := fst lc; column := snd lc |}.

Fixpoint take_while (f : ascii -> bool) (s : string) : string :=
  match s with
  | String c t => if f c then String c (take_while f t) else EmptyString
  | EmptyString => EmptyString
  end.

Fixpoint drop_while (f : ascii -> bool) (s : string) : string :=
  match s with
  | String c t => if f c then drop_while f t else s
  | EmptyString => EmptyString
  end.

Fixpoint string_forall (f : ascii -> bool) (s : string) : bool :=
  match s with
  | String c t => f c && string_forall f t
  | EmptyString => true
  end.

Definition is_blank (c : ascii) : bool := negb (is_nul c) && isspace c.
Definition is_word_char (c : ascii) : bool := negb (isspace c) && negb (is_nul c).
Definition not_nul (c : ascii) : bool := negb (is_nul c).

(** The characters [strtol] consumes at the head of a number, and the
    value it reads before clamping. *)
Definition number_text (s : string) : string :=
  match s with
  | String c t =>
      if (N_of_ascii c =? 45)%N then String c (take_while isdigit t)
      else take_while isdigit s
  | EmptyString => EmptyString
  end.

Definition number_rest (s : string) : string :=
  match s with
  | String c t =>
      if (N_of_ascii c =? 45)%N then drop_while isdigit t
      else drop_while isdigit s
  | EmptyString => EmptyString
  end.

Definition number_value (s : string) : Z :=
  match s with
  | String c t =>
      if (N_of_ascii c =? 45)%N then - fst (strtol_digits 0 t)
      else fst (strtol_digits 0 s)
  | EmptyString => 0
  end.

(* ================================================================== *)
(** * What the compiler and the driver leave behind *)
(* ================================================================== *)

(** What [compile] returns and leaves behind, from the state [w]. *)
Definition compile_post (R : roots) (V : gmap nat val) (w : world) (sc : scanned)
    (r : addr) (w' : world) : Prop :=
  match sc with
  | (toks, None) =>
      r = brk w /\ exists pels V',
        inv w' ((brk w, pels) :: R) [] V' /\ V ⊆ V'
        /\ vals V' pels toks /\ same_io w w'
        /\ brk w' = (brk w + 1 + length toks)%nat
  | (toks, Some (l, c)) =>
      r = NULL /\ exists V',
        inv w' R [] V' /\ V ⊆ V'
        /\ out w' = out w /\ err w' = (err w ++ syntax_error_message l c)%string
  end.

(** The state after the first three statements of [main], for a
    program that compiles to [toks]: the program list is the first
    block allocated, the stack the first one after the program. *)
Definition ran (toks : list val) (w : world) (st : list val) (o e : string)
    (ext : list addr) (w' : world) : Prop :=
  exists sels pels V,
    inv w' [((brk w + 1 + length toks)%nat, sels); (brk w, pels)] ext V
    /\ vals V sels st /\ vals V pels toks
    /\ out w' = (out w ++ o)%string /\ err w' = (err w ++ e)%string.

Definition valid_token (v : val) : Prop :=
  match v with
  | VInt _ => True
  | VSym s => lookupOperation s <> None
  | VBool _ | VStr _ => False
  end.

(* ================================================================== *)
(** * Well-formed states and released references *)
(* ================================================================== *)

(** A state is well formed for a context when the invariant holds with
    the stack of the context among the roots and no reference held by a
    local variable: the state between two steps of the engine. *)
Definition well_formed (w : world) (ctx : tfcontext) : Prop :=
  exists sels R V, inv w ((stack ctx, sels) :: R) [] V.

(** The four arithmetic primitives differ only in what they do with two
    Integers. *)
Definition binop (K : tfcontext -> tfobj -> tfobj -> M unit) (context : tfcontext) : M unit :=
  b <- stackPop context ;;
  a <- stackPop context ;;
  oa <- load a ;;
  ob <- load b ;;
  (if both_int oa ob then K context oa ob else ret tt) ;;;
  decrementReferenceCount a ;;;
  decrementReferenceCount b.

Definition is_binop (op : Operation) : Prop :=
  exists K, op = binop K.

Definition is_int (v : val) : bool := match v with VInt _ => true | _ => false end.

(** How a step from [w] to [w'] changed the blocks other than the
    stack: the blocks that remain kept their value, each block lost as
    many references as it has occurrences in [gone], and the blocks
    that disappeared had no other reference. *)
Definition released (ctx : tfcontext) (gone : list addr) (w w' : world) : Prop :=
  forall x o, heap w !! x = Some o -> x <> stack ctx ->
    match heap w' !! x with
    | Some o' => val_of o' = val_of o /\ type o' = type o
                 /\ refcount o' = refcount o - count x gone
    | None => refcount o = count x gone
    end.

(* ================================================================== *)
(** * Exact reference counts, lists within lists *)
(* ================================================================== *)

(** The invariant above knows the two lists of the interpreter and the
    scalars they hold.  The one below asks nothing of the type of a
    block nor of the elements of a list: lists may hold lists, a block
    may occur in several lists, or several times in one.

    [counted_gen D w R ext]: the reference counts of [w] are exact.
    - the null pointer is not a block;
    - [R] lists live lists, each once, with the elements its array
      holds;
    - every live list that is not under destruction is in [R];
    - the reference count of every block that is not under destruction
      is the number of references to it: the slots of the lists of [R]
      that point to it, and its occurrences in [ext], the references
      held from outside the heap (by the context, by local variables);
      there is at least one;
    - every reference points to a live block that is not under
      destruction;
    - [D] lists the blocks under destruction, the lists whose count
      reached zero and whose elements are being released: they are
      still allocated, and no longer in [R]. *)
Record counted_gen (D : list addr) (w : world) (R : roots) (ext : list addr) : Prop := {
  cnt_null : heap w !! NULL = None;
  cnt_nodup : NoDup (R.*1);
  cnt_list : forall r els, (r, els) ∈ R ->
    exists o cap, heap w !! r = Some o /\ type o = TF_OBJ_LIST /\ data o = list_obj els cap;
  cnt_lists : forall a o, heap w !! a = Some o -> type o = TF_OBJ_LIST -> a ∉ D -> a ∈ R.*1;
  cnt_count : forall a o, heap w !! a = Some o -> a ∉ D ->
    refcount o = count a (refs R ++ ext) /\ 0 < refcount o;
  cnt_ref : forall a : nat, a ∈ (refs R ++ ext)%list -> (a ∉ D) /\ is_Some (heap w !! a);
  cnt_dead : forall a : nat, a ∈ D -> is_Some (heap w !! a) /\ (a ∉ R.*1)
}.

(** The state between two steps: nothing is under destruction. *)
Definition counted (w : world) (ext : list addr) : Prop :=
  exists R, counted_gen [] w R ext.

(** No block is referenced more often by the lists [R'] than by [R]. *)
Definition shrunk (R R' : roots) : Prop :=
  forall a, count a (refs R') <= count a (refs R).

(** From [w] to [w'] nothing was printed or allocated, the blocks [D]
    were not touched, and the blocks that remain kept their type and
    their contents, with a reference count that did not grow. *)
Definition follows (D : list addr) (w w' : world) : Prop :=
  same_io w w' /\ brk w' = brk w
  /\ (forall a, a ∈ D -> heap w' !! a = heap w !! a)
  /\ (forall a o', heap w' !! a = Some o' ->
        exists o, heap w !! a = Some o /\ type o' = type o /\ data o' = data o
                  /\ refcount o' <= refcount o).

(** Releasing one reference to a block whose release frees no list. *)
Definition release_one (x : addr) (h : gmap nat tfobj) : gmap nat tfobj :=
  match h !! x with
  | Some o =>
      if refcount o - 1 =? 0 then delete x h
      else <[x := {| type := type o; refcount := refcount o - 1; data := data o |}]> h
  | None => h
  end.

(** What releasing one reference does, with [fuel] for the nested
    lists: the counts stay exact, with one outside reference fewer. *)
Definition release_spec (fuel : nat) : Prop :=
  forall D w R ext x E,
    counted_gen D w R (x :: ext) -> NoDup D -> (size (heap w) < fuel + length D)%nat ->
    wp (decrementReferenceCount_fuel fuel x) w
       (fun _ w' => (exists R', counted_gen D w' R' ext /\ shrunk R R')
                    /\ follows D w w'
                    /\ (forall o, heap w !! x = Some o ->
                          type o <> TF_OBJ_LIST \/ refcount o <> 1 ->
                          heap w' = release_one x (heap w))) E.

(* ================================================================== *)
(** * Integer literals *)
(* ================================================================== *)

(** A well-formed literal: an optional minus sign and one or more
    decimal digits.  Its value is read off the digits by their
    positions. *)
Definition digits (s : string) : bool :=
  match s with
  | EmptyString => false
  | String _ _ => string_forall isdigit s
  end.

Definition is_literal (s : string) : bool :=
  match s with
  | String c t => if (N_of_ascii c =? 45)%N then digits t else digits s
  | EmptyString => false
  end.

Fixpoint decimal_value (s : string) : Z :=
  match s with
  | EmptyString => 0
  | String c t => digit_val c * 10 ^ Z.of_nat (String.length t) + decimal_value t
  end.

Definition literal_value (s : string) : Z :=
  match s with
  | String c t => if (N_of_ascii c =? 45)%N then - decimal_value t else decimal_value s
  | EmptyString => 0
  end.

(** A text ends with a blank. *)
Fixpoint ends_blank (s : string) : bool :=
  match s with
  | EmptyString => true
  | String c t =>
      match t with
      | EmptyString => is_blank c
      | String _ _ => ends_blank t
      end
  end.

(* ================================================================== *)
(** * Instances *)
(* ================================================================== *)

(** The numbers [compile] reads off the front of a run of characters
    that holds no blank.  Wherever the text starts with a digit, or
    with a minus sign and a digit, [parseNumber] takes the literal
    there, up to its last digit, and the loop makes the same test on
    what follows.  [glued_numbers n s] is the text of those literals,
    at most [n] of them, and what is left of [s]. *)
Fixpoint glued_numbers (n : nat) (s : string) : string * string :=
  match n with
  | O => (EmptyString, s)
  | S n' =>
      if is_number_start (at_pos s (1, 1)) then
        let r := glued_numbers n' (number_rest s) in
        ((number_text s ++ fst r)%string, snd r)
      else (EmptyString, s)
  end.

Definition leading_numbers (s : string) : string :=
  fst (glued_numbers (String.length s) s).

Definition trailing_word (s : string) : string :=
  snd (glued_numbers (String.length s) s).

(** The state in which a host with a 64-bit [long] has compiled, and
    has compiled and run, a text. *)
Definition compiled_state (text : string) : world :=
  match @compile LP64 text initial_world with
  | Ret _ w => w
  | _ => initial_world
  end.

Definition state_after (text : string) : world :=
  match @compile_and_execute LP64 text initial_world with
  | Ret _ w => w
  | _ => initial_world
  end.


(** A state no program reaches: a stack holding a list, which holds an
    Integer, below an Integer. *)
Definition nested_setup : M tfcontext :=
  ctx <- createContext ;;
  l <- createListObject ;;
  i <- createIntegerObject 7 ;;
  listAppendObject l i ;;;
  decrementReferenceCount i ;;;
  stackPush ctx l ;;;
  decrementReferenceCount l ;;;
  j <- createIntegerObject 5 ;;
  stackPush ctx j ;;;
  decrementReferenceCount j ;;;
  ret ctx.

Definition nested_state : world :=
  match nested_setup initial_world with
  | Ret _ w => w
  | _ => initial_world
  end.

(* ================================================================== *)
(** * Notions for the further properties *)
(* ================================================================== *)

(** An Integer whose payload lies in the range of [int]. *)
Definition int_value (v : val) : Prop :=
  match v with
  | VInt n => in_int n
  | _ => False
  end.

(** The diagnostic that goes with a fatal error of a primitive. *)
Definition diagnostic (f : fatal) : string :=
  match f with
  | StackUnderflow => underflow_message
  | DivisionByZero => division_message
  | UnknownWord | UnexecutableObject => ""
  end.

(** The number of newline characters of a text, and what follows the
    last of them. *)
Fixpoint newlines (s : string) : Z :=
  match s with
  | EmptyString => 0
  | String c t => (if (N_of_ascii c =? 10)%N then 1 else 0) + newlines t
  end.

Fixpoint after_last_newline (s : string) : string :=
  match s with
  | EmptyString => EmptyString
  | String c t =>
      if newlines t =? 0
      then (if (N_of_ascii c =? 10)%N then t else s)
      else after_last_newline t
  end.

(** [n] calls of [parserAdvance]. *)
Fixpoint advance (n : nat) (parser : tfparser) : tfparser :=
  match n with
  | O => parser
  | S n' => advance n' (parserAdvance parser)
  end.

(** A state in which [execute] may be called on the list at
    [program_list]: the invariant holds with the stack of the context
    and the program as the only roots. *)
Definition loaded (w : world) (program_list : addr) (ctx : tfcontext) : Prop :=
  exists sels pels V, inv w [(stack ctx, sels); (program_list, pels)] [] V.

(** The objects [execute] pushes as they are. *)
Definition is_pushed (v : val) : bool :=
  match v with
  | VInt _ | VBool _ => true
  | VStr _ | VSym _ => false
  end.

(** ** A program list built by hand *)

(** A program list built by hand, as a caller of [execute] other than
    [main] could: a Boolean and a String, which [compile] never
    produces. *)
Definition foreign_setup : M (addr * tfcontext) :=
  program_list <- createListObject ;;
  b <- createBooleanObject 1 ;;
  listAppendObject program_list b ;;;
  decrementReferenceCount b ;;;
  s <- createStringObject "hi" 2 ;;
  listAppendObject program_list s ;;;
  decrementReferenceCount s ;;;
  context <- createContext ;;
  ret (program_list, context).

Definition foreign_state : world :=
  match foreign_setup initial_world with
  | Ret _ w => w
  | _ => initial_world
  end.

(** The words of a list, each followed by one blank. *)
Fixpoint spaced (l : list string) : string :=
  match l with
  | [] => EmptyString
  | x :: l' => (x ++ " " ++ spaced l')%string
  end.

(** The Integer a literal compiles to. *)
Definition literal_token `{HostABI} (lit : string) : val :=
  VInt (to_int (clamp_long (literal_value lit))).

(* ================================================================== *)
(** * Rules of the weakest precondition *)
(* ================================================================== *)

Lemma wp_ret {A} (a : A) w Q E : Q a w -> wp (ret a) w Q E.
Proof. intros H; exact H. Qed.

Lemma wp_bind {A B} (m : M A) (k : A -> M B) w Q E :
  wp m w (fun a w' => wp (k a) w' Q E) E -> wp (bind m k) w Q E.
Proof. unfold wp, bind. destruct (m w); auto. Qed.

Lemma wp_mono {A} (m : M A) w (Q Q' : A -> world -> Prop) (E E' : fatal -> world -> Prop) :
  wp m w Q E ->
  (forall a w', Q a w' -> Q' a w') ->
  (forall f w', E f w' -> E' f w') ->
  wp m w Q' E'.
Proof. unfold wp. destruct (m w); auto. Qed.

Lemma wp_post {A} (m : M A) w (Q Q' : A -> world -> Prop) E :
  wp m w Q (fun _ _ => False) ->
  (forall a w', Q a w' -> Q' a w') ->
  wp m w Q' E.
Proof. intros H HQ. eapply wp_mono; eauto. contradiction. Qed.

Lemma wp_Ret_inv {A} (m : M A) w Q E a w' :
  wp m w Q E -> m w = Ret a w' -> Q a w'.
Proof. unfold wp. intros H Hm. now rewrite Hm in H. Qed.

Lemma wp_Exit_inv {A} (m : M A) w Q E f w' :
  wp m w Q E -> m w = Exit f w' -> E f w'.
Proof. unfold wp. intros H Hm. now rewrite Hm in H. Qed.

Lemma wp_returns {A} (m : M A) w Q :
  wp m w Q (fun _ _ => False) -> exists a w', m w = Ret a w' /\ Q a w'.
Proof. unfold wp. destruct (m w); try contradiction. eauto. Qed.

Lemma wp_exit {A} (f : fatal) w (Q : A -> world -> Prop) (E : fatal -> world -> Prop) :
  E f w -> wp (exit f) w Q E.
Proof. intros H; exact H. Qed.

Lemma wp_within_fuel {A} (o : option A) (a : A) w Q E :
  o = Some a -> Q a w -> wp (within_fuel o) w Q E.
Proof. intros -> H. exact H. Qed.

(** The same rules when a fault is allowed for. *)
Lemma wp_wpx {A} (m : M A) w Q E F : wp m w Q E -> wpx m w Q E F.
Proof. unfold wp, wpx. destruct (m w); auto; contradiction. Qed.

Lemma wpx_ret {A} (a : A) w Q E F : Q a w -> wpx (ret a) w Q E F.
Proof. intros H; exact H. Qed.

Lemma wpx_bind {A B} (m : M A) (k : A -> M B) w Q E F :
  wpx m w (fun a w' => wpx (k a) w' Q E F) E F -> wpx (bind m k) w Q E F.
Proof. unfold wpx, bind. destruct (m w); auto. Qed.

Lemma wpx_mono {A} (m : M A) w (Q Q' : A -> world -> Prop)
    (E E' : fatal -> world -> Prop) (F F' : Prop) :
  wpx m w Q E F ->
  (forall a w', Q a w' -> Q' a w') -> (forall f w', E f w' -> E' f w') -> (F -> F') ->
  wpx m w Q' E' F'.
Proof. unfold wpx. destruct (m w); auto. Qed.

Lemma wpx_step {A} (m : M A) w (Q Q' : A -> world -> Prop) E F :
  wp m w Q (fun _ _ => False) -> (forall a w', Q a w' -> Q' a w') -> wpx m w Q' E F.
Proof. unfold wp, wpx. destruct (m w); auto; contradiction. Qed.

Lemma wpx_load p o w (Q : tfobj -> world -> Prop) E F :
  heap w !! p = Some o -> Q o w -> wpx (load p) w Q E F.
Proof. intros Hp HQ. unfold wpx, load. rewrite Hp. exact HQ. Qed.

Lemma wpx_Ret_inv {A} (m : M A) w Q E F a w' :
  wpx m w Q E F -> m w = Ret a w' -> Q a w'.
Proof. unfold wpx. intros H Hm. rewrite Hm in H. exact H. Qed.

Lemma wpx_Exit_inv {A} (m : M A) w Q E F f w' :
  wpx m w Q E F -> m w = Exit f w' -> E f w'.
Proof. unfold wpx. intros H Hm. rewrite Hm in H. exact H. Qed.

Lemma wpx_Fault_inv {A} (m : M A) w Q E (F : Prop) :
  wpx m w Q E F -> m w = Fault -> F.
Proof. unfold wpx. intros H Hm. rewrite Hm in H. exact H. Qed.

Lemma bind_Ret {A B} (m : M A) (k : A -> M B) w a w' :
  m w = Ret a w' -> bind m k w = k a w'.
Proof. intros Hm. unfold bind. rewrite Hm. reflexivity. Qed.

Lemma bind_Exit {A B} (m : M A) (k : A -> M B) w f w' :
  m w = Exit f w' -> bind m k w = Exit f w'.
Proof. intros Hm. unfold bind. rewrite Hm. reflexivity. Qed.

(** A computation that faults after a part that returns. *)
Lemma bind_faults {A B} (m : M A) (k : A -> M B) w (Q : A -> world -> Prop) :
  wp m w Q (fun _ _ => False) -> (forall a w', Q a w' -> k a w' = Fault) ->
  bind m k w = Fault.
Proof.
  unfold wp, bind. destruct (m w) as [a w'|f w'| |]; try contradiction.
  intros HQ Hk. apply Hk. exact HQ.
Qed.

(* ================================================================== *)
(** * Counting references *)
(* ================================================================== *)

Lemma count_app a l1 l2 : count a (l1 ++ l2) = count a l1 + count a l2.
Proof. induction l1 as [|x l1 IH]; simpl; [reflexivity|]. rewrite IH. lia. Qed.

Lemma count_nonneg a l : 0 <= count a l.
Proof. induction l as [|x l IH]; simpl; [lia|]. destruct (x =? a)%nat; lia. Qed.

Lemma count_pos_elem a l : 0 < count a l <-> a ∈ l.
Proof.
  induction l as [|x l IH]; simpl.
  - split; [lia | intros H; inversion H].
  - destruct (Nat.eqb_spec x a) as [->|Hne].
    + split; [intros _; left | intros _; pose proof (count_nonneg a l); lia].
    + rewrite elem_of_cons. split.
      * intros H. right. apply IH. lia.
      * intros [->|H]; [congruence|]. apply IH in H. lia.
Qed.

Lemma count_zero_not_elem a l : count a l = 0 <-> a ∉ l.
Proof.
  pose proof (count_nonneg a l). pose proof (count_pos_elem a l).
  split; [intros H1 H2; apply H0 in H2; lia | intros H1].
  destruct (Z.eq_dec (count a l) 0); [assumption|].
  exfalso. apply H1, H0. lia.
Qed.

(* ================================================================== *)
(** * Rules for the heap primitives *)
(* ================================================================== *)

Lemma wp_load p o w (Q : tfobj -> world -> Prop) E :
  heap w !! p = Some o -> Q o w -> wp (load p) w Q E.
Proof. intros H HQ. unfold wp, load. now rewrite H. Qed.

Lemma wp_store p o o0 w (Q : unit -> world -> Prop) E :
  heap w !! p = Some o0 -> Q tt (set_heap (<[p := o]> (heap w)) w) -> wp (store p o) w Q E.
Proof. intros H HQ. unfold wp, store. now rewrite H. Qed.

Lemma wp_free p o0 w (Q : unit -> world -> Prop) E :
  heap w !! p = Some o0 -> Q tt (set_heap (delete p (heap w)) w) -> wp (free p) w Q E.
Proof. intros H HQ. unfold wp, free. now rewrite H. Qed.

Lemma wp_malloc o w (Q : nat -> world -> Prop) E :
  Q (brk w) (alloc o w) -> wp (malloc o) w Q E.
Proof. intros HQ. exact HQ. Qed.

Lemma wp_print_err s w (Q : unit -> world -> Prop) E :
  Q tt (add_err s w) -> wp (print_err s) w Q E.
Proof. intros HQ. exact HQ. Qed.

Lemma wp_print_out s w (Q : unit -> world -> Prop) E :
  Q tt (add_out s w) -> wp (print_out s) w Q E.
Proof. intros HQ. exact HQ. Qed.

Lemma same_io_refl w : same_io w w.
Proof. split; reflexivity. Qed.

Lemma same_io_trans w1 w2 w3 : same_io w1 w2 -> same_io w2 w3 -> same_io w1 w3.
Proof. intros [? ?] [? ?]. split; congruence. Qed.

Lemma same_io_set_heap h w : same_io w (set_heap h w).
Proof. split; reflexivity. Qed.

Lemma same_io_alloc o w : same_io w (alloc o w).
Proof. split; reflexivity. Qed.

#[local] Hint Resolve same_io_refl same_io_set_heap same_io_alloc : core.

(** The constructors of [mem.c] allocate one block and fill it. *)
Lemma createIntegerObject_alloc n w :
  createIntegerObject n w = Ret (brk w) (alloc (mk_tfobj TF_OBJ_INT 1 (number n)) w).
Proof.
  unfold createIntegerObject, createObject, bind, malloc, load, store, ret, set_heap, alloc; simpl.
  repeat (rewrite lookup_insert_eq; simpl). now rewrite insert_insert_eq.
Qed.

Lemma createBooleanObject_alloc n w :
  createBooleanObject n w = Ret (brk w) (alloc (mk_tfobj TF_OBJ_BOOL 1 (number n)) w).
Proof.
  unfold createBooleanObject, createObject, bind, malloc, load, store, ret, set_heap, alloc; simpl.
  repeat (rewrite lookup_insert_eq; simpl). now rewrite insert_insert_eq.
Qed.

Lemma createListObject_alloc w :
  createListObject w
  = Ret (brk w) (alloc (mk_tfobj TF_OBJ_LIST 1 (list_obj [] INITIAL_STACK_CAPACITY)) w).
Proof.
  unfold createListObject, createObject, bind, malloc, load, store, ret, set_heap, alloc; simpl.
  repeat (rewrite lookup_insert_eq; simpl). now rewrite insert_insert_eq.
Qed.

Lemma createSymbolObject_alloc s len w :
  (len <= String.length s)%nat ->
  createSymbolObject s len w
  = Ret (brk w) (alloc (mk_tfobj TF_OBJ_SYMBOL 1
                          (str_obj (substring 0 len s) (Z.of_nat len))) w).
Proof.
  intros Hlen.
  unfold createSymbolObject, createStringObject, createObject, bind, malloc, load; simpl.
  rewrite !lookup_insert_eq.
  destruct (Nat.leb_spec len (String.length s)); [|lia].
  unfold store, ret, set_heap, alloc; simpl.
  repeat (rewrite lookup_insert_eq; simpl).
  now rewrite !insert_insert_eq.
Qed.

(* ================================================================== *)
(** * Preservation of the invariant *)
(* ================================================================== *)

Lemma refs_cons r els (R : roots) : refs ((r, els) :: R) = (els ++ refs R)%list.
Proof. reflexivity. Qed.

Lemma inv_alive D w R ext V a :
  inv_gen D w R ext V -> a ∈ (refs R ++ ext)%list ->
  exists o v, heap w !! a = Some o /\ val_of o = Some v /\ V !! a = Some v
              /\ refcount o = count a (refs R ++ ext) /\ (a ∉ R.*1) /\ (0 < a)%nat.
Proof.
  intros I Ha. destruct (inv_ref _ _ _ _ _ I a Ha) as (Hr & Hd & [o Ho]).
  destruct (inv_obj _ _ _ _ _ I a o Ho Hr Hd) as (HV & [v Hv] & Hc & _).
  exists o, v. repeat split; auto; try congruence.
  apply (inv_dom _ _ _ _ _ I) in Ho. lia.
Qed.

Lemma val_of_not_list o : is_Some (val_of o) -> type_eqb (type o) TF_OBJ_LIST = false.
Proof. unfold val_of. destruct (type o), (data o); simpl; intros [v Hv]; congruence. Qed.

Lemma inv_root_head D w r els R ext V :
  inv_gen D w ((r, els) :: R) ext V ->
  exists cap, heap w !! r = Some (mk_tfobj TF_OBJ_LIST 1 (list_obj els cap))
              /\ Z.of_nat (length els) <= cap /\ 0 < cap.
Proof. intros I. apply (inv_root _ _ _ _ _ I). left. Qed.

(** Allocation of a scalar: the creator holds the only reference. *)
Lemma inv_alloc_scalar w R ext V o v :
  inv w R ext V -> val_of o = Some v -> refcount o = 1 ->
  inv (alloc o w) R (brk w :: ext) (<[brk w := v]> V) /\ V !! brk w = None.
Proof.
  intros I Hv Hrc.
  assert (Hfresh : heap w !! brk w = None).
  { destruct (heap w !! brk w) eqn:E; [|reflexivity].
    apply (inv_dom _ _ _ _ _ I) in E. lia. }
  assert (HVfresh : V !! brk w = None).
  { destruct (V !! brk w) eqn:E; [|reflexivity].
    apply (inv_ghost _ _ _ _ _ I) in E. lia. }
  assert (Hnr : brk w ∉ R.*1).
  { intros Hin. apply list_elem_of_fmap in Hin as [[r els] [E Hin]].
    destruct (inv_root _ _ _ _ _ I _ _ Hin) as (cap & Hr & _). simpl in E. congruence. }
  assert (Hnref : brk w ∉ (refs R ++ ext)%list).
  { intros Hin. apply (inv_ref _ _ _ _ _ I) in Hin as (_ & _ & [o' Ho']). congruence. }
  split; [|assumption].
  pose proof (inv_brk _ _ _ _ _ I) as Hbrk.
  constructor; simpl.
  - lia.
  - intros a o' Ha. destruct (decide (brk w = a)) as [<-|Hne]; [lia|].
    rewrite lookup_insert_ne in Ha by assumption.
      apply (inv_dom _ _ _ _ _ I) in Ha. lia.
  - intros a v' Ha. destruct (decide (brk w = a)) as [<-|Hne]; [lia|].
    rewrite lookup_insert_ne in Ha by assumption.
    apply (inv_ghost _ _ _ _ _ I) in Ha. lia.
  - apply (inv_nodup _ _ _ _ _ I).
  - intros r els Hin. destruct (inv_root _ _ _ _ _ I _ _ Hin) as (cap & Hr & Hc).
    exists cap. split; [|assumption].
    rewrite lookup_insert_ne; [assumption|]. intros <-. congruence.
  - intros a o' Ha Hr Hd. destruct (decide (brk w = a)) as [<-|Hne].
    + rewrite lookup_insert_eq in Ha. injection Ha as <-.
      rewrite lookup_insert_eq. rewrite Hv, Hrc.
      split; [reflexivity|]. split; [eauto|]. split; [|lia].
      rewrite count_app. simpl. rewrite Nat.eqb_refl.
      apply count_zero_not_elem in Hnref. rewrite count_app in Hnref. lia.
    + rewrite lookup_insert_ne in Ha by assumption.
      rewrite lookup_insert_ne by assumption.
      destruct (inv_obj _ _ _ _ _ I a o' Ha Hr Hd) as (H1 & H2 & H3 & H4).
      repeat split; auto. rewrite H3, !count_app. simpl.
      destruct (Nat.eqb_spec (brk w) a); [congruence|]. lia.
  - intros a Ha. rewrite elem_of_app, elem_of_cons in Ha.
    destruct (decide (brk w = a)) as [<-|Hne].
    + repeat split; auto; [apply not_elem_of_nil|]. rewrite lookup_insert_eq. eauto.
    + assert (Ha' : a ∈ (refs R ++ ext)%list).
      { rewrite elem_of_app. destruct Ha as [?|[?|?]]; auto. congruence. }
      apply (inv_ref _ _ _ _ _ I) in Ha' as (? & ? & ?).
      repeat split; auto. now rewrite lookup_insert_ne.
Qed.

(** Allocation of a list: a new root. *)
Lemma inv_alloc_root w R ext V cap :
  inv w R ext V -> 0 < cap ->
  inv (alloc (mk_tfobj TF_OBJ_LIST 1 (list_obj [] cap)) w) ((brk w, []) :: R) ext V.
Proof.
  intros I Hcap.
  assert (Hfresh : heap w !! brk w = None).
  { destruct (heap w !! brk w) eqn:E; [|reflexivity].
    apply (inv_dom _ _ _ _ _ I) in E. lia. }
  assert (Hnr : brk w ∉ R.*1).
  { intros Hin. apply list_elem_of_fmap in Hin as [[r els] [E Hin]].
    destruct (inv_root _ _ _ _ _ I _ _ Hin) as (c & Hr & _). simpl in E. congruence. }
  assert (Hnref : brk w ∉ (refs R ++ ext)%list).
  { intros Hin. apply (inv_ref _ _ _ _ _ I) in Hin as (_ & _ & [o' Ho']). congruence. }
  pose proof (inv_brk _ _ _ _ _ I) as Hbrk.
  constructor; simpl.
  - lia.
  - intros a o' Ha. destruct (decide (brk w = a)) as [<-|Hne]; [lia|].
    rewrite lookup_insert_ne in Ha by assumption.
    apply (inv_dom _ _ _ _ _ I) in Ha. lia.
  - intros a v' Ha. apply (inv_ghost _ _ _ _ _ I) in Ha. lia.
  - constructor; [assumption | apply (inv_nodup _ _ _ _ _ I)].
  - intros r els Hin. apply elem_of_cons in Hin as [E|Hin].
    + injection E as -> ->. exists cap. rewrite lookup_insert_eq. simpl. split; [reflexivity|lia].
    + destruct (inv_root _ _ _ _ _ I _ _ Hin) as (c & Hr & Hc).
      exists c. split; [|assumption].
      rewrite lookup_insert_ne; [assumption|]. intros <-. congruence.
  - intros a o' Ha Hr Hd. rewrite not_elem_of_cons in Hr. destruct Hr as [Hne Hr].
    rewrite lookup_insert_ne in Ha by congruence.
    rewrite refs_cons. simpl.
    apply (inv_obj _ _ _ _ _ I a o' Ha Hr Hd).
  - intros a Ha. rewrite refs_cons in Ha. simpl in Ha.
    pose proof Ha as Ha'.
    apply (inv_ref _ _ _ _ _ I) in Ha as (? & ? & ?).
    split; [|split; [assumption|]].
    + rewrite not_elem_of_cons. split; [|assumption]. intros ->. contradiction.
    + rewrite lookup_insert_ne; [assumption|]. intros <-. contradiction.
Qed.

(** [listAppendObject]: the list takes one more reference. *)
Lemma wp_listAppendObject w l els R ext V x E :
  inv w ((l, els) :: R) ext V ->
  x ∈ (refs ((l, els) :: R) ++ ext)%list ->
  wp (listAppendObject l x) w
     (fun _ w' => inv w' ((l, els ++ [x]) :: R) ext V /\ same_io w w'
                  /\ brk w' = brk w) E.
Proof.
  intros I Hx.
  destruct (inv_root_head _ _ _ _ _ _ _ I) as (cap & Hl & Hlen & Hcap).
  destruct (inv_alive _ _ _ _ _ _ I Hx) as (o & v & Ho & Hv & HV & Hrc & Hxr & Hx0).
  assert (Hxl : l <> x).
  { intros ->. apply Hxr. simpl. left. }
  unfold listAppendObject.
  apply wp_bind. eapply wp_load; [exact Hl|]. simpl.
  apply wp_bind. apply wp_ret. simpl.
  set (cap' := if Z.of_nat (length els) >=? cap then cap * 2 else cap).
  assert (Hcap' : Z.of_nat (length els) < cap' /\ 0 < cap').
  { unfold cap'. destruct (Z.geb_spec (Z.of_nat (length els)) cap); lia. }
  destruct (Z.ltb_spec (Z.of_nat (length els)) cap') as [_|]; [|lia].
  apply wp_bind. eapply wp_store; [exact Hl|].
  unfold incrementReferenceCount.
  destruct (Nat.eqb_spec x NULL) as [->|_]; [unfold NULL in Hx0; lia|].
  apply wp_bind. eapply wp_load.
  { simpl. rewrite lookup_insert_ne by assumption. exact Ho. }
  eapply wp_store.
  { simpl. rewrite lookup_insert_ne by assumption. exact Ho. }
  split; [|split; [split; reflexivity | reflexivity]].
  pose proof (inv_nodup _ _ _ _ _ I) as Hnd. simpl in Hnd. apply NoDup_cons in Hnd as [Hlr HndR].
  constructor; simpl.
  - apply (inv_brk _ _ _ _ _ I).
  - intros a o' Ha.
    destruct (decide (x = a)) as [<-|Hne1].
    { apply (inv_dom _ _ _ _ _ I) in Ho. exact Ho. }
    rewrite lookup_insert_ne in Ha by assumption.
    destruct (decide (l = a)) as [<-|Hne2].
    { apply (inv_dom _ _ _ _ _ I) in Hl. exact Hl. }
    rewrite lookup_insert_ne in Ha by assumption.
    apply (inv_dom _ _ _ _ _ I) in Ha. exact Ha.
  - apply (inv_ghost _ _ _ _ _ I).
  - constructor; assumption.
  - intros r els' Hin. apply elem_of_cons in Hin as [Eq|Hin].
    + injection Eq as -> ->. exists cap'.
      rewrite lookup_insert_ne by congruence. rewrite lookup_insert_eq.
      split; [reflexivity|]. rewrite length_app. simpl. lia.
    + assert (Hin' : (r, els') ∈ (l, els) :: R) by (right; assumption).
      destruct (inv_root _ _ _ _ _ I _ _ Hin') as (c & Hr & Hc).
      exists c. split; [|assumption].
      assert (r ∈ R.*1) by (apply list_elem_of_fmap; exists (r, els'); auto).
      rewrite !lookup_insert_ne; [assumption| |].
      * intros <-. contradiction.
      * intros <-. apply Hxr. simpl. right. assumption.
  - intros a o' Ha Hr Hd. rewrite refs_cons.
    destruct (decide (x = a)) as [<-|Hne1].
    + rewrite lookup_insert_eq in Ha. injection Ha as <-. simpl.
      unfold val_of in *. simpl.
      destruct (inv_obj _ _ _ _ _ I x o Ho Hxr Hd) as (H1 & H2 & H3 & H4).
      split; [exact H1|]. split; [exact H2|]. split; [|lia].
      rewrite H3, refs_cons, !count_app. simpl. rewrite Nat.eqb_refl. lia.
    + rewrite lookup_insert_ne in Ha by assumption.
      simpl in Hr. rewrite not_elem_of_cons in Hr. destruct Hr as [Hal Hr].
      rewrite lookup_insert_ne in Ha by congruence.
      assert (Hr' : a ∉ ((l, els) :: R).*1) by (simpl; rewrite not_elem_of_cons; auto).
      destruct (inv_obj _ _ _ _ _ I a o' Ha Hr' Hd) as (H1 & H2 & H3 & H4).
      split; [exact H1|]. split; [exact H2|]. split; [|exact H4].
      rewrite H3, refs_cons, !count_app. simpl.
      destruct (Nat.eqb_spec x a); [congruence|]. lia.
  - intros a Ha.
    assert (Ha' : a ∈ (refs ((l, els) :: R) ++ ext)%list).
    { rewrite refs_cons in *. rewrite !elem_of_app in Ha. rewrite !elem_of_app.
      destruct Ha as [[[Ha|Ha]|Ha]|Ha]; auto.
      apply list_elem_of_singleton in Ha. subst a.
      rewrite !elem_of_app in Hx. exact Hx. }
    destruct (inv_alive _ _ _ _ _ _ I Ha') as (oa & va & Hoa & _ & _ & _ & Har & _).
    split; [exact Har|]. split; [apply not_elem_of_nil|].
    destruct (decide (x = a)) as [<-|Hne1]; [rewrite lookup_insert_eq; eauto|].
    rewrite lookup_insert_ne by assumption.
    rewrite lookup_insert_ne; [eauto|]. intros <-. apply Har. simpl. left.
Qed.

Lemma wp_stackPush w ctx els R ext V x E :
  inv w ((stack ctx, els) :: R) ext V ->
  x ∈ (refs ((stack ctx, els) :: R) ++ ext)%list ->
  wp (stackPush ctx x) w
     (fun _ w' => inv w' ((stack ctx, els ++ [x]) :: R) ext V /\ same_io w w'
                  /\ brk w' = brk w) E.
Proof. apply wp_listAppendObject. Qed.

(** [stackPop]: the reference moves from the stack to the caller. *)
Lemma last_index {A} (l : list A) (x : A) :
  (l ++ [x]) !! (length (l ++ [x]) - 1)%nat = Some x
  /\ take (length (l ++ [x]) - 1)%nat (l ++ [x]) = l.
Proof.
  rewrite length_app. simpl.
  replace (length l + 1 - 1)%nat with (length l) by lia.
  split.
  - rewrite lookup_app_r by lia. now rewrite Nat.sub_diag.
  - rewrite take_app_length. reflexivity.
Qed.

Lemma wp_stackPop w ctx els x R ext V E :
  inv w ((stack ctx, els ++ [x]) :: R) ext V ->
  wp (stackPop ctx) w
     (fun r w' => r = x /\ inv w' ((stack ctx, els) :: R) (x :: ext) V /\ same_io w w'
                  /\ brk w' = brk w) E.
Proof.
  intros I.
  destruct (inv_root_head _ _ _ _ _ _ _ I) as (cap & Hl & Hlen & Hcap).
  unfold stackPop.
  apply wp_bind. eapply wp_load; [exact Hl|]. simpl.
  apply wp_bind. apply wp_ret. simpl.
  destruct (last_index els x) as [Hlast Htake].
  destruct (Nat.eqb_spec (length (els ++ [x])) 0) as [Hz|_].
  { rewrite length_app in Hz. simpl in Hz. lia. }
  rewrite Hlast, Htake.
  apply wp_bind. eapply wp_store; [exact Hl|]. apply wp_ret.
  split; [reflexivity|]. split; [|split; [split; reflexivity | reflexivity]].
  pose proof (inv_nodup _ _ _ _ _ I) as Hnd.
  assert (Hx : x ∈ (refs ((stack ctx, els ++ [x]) :: R) ++ ext)).
  { rewrite refs_cons, !elem_of_app. left. left. right. left. }
  destruct (inv_alive _ _ _ _ _ _ I Hx) as (o & v & Ho & _ & _ & _ & Hxr & _).
  constructor; simpl.
  - apply (inv_brk _ _ _ _ _ I).
  - intros a o' Ha.
    destruct (decide (stack ctx = a)) as [<-|Hne].
    { apply (inv_dom _ _ _ _ _ I) in Hl. exact Hl. }
    rewrite lookup_insert_ne in Ha by assumption.
    apply (inv_dom _ _ _ _ _ I) in Ha. exact Ha.
  - apply (inv_ghost _ _ _ _ _ I).
  - exact Hnd.
  - intros r els' Hin. apply elem_of_cons in Hin as [Eq|Hin].
    + injection Eq as -> ->. exists cap. rewrite lookup_insert_eq.
      split; [reflexivity|]. rewrite length_app in Hlen. simpl in Hlen. lia.
    + assert (Hin' : (r, els') ∈ (stack ctx, els ++ [x]) :: R) by (right; assumption).
      destruct (inv_root _ _ _ _ _ I _ _ Hin') as (c & Hr & Hc).
      exists c. split; [|assumption].
      rewrite lookup_insert_ne; [assumption|].
      intros <-. simpl in Hnd. apply NoDup_cons in Hnd as [Hn _]. apply Hn.
      apply list_elem_of_fmap. exists (stack ctx, els'). auto.
  - intros a o' Ha Hr Hd. simpl in Hr. rewrite not_elem_of_cons in Hr. destruct Hr as [Hal Hr].
    rewrite lookup_insert_ne in Ha by congruence.
    assert (Hr' : a ∉ ((stack ctx, els ++ [x]) :: R).*1) by (simpl; rewrite not_elem_of_cons; auto).
    destruct (inv_obj _ _ _ _ _ I a o' Ha Hr' Hd) as (H1 & H2 & H3 & H4).
    split; [exact H1|]. split; [exact H2|]. split; [|exact H4].
    rewrite H3, !refs_cons, !count_app. simpl. lia.
  - intros a Ha.
    assert (Ha' : a ∈ (refs ((stack ctx, els ++ [x]) :: R) ++ ext)).
    { rewrite refs_cons in *. rewrite !elem_of_app, elem_of_cons in Ha. rewrite !elem_of_app.
      destruct Ha as [[Ha|Ha]|[->|Ha]]; auto. left. left. right. left. }
    destruct (inv_alive _ _ _ _ _ _ I Ha') as (oa & va & Hoa & _ & _ & _ & Har & _).
    split; [exact Har|]. split; [apply not_elem_of_nil|].
    rewrite lookup_insert_ne; [eauto|]. intros <-. apply Har. simpl. left.
Qed.

Lemma stackPop_empty w ctx o cap :
  heap w !! stack ctx = Some o -> data o = list_obj [] cap ->
  stackPop ctx w = Exit StackUnderflow (add_err underflow_message w).
Proof.
  intros Ho Hd. unfold stackPop, bind, load, get_list. rewrite Ho, Hd. reflexivity.
Qed.

(** Releasing a reference to a scalar: the count drops by one and the
    block is freed with the last reference. *)
Lemma wp_decrement_scalar D w R ext V x n E :
  inv_gen D w R (x :: ext) V ->
  wp (decrementReferenceCount_fuel (S n) x) w
     (fun _ w' => inv_gen D w' R ext V /\ same_io w w' /\ brk w' = brk w
                  /\ (forall a, a <> x -> heap w' !! a = heap w !! a)) E.
Proof.
  intros I.
  assert (Hx : x ∈ (refs R ++ x :: ext)).
  { rewrite elem_of_app. right. left. }
  destruct (inv_alive _ _ _ _ _ _ I Hx) as (o & v & Ho & Hv & HV & Hrc & Hxr & Hx0).
  destruct (inv_ref _ _ _ _ _ I x Hx) as (_ & HxD & _).
  assert (Hcnt : count x (refs R ++ x :: ext) = count x (refs R ++ ext) + 1).
  { rewrite !count_app. simpl. rewrite Nat.eqb_refl. lia. }
  assert (Hcnt' : forall a, a <> x -> count a (refs R ++ x :: ext) = count a (refs R ++ ext)).
  { intros a Ha. rewrite !count_app. simpl. destruct (Nat.eqb_spec x a); [congruence|lia]. }
  assert (Hsub : forall a, a ∈ (refs R ++ ext) -> a ∈ (refs R ++ x :: ext)).
  { intros a. rewrite !elem_of_app, elem_of_cons. tauto. }
  simpl.
  destruct (Nat.eqb_spec x NULL) as [->|_]; [unfold NULL in Hx0; lia|].
  apply wp_bind. eapply wp_load; [exact Ho|].
  apply wp_bind. eapply wp_store; [exact Ho|].
  destruct (Z.eqb_spec (refcount o - 1) 0) as [Hz|Hnz].
  - (* last reference: the block is freed *)
    unfold freeObject_with.
    destruct (Nat.eqb_spec x NULL) as [->|_]; [unfold NULL in Hx0; lia|].
    apply wp_bind. eapply wp_load; [simpl; apply lookup_insert_eq|]. simpl.
    rewrite (val_of_not_list o) by eauto.
    apply wp_bind. apply wp_ret.
    eapply wp_free; [simpl; apply lookup_insert_eq|]. simpl.
    rewrite delete_insert_eq.
    assert (Hgone : x ∉ (refs R ++ ext)).
    { apply count_zero_not_elem. lia. }
    split; [|split; [split; reflexivity | split; [reflexivity|]]].
    2:{ intros a Ha. now rewrite lookup_delete_ne by congruence. }
    constructor; simpl.
    + apply (inv_brk _ _ _ _ _ I).
    + intros a o' Ha. apply lookup_delete_Some in Ha as [_ Ha].
      apply (inv_dom _ _ _ _ _ I) in Ha. exact Ha.
    + apply (inv_ghost _ _ _ _ _ I).
    + apply (inv_nodup _ _ _ _ _ I).
    + intros r els Hin. destruct (inv_root _ _ _ _ _ I _ _ Hin) as (c & Hr & Hc).
      exists c. split; [|assumption].
      rewrite lookup_delete_ne; [assumption|]. intros <-. apply Hxr.
      apply list_elem_of_fmap. exists (x, els). auto.
    + intros a o' Ha Hr Hd. apply lookup_delete_Some in Ha as [Hne Ha].
      destruct (inv_obj _ _ _ _ _ I a o' Ha Hr Hd) as (H1 & H2 & H3 & H4).
      split; [exact H1|]. split; [exact H2|]. split; [|exact H4].
      rewrite H3. apply Hcnt'. congruence.
    + intros a Ha. pose proof (Hsub a Ha) as Ha'.
      apply (inv_ref _ _ _ _ _ I) in Ha' as (? & ? & ?).
      split; [assumption|]. split; [assumption|].
      rewrite lookup_delete_ne; [assumption|]. intros <-. contradiction.
  - (* other references remain *)
    apply wp_ret.
    split; [|split; [split; reflexivity | split; [reflexivity|]]].
    2:{ intros a Ha. simpl. now rewrite lookup_insert_ne by congruence. }
    destruct (inv_obj _ _ _ _ _ I x o Ho Hxr HxD) as (H1 & H2 & H3 & H4).
    constructor; simpl.
    + apply (inv_brk _ _ _ _ _ I).
    + intros a o' Ha. destruct (decide (x = a)) as [<-|Hne].
      { apply (inv_dom _ _ _ _ _ I) in Ho. exact Ho. }
      rewrite lookup_insert_ne in Ha by assumption.
      apply (inv_dom _ _ _ _ _ I) in Ha. exact Ha.
    + apply (inv_ghost _ _ _ _ _ I).
    + apply (inv_nodup _ _ _ _ _ I).
    + intros r els Hin. destruct (inv_root _ _ _ _ _ I _ _ Hin) as (c & Hr & Hc).
      exists c. split; [|assumption].
      rewrite lookup_insert_ne; [assumption|]. intros <-. apply Hxr.
      apply list_elem_of_fmap. exists (x, els). auto.
    + intros a o' Ha Hr Hd. destruct (decide (x = a)) as [<-|Hne].
      * rewrite lookup_insert_eq in Ha. injection Ha as <-. simpl.
        split; [exact H1|]. split; [exact H2|].
        pose proof (count_nonneg x (refs R ++ ext)). lia.
      * rewrite lookup_insert_ne in Ha by assumption.
        destruct (inv_obj _ _ _ _ _ I a o' Ha Hr Hd) as (H1' & H2' & H3' & H4').
        split; [exact H1'|]. split; [exact H2'|]. split; [|exact H4'].
        rewrite H3'. apply Hcnt'. congruence.
    + intros a Ha. pose proof (Hsub a Ha) as Ha'.
      apply (inv_ref _ _ _ _ _ I) in Ha' as (? & ? & [oa Hoa]).
      split; [assumption|]. split; [assumption|].
      destruct (decide (x = a)) as [<-|Hne]; [rewrite lookup_insert_eq; eauto|].
      rewrite lookup_insert_ne by assumption. eauto.
Qed.

Lemma wp_decrementReferenceCount w R ext V x E :
  inv w R (x :: ext) V ->
  wp (decrementReferenceCount x) w
     (fun _ w' => inv w' R ext V /\ same_io w w' /\ brk w' = brk w
                  /\ (forall a, a <> x -> heap w' !! a = heap w !! a)) E.
Proof.
  intros I.
  pose proof (wp_decrement_scalar [] w R ext V x (size (heap w)) E I) as H.
  unfold wp in *. unfold decrementReferenceCount. exact H.
Qed.

(** Releasing the elements of a list that is being destroyed. *)
Lemma wp_for_each_release D todo : forall w R ext V n E,
  inv_gen D w R (todo ++ ext) V ->
  wp (for_each (decrementReferenceCount_fuel (S n)) todo) w
     (fun _ w' => inv_gen D w' R ext V /\ same_io w w' /\ brk w' = brk w
                  /\ (forall a, a ∈ D -> heap w' !! a = heap w !! a)) E.
Proof.
  induction todo as [|x todo IH]; intros w R ext V n E I.
  - apply wp_ret. split; [exact I|]. split; [apply same_io_refl|]. split; reflexivity.
  - simpl. apply wp_bind.
    eapply wp_mono; [apply (wp_decrement_scalar D w R (todo ++ ext) V x n E I) | | auto].
    intros _ w1 (I1 & Hio1 & Hbrk1 & Hfr1).
    eapply wp_mono; [apply (IH w1 R ext V n E I1) | | auto].
    intros _ w2 (I2 & Hio2 & Hbrk2 & Hfr2).
    split; [exact I2|]. split; [eapply same_io_trans; eauto|]. split; [congruence|].
    intros a Ha. rewrite Hfr2 by assumption. apply Hfr1.
    intros ->. assert (Hx : x ∈ (refs R ++ (x :: todo) ++ ext)).
    { rewrite !elem_of_app. right. left. left. }
    apply (inv_ref _ _ _ _ _ I) in Hx as (_ & Hx & _). contradiction.
Qed.

(** Releasing the only reference to a root destroys the list and
    releases the references it holds. *)
Lemma wp_decrement_root w r els R ext V E :
  inv w ((r, els) :: R) ext V ->
  wp (decrementReferenceCount r) w
     (fun _ w' => inv w' R ext V /\ same_io w w' /\ brk w' = brk w) E.
Proof.
  intros I.
  destruct (inv_root_head _ _ _ _ _ _ _ I) as (cap & Hl & Hlen & Hcap).
  pose proof (inv_dom _ _ _ _ _ I _ _ Hl) as Hr0.
  pose proof (inv_nodup _ _ _ _ _ I) as Hnd. simpl in Hnd.
  apply NoDup_cons in Hnd as [HrR HndR].
  assert (Hsz : exists n, size (heap w) = S n).
  { destruct (size (heap w)) eqn:Es; [|eauto].
    apply map_size_empty_iff in Es. rewrite Es in Hl. rewrite lookup_empty in Hl. discriminate. }
  destruct Hsz as [n Hsz].
  unfold wp, decrementReferenceCount. rewrite Hsz.
  change (wp (decrementReferenceCount_fuel (S (S n)) r) w
     (fun _ w' => inv w' R ext V /\ same_io w w' /\ brk w' = brk w) E).
  cbn [decrementReferenceCount_fuel].
  destruct (Nat.eqb_spec r NULL) as [->|_]; [unfold NULL in Hr0; lia|].
  apply wp_bind. eapply wp_load; [exact Hl|].
  apply wp_bind. eapply wp_store; [exact Hl|]. simpl.
  unfold freeObject_with.
  destruct (Nat.eqb_spec r NULL) as [->|_]; [unfold NULL in Hr0; lia|].
  apply wp_bind. eapply wp_load; [simpl; apply lookup_insert_eq|]. simpl.
  apply wp_bind. apply wp_bind. apply wp_ret. simpl.
  set (w1 := set_heap (<[r := mk_tfobj TF_OBJ_LIST 0 (list_obj els cap)]> (heap w)) w).
  assert (I1 : inv_gen [r] w1 R (els ++ ext) V).
  { constructor; simpl.
    - apply (inv_brk _ _ _ _ _ I).
    - intros a o' Ha. destruct (decide (r = a)) as [<-|Hne]; [exact Hr0|].
      rewrite lookup_insert_ne in Ha by assumption.
      apply (inv_dom _ _ _ _ _ I) in Ha. exact Ha.
    - apply (inv_ghost _ _ _ _ _ I).
    - exact HndR.
    - intros r' els' Hin.
      assert (Hin' : (r', els') ∈ (r, els) :: R) by (right; assumption).
      destruct (inv_root _ _ _ _ _ I _ _ Hin') as (c & Hr & Hc).
      exists c. split; [|assumption].
      rewrite lookup_insert_ne; [assumption|]. intros <-. apply HrR.
      apply list_elem_of_fmap. exists (r, els'). auto.
    - intros a o' Ha Hr Hd. apply not_elem_of_cons in Hd as [Hne _].
      rewrite lookup_insert_ne in Ha by congruence.
      assert (Hr' : a ∉ ((r, els) :: R).*1) by (simpl; rewrite not_elem_of_cons; auto).
      destruct (inv_obj _ _ _ _ _ I a o' Ha Hr' (not_elem_of_nil a)) as (H1 & H2 & H3 & H4).
      split; [exact H1|]. split; [exact H2|]. split; [|exact H4].
      rewrite H3, refs_cons, !count_app. lia.
    - intros a Ha.
      assert (Ha' : a ∈ (refs ((r, els) :: R) ++ ext)).
      { rewrite refs_cons. rewrite !elem_of_app in *. tauto. }
      destruct (inv_alive _ _ _ _ _ _ I Ha') as (oa & va & Hoa & _ & _ & _ & Har & _).
      simpl in Har. apply not_elem_of_cons in Har as [Hne Har].
      split; [exact Har|]. split; [rewrite not_elem_of_cons; split; [exact Hne|apply not_elem_of_nil]|].
      rewrite lookup_insert_ne by congruence. eauto. }
  eapply wp_mono; [apply (wp_for_each_release [r] els w1 R ext V n E I1) | | auto].
  intros _ w2 (I2 & Hio2 & Hbrk2 & Hfr2).
  assert (Hr2 : heap w2 !! r = Some (mk_tfobj TF_OBJ_LIST 0 (list_obj els cap))).
  { rewrite Hfr2 by left. unfold w1. simpl. apply lookup_insert_eq. }
  eapply wp_free; [exact Hr2|].
  split; [|split; [exact Hio2 | exact Hbrk2]].
  constructor; simpl.
  - apply (inv_brk _ _ _ _ _ I2).
  - intros a o' Ha. apply lookup_delete_Some in Ha as [_ Ha].
    apply (inv_dom _ _ _ _ _ I2) in Ha. exact Ha.
  - apply (inv_ghost _ _ _ _ _ I2).
  - exact HndR.
  - intros r' els' Hin.
    destruct (inv_root _ _ _ _ _ I2 _ _ Hin) as (c & Hr & Hc).
    exists c. split; [|assumption].
    rewrite lookup_delete_ne; [assumption|]. intros <-. apply HrR.
    apply list_elem_of_fmap. exists (r, els'). auto.
  - intros a o' Ha Hr _. apply lookup_delete_Some in Ha as [Hne Ha].
    apply (inv_obj _ _ _ _ _ I2 a o' Ha Hr).
    rewrite not_elem_of_cons. split; [congruence | apply not_elem_of_nil].
  - intros a Ha. apply (inv_ref _ _ _ _ _ I2) in Ha as (H1 & H2 & H3).
    split; [exact H1|]. split; [apply not_elem_of_nil|].
    apply not_elem_of_cons in H2 as [Hne _].
    rewrite lookup_delete_ne by congruence. exact H3.
Qed.

(** What the invariant says about values. *)
Lemma inv_object_value D w R ext V a :
  inv_gen D w R ext V -> a ∈ (refs R ++ ext) ->
  object_value w a = V !! a /\ is_Some (V !! a).
Proof.
  intros I Ha. destruct (inv_alive _ _ _ _ _ _ I Ha) as (o & v & Ho & Hv & HV & _).
  unfold object_value. rewrite Ho, Hv, HV. eauto.
Qed.

Lemma inv_object_values D w R ext V els :
  inv_gen D w R ext V -> (forall a, a ∈ els -> a ∈ (refs R ++ ext)) ->
  exists vs, object_values w els = Some vs /\ vals V els vs.
Proof.
  intros I. induction els as [|a els IH]; intros Hsub.
  - exists []. split; [reflexivity | constructor].
  - destruct IH as (vs & Hvs & HV); [intros b Hb; apply Hsub; now right|].
    destruct (inv_object_value _ _ _ _ _ a I) as (Ha & [v Hv]); [apply Hsub; left|].
    exists (v :: vs). simpl. rewrite Ha, Hv, Hvs. split; [reflexivity|].
    constructor; assumption.
Qed.

Lemma vals_functional V els vs vs' : vals V els vs -> vals V els vs' -> vs = vs'.
Proof.
  intros H. revert vs'. induction H as [|a v els vs Hv H IH]; intros vs' H'.
  - now inversion H'.
  - inversion H' as [|? v' ? vs2 Hv' H2]; subst. f_equal; [congruence | auto].
Qed.

Lemma refs_elem (R : roots) r els a : (r, els) ∈ R -> a ∈ els -> a ∈ refs R.
Proof.
  induction R as [|[r' els'] R IH]; intros Hin Ha.
  - inversion Hin.
  - rewrite refs_cons, elem_of_app. apply elem_of_cons in Hin as [Eq|Hin].
    + injection Eq as -> ->. now left.
    + right. auto.
Qed.

Lemma inv_list_values D w R ext V r els :
  inv_gen D w R ext V -> (r, els) ∈ R ->
  list_elements w r = Some els
  /\ exists vs, list_values w r = Some vs /\ vals V els vs.
Proof.
  intros I Hin. destruct (inv_root _ _ _ _ _ I _ _ Hin) as (cap & Hr & _).
  assert (Hel : list_elements w r = Some els).
  { unfold list_elements. now rewrite Hr. }
  split; [exact Hel|]. unfold list_values. rewrite Hel.
  apply (inv_object_values _ _ _ _ _ _ I).
  intros a Ha. rewrite elem_of_app. left. eapply refs_elem; eauto.
Qed.

Lemma vals_mono V V' els vs : V ⊆ V' -> vals V els vs -> vals V' els vs.
Proof.
  intros Hsub H. induction H; constructor; auto.
  eapply lookup_weaken; eauto.
Qed.

Lemma vals_app V els1 els2 vs1 vs2 :
  vals V els1 vs1 -> vals V els2 vs2 -> vals V (els1 ++ els2) (vs1 ++ vs2).
Proof. apply Forall2_app. Qed.

Lemma vals_snoc_inv V els vs v :
  vals V els (vs ++ [v]) ->
  exists els' x, els = els' ++ [x] /\ vals V els' vs /\ V !! x = Some v.
Proof.
  intros H. apply Forall2_app_inv_r in H as (els' & lx & H1 & H2 & ->).
  inversion H2 as [|x ? lx' ? Hx Hnil]; subst. inversion Hnil; subst.
  exists els', x. auto.
Qed.

Lemma vals_nil_inv V els : vals V els [] -> els = [].
Proof. intros H. now inversion H. Qed.

Lemma vals_length V els vs : vals V els vs -> length els = length vs.
Proof. apply Forall2_length. Qed.

Lemma inv_same_heap D w w' R ext V :
  heap w' = heap w -> brk w' = brk w -> inv_gen D w R ext V -> inv_gen D w' R ext V.
Proof.
  intros Hh Hb I. constructor; rewrite ?Hh, ?Hb; apply I.
Qed.

Lemma wp_stackPop_empty w ctx R ext V (Q : nat -> world -> Prop) (E : fatal -> world -> Prop) :
  inv w ((stack ctx, []) :: R) ext V ->
  E StackUnderflow (add_err underflow_message w) ->
  wp (stackPop ctx) w Q E.
Proof.
  intros I HE. destruct (inv_root_head _ _ _ _ _ _ _ I) as (cap & Hl & _).
  unfold wp. erewrite stackPop_empty; eauto.
Qed.

Lemma val_of_type o v :
  val_of o = Some v ->
  type_eqb (type o) TF_OBJ_INT = match v with VInt _ => true | _ => false end
  /\ type_eqb (type o) TF_OBJ_BOOL = match v with VBool _ => true | _ => false end
  /\ type_eqb (type o) TF_OBJ_STR = match v with VStr _ => true | _ => false end
  /\ type_eqb (type o) TF_OBJ_SYMBOL = match v with VSym _ => true | _ => false end
  /\ match v with
     | VInt n | VBool n => data o = number n
     | VStr s | VSym s => exists len, data o = str_obj s len
     end.
Proof.
  unfold val_of. destruct (type o), (data o); simpl; intros Hv; inversion Hv; subst;
    repeat split; eauto.
Qed.

(* ================================================================== *)
(** * The primitives act on the heap as on the values *)
(* ================================================================== *)

Lemma unsnoc_snoc st v : unsnoc (st ++ [v]) = Some (st, v).
Proof. unfold unsnoc. rewrite rev_app_distr. simpl. now rewrite rev_involutive. Qed.

Lemma unsnoc_Some st st1 v : unsnoc st = Some (st1, v) -> st = st1 ++ [v].
Proof.
  unfold unsnoc. destruct (rev st) as [|x r] eqn:E; [discriminate|].
  intros H. injection H as <- <-.
  rewrite <- (rev_involutive st), E. reflexivity.
Qed.

Lemma unsnoc_None st : unsnoc st = None -> st = [].
Proof.
  unfold unsnoc. destruct (rev st) as [|x r] eqn:E; [|discriminate].
  intros _. rewrite <- (rev_involutive st), E. reflexivity.
Qed.

Lemma string_app_nil_r (s : string) : (s ++ "")%string = s.
Proof.
  induction s as [|c s IH]; [reflexivity|].
  change (String c (s ++ "")%string = String c s). now rewrite IH.
Qed.

Ltac io_solve :=
  unfold same_io, division_message, underflow_message in *;
  repeat match goal with H : out _ = _ /\ err _ = _ |- _ => destruct H end;
  simpl in *; rewrite ?string_app_nil_r;
  first [ split; congruence | congruence ].

Lemma same_io_out w w' : same_io w w' -> out w' = (out w ++ "")%string /\ err w' = err w.
Proof. intros [-> ->]. now rewrite string_app_nil_r. Qed.

Section Primitives.

Variables (ctx : tfcontext) (R : roots).

Lemma underflow_exits w V ext r :
  inv w ((stack ctx, []) :: R) ext V ->
  r = Halt StackUnderflow [] underflow_message ->
  exits_with ctx R V w r StackUnderflow (add_err underflow_message w).
Proof.
  intros I ->. exists [], underflow_message, [], ext, V.
  split; [reflexivity|].
  split; [eapply (inv_same_heap _ w); [reflexivity | reflexivity | exact I]|].
  split; [reflexivity|]. split; [constructor|]. split; reflexivity.
Qed.

Lemma sim_arith f w sels V svs :
  inv w ((stack ctx, sels) :: R) [] V -> vals V sels svs ->
  wp (arith f ctx) w
     (fun _ w' => returns_with ctx R V w (sem_arith f svs) w')
     (fun e w' => exits_with ctx R V w (sem_arith f svs) e w').
Proof.
  intros I HV. unfold arith, sem_arith.
  destruct (unsnoc svs) as [[st1 vb]|] eqn:E1.
  2:{ apply unsnoc_None in E1. subst svs. apply vals_nil_inv in HV. subst sels.
      apply wp_bind. eapply wp_stackPop_empty; [exact I|].
      eapply underflow_exits; eauto. }
  apply unsnoc_Some in E1. subst svs.
  apply vals_snoc_inv in HV as (els1 & b & -> & HV1 & Hb).
  apply wp_bind. eapply wp_post; [eapply wp_stackPop; exact I|].
  intros ? w1 (-> & I1 & Hio1 & Hbrk1).
  destruct (unsnoc st1) as [[st2 va]|] eqn:E2.
  2:{ apply unsnoc_None in E2. subst st1. apply vals_nil_inv in HV1. subst els1.
      apply wp_bind. eapply wp_stackPop_empty; [exact I1|].
      exists [], underflow_message, [], [b], V.
      split; [reflexivity|].
      split; [eapply (inv_same_heap _ w1); [reflexivity | reflexivity | exact I1]|].
      split; [reflexivity|]. split; [constructor|]. io_solve. }
  apply unsnoc_Some in E2. subst st1.
  apply vals_snoc_inv in HV1 as (els2 & a & -> & HV2 & Ha).
  apply wp_bind. eapply wp_post; [eapply wp_stackPop; exact I1|].
  intros ? w2 (-> & I2 & Hio2 & Hbrk2).
  assert (Ha2 : a ∈ (refs ((stack ctx, els2) :: R) ++ [a; b])).
  { rewrite elem_of_app. right. left. }
  assert (Hb2 : b ∈ (refs ((stack ctx, els2) :: R) ++ [a; b])).
  { rewrite elem_of_app. right. right. left. }
  destruct (inv_alive _ _ _ _ _ _ I2 Ha2) as (oa & va' & Hoa & Hva & HVa & _).
  destruct (inv_alive _ _ _ _ _ _ I2 Hb2) as (ob & vb' & Hob & Hvb & HVb & _).
  assert (va' = va) by congruence. assert (vb' = vb) by congruence. subst va' vb'.
  apply wp_bind. eapply wp_load; [exact Hoa|].
  apply wp_bind. eapply wp_load; [exact Hob|].
  destruct (val_of_type _ _ Hva) as (Hta & _ & _ & _ & Hda).
  destruct (val_of_type _ _ Hvb) as (Htb & _ & _ & _ & Hdb).
  unfold both_int. rewrite Hta, Htb.
  assert (Hnoint : forall svs',
    svs' = st2 ->
    wp (ret tt;;; decrementReferenceCount a;;; decrementReferenceCount b) w2
      (fun _ w' => returns_with ctx R V w (Next svs' "") w')
      (fun e w' => exits_with ctx R V w (Next svs' "") e w')).
  { intros svs' ->. apply wp_bind. apply wp_ret.
    apply wp_bind. eapply wp_post; [eapply wp_decrementReferenceCount; exact I2|].
    intros _ w3 (I3 & Hio3 & Hbrk3 & _).
    eapply wp_post; [eapply wp_decrementReferenceCount; exact I3|].
    intros _ w4 (I4 & Hio4 & Hbrk4 & _).
    exists st2, "", els2, V. split; [reflexivity|]. split; [exact I4|].
    split; [reflexivity|]. split; [exact HV2|].
    io_solve. }
  destruct va as [na| | |]; try (apply Hnoint; destruct vb; reflexivity).
  destruct vb as [nb| | |]; try (apply Hnoint; reflexivity).
  simpl. unfold get_number. rewrite Hda, Hdb.
  apply wp_bind. apply wp_bind. apply wp_ret. apply wp_bind. apply wp_ret.
  apply wp_bind. unfold wp at 1. rewrite createIntegerObject_alloc.
  destruct (inv_alloc_scalar w2 _ _ V (mk_tfobj TF_OBJ_INT 1 (number (to_int (f na nb))))
              (VInt (to_int (f na nb))) I2 eq_refl eq_refl) as [I3 HVfresh].
  set (res := brk w2) in *. set (w3 := alloc _ w2) in *.
  set (V' := <[res := VInt (to_int (f na nb))]> V) in *.
  apply wp_bind. eapply wp_post.
  { eapply wp_stackPush; [exact I3|]. rewrite elem_of_app. right. left. }
  intros _ w4 (I4 & Hio4 & Hbrk4).
  eapply wp_post; [eapply wp_decrementReferenceCount; exact I4|].
  intros _ w5 (I5 & Hio5 & Hbrk5 & _).
  apply wp_bind. eapply wp_post; [eapply wp_decrementReferenceCount; exact I5|].
  intros _ w6 (I6 & Hio6 & Hbrk6 & _).
  eapply wp_post; [eapply wp_decrementReferenceCount; exact I6|].
  intros _ w7 (I7 & Hio7 & Hbrk7 & _).
  assert (Hsub : V ⊆ V') by (apply insert_subseteq; exact HVfresh).
  exists (st2 ++ [VInt (to_int (f na nb))]), "", (els2 ++ [res]), V'.
  split; [reflexivity|]. split; [exact I7|]. split; [exact Hsub|].
  split.
  { apply vals_app; [eapply vals_mono; eauto|].
    constructor; [apply lookup_insert_eq | constructor]. }
  assert (same_io w2 w3) by apply same_io_alloc. io_solve.
Qed.

Lemma sim_div w sels V svs :
  inv w ((stack ctx, sels) :: R) [] V -> vals V sels svs ->
  sem_div svs <> Undefined ->
  wp (operationDiv ctx) w
     (fun _ w' => returns_with ctx R V w (sem_div svs) w')
     (fun e w' => exits_with ctx R V w (sem_div svs) e w').
Proof.
  intros I HV Hdef. unfold operationDiv, sem_div.
  destruct (unsnoc svs) as [[st1 vb]|] eqn:E1.
  2:{ apply unsnoc_None in E1. subst svs. apply vals_nil_inv in HV. subst sels.
      apply wp_bind. eapply wp_stackPop_empty; [exact I|].
      eapply underflow_exits; eauto. }
  apply unsnoc_Some in E1. subst svs.
  apply vals_snoc_inv in HV as (els1 & b & -> & HV1 & Hb).
  apply wp_bind. eapply wp_post; [eapply wp_stackPop; exact I|].
  intros ? w1 (-> & I1 & Hio1 & Hbrk1).
  destruct (unsnoc st1) as [[st2 va]|] eqn:E2.
  2:{ apply unsnoc_None in E2. subst st1. apply vals_nil_inv in HV1. subst els1.
      apply wp_bind. eapply wp_stackPop_empty; [exact I1|].
      exists [], underflow_message, [], [b], V.
      split; [reflexivity|].
      split; [eapply (inv_same_heap _ w1); [reflexivity | reflexivity | exact I1]|].
      split; [reflexivity|]. split; [constructor|]. io_solve. }
  apply unsnoc_Some in E2. subst st1.
  apply vals_snoc_inv in HV1 as (els2 & a & -> & HV2 & Ha).
  apply wp_bind. eapply wp_post; [eapply wp_stackPop; exact I1|].
  intros ? w2 (-> & I2 & Hio2 & Hbrk2).
  assert (Ha2 : a ∈ (refs ((stack ctx, els2) :: R) ++ [a; b])).
  { rewrite elem_of_app. right. left. }
  assert (Hb2 : b ∈ (refs ((stack ctx, els2) :: R) ++ [a; b])).
  { rewrite elem_of_app. right. right. left. }
  destruct (inv_alive _ _ _ _ _ _ I2 Ha2) as (oa & va' & Hoa & Hva & HVa & _).
  destruct (inv_alive _ _ _ _ _ _ I2 Hb2) as (ob & vb' & Hob & Hvb & HVb & _).
  assert (va' = va) by congruence. assert (vb' = vb) by congruence. subst va' vb'.
  apply wp_bind. eapply wp_load; [exact Hoa|].
  apply wp_bind. eapply wp_load; [exact Hob|].
  destruct (val_of_type _ _ Hva) as (Hta & _ & _ & _ & Hda).
  destruct (val_of_type _ _ Hvb) as (Htb & _ & _ & _ & Hdb).
  unfold both_int. rewrite Hta, Htb.
  assert (Hnoint : forall svs',
    svs' = st2 ->
    wp (ret tt;;; decrementReferenceCount a;;; decrementReferenceCount b) w2
      (fun _ w' => returns_with ctx R V w (Next svs' "") w')
      (fun e w' => exits_with ctx R V w (Next svs' "") e w')).
  { intros svs' ->. apply wp_bind. apply wp_ret.
    apply wp_bind. eapply wp_post; [eapply wp_decrementReferenceCount; exact I2|].
    intros _ w3 (I3 & Hio3 & Hbrk3 & _).
    eapply wp_post; [eapply wp_decrementReferenceCount; exact I3|].
    intros _ w4 (I4 & Hio4 & Hbrk4 & _).
    exists st2, "", els2, V. split; [reflexivity|]. split; [exact I4|].
    split; [reflexivity|]. split; [exact HV2|]. io_solve. }
  destruct va as [na| | |]; try (apply Hnoint; destruct vb; reflexivity).
  destruct vb as [nb| | |]; try (apply Hnoint; reflexivity).
  simpl. unfold get_number. rewrite Hda, Hdb.
  apply wp_bind. apply wp_bind. apply wp_ret. apply wp_bind. apply wp_ret.
  apply wp_bind.
  destruct (Z.eqb_spec nb 0) as [Hz|Hnz].
  { apply wp_bind. apply wp_print_err. apply wp_exit.
    exists st2, division_message, els2, [a; b], V.
    split; [reflexivity|].
    split; [eapply (inv_same_heap _ w2); [reflexivity | reflexivity | exact I2]|].
    split; [reflexivity|]. split; [exact HV2|]. io_solve. }
  apply wp_ret.
  assert (Hov : (na =? INT_MIN) && (nb =? -1) = false).
  { destruct ((na =? INT_MIN) && (nb =? -1)) eqn:Hov; [|reflexivity].
    exfalso. apply Hdef. unfold sem_div. rewrite !unsnoc_snoc.
    destruct (Z.eqb_spec nb 0); [contradiction|]. rewrite Hov. reflexivity. }
  rewrite Hov.
  apply wp_bind. apply wp_ret.
  apply wp_bind. unfold wp at 1. rewrite createIntegerObject_alloc.
  destruct (inv_alloc_scalar w2 _ _ V (mk_tfobj TF_OBJ_INT 1 (number (to_int (na ÷ nb))))
              (VInt (to_int (na ÷ nb))) I2 eq_refl eq_refl) as [I3 HVfresh].
  set (res := brk w2) in *. set (w3 := alloc _ w2) in *.
  set (V' := <[res := VInt (to_int (na ÷ nb))]> V) in *.
  apply wp_bind. eapply wp_post.
  { eapply wp_stackPush; [exact I3|]. rewrite elem_of_app. right. left. }
  intros _ w4 (I4 & Hio4 & Hbrk4).
  eapply wp_post; [eapply wp_decrementReferenceCount; exact I4|].
  intros _ w5 (I5 & Hio5 & Hbrk5 & _).
  apply wp_bind. eapply wp_post; [eapply wp_decrementReferenceCount; exact I5|].
  intros _ w6 (I6 & Hio6 & Hbrk6 & _).
  eapply wp_post; [eapply wp_decrementReferenceCount; exact I6|].
  intros _ w7 (I7 & Hio7 & Hbrk7 & _).
  assert (Hsub : V ⊆ V') by (apply insert_subseteq; exact HVfresh).
  exists (st2 ++ [VInt (to_int (na ÷ nb))]), "", (els2 ++ [res]), V'.
  split; [reflexivity|]. split; [exact I7|]. split; [exact Hsub|].
  split.
  { apply vals_app; [eapply vals_mono; eauto|].
    constructor; [apply lookup_insert_eq | constructor]. }
  assert (same_io w2 w3) by apply same_io_alloc. io_solve.
Qed.

Lemma sim_print w sels V svs :
  inv w ((stack ctx, sels) :: R) [] V -> vals V sels svs ->
  wp (operationPrint ctx) w
     (fun _ w' => returns_with ctx R V w (sem_print svs) w')
     (fun e w' => exits_with ctx R V w (sem_print svs) e w').
Proof.
  intros I HV. unfold operationPrint, sem_print.
  destruct (unsnoc svs) as [[st1 v]|] eqn:E1.
  2:{ apply unsnoc_None in E1. subst svs. apply vals_nil_inv in HV. subst sels.
      apply wp_bind. eapply wp_stackPop_empty; [exact I|].
      eapply underflow_exits; eauto. }
  apply unsnoc_Some in E1. subst svs.
  apply vals_snoc_inv in HV as (els1 & x & -> & HV1 & Hx).
  apply wp_bind. eapply wp_post; [eapply wp_stackPop; exact I|].
  intros ? w1 (-> & I1 & Hio1 & Hbrk1).
  assert (Hx1 : x ∈ (refs ((stack ctx, els1) :: R) ++ [x])).
  { rewrite elem_of_app. right. left. }
  destruct (inv_alive _ _ _ _ _ _ I1 Hx1) as (o & v' & Ho & Hv & HVx & _).
  assert (v' = v) by congruence. subst v'.
  apply wp_bind. eapply wp_load; [exact Ho|].
  destruct (val_of_type _ _ Hv) as (Hti & Htb & Hts & Hty & Hd).
  rewrite Hti, Htb, Hts.
  assert (Hfin : forall w2, heap w2 = heap w1 -> brk w2 = brk w1 ->
            out w2 = (out w1 ++ printed v)%string -> err w2 = err w1 ->
            wp (decrementReferenceCount x) w2
              (fun _ w' => returns_with ctx R V w (Next st1 (printed v)) w')
              (fun e w' => exits_with ctx R V w (Next st1 (printed v)) e w')).
  { intros w2 Hh Hb Hout Herr.
    assert (I2 : inv w2 ((stack ctx, els1) :: R) [x] V).
    { eapply (inv_same_heap _ w1); eauto. }
    eapply wp_post; [eapply wp_decrementReferenceCount; exact I2|].
    intros _ w3 (I3 & Hio3 & Hbrk3 & _).
    exists st1, (printed v), els1, V. split; [reflexivity|]. split; [exact I3|].
    split; [reflexivity|]. split; [exact HV1|].
    destruct Hio1, Hio3. split; congruence. }
  apply wp_bind.
  destruct v as [n|n|s|s]; simpl.
  - unfold get_number. rewrite Hd. apply wp_bind. apply wp_ret. apply wp_print_out.
    apply Hfin; reflexivity.
  - unfold get_number. rewrite Hd. apply wp_bind. apply wp_ret. apply wp_print_out.
    apply Hfin; reflexivity.
  - destruct Hd as [len Hd]. unfold get_str. rewrite Hd.
    apply wp_bind. apply wp_ret. apply wp_print_out.
    apply Hfin; reflexivity.
  - apply wp_ret. apply Hfin; try reflexivity. simpl. now rewrite string_app_nil_r.
Qed.

Lemma sim_dup w sels V svs :
  inv w ((stack ctx, sels) :: R) [] V -> vals V sels svs ->
  wp (operationDup ctx) w
     (fun _ w' => returns_with ctx R V w (sem_dup svs) w')
     (fun e w' => exits_with ctx R V w (sem_dup svs) e w').
Proof.
  intros I HV. unfold operationDup, sem_dup.
  destruct (inv_root_head _ _ _ _ _ _ _ I) as (cap & Hl & _).
  apply wp_bind. eapply wp_load; [exact Hl|].
  apply wp_bind. apply wp_ret. simpl.
  destruct (unsnoc svs) as [[st1 v]|] eqn:E1.
  2:{ apply unsnoc_None in E1. subst svs. apply vals_nil_inv in HV. subst sels.
      simpl. apply wp_ret. exists [], "", [], V.
      split; [reflexivity|]. split; [exact I|]. split; [reflexivity|].
      split; [constructor|]. now rewrite string_app_nil_r. }
  apply unsnoc_Some in E1. subst svs.
  apply vals_snoc_inv in HV as (els1 & x & -> & HV1 & Hx).
  destruct (Nat.eqb_spec (length (els1 ++ [x])) 0) as [Hz|_].
  { rewrite length_app in Hz. simpl in Hz. lia. }
  apply wp_bind. eapply wp_post; [eapply wp_stackPop; exact I|].
  intros ? w1 (-> & I1 & Hio1 & Hbrk1).
  apply wp_bind. eapply wp_post.
  { eapply wp_stackPush; [exact I1|]. rewrite elem_of_app. right. left. }
  intros _ w2 (I2 & Hio2 & Hbrk2).
  apply wp_bind. eapply wp_post.
  { eapply wp_stackPush; [exact I2|]. rewrite elem_of_app. right. left. }
  intros _ w3 (I3 & Hio3 & Hbrk3).
  eapply wp_post; [eapply wp_decrementReferenceCount; exact I3|].
  intros _ w4 (I4 & Hio4 & Hbrk4 & _).
  exists (st1 ++ [v; v]), "", ((els1 ++ [x]) ++ [x]), V.
  split; [reflexivity|]. split; [exact I4|]. split; [reflexivity|].
  split; [|io_solve].
  rewrite <- app_assoc. apply vals_app; [exact HV1|].
  repeat constructor; assumption.
Qed.

Lemma sim_drop w sels V svs :
  inv w ((stack ctx, sels) :: R) [] V -> vals V sels svs ->
  wp (operationDrop ctx) w
     (fun _ w' => returns_with ctx R V w (sem_drop svs) w')
     (fun e w' => exits_with ctx R V w (sem_drop svs) e w').
Proof.
  intros I HV. unfold operationDrop, sem_drop.
  destruct (unsnoc svs) as [[st1 v]|] eqn:E1.
  2:{ apply unsnoc_None in E1. subst svs. apply vals_nil_inv in HV. subst sels.
      apply wp_bind. eapply wp_stackPop_empty; [exact I|].
      eapply underflow_exits; eauto. }
  apply unsnoc_Some in E1. subst svs.
  apply vals_snoc_inv in HV as (els1 & x & -> & HV1 & Hx).
  apply wp_bind. eapply wp_post; [eapply wp_stackPop; exact I|].
  intros ? w1 (-> & I1 & Hio1 & Hbrk1).
  eapply wp_post; [eapply wp_decrementReferenceCount; exact I1|].
  intros _ w2 (I2 & Hio2 & Hbrk2 & _).
  exists st1, "", els1, V.
  split; [reflexivity|]. split; [exact I2|]. split; [reflexivity|].
  split; [exact HV1|io_solve].
Qed.

Lemma sim_swap w sels V svs :
  inv w ((stack ctx, sels) :: R) [] V -> vals V sels svs ->
  wp (operationSwap ctx) w
     (fun _ w' => returns_with ctx R V w (sem_swap svs) w')
     (fun e w' => exits_with ctx R V w (sem_swap svs) e w').
Proof.
  intros I HV. unfold operationSwap, sem_swap.
  destruct (unsnoc svs) as [[st1 vb]|] eqn:E1.
  2:{ apply unsnoc_None in E1. subst svs. apply vals_nil_inv in HV. subst sels.
      apply wp_bind. eapply wp_stackPop_empty; [exact I|].
      eapply underflow_exits; eauto. }
  apply unsnoc_Some in E1. subst svs.
  apply vals_snoc_inv in HV as (els1 & b & -> & HV1 & Hb).
  apply wp_bind. eapply wp_post; [eapply wp_stackPop; exact I|].
  intros ? w1 (-> & I1 & Hio1 & Hbrk1).
  destruct (unsnoc st1) as [[st2 va]|] eqn:E2.
  2:{ apply unsnoc_None in E2. subst st1. apply vals_nil_inv in HV1. subst els1.
      apply wp_bind. eapply wp_stackPop_empty; [exact I1|].
      exists [], underflow_message, [], [b], V.
      split; [reflexivity|].
      split; [eapply (inv_same_heap _ w1); [reflexivity | reflexivity | exact I1]|].
      split; [reflexivity|]. split; [constructor|]. io_solve. }
  apply unsnoc_Some in E2. subst st1.
  apply vals_snoc_inv in HV1 as (els2 & a & -> & HV2 & Ha).
  apply wp_bind. eapply wp_post; [eapply wp_stackPop; exact I1|].
  intros ? w2 (-> & I2 & Hio2 & Hbrk2).
  apply wp_bind. eapply wp_post.
  { eapply wp_stackPush; [exact I2|]. rewrite elem_of_app. right. right. left. }
  intros _ w3 (I3 & Hio3 & Hbrk3).
  apply wp_bind. eapply wp_post.
  { eapply wp_stackPush; [exact I3|]. rewrite elem_of_app. right. left. }
  intros _ w4 (I4 & Hio4 & Hbrk4).
  apply wp_bind. eapply wp_post; [eapply wp_decrementReferenceCount; exact I4|].
  intros _ w5 (I5 & Hio5 & Hbrk5 & _).
  eapply wp_post; [eapply wp_decrementReferenceCount; exact I5|].
  intros _ w6 (I6 & Hio6 & Hbrk6 & _).
  exists (st2 ++ [vb; va]), "", ((els2 ++ [b]) ++ [a]), V.
  split; [reflexivity|]. split; [exact I6|]. split; [reflexivity|].
  split; [|io_solve].
  rewrite <- app_assoc. apply vals_app; [exact HV2|].
  repeat constructor; assumption.
Qed.

(** Where the division is undefined, [operationDiv] faults. *)
Lemma sim_div_undefined w sels V svs :
  inv w ((stack ctx, sels) :: R) [] V -> vals V sels svs ->
  sem_div svs = Undefined -> operationDiv ctx w = Fault.
Proof.
  intros I HV Hu. unfold sem_div in Hu.
  destruct (unsnoc svs) as [[st1 vb]|] eqn:E1; [|discriminate].
  destruct (unsnoc st1) as [[st2 va]|] eqn:E2; [|discriminate].
  destruct va as [na| | |]; try discriminate;
    destruct vb as [nb| | |]; try discriminate.
  destruct (nb =? 0) eqn:Hz; [discriminate|].
  destruct ((na =? INT_MIN) && (nb =? -1)) eqn:Hov; [|discriminate].
  apply unsnoc_Some in E1. subst svs. apply unsnoc_Some in E2. subst st1.
  apply vals_snoc_inv in HV as (els1 & b & -> & HV1 & Hb).
  apply vals_snoc_inv in HV1 as (els2 & a & -> & HV2 & Ha).
  unfold operationDiv.
  eapply bind_faults; [eapply wp_stackPop; exact I|].
  intros ? w1 (-> & I1 & _).
  eapply bind_faults; [eapply wp_stackPop; exact I1|].
  intros ? w2 (-> & I2 & _).
  assert (Ha2 : a ∈ (refs ((stack ctx, els2) :: R) ++ [a; b])).
  { rewrite elem_of_app. right. left. }
  assert (Hb2 : b ∈ (refs ((stack ctx, els2) :: R) ++ [a; b])).
  { rewrite elem_of_app. right. right. left. }
  destruct (inv_alive _ _ _ _ _ _ I2 Ha2) as (oa & va' & Hoa & Hva & HVa & _).
  destruct (inv_alive _ _ _ _ _ _ I2 Hb2) as (ob & vb' & Hob & Hvb & HVb & _).
  assert (va' = VInt na) by congruence. assert (vb' = VInt nb) by congruence.
  subst va' vb'.
  destruct (val_of_type _ _ Hva) as (Hta & _ & _ & _ & Hda).
  destruct (val_of_type _ _ Hvb) as (Htb & _ & _ & _ & Hdb).
  unfold bind at 1. unfold load at 1. rewrite Hoa.
  unfold bind at 1. unfold load at 1. rewrite Hob.
  unfold both_int. rewrite Hta, Htb. simpl. unfold get_number. rewrite Hda, Hdb.
  unfold bind, ret. rewrite Hz, Hov. reflexivity.
Qed.

(** Every primitive acts on the heap as it does on the values; it
    faults exactly where its behaviour is undefined. *)
Theorem sim_prim p w sels V svs :
  inv w ((stack ctx, sels) :: R) [] V -> vals V sels svs ->
  wpx (denote p ctx) w
      (fun _ w' => returns_with ctx R V w (sem_prim p svs) w')
      (fun e w' => exits_with ctx R V w (sem_prim p svs) e w')
      (sem_prim p svs = Undefined).
Proof.
  intros I HV. destruct p; simpl.
  - apply wp_wpx. exact (sim_arith Z.add w sels V svs I HV).
  - apply wp_wpx. exact (sim_arith Z.sub w sels V svs I HV).
  - apply wp_wpx. exact (sim_arith Z.mul w sels V svs I HV).
  - destruct (sem_div svs) as [st o|f st e|] eqn:Hs.
    + apply wp_wpx. rewrite <- Hs. apply (sim_div w sels V svs I HV). congruence.
    + apply wp_wpx. rewrite <- Hs. apply (sim_div w sels V svs I HV). congruence.
    + unfold wpx. rewrite (sim_div_undefined w sels V svs I HV Hs). reflexivity.
  - apply wp_wpx. exact (sim_print w sels V svs I HV).
  - apply wp_wpx. exact (sim_dup w sels V svs I HV).
  - apply wp_wpx. exact (sim_drop w sels V svs I HV).
  - apply wp_wpx. exact (sim_swap w sels V svs I HV).
Qed.

End Primitives.

(* ================================================================== *)
(** * The engine runs a program as on the values *)
(* ================================================================== *)

Lemma lookupOperation_prim s : lookupOperation s = option_map denote (lookup_prim s).
Proof.
  unfold lookupOperation, lookup_prim, operations, prim_table. simpl.
  repeat match goal with |- context [if ?c then _ else _] => destruct c end; reflexivity.
Qed.

Lemma string_app_assoc (a b c : string) : ((a ++ b) ++ c)%string = (a ++ (b ++ c))%string.
Proof.
  induction a as [|x a IH]; [reflexivity|].
  change (String x ((a ++ b) ++ c)%string = String x (a ++ (b ++ c))%string).
  now rewrite IH.
Qed.

Section Engine.

Variables (ctx : tfcontext) (R : roots).

Lemma sim_execute_object w sels V svs x v :
  inv w ((stack ctx, sels) :: R) [] V -> vals V sels svs ->
  x ∈ refs R -> V !! x = Some v ->
  wpx (execute_object ctx x) w
      (fun _ w' => returns_with ctx R V w (sem_object v svs) w')
      (fun e w' => exits_with ctx R V w (sem_object v svs) e w')
      (sem_object v svs = Undefined).
Proof.
  intros I HV Hx HVx.
  assert (Hx' : x ∈ (refs ((stack ctx, sels) :: R) ++ [])).
  { rewrite refs_cons, !elem_of_app. left. right. exact Hx. }
  destruct (inv_alive _ _ _ _ _ _ I Hx') as (o & v' & Ho & Hv & HVx' & _).
  assert (v' = v) by congruence. subst v'.
  destruct (val_of_type _ _ Hv) as (Hti & Htb & Hts & Hty & Hd).
  unfold execute_object, is_literal_type.
  apply wpx_bind. eapply wpx_load; [exact Ho|]. rewrite Hti, Htb, Hty.
  assert (Hpush : v = v ->
    wp (stackPush ctx x) w
      (fun _ w' => returns_with ctx R V w (Next (svs ++ [v]) "") w')
      (fun e w' => exits_with ctx R V w (Next (svs ++ [v]) "") e w')).
  { intros _. eapply wp_post; [eapply wp_stackPush; [exact I | exact Hx']|].
    intros _ w1 (I1 & Hio1 & Hbrk1).
    exists (svs ++ [v]), "", (sels ++ [x]), V.
    split; [reflexivity|]. split; [exact I1|]. split; [reflexivity|].
    split; [|io_solve]. apply vals_app; [exact HV|]. repeat constructor. exact HVx. }
  destruct v as [n|n|s|s]; simpl.
  - apply wp_wpx. apply Hpush; reflexivity.
  - apply wp_wpx. apply Hpush; reflexivity.
  - apply wp_wpx. apply wp_bind. apply wp_print_err. apply wp_exit.
    exists svs, unexecutable_message, sels, [], V.
    split; [reflexivity|].
    split; [eapply (inv_same_heap _ w); [reflexivity | reflexivity | exact I]|].
    split; [reflexivity|]. split; [exact HV|]. split; reflexivity.
  - destruct Hd as [len Hd]. unfold get_str. rewrite Hd.
    apply wpx_bind. apply wpx_ret. rewrite lookupOperation_prim.
    destruct (lookup_prim s) as [p|]; simpl.
    + eapply sim_prim; eassumption.
    + apply wp_wpx. apply wp_bind. apply wp_print_err. apply wp_exit.
      exists svs, (unknown_word_message s), sels, [], V.
      split; [reflexivity|].
      split; [eapply (inv_same_heap _ w); [reflexivity | reflexivity | exact I]|].
      split; [reflexivity|]. split; [exact HV|]. split; reflexivity.
Qed.

Lemma sim_execute_loop pl todo : forall done fuel w sels V tvs svs,
  inv w ((stack ctx, sels) :: R) [] V -> (pl, done ++ todo) ∈ R ->
  vals V todo tvs -> vals V sels svs -> (length todo <= fuel)%nat ->
  wpx (execute_loop fuel pl ctx (length done)) w
      (fun _ w' => run_returns ctx R V w (sem_program tvs svs) w')
      (fun e w' => run_exits ctx R V w (sem_program tvs svs) e w')
      (sem_program tvs svs = Crashed).
Proof.
  induction todo as [|x todo IH]; intros done fuel w sels V tvs svs I Hpl HVt HVs Hfuel.
  - inversion HVt; subst tvs.
    assert (Hpl' : (pl, done ++ []) ∈ (stack ctx, sels) :: R) by (right; exact Hpl).
    destruct (inv_root _ _ _ _ _ I _ _ Hpl') as (cap & Hl & _).
    destruct fuel; simpl.
    + apply wp_wpx.
      apply wp_bind. eapply wp_load; [exact Hl|]. apply wp_bind. apply wp_ret. simpl.
      rewrite app_nil_r, Nat.ltb_irrefl. apply wp_ret.
      exists svs, "", sels, V. split; [reflexivity|]. split; [exact I|].
      split; [reflexivity|]. split; [exact HVs|]. now rewrite string_app_nil_r.
    + apply wp_wpx.
      apply wp_bind. eapply wp_load; [exact Hl|]. apply wp_bind. apply wp_ret. simpl.
      rewrite app_nil_r, Nat.ltb_irrefl. apply wp_ret.
      exists svs, "", sels, V. split; [reflexivity|]. split; [exact I|].
      split; [reflexivity|]. split; [exact HVs|]. now rewrite string_app_nil_r.
  - inversion HVt as [|? v ? tvs' HVx HVt']; subst.
    assert (Hpl' : (pl, done ++ x :: todo) ∈ (stack ctx, sels) :: R) by (right; exact Hpl).
    destruct (inv_root _ _ _ _ _ I _ _ Hpl') as (cap & Hl & _).
    destruct fuel as [|fuel]; [simpl in Hfuel; lia|].
    simpl. apply wpx_bind. eapply wpx_load; [exact Hl|]. apply wpx_bind. apply wpx_ret. simpl.
    destruct (Nat.ltb_spec (length done) (length (done ++ x :: todo))) as [_|Hge].
    2:{ rewrite length_app in Hge. simpl in Hge. lia. }
    rewrite lookup_app_r by lia. rewrite Nat.sub_diag. simpl.
    apply wpx_bind.
    assert (Hx : x ∈ refs R).
    { eapply refs_elem; [exact Hpl|]. rewrite elem_of_app. right. left. }
    eapply wpx_mono; [eapply sim_execute_object; eauto | | |].
    3:{ intros ->. reflexivity. }
    + intros _ w1 (svs1 & o1 & sels1 & V1 & Hsem & I1 & Hsub1 & HV1 & Hout1 & Herr1).
      rewrite Hsem.
      replace (S (length done)) with (length (done ++ [x])) by (rewrite length_app; simpl; lia).
      eapply wpx_mono.
      * eapply (IH (done ++ [x]) fuel w1 sels1 V1 tvs' svs1); eauto.
        -- rewrite <- app_assoc. exact Hpl.
        -- eapply vals_mono; eauto.
        -- simpl in Hfuel. lia.
      * intros _ w2 (svs2 & o2 & sels2 & V2 & Hsem2 & I2 & Hsub2 & HV2 & Hout2 & Herr2).
        rewrite Hsem2. exists svs2, (o1 ++ o2)%string, sels2, V2.
        split; [reflexivity|]. split; [exact I2|].
        split; [etrans; eauto|]. split; [exact HV2|].
        rewrite Hout2, Hout1, string_app_assoc. split; congruence.
      * intros f w2 (svs2 & o2 & e2 & sels2 & ext2 & V2 & Hsem2 & I2 & Hsub2 & HV2 & Hout2 & Herr2).
        rewrite Hsem2. exists svs2, (o1 ++ o2)%string, e2, sels2, ext2, V2.
        split; [reflexivity|]. split; [exact I2|].
        split; [etrans; eauto|]. split; [exact HV2|].
        rewrite Hout2, Hout1, string_app_assoc. split; congruence.
      * intros ->. reflexivity.
    + intros f w1 (svs1 & e1 & sels1 & ext1 & V1 & Hsem & I1 & Hsub1 & HV1 & Hout1 & Herr1).
      rewrite Hsem. exists svs1, "", e1, sels1, ext1, V1.
      split; [reflexivity|]. split; [exact I1|]. split; [exact Hsub1|].
      split; [exact HV1|]. rewrite string_app_nil_r. split; assumption.
Qed.

(** The engine runs a program as [sem_program] does. *)
Theorem sim_execute pl pels w sels V pvs svs :
  inv w ((stack ctx, sels) :: R) [] V -> (pl, pels) ∈ R ->
  vals V pels pvs -> vals V sels svs ->
  wpx (execute pl (Some ctx)) w
      (fun _ w' => run_returns ctx R V w (sem_program pvs svs) w')
      (fun e w' => run_exits ctx R V w (sem_program pvs svs) e w')
      (sem_program pvs svs = Crashed).
Proof.
  intros I Hpl HVp HVs.
  assert (Hpl' : (pl, pels) ∈ (stack ctx, sels) :: R) by (right; exact Hpl).
  destruct (inv_root _ _ _ _ _ I _ _ Hpl') as (cap & Hl & _).
  pose proof (inv_dom _ _ _ _ _ I _ _ Hl) as Hpos.
  unfold execute. destruct (Nat.eqb_spec pl NULL) as [->|_]; [unfold NULL in Hpos; lia|].
  apply wpx_bind. eapply wpx_load; [exact Hl|]. apply wpx_bind. apply wpx_ret. simpl.
  apply (sim_execute_loop pl pels [] (length pels) w sels V pvs svs); auto.
Qed.

End Engine.

(* ================================================================== *)
(** * The compiler builds the objects of the tokens *)
(* ================================================================== *)

Lemma sim_compile_loop `{HostABI} fuel : forall parser sc w pl pels R V pvs,
  tokens_from fuel parser = Some sc ->
  inv w ((pl, pels) :: R) [] V -> vals V pels pvs ->
  wp (compile_loop fuel pl parser) w
     (fun r w' => compiled pl R V pvs w sc r w') (fun _ _ => False).
Proof.
  induction fuel as [|fuel IH]; intros parser sc w pl pels R V pvs Htok I HV.
  - simpl in *. destruct (is_nul (parserPeek parser)); [|discriminate].
    injection Htok as <-. apply wp_ret. split; [reflexivity|].
    exists pels, V. rewrite app_nil_r. simpl.
    split; [exact I|]. split; [reflexivity|]. split; [exact HV|].
    split; [apply same_io_refl | lia].
  - cbn [tokens_from compile_loop] in *.
    destruct (is_nul (parserPeek parser)).
    { injection Htok as <-. apply wp_ret. split; [reflexivity|].
      exists pels, V. rewrite app_nil_r. simpl.
      split; [exact I|]. split; [reflexivity|]. split; [exact HV|].
      split; [apply same_io_refl | lia]. }
    destruct (parserSkipWhiteSpace parser) as [p1|]; [|discriminate].
    apply wp_bind. apply wp_ret.
    destruct (is_nul (parserPeek p1)).
    { injection Htok as <-. apply wp_ret. split; [reflexivity|].
      exists pels, V. rewrite app_nil_r. simpl.
      split; [exact I|]. split; [reflexivity|]. split; [exact HV|].
      split; [apply same_io_refl | lia]. }
    fold (is_number_start p1). apply wp_bind.
    pose proof (inv_brk _ _ _ _ _ I) as Hbrk.
    destruct (is_number_start p1).
    + (* a number *)
      unfold parseNumber.
      destruct (parseNumber_loop _ _ p1) as [p2|]; [|discriminate].
      apply wp_bind. apply wp_ret.
      apply wp_bind. unfold wp at 1. rewrite createIntegerObject_alloc.
      set (n := to_int (fst (strtol (program p1)))) in *.
      destruct (inv_alloc_scalar w _ _ V (mk_tfobj TF_OBJ_INT 1 (number n)) (VInt n)
                  I eq_refl eq_refl) as [I1 HVfresh].
      set (x := brk w) in *. set (w1 := alloc _ w) in *.
      set (V1 := <[x := VInt n]> V) in *.
      assert (Hsub : V ⊆ V1) by (apply insert_subseteq; exact HVfresh).
      apply wp_ret. simpl.
      destruct (Nat.eqb_spec x NULL) as [Hx|_]; [unfold NULL in Hx; lia|].
      apply wp_bind. eapply wp_post.
      { eapply wp_listAppendObject; [exact I1|]. rewrite elem_of_app. right. left. }
      intros _ w2 (I2 & Hio2 & Hbrk2).
      apply wp_bind. eapply wp_post; [eapply wp_decrementReferenceCount; exact I2|].
      intros _ w3 (I3 & Hio3 & Hbrk3 & _).
      destruct (tokens_from fuel p2) as [[toks e]|] eqn:Hrest; [|discriminate].
      simpl in Htok. injection Htok as <-.
      assert (HV3 : vals V1 (pels ++ [x]) (pvs ++ [VInt n])).
      { apply vals_app; [eapply vals_mono; eauto|].
        repeat constructor. apply lookup_insert_eq. }
      eapply wp_post; [eapply (IH p2 _ w3 pl _ R V1 _ Hrest I3 HV3)|].
      intros r w4 Hc. assert (same_io w w1) by apply same_io_alloc.
      destruct e as [[l c]|]; simpl in *.
      * destruct Hc as (-> & V4 & I4 & Hsub4 & Ho4 & He4).
        split; [reflexivity|]. exists V4. split; [exact I4|].
        split; [etrans; eauto|]. io_solve.
      * destruct Hc as (-> & pels4 & V4 & I4 & Hsub4 & HV4 & Hio4 & Hbrk4).
        split; [reflexivity|]. exists pels4, V4. split; [exact I4|].
        split; [etrans; eauto|]. rewrite <- app_assoc in HV4. split; [exact HV4|].
        split; [io_solve|]. rewrite Hbrk4, Hbrk3, Hbrk2. unfold w1, x. simpl. lia.
    + (* a word *)
      unfold parseSymbol.
      destruct (parseSymbol_loop _ p1) as [p2|]; [|discriminate].
      apply wp_bind. apply wp_ret.
      apply wp_bind. unfold wp at 1.
      rewrite createSymbolObject_alloc by lia.
      fold (symbol_text (program p1) p2). set (s := symbol_text (program p1) p2) in *.
      set (o := mk_tfobj TF_OBJ_SYMBOL 1 _).
      destruct (inv_alloc_scalar w _ _ V o (VSym s) I eq_refl eq_refl) as [I1 HVfresh].
      set (x := brk w) in *. set (w1 := alloc o w) in *.
      set (V1 := <[x := VSym s]> V) in *.
      assert (Hsub : V ⊆ V1) by (apply insert_subseteq; exact HVfresh).
      assert (same_io w w1) by apply same_io_alloc.
      apply wp_bind. eapply wp_load; [simpl; apply lookup_insert_eq|].
      apply wp_bind. apply wp_ret.
      rewrite lookupOperation_prim.
      destruct (lookup_prim s) as [p|]; simpl.
      * apply wp_ret. simpl.
        destruct (Nat.eqb_spec x NULL) as [Hx|_]; [unfold NULL in Hx; lia|].
        apply wp_bind. eapply wp_post.
        { eapply wp_listAppendObject; [exact I1|]. rewrite elem_of_app. right. left. }
        intros _ w2 (I2 & Hio2 & Hbrk2).
        apply wp_bind. eapply wp_post; [eapply wp_decrementReferenceCount; exact I2|].
        intros _ w3 (I3 & Hio3 & Hbrk3 & _).
        destruct (tokens_from fuel p2) as [[toks e]|] eqn:Hrest; [|discriminate].
        simpl in Htok. injection Htok as <-.
        assert (HV3 : vals V1 (pels ++ [x]) (pvs ++ [VSym s])).
        { apply vals_app; [eapply vals_mono; eauto|].
          repeat constructor. apply lookup_insert_eq. }
        eapply wp_post; [eapply (IH p2 _ w3 pl _ R V1 _ Hrest I3 HV3)|].
        intros r w4 Hc.
        destruct e as [[l c]|]; simpl in *.
        -- destruct Hc as (-> & V4 & I4 & Hsub4 & Ho4 & He4).
           split; [reflexivity|]. exists V4. split; [exact I4|].
           split; [etrans; eauto|]. io_solve.
        -- destruct Hc as (-> & pels4 & V4 & I4 & Hsub4 & HV4 & Hio4 & Hbrk4).
           split; [reflexivity|]. exists pels4, V4. split; [exact I4|].
           split; [etrans; eauto|]. rewrite <- app_assoc in HV4. split; [exact HV4|].
           split; [io_solve|]. rewrite Hbrk4, Hbrk3, Hbrk2. unfold w1, x. simpl. lia.
      * injection Htok as <-.
        apply wp_bind. eapply wp_post; [eapply wp_decrementReferenceCount; exact I1|].
        intros _ w2 (I2 & Hio2 & Hbrk2 & _).
        apply wp_ret. simpl.
        apply wp_bind. apply wp_print_err.
        assert (I3 : inv (add_err (syntax_error_message (line p1) (column p1)) w2)
                         ((pl, pels) :: R) [] V1).
        { eapply (inv_same_heap _ w2); [reflexivity | reflexivity | exact I2]. }
        apply wp_bind. eapply wp_post; [eapply wp_decrement_root; exact I3|].
        intros _ w4 (I4 & Hio4 & Hbrk4).
        apply wp_ret. split; [reflexivity|]. exists V1. split; [exact I4|].
        split; [exact Hsub|]. io_solve.
Qed.

(* ================================================================== *)
(** * The scanning loops *)
(* ================================================================== *)

Lemma at_pos_eta p : p = at_pos (program p) (line p, column p).
Proof. now destruct p. Qed.

Lemma string_app_cons c (s t : string) : (String c s ++ t)%string = String c (s ++ t)%string.
Proof. reflexivity. Qed.

Lemma string_length_app (s t : string) :
  String.length (s ++ t)%string = (String.length s + String.length t)%nat.
Proof.
  induction s as [|c s IH]; [reflexivity|].
  rewrite string_app_cons. simpl. now rewrite IH.
Qed.

Lemma take_drop_while f s : (take_while f s ++ drop_while f s)%string = s.
Proof.
  induction s as [|c s IH]; [reflexivity|]. simpl.
  destruct (f c); [|reflexivity]. rewrite string_app_cons. now rewrite IH.
Qed.

Lemma drop_while_length f s : (String.length (drop_while f s) <= String.length s)%nat.
Proof.
  induction s as [|c s IH]; [simpl; lia|]. simpl. destruct (f c); simpl; lia.
Qed.

Lemma take_while_forall f s : string_forall f (take_while f s) = true.
Proof.
  induction s as [|c s IH]; [reflexivity|]. simpl.
  destruct (f c) eqn:E; [|reflexivity]. simpl. now rewrite E.
Qed.

Lemma advance_at c t lc :
  is_nul c = false -> parserAdvance (at_pos (String c t) lc) = at_pos t (next_pos c lc).
Proof.
  intros Hc. unfold parserAdvance, parserPeek, at_pos, next_pos. simpl. rewrite Hc.
  destruct (N_of_ascii c =? 10)%N; reflexivity.
Qed.

Lemma skip_spec s : forall fuel lc,
  (String.length s <= fuel)%nat ->
  parserSkipWhiteSpace_fuel fuel (at_pos s lc)
  = Some (at_pos (drop_while is_blank s) (position_after (take_while is_blank s) lc)).
Proof.
  induction s as [|c s IH]; intros fuel lc Hf.
  - destruct fuel; reflexivity.
  - destruct fuel as [|fuel]; [simpl in Hf; lia|].
    cbn [parserSkipWhiteSpace_fuel].
    change (parserPeek (at_pos (String c s) lc)) with c.
    fold (is_blank c). simpl. destruct (is_blank c) eqn:E; [|reflexivity].
    rewrite advance_at.
    + apply IH. simpl in Hf. lia.
    + unfold is_blank in E. destruct (is_nul c); [discriminate | reflexivity].
Qed.

Lemma parserSkipWhiteSpace_spec p :
  parserSkipWhiteSpace p
  = Some (at_pos (drop_while is_blank (program p))
                 (position_after (take_while is_blank (program p)) (line p, column p))).
Proof.
  unfold parserSkipWhiteSpace. rewrite (at_pos_eta p) at 2. now apply skip_spec.
Qed.

Lemma word_spec s : forall fuel lc,
  (String.length s <= fuel)%nat ->
  parseSymbol_loop fuel (at_pos s lc)
  = Some (at_pos (drop_while is_word_char s) (position_after (take_while is_word_char s) lc)).
Proof.
  induction s as [|c s IH]; intros fuel lc Hf.
  - destruct fuel; reflexivity.
  - destruct fuel as [|fuel]; [simpl in Hf; lia|].
    cbn [parseSymbol_loop].
    change (parserPeek (at_pos (String c s) lc)) with c.
    fold (is_word_char c). simpl. destruct (is_word_char c) eqn:E; [|reflexivity].
    rewrite advance_at.
    + apply IH. simpl in Hf. lia.
    + unfold is_word_char in E. destruct (is_nul c); [|reflexivity].
      now rewrite andb_false_r in E.
Qed.

Lemma parseSymbol_loop_spec p :
  parseSymbol_loop (String.length (program p)) p
  = Some (at_pos (drop_while is_word_char (program p))
                 (position_after (take_while is_word_char (program p)) (line p, column p))).
Proof. rewrite (at_pos_eta p) at 2. now apply word_spec. Qed.

Lemma number_spec pre : forall e fuel lc,
  string_forall not_nul pre = true ->
  (String.length pre <= fuel)%nat ->
  parseNumber_loop fuel e (at_pos (pre ++ e) lc) = Some (at_pos e (position_after pre lc)).
Proof.
  induction pre as [|c pre IH]; intros e fuel lc Hnn Hf.
  - simpl. destruct fuel; simpl; rewrite Nat.ltb_irrefl; reflexivity.
  - destruct fuel as [|fuel]; [simpl in Hf; lia|].
    simpl in Hnn. apply andb_prop in Hnn as [Hc Hnn].
    cbn [parseNumber_loop]. rewrite string_app_cons.
    change (program (at_pos (String c (pre ++ e)) lc)) with (String c (pre ++ e)).
    destruct (Nat.ltb_spec (String.length e) (String.length (String c (pre ++ e)))) as [_|Hge].
    2:{ simpl in Hge. rewrite string_length_app in Hge. lia. }
    rewrite advance_at.
    + apply IH; [exact Hnn | simpl in Hf; lia].
    + unfold not_nul in Hc. now destruct (is_nul c).
Qed.

(** ** [strtol] at the head of a number *)

Lemma strtol_digits_snd s : forall acc, snd (strtol_digits acc s) = drop_while isdigit s.
Proof.
  induction s as [|c s IH]; intros acc; [reflexivity|]. simpl.
  destruct (isdigit c); [apply IH | reflexivity].
Qed.

Lemma strtol_digits_pair acc s :
  strtol_digits acc s = (fst (strtol_digits acc s), drop_while isdigit s).
Proof. rewrite <- (strtol_digits_snd s acc). now destruct (strtol_digits acc s). Qed.

Lemma isdigit_facts c :
  isdigit c = true ->
  isspace c = false /\ is_nul c = false /\ (N_of_ascii c =? 45)%N = false
  /\ (N_of_ascii c =? 10)%N = false /\ c <> "-"%char /\ c <> "+"%char.
Proof.
  destruct c as [[] [] [] [] [] [] [] []]; simpl; intros H; try discriminate H;
    repeat split; try reflexivity; discriminate.
Qed.

Lemma minus_facts c :
  (N_of_ascii c =? 45)%N = true ->
  c = "-"%char.
Proof.
  destruct c as [[] [] [] [] [] [] [] []]; simpl; intros H; try discriminate H; reflexivity.
Qed.

Lemma strtol_digit `{HostABI} c t :
  isdigit c = true ->
  strtol (String c t)
  = (clamp_long (fst (strtol_digits 0 (String c t))), drop_while isdigit (String c t)).
Proof.
  intros Hd. destruct (isdigit_facts c Hd) as (Hs & _ & _ & _ & Hm & Hp).
  unfold strtol. cbn [strtol_skip]. rewrite Hs.
  assert (Hbody : match String c t with
                  | String "-" t0 => (true, t0)
                  | String "+" t0 => (false, t0)
                  | _ => (false, String c t)
                  end = (false, String c t)).
  { destruct c as [[] [] [] [] [] [] [] []]; try reflexivity; congruence. }
  rewrite Hbody. cbn [starts_with_digit]. rewrite Hd.
  rewrite (strtol_digits_pair 0 (String c t)). reflexivity.
Qed.

Lemma strtol_minus `{HostABI} t :
  starts_with_digit t = true ->
  strtol (String "-" t)
  = (clamp_long (- fst (strtol_digits 0 t)), drop_while isdigit t).
Proof.
  intros Hd. unfold strtol. cbn [strtol_skip].
  change (isspace "-") with false. cbv iota.
  rewrite Hd. rewrite (strtol_digits_pair 0 t). reflexivity.
Qed.

Lemma starts_with_digit_second c t :
  isdigit (second_char (String c t)) = true -> starts_with_digit t = true.
Proof. destruct t as [|c' t]; simpl; auto. Qed.

Lemma digits_not_nul s : string_forall not_nul (take_while isdigit s) = true.
Proof.
  induction s as [|c s IH]; [reflexivity|]. simpl.
  destruct (isdigit c) eqn:E; [|reflexivity]. simpl. rewrite IH.
  destruct (isdigit_facts c E) as (_ & Hn & _). unfold not_nul. now rewrite Hn.
Qed.

Lemma strtol_number_start `{HostABI} s lc :
  is_number_start (at_pos s lc) = true ->
  strtol s = (clamp_long (number_value s), number_rest s)
  /\ s = (number_text s ++ number_rest s)%string
  /\ (0 < String.length (number_text s))%nat
  /\ string_forall not_nul (number_text s) = true.
Proof.
  unfold is_number_start, parserPeek. simpl.
  destruct s as [|c t]; [simpl; discriminate|].
  intros Hstart. unfold number_text, number_rest, number_value.
  destruct (N_of_ascii c =? 45)%N eqn:Hm.
  - pose proof (minus_facts c Hm) as Hc. subst c. simpl in Hstart.
    apply (starts_with_digit_second "-"%char) in Hstart.
    split; [now apply strtol_minus|]. split; [|split].
    + rewrite string_app_cons. now rewrite take_drop_while.
    + simpl. lia.
    + simpl. apply digits_not_nul.
  - rewrite andb_false_l, orb_false_r in Hstart.
    split; [now apply strtol_digit|]. split; [|split].
    + now rewrite take_drop_while.
    + simpl. rewrite Hstart. simpl. lia.
    + apply digits_not_nul.
Qed.

Lemma parseNumber_loop_spec `{HostABI} p :
  is_number_start p = true ->
  parseNumber_loop (String.length (program p)) (snd (strtol (program p))) p
  = Some (at_pos (number_rest (program p))
                 (position_after (number_text (program p)) (line p, column p)))
  /\ fst (strtol (program p)) = clamp_long (number_value (program p))
  /\ (String.length (number_rest (program p)) < String.length (program p))%nat.
Proof.
  destruct p as [s l c]. change (mk_tfparser s l c) with (at_pos s (l, c)).
  cbn [program line column at_pos fst snd].
  intros Hstart.
  destruct (strtol_number_start _ _ Hstart) as (Hst & Hsplit & Hlen & Hnn).
  rewrite Hst. cbn [fst snd]. split; [|split; [reflexivity|]].
  - pose proof (number_spec (number_text s) (number_rest s) (String.length s) (l, c) Hnn) as Hsp.
    rewrite <- Hsplit in Hsp. apply Hsp.
    rewrite Hsplit at 2. rewrite string_length_app. lia.
  - rewrite Hsplit at 2. rewrite string_length_app. lia.
Qed.

(** ** Scanning always terminates *)

Lemma drop_while_blank_head s :
  is_nul (parserPeek (at_pos (drop_while is_blank s) (1, 1))) = false ->
  exists c t, drop_while is_blank s = String c t /\ is_word_char c = true.
Proof.
  induction s as [|c s IH]; simpl.
  - intros H. discriminate H.
  - destruct (is_blank c) eqn:E; [exact IH|].
    unfold parserPeek. simpl. intros Hn. exists c, s. split; [reflexivity|].
    unfold is_blank in E. unfold is_word_char. rewrite Hn in *. simpl in *.
    now rewrite E.
Qed.

Lemma tokens_from_total `{HostABI} fuel : forall p,
  (String.length (program p) <= fuel)%nat -> exists sc, tokens_from fuel p = Some sc.
Proof.
  induction fuel as [|fuel IH]; intros p Hf.
  - destruct p as [s l c]. simpl in Hf. destruct s; [|simpl in Hf; lia].
    simpl. eauto.
  - cbn [tokens_from].
    destruct (is_nul (parserPeek p)); [eauto|].
    rewrite parserSkipWhiteSpace_spec.
    set (s1 := drop_while is_blank (program p)).
    set (lc1 := position_after _ _).
    destruct (is_nul (parserPeek (at_pos s1 lc1))) eqn:Hn; [eauto|].
    assert (Hlen1 : (String.length s1 <= String.length (program p))%nat)
      by apply drop_while_length.
    destruct (is_number_start (at_pos s1 lc1)) eqn:Hns.
    + destruct (parseNumber_loop_spec _ Hns) as (Hloop & _ & Hlt).
      cbn [program at_pos] in *. rewrite Hloop.
      destruct (IH (at_pos (number_rest s1) (position_after (number_text s1) (lc1.1, lc1.2))))
        as [[toks e] Hsc]; [simpl; lia|].
      simpl in Hsc. cbn [line column at_pos]. rewrite Hsc. simpl. eauto.
    + rewrite parseSymbol_loop_spec. cbn [program at_pos line column].
      destruct (lookup_prim _); [|eauto].
      destruct (drop_while_blank_head (program p)) as (c & t & Hs1 & Hc); [exact Hn|].
      fold s1 in Hs1.
      assert (Hlt : (String.length (drop_while is_word_char s1) < String.length s1)%nat).
      { rewrite Hs1. simpl. rewrite Hc. pose proof (drop_while_length is_word_char t).
        simpl. lia. }
      match goal with |- context [tokens_from fuel ?q] =>
        destruct (IH q) as [[toks e] Hsc]; [simpl; lia|]; rewrite Hsc end.
      simpl. eauto.
Qed.

Theorem tokens_total `{HostABI} text : exists sc, tokens text = Some sc.
Proof. apply tokens_from_total. simpl. lia. Qed.

(* ================================================================== *)
(** * The compiler and the driver, end to end *)
(* ================================================================== *)

Lemma inv_initial : inv initial_world [] [] ∅.
Proof.
  constructor; simpl.
  - lia.
  - intros a o Ha. rewrite lookup_empty in Ha. discriminate.
  - intros a v Ha. rewrite lookup_empty in Ha. discriminate.
  - constructor.
  - intros r els Hin. inversion Hin.
  - intros a o Ha. rewrite lookup_empty in Ha. discriminate.
  - intros a Ha. inversion Ha.
Qed.

(** Without roots and local references the heap is empty: nothing has
    leaked. *)
Lemma inv_no_roots_empty w V : inv w [] [] V -> heap w = ∅.
Proof.
  intros I. apply map_empty. intros a.
  destruct (heap w !! a) as [o|] eqn:Ha; [|reflexivity].
  destruct (inv_obj _ _ _ _ _ I a o Ha) as (_ & _ & Hc & Hpos);
    [apply not_elem_of_nil | apply not_elem_of_nil |].
  simpl in Hc. lia.
Qed.

Theorem compile_sound `{HostABI} text sc w R V :
  tokens text = Some sc -> inv w R [] V ->
  wp (compile text) w (fun r w' => compile_post R V w sc r w') (fun _ _ => False).
Proof.
  intros Htok I. unfold compile.
  apply wp_bind. unfold wp at 1. rewrite createListObject_alloc.
  assert (I1 := inv_alloc_root w R [] V INITIAL_STACK_CAPACITY I eq_refl).
  eapply wp_post; [eapply (sim_compile_loop _ _ sc _ (brk w) [] R V []); eauto; constructor|].
  intros r w' Hc. destruct sc as [toks [[l c]|]]; simpl in *.
  - destruct Hc as (-> & V' & I' & Hsub & Ho & He). split; [reflexivity|].
    exists V'. auto.
  - destruct Hc as (-> & pels' & V' & I' & Hsub & HV' & Hio & Hbrk). split; [reflexivity|].
    exists pels', V'. split; [exact I'|]. split; [exact Hsub|]. split; [exact HV'|].
    split; [io_solve | lia].
Qed.

Theorem compile_and_execute_sound `{HostABI} text toks w V0 :
  tokens text = Some (toks, None) -> inv w [] [] V0 ->
  wpx (compile_and_execute text) w
      (fun r w' => r = (brk w, {| stack := (brk w + 1 + length toks)%nat |})
                   /\ exists st o, sem_program toks [] = Finished st o
                                   /\ ran toks w st o "" [] w')
      (fun f w' => exists st o e ext, sem_program toks [] = Aborted f st o e
                                     /\ ran toks w st o e ext w')
      (sem_program toks [] = Crashed).
Proof.
  intros Htok I. unfold compile_and_execute.
  apply wpx_bind. eapply wpx_step; [eapply compile_sound; eauto|].
  intros pl w1 (-> & pels & V1 & I1 & Hsub1 & HV1 & Hio1 & Hbrk1).
  apply wpx_bind. unfold createContext. apply wpx_bind.
  unfold wpx at 1. rewrite createListObject_alloc.
  assert (I2 := inv_alloc_root w1 _ [] V1 INITIAL_STACK_CAPACITY I1 eq_refl).
  apply wpx_ret. rewrite Hbrk1 in *.
  set (ctx := {| stack := (brk w + 1 + length toks)%nat |}).
  set (w2 := alloc _ w1) in *.
  assert (Hio2 : same_io w1 w2) by apply same_io_alloc.
  apply wpx_bind.
  eapply wpx_mono;
    [eapply (sim_execute ctx [(brk w, pels)] (brk w) pels w2 [] V1 toks []);
       [exact I2 | left | exact HV1 | constructor] | | |].
  3:{ intros Hc; exact Hc. }
  - intros _ w3 (st & o & sels & V3 & Hsem & I3 & Hsub3 & HV3 & Ho3 & He3).
    apply wpx_ret. split; [reflexivity|]. exists st, o. split; [exact Hsem|].
    exists sels, pels, V3.
    split; [exact I3|]. split; [exact HV3|].
    split; [eapply vals_mono; eauto|]. io_solve.
  - intros f w3 (st & o & e & sels & ext & V3 & Hsem & I3 & Hsub3 & HV3 & Ho3 & He3).
    exists st, o, e, ext. split; [exact Hsem|].
    exists sels, pels, V3.
    split; [exact I3|]. split; [exact HV3|].
    split; [eapply vals_mono; eauto|]. io_solve.
Qed.

(** When a word is unknown, [compile] returns the null pointer, and
    [main] goes on to create the context and to skip the execution. *)
Theorem compile_and_execute_rejected `{HostABI} text toks l c w V0 :
  tokens text = Some (toks, Some (l, c)) -> inv w [] [] V0 ->
  wp (compile_and_execute text) w
     (fun r w' => fst r = NULL
                  /\ (exists V, inv w' [(stack (snd r), [])] [] V)
                  /\ out w' = out w
                  /\ err w' = (err w ++ syntax_error_message l c)%string)
     (fun _ _ => False).
Proof.
  intros Htok I. unfold compile_and_execute.
  apply wp_bind. eapply wp_post; [eapply compile_sound; eauto|].
  intros pl w1 (-> & V1 & I1 & Hsub1 & Ho1 & He1).
  apply wp_bind. unfold createContext. apply wp_bind.
  unfold wp at 1. rewrite createListObject_alloc.
  assert (I2 := inv_alloc_root w1 _ [] V1 INITIAL_STACK_CAPACITY I1 eq_refl).
  apply wp_ret. apply wp_bind. apply wp_ret. apply wp_ret. simpl.
  split; [reflexivity|]. split; [eauto|]. split; assumption.
Qed.

Lemma ran_values toks w st o e ext w' :
  ran toks w st o e ext w' ->
  list_values w' (brk w + 1 + length toks)%nat = Some st
  /\ list_values w' (brk w) = Some toks.
Proof.
  intros (sels & pels & V & I & HVs & HVp & _).
  destruct (inv_list_values _ _ _ _ _ (brk w + 1 + length toks)%nat sels I) as (_ & vs & Hvs & HV); [left|].
  destruct (inv_list_values _ _ _ _ _ (brk w) pels I) as (_ & vp & Hvp & HV'); [right; left|].
  rewrite Hvs, Hvp. split; f_equal; eapply vals_functional; eauto.
Qed.

(** ** The tokens of a compiled program *)

Lemma lookup_prim_Some s p : lookup_prim s = Some p -> lookupOperation s <> None.
Proof. intros Hp. rewrite lookupOperation_prim, Hp. discriminate. Qed.

Lemma tokens_from_valid `{HostABI} fuel : forall p toks e,
  tokens_from fuel p = Some (toks, e) -> Forall valid_token toks.
Proof.
  induction fuel as [|fuel IH]; intros p toks e Htok.
  - simpl in Htok. destruct (is_nul (parserPeek p)); [|discriminate].
    injection Htok as <- <-. constructor.
  - cbn [tokens_from] in Htok.
    destruct (is_nul (parserPeek p)); [injection Htok as <- <-; constructor|].
    destruct (parserSkipWhiteSpace p) as [p1|]; [|discriminate].
    destruct (is_nul (parserPeek p1)); [injection Htok as <- <-; constructor|].
    destruct (is_number_start p1).
    + destruct (parseNumber_loop _ _ p1) as [p2|]; [|discriminate].
      destruct (tokens_from fuel p2) as [[toks' e']|] eqn:Hrest; [|discriminate].
      simpl in Htok. injection Htok as <- <-.
      constructor; [exact I | eapply IH; eauto].
    + destruct (parseSymbol_loop _ p1) as [p2|]; [|discriminate].
      cbv zeta in Htok.
      destruct (lookup_prim (symbol_text (program p1) p2)) as [pr|] eqn:Hl.
      * destruct (tokens_from fuel p2) as [[toks' e']|] eqn:Hrest; [|discriminate].
        simpl in Htok. injection Htok as <- <-.
        constructor; [eapply lookup_prim_Some; eauto | eapply IH; eauto].
      * injection Htok as <- <-. constructor.
Qed.

(** The primitives only exit on stack underflow and on division by
    zero. *)
Lemma sem_prim_halts p st f st' e :
  sem_prim p st = Halt f st' e -> f = StackUnderflow \/ f = DivisionByZero.
Proof.
  destruct p; simpl; unfold sem_arith, sem_div, sem_print, sem_dup, sem_drop, sem_swap;
    repeat match goal with
           | |- context [match unsnoc ?x with _ => _ end] => destruct (unsnoc x) as [[? ?]|]
           | |- context [match ?v with VInt _ => _ | _ => _ end] => destruct v
           | |- context [if ?c then _ else _] => destruct c
           end;
    intros Hh; inversion Hh; auto.
Qed.

Lemma sem_program_valid toks : forall st f st' o e,
  Forall valid_token toks ->
  sem_program toks st = Aborted f st' o e ->
  f = StackUnderflow \/ f = DivisionByZero.
Proof.
  induction toks as [|v toks IH]; intros st f st' o e Hval Hrun.
  - discriminate.
  - inversion Hval as [|? ? Hv Hval']; subst. simpl in Hrun.
    destruct (sem_object v st) as [st1 o1|f1 st1 e1|] eqn:Hobj; [| |discriminate].
    + destruct (sem_program toks st1) as [st2 o2|f2 st2 o2 e2|] eqn:Hrest;
        [discriminate| |discriminate].
      injection Hrun as <- <- <- <-. eapply IH; eauto.
    + injection Hrun as <- <- <- <-.
      destruct v as [n|n|s|s]; simpl in *; try contradiction; try discriminate.
      rewrite lookupOperation_prim in Hv.
      destruct (lookup_prim s) as [p|]; [|contradiction].
      eapply sem_prim_halts; eauto.
Qed.

(** The only undefined step is the division of [INT_MIN] by [-1]. *)
Lemma sem_prim_undefined p st :
  sem_prim p st = Undefined ->
  p = PDiv /\ exists st', st = st' ++ [VInt INT_MIN; VInt (-1)].
Proof.
  destruct p; simpl; unfold sem_arith, sem_div, sem_print, sem_dup, sem_drop, sem_swap;
    destruct (unsnoc st) as [[st1 b]|] eqn:H1; try discriminate;
    try (destruct (unsnoc st1) as [[st2 a]|] eqn:H2; try discriminate);
    try (destruct a; try discriminate); try (destruct b; try discriminate).
  destruct (n0 =? 0); [discriminate|].
  destruct (Z.eqb_spec n INT_MIN) as [->|]; [|discriminate].
  destruct (Z.eqb_spec n0 (-1)) as [->|]; [|discriminate].
  intros _. split; [reflexivity|]. exists st2.
  apply unsnoc_Some in H1. apply unsnoc_Some in H2. subst. now rewrite <- app_assoc.
Qed.

(** A run on values is [Crashed] only where a [/] finds [INT_MIN] below
    [-1] on top of the stack. *)
Lemma sem_program_crashed toks : forall st,
  sem_program toks st = Crashed ->
  exists pre s post st' o,
    toks = pre ++ VSym s :: post /\ lookup_prim s = Some PDiv
    /\ sem_program pre st = Finished (st' ++ [VInt INT_MIN; VInt (-1)]) o.
Proof.
  induction toks as [|v toks IH]; intros st Hrun; [discriminate|].
  simpl in Hrun. destruct (sem_object v st) as [st1 o1|f1 st1 e1|] eqn:Hobj;
    [|discriminate|].
  - destruct (sem_program toks st1) as [st2 o2|f2 st2 o2 e2|] eqn:Hrest; try discriminate.
    destruct (IH st1 Hrest) as (pre & s & post & st' & o & -> & Hl & Hpre).
    exists (v :: pre), s, post, st', (o1 ++ o)%string.
    split; [reflexivity|]. split; [exact Hl|]. simpl. rewrite Hobj, Hpre. reflexivity.
  - destruct v as [n|n|s|s]; simpl in Hobj; try discriminate.
    destruct (lookup_prim s) as [p|] eqn:Hl; [|discriminate].
    destruct (sem_prim_undefined p st Hobj) as (-> & st' & ->).
    exists [], s, toks, st', "". split; [reflexivity|]. split; [exact Hl|]. reflexivity.
Qed.

(** ** Running concrete programs *)

Lemma pow2_long `{HostABI} : 2147483648 <= 2 ^ (LONG_BIT - 1).
Proof.
  pose proof LONG_BIT_ge_32.
  change 2147483648 with (2 ^ 31). apply Z.pow_le_mono_r; lia.
Qed.

Lemma clamp_long_small `{HostABI} z : INT_MIN <= z <= INT_MAX -> clamp_long z = z.
Proof.
  unfold clamp_long, LONG_MIN, LONG_MAX, INT_MIN, INT_MAX. pose proof pow2_long. lia.
Qed.

Lemma to_int_small z : INT_MIN <= z <= INT_MAX -> to_int z = z.
Proof.
  unfold to_int, INT_MIN, INT_MAX. intros Hz.
  rewrite Z.mod_small by lia. lia.
Qed.

Lemma to_int_range z : INT_MIN <= to_int z <= INT_MAX.
Proof.
  unfold to_int, INT_MIN, INT_MAX.
  pose proof (Z.mod_pos_bound (z + 2147483648) 4294967296). lia.
Qed.

Lemma to_int_congruent z : (to_int z - z) mod 4294967296 = 0.
Proof.
  unfold to_int. rewrite (Z.mod_eq (z + 2147483648) 4294967296) by lia.
  replace (z + 2147483648 - 4294967296 * ((z + 2147483648) / 4294967296) - 2147483648 - z)
    with ((- ((z + 2147483648) / 4294967296)) * 4294967296) by lia.
  apply Z.mod_mul. lia.
Qed.

(** The tokens of a concrete text, whatever the width of [long], as
    long as its numbers fit in an [int]. *)
Ltac tokens_of_text :=
  unfold tokens; cbv -[clamp_long to_int];
  rewrite ?clamp_long_small by (unfold INT_MIN, INT_MAX; lia);
  reflexivity.

Theorem run_finished `{HostABI} text toks st o :
  tokens text = Some (toks, None) -> sem_program toks [] = Finished st o ->
  exists w, compile_and_execute text initial_world
            = Ret (1%nat, {| stack := (2 + length toks)%nat |}) w
            /\ ran toks initial_world st o "" [] w.
Proof.
  intros Htok Hsem.
  pose proof (compile_and_execute_sound text toks initial_world ∅ Htok inv_initial) as Hr.
  unfold wpx in Hr. destruct (compile_and_execute text initial_world) as [r w|f w| |];
    try contradiction.
  - destruct Hr as (-> & st' & o' & Hsem' & Hran). exists w.
    rewrite Hsem in Hsem'. injection Hsem' as <- <-. split; [reflexivity | exact Hran].
  - destruct Hr as (st' & o' & e' & ext & Hsem' & _). congruence.
  - congruence.
Qed.

Theorem run_aborted `{HostABI} text toks f st o e :
  tokens text = Some (toks, None) -> sem_program toks [] = Aborted f st o e ->
  exists w ext, compile_and_execute text initial_world = Exit f w
                /\ ran toks initial_world st o e ext w.
Proof.
  intros Htok Hsem.
  pose proof (compile_and_execute_sound text toks initial_world ∅ Htok inv_initial) as Hr.
  unfold wpx in Hr. destruct (compile_and_execute text initial_world) as [r w|f' w| |];
    try contradiction.
  - destruct Hr as (_ & st' & o' & Hsem' & _). congruence.
  - destruct Hr as (st' & o' & e' & ext & Hsem' & Hran). exists w, ext.
    rewrite Hsem in Hsem'. injection Hsem' as <- <- <- <-. split; [reflexivity | exact Hran].
  - congruence.
Qed.

(** A program whose division is undefined makes the interpreter fault. *)
Theorem run_crashed `{HostABI} text toks :
  tokens text = Some (toks, None) -> sem_program toks [] = Crashed ->
  compile_and_execute text initial_world = Fault.
Proof.
  intros Htok Hsem.
  pose proof (compile_and_execute_sound text toks initial_world ∅ Htok inv_initial) as Hr.
  unfold wpx in Hr. destruct (compile_and_execute text initial_world) as [r w|f' w| |];
    try contradiction.
  - destruct Hr as (_ & st' & o' & Hsem' & _). congruence.
  - destruct Hr as (st' & o' & e' & ext & Hsem' & Hran). congruence.
  - reflexivity.
Qed.

Lemma ran_io toks st o e ext w :
  ran toks initial_world st o e ext w -> out w = o /\ err w = e.
Proof. intros (sels & pels & V & _ & _ & _ & Ho & He). split; assumption. Qed.

(** ** Well-formed states *)

Lemma well_formed_stack w ctx svs :
  well_formed w ctx -> list_values w (stack ctx) = Some svs ->
  exists sels R V, inv w ((stack ctx, sels) :: R) [] V /\ vals V sels svs
                   /\ list_elements w (stack ctx) = Some sels.
Proof.
  intros (sels & R & V & I) Hvs. exists sels, R, V. split; [exact I|].
  destruct (inv_list_values _ _ _ _ _ (stack ctx) sels I) as (Hel & vs & Hvs' & HV); [left|].
  split; [|exact Hel]. congruence.
Qed.

Lemma inv_stack_values D w ctx sels R ext V svs :
  inv_gen D w ((stack ctx, sels) :: R) ext V -> vals V sels svs ->
  list_values w (stack ctx) = Some svs.
Proof.
  intros I HV.
  destruct (inv_list_values _ _ _ _ _ (stack ctx) sels I) as (_ & vs & Hvs & HV'); [left|].
  rewrite Hvs. f_equal. eapply vals_functional; eauto.
Qed.

Lemma ran_well_formed toks w st o w' :
  ran toks w st o "" [] w' ->
  well_formed w' {| stack := (brk w + 1 + length toks)%nat |}.
Proof. intros (sels & pels & V & I & _). exists sels, [(brk w, pels)], V. exact I. Qed.

(** Every state in which [main] finds itself after running a program is
    well formed. *)
Theorem reachable_well_formed `{HostABI} text pl ctx w :
  compile_and_execute text initial_world = Ret (pl, ctx) w -> pl <> NULL ->
  well_formed w ctx.
Proof.
  intros Hrun Hpl. destruct (tokens_total text) as [[toks [[l c]|]] Htok].
  - pose proof (compile_and_execute_rejected text toks l c initial_world ∅ Htok inv_initial) as Hr.
    apply (wp_Ret_inv _ _ _ _ _ _ Hr) in Hrun. simpl in Hrun. destruct Hrun as [-> _].
    contradiction.
  - pose proof (compile_and_execute_sound text toks initial_world ∅ Htok inv_initial) as Hr.
    apply (wpx_Ret_inv _ _ _ _ _ _ _ Hr) in Hrun. destruct Hrun as (Heq & st & o & _ & Hran).
    injection Heq as -> ->. exact (ran_well_formed _ _ _ _ _ Hran).
Qed.

(** ** Division *)


(** ** Arithmetic on operands that are not both Integers *)

Lemma arith_ops_are_binops :
  is_binop operationAdd /\ is_binop operationSub /\ is_binop operationMul
  /\ is_binop operationDiv.
Proof. repeat split; eexists; reflexivity. Qed.

Lemma binop_skips K ctx w els pa pb R V va vb :
  inv w ((stack ctx, els ++ [pa; pb]) :: R) [] V ->
  V !! pa = Some va -> V !! pb = Some vb -> is_int va && is_int vb = false ->
  wp (binop K ctx) w
     (fun _ w' => inv w' ((stack ctx, els) :: R) [] V /\ same_io w w' /\ brk w' = brk w)
     (fun _ _ => False).
Proof.
  intros I Ha Hb Hni. unfold binop.
  replace (els ++ [pa; pb]) with ((els ++ [pa]) ++ [pb]) in I
    by (rewrite <- app_assoc; reflexivity).
  apply wp_bind. eapply wp_post; [eapply wp_stackPop; exact I|].
  intros ? w1 (-> & I1 & Hio1 & Hbrk1).
  apply wp_bind. eapply wp_post; [eapply wp_stackPop; exact I1|].
  intros ? w2 (-> & I2 & Hio2 & Hbrk2).
  assert (Ha2 : pa ∈ (refs ((stack ctx, els) :: R) ++ [pa; pb])).
  { rewrite elem_of_app. right. left. }
  assert (Hb2 : pb ∈ (refs ((stack ctx, els) :: R) ++ [pa; pb])).
  { rewrite elem_of_app. right. right. left. }
  destruct (inv_alive _ _ _ _ _ _ I2 Ha2) as (oa & va' & Hoa & Hva & HVa & _).
  destruct (inv_alive _ _ _ _ _ _ I2 Hb2) as (ob & vb' & Hob & Hvb & HVb & _).
  assert (va' = va) by congruence. assert (vb' = vb) by congruence. subst va' vb'.
  apply wp_bind. eapply wp_load; [exact Hoa|].
  apply wp_bind. eapply wp_load; [exact Hob|].
  destruct (val_of_type _ _ Hva) as (Hta & _).
  destruct (val_of_type _ _ Hvb) as (Htb & _).
  unfold both_int. rewrite Hta, Htb. fold (is_int va). fold (is_int vb). rewrite Hni.
  apply wp_bind. apply wp_ret.
  apply wp_bind. eapply wp_post; [eapply wp_decrementReferenceCount; exact I2|].
  intros _ w3 (I3 & Hio3 & Hbrk3 & _).
  eapply wp_post; [eapply wp_decrementReferenceCount; exact I3|].
  intros _ w4 (I4 & Hio4 & Hbrk4 & _).
  split; [exact I4|]. split; [io_solve | congruence].
Qed.

Lemma val_of_same_type o o' : val_of o = val_of o' -> is_Some (val_of o) -> type o = type o'.
Proof.
  unfold val_of. intros Heq [v Hv].
  destruct (type o), (data o), (type o'), (data o'); congruence.
Qed.

Lemma inv_released ctx w w' els gone R V :
  inv w ((stack ctx, els ++ gone) :: R) [] V ->
  inv w' ((stack ctx, els) :: R) [] V ->
  released ctx gone w w'.
Proof.
  intros I I' x o Hx Hxs.
  destruct (decide (x ∈ R.*1)) as [Hr|Hr].
  - apply list_elem_of_fmap in Hr as [[r elr] [Heq Hin]]. simpl in Heq. subst r.
    destruct (inv_root _ _ _ _ _ I x elr) as (c & Ho & _); [right; exact Hin|].
    destruct (inv_root _ _ _ _ _ I' x elr) as (c' & Ho' & _); [right; exact Hin|].
    rewrite Ho'. rewrite Ho in Hx. injection Hx as <-. simpl.
    assert (Hc : count x gone = 0).
    { apply count_zero_not_elem. intros Hg.
      assert (Hin' : x ∈ (refs ((stack ctx, els ++ gone) :: R) ++ [])).
      { rewrite refs_cons, !elem_of_app. left. left. right. exact Hg. }
      apply (inv_ref _ _ _ _ _ I) in Hin' as (Hnr & _). apply Hnr. simpl. right.
      apply list_elem_of_fmap. exists (x, elr). auto. }
    rewrite Hc. repeat split; lia.
  - assert (Hnr : x ∉ ((stack ctx, els ++ gone) :: R).*1).
    { simpl. rewrite not_elem_of_cons. auto. }
    assert (Hnr' : x ∉ ((stack ctx, els) :: R).*1).
    { simpl. rewrite not_elem_of_cons. auto. }
    destruct (inv_obj _ _ _ _ _ I x o Hx Hnr (not_elem_of_nil x)) as (HV & Hsome & Hrc & _).
    rewrite refs_cons, !count_app in Hrc. simpl in Hrc.
    destruct (heap w' !! x) as [o'|] eqn:Hx'.
    + destruct (inv_obj _ _ _ _ _ I' x o' Hx' Hnr' (not_elem_of_nil x)) as (HV' & _ & Hrc' & _).
      rewrite refs_cons, !count_app in Hrc'. simpl in Hrc'.
      assert (Heq : val_of o = val_of o') by congruence.
      split; [congruence|]. split; [symmetry; now apply val_of_same_type | lia].
    + assert (Hc : count x (els ++ refs R) = 0).
      { apply count_zero_not_elem. intros Hin.
        assert (Hin' : x ∈ (refs ((stack ctx, els) :: R) ++ [])).
        { rewrite refs_cons, elem_of_app. left. exact Hin. }
        apply (inv_ref _ _ _ _ _ I') in Hin' as (_ & _ & [? ?]). congruence. }
      rewrite count_app in Hc. lia.
Qed.

(** ** Exact reference counts *)

Lemma refs_app (R1 R2 : roots) : refs (R1 ++ R2) = (refs R1 ++ refs R2)%list.
Proof. unfold refs. rewrite fmap_app. apply concat_app. Qed.

Lemma count_not_elem a l : a ∉ l -> count a l = 0.
Proof. apply count_zero_not_elem. Qed.

Lemma count_nodup a l : NoDup l -> a ∈ l -> count a l = 1.
Proof.
  induction 1 as [|x l Hx Hnd IH]; intros Ha; [inversion Ha|].
  simpl. apply elem_of_cons in Ha as [->|Ha].
  - rewrite Nat.eqb_refl. rewrite count_not_elem by assumption. lia.
  - destruct (Nat.eqb_spec x a) as [->|_]; [contradiction|]. rewrite IH by assumption. lia.
Qed.

(** The blocks under destruction are distinct and allocated: there are
    no more of them than blocks in the heap.  This is what bounds the
    depth of the recursion of [decrementReferenceCount]. *)
Lemma dead_bound (D : list addr) (h : gmap nat tfobj) :
  NoDup D -> (forall a, a ∈ D -> is_Some (h !! a)) -> (length D <= size h)%nat.
Proof.
  intros Hnd Hlive.
  rewrite <- (size_dom (D:=gset nat) h).
  rewrite <- (size_list_to_set (C:=gset nat) D Hnd).
  apply subseteq_size. intros a Ha. apply elem_of_list_to_set in Ha.
  apply elem_of_dom. auto.
Qed.

Lemma type_eqb_list t : type_eqb t TF_OBJ_LIST = true <-> t = TF_OBJ_LIST.
Proof. destruct t; simpl; split; congruence. Qed.

Lemma follows_refl D w : follows D w w.
Proof.
  split; [apply same_io_refl|]. split; [reflexivity|]. split; [reflexivity|].
  intros a o Ha. exists o. split; [exact Ha|]. repeat split; lia.
Qed.

Lemma follows_trans D w1 w2 w3 : follows D w1 w2 -> follows D w2 w3 -> follows D w1 w3.
Proof.
  intros (Hio1 & Hb1 & Hd1 & Hs1) (Hio2 & Hb2 & Hd2 & Hs2).
  split; [eapply same_io_trans; eauto|]. split; [congruence|]. split.
  - intros a Ha. rewrite Hd2, Hd1 by assumption. reflexivity.
  - intros a o3 Ha. destruct (Hs2 a o3 Ha) as (o2 & Ha2 & Ht2 & Hdt2 & Hr2).
    destruct (Hs1 a o2 Ha2) as (o1 & Ha1 & Ht1 & Hdt1 & Hr1).
    exists o1. split; [exact Ha1|]. split; [congruence|]. split; [congruence|lia].
Qed.

Lemma follows_size D w w' : follows D w w' -> (size (heap w') <= size (heap w))%nat.
Proof.
  intros (_ & _ & _ & Hs).
  rewrite <- !(size_dom (D:=gset nat)). apply subseteq_size.
  intros a Ha. apply elem_of_dom in Ha as [o' Ha].
  destruct (Hs a o' Ha) as (o & Ho & _). apply elem_of_dom. eauto.
Qed.

Lemma shrunk_refl R : shrunk R R.
Proof. intros a. lia. Qed.

Lemma shrunk_trans R1 R2 R3 : shrunk R1 R2 -> shrunk R2 R3 -> shrunk R1 R3.
Proof. intros H1 H2 a. specialize (H1 a). specialize (H2 a). lia. Qed.

Lemma counted_fuel D w R ext :
  counted_gen D w R ext -> NoDup D -> (length D <= size (heap w))%nat.
Proof.
  intros C Hnd. apply dead_bound; [exact Hnd|].
  intros a Ha. apply (cnt_dead _ _ _ _ C a Ha).
Qed.

(** Storing a block back with another reference count. *)
Lemma size_insert_live (h : gmap nat tfobj) x o o' :
  h !! x = Some o -> size (<[x := o']> h) = size h.
Proof.
  intros Hx. apply map_size_insert_Some. eauto.
Qed.

(** Releasing the elements of a list under destruction, given that
    releasing one reference is correct with the same fuel. *)
Section Release.

Variable fuel : nat.

Hypothesis IH : release_spec fuel.

Lemma wp_release_each todo : forall D w R ext E,
  counted_gen D w R (todo ++ ext) -> NoDup D -> (size (heap w) < fuel + length D)%nat ->
  wp (for_each (decrementReferenceCount_fuel fuel) todo) w
     (fun _ w' => (exists R', counted_gen D w' R' ext /\ shrunk R R') /\ follows D w w') E.
Proof.
  induction todo as [|x todo IHt]; intros D w R ext E C Hnd Hsz.
  - apply wp_ret. split; [exists R; split; [exact C | apply shrunk_refl]|apply follows_refl].
  - simpl. apply wp_bind.
    eapply wp_mono; [apply (IH D w R (todo ++ ext) x E C Hnd Hsz) | | auto].
    intros _ w1 ((R1 & C1 & Hsh1) & Hf1 & _).
    pose proof (follows_size _ _ _ Hf1) as Hsz1.
    eapply wp_mono; [apply (IHt D w1 R1 ext E C1 Hnd); lia | | auto].
    intros _ w2 ((R2 & C2 & Hsh2) & Hf2).
    split; [exists R2; split; [exact C2 | eapply shrunk_trans; eauto]|].
    eapply follows_trans; eauto.
Qed.

End Release.

(** A block to which a reference is held is allocated, and counted. *)
Lemma counted_live D w R ext x :
  counted_gen D w R (x :: ext) ->
  exists o, heap w !! x = Some o /\ x <> NULL /\ (x ∉ D)
            /\ refcount o = count x (refs R ++ ext) + 1.
Proof.
  intros C.
  assert (Hx : x ∈ (refs R ++ x :: ext)) by (rewrite elem_of_app; right; left).
  destruct (cnt_ref _ _ _ _ C x Hx) as (HxD & o & Ho).
  exists o. split; [exact Ho|]. split.
  - intros ->. rewrite (cnt_null _ _ _ _ C) in Ho. discriminate.
  - split; [exact HxD|].
    destruct (cnt_count _ _ _ _ C x o Ho HxD) as [Hrc _].
    rewrite Hrc, !count_app. simpl. rewrite Nat.eqb_refl. lia.
Qed.

Lemma count_cons_ne a x l : a <> x -> count a (x :: l) = count a l.
Proof. intros Hne. simpl. destruct (Nat.eqb_spec x a); [congruence | lia]. Qed.

Lemma count_cons_eq a l : count a (a :: l) = 1 + count a l.
Proof. simpl. now rewrite Nat.eqb_refl. Qed.

(** One reference fewer to a block that keeps others. *)
Lemma counted_shared D w R ext x o :
  counted_gen D w R (x :: ext) -> heap w !! x = Some o -> refcount o - 1 <> 0 ->
  counted_gen D
    (set_heap (<[x := {| type := type o; refcount := refcount o - 1; data := data o |}]> (heap w)) w)
    R ext.
Proof.
  intros C Ho Hnz.
  destruct (counted_live _ _ _ _ _ C) as (o' & Ho' & Hx0 & HxD & Hrc).
  assert (o' = o) by congruence. subst o'.
  assert (Hsub : forall a, a ∈ (refs R ++ ext) -> a ∈ (refs R ++ x :: ext)).
  { intros a. rewrite !elem_of_app, elem_of_cons. tauto. }
  constructor; simpl.
  - rewrite lookup_insert_ne by congruence. apply (cnt_null _ _ _ _ C).
  - apply (cnt_nodup _ _ _ _ C).
  - intros r els Hin. destruct (cnt_list _ _ _ _ C r els Hin) as (or & cap & Hr & Hty & Hd).
    destruct (decide (x = r)) as [<-|Hne].
    + rewrite lookup_insert_eq. assert (or = o) by congruence. subst or.
      eexists _, cap. split; [reflexivity|]. split; assumption.
    + rewrite lookup_insert_ne by assumption. eauto.
  - intros a oa Ha Hty HaD. destruct (decide (x = a)) as [<-|Hne].
    + rewrite lookup_insert_eq in Ha. injection Ha as <-. simpl in Hty.
      apply (cnt_lists _ _ _ _ C x o Ho Hty HaD).
    + rewrite lookup_insert_ne in Ha by assumption.
      apply (cnt_lists _ _ _ _ C a oa Ha Hty HaD).
  - intros a oa Ha HaD. destruct (decide (x = a)) as [<-|Hne].
    + rewrite lookup_insert_eq in Ha. injection Ha as <-. simpl.
      pose proof (count_nonneg x (refs R ++ ext)). lia.
    + rewrite lookup_insert_ne in Ha by assumption.
      destruct (cnt_count _ _ _ _ C a oa Ha HaD) as [H1 H2]. split; [|exact H2].
      rewrite H1, !count_app. rewrite count_cons_ne by congruence. reflexivity.
  - intros a Ha. destruct (cnt_ref _ _ _ _ C a (Hsub a Ha)) as (HaD & oa & Hoa).
    split; [exact HaD|].
    destruct (decide (x = a)) as [<-|Hne]; [rewrite lookup_insert_eq; eauto|].
    rewrite lookup_insert_ne by assumption. eauto.
  - intros a Ha. destruct (cnt_dead _ _ _ _ C a Ha) as ([oa Hoa] & HaR).
    split; [|exact HaR].
    destruct (decide (x = a)) as [<-|Hne]; [rewrite lookup_insert_eq; eauto|].
    rewrite lookup_insert_ne by assumption. eauto.
Qed.

(** The last reference to a block that is not a list. *)
Lemma counted_last D w R ext x o :
  counted_gen D w R (x :: ext) -> heap w !! x = Some o -> refcount o - 1 = 0 ->
  type o <> TF_OBJ_LIST ->
  counted_gen D (set_heap (delete x (heap w)) w) R ext.
Proof.
  intros C Ho Hz Hty.
  destruct (counted_live _ _ _ _ _ C) as (o' & Ho' & Hx0 & HxD & Hrc).
  assert (o' = o) by congruence. subst o'.
  assert (Hgone : x ∉ (refs R ++ ext)) by (apply count_zero_not_elem; lia).
  assert (Hsub : forall a, a ∈ (refs R ++ ext) -> a ∈ (refs R ++ x :: ext)).
  { intros a. rewrite !elem_of_app, elem_of_cons. tauto. }
  assert (HxR : x ∉ R.*1).
  { intros Hin. apply list_elem_of_fmap in Hin as ([r els] & -> & Hin).
    destruct (cnt_list _ _ _ _ C _ _ Hin) as (or & cap & Hr & Hty' & _).
    simpl in *. congruence. }
  constructor; simpl.
  - rewrite lookup_delete_ne by congruence. apply (cnt_null _ _ _ _ C).
  - apply (cnt_nodup _ _ _ _ C).
  - intros r els Hin. destruct (cnt_list _ _ _ _ C r els Hin) as (or & cap & Hr & Hty' & Hd).
    exists or, cap. split; [|split; assumption].
    rewrite lookup_delete_ne; [exact Hr|]. intros <-. apply HxR.
    apply list_elem_of_fmap. exists (x, els). auto.
  - intros a oa Ha Hty' HaD. apply lookup_delete_Some in Ha as [Hne Ha].
    apply (cnt_lists _ _ _ _ C a oa Ha Hty' HaD).
  - intros a oa Ha HaD. apply lookup_delete_Some in Ha as [Hne Ha].
    destruct (cnt_count _ _ _ _ C a oa Ha HaD) as [H1 H2]. split; [|exact H2].
    rewrite H1, !count_app. rewrite count_cons_ne by congruence. reflexivity.
  - intros a Ha. destruct (cnt_ref _ _ _ _ C a (Hsub a Ha)) as (HaD & oa & Hoa).
    split; [exact HaD|]. rewrite lookup_delete_ne; [eauto|]. intros <-. contradiction.
  - intros a Ha. destruct (cnt_dead _ _ _ _ C a Ha) as ([oa Hoa] & HaR).
    split; [|exact HaR]. rewrite lookup_delete_ne; [eauto|]. intros <-. contradiction.
Qed.

(** The last reference to a list: the list is set aside for
    destruction and the references it holds become local. *)
Lemma counted_doomed D w R1 R2 ext x els o :
  counted_gen D w (R1 ++ (x, els) :: R2) (x :: ext) -> heap w !! x = Some o ->
  refcount o - 1 = 0 ->
  counted_gen (x :: D)
    (set_heap (<[x := {| type := type o; refcount := refcount o - 1; data := data o |}]> (heap w)) w)
    (R1 ++ R2) (els ++ ext).
Proof.
  intros C Ho Hz.
  destruct (counted_live _ _ _ _ _ C) as (o' & Ho' & Hx0 & HxD & Hrc).
  assert (o' = o) by congruence. subst o'.
  set (R := R1 ++ (x, els) :: R2) in *.
  assert (Hgone : x ∉ (refs R ++ ext)) by (apply count_zero_not_elem; lia).
  assert (Hrefs : forall a, count a (refs (R1 ++ R2) ++ els ++ ext) = count a (refs R ++ ext)).
  { intros a. unfold R. rewrite !refs_app, refs_cons, !count_app. lia. }
  assert (Hmem : forall a, a ∈ (refs (R1 ++ R2) ++ els ++ ext) -> a ∈ (refs R ++ ext)).
  { intros a Ha. apply count_pos_elem. rewrite <- Hrefs. now apply count_pos_elem. }
  assert (Hsub : forall a, a ∈ (refs R ++ ext) -> a ∈ (refs R ++ x :: ext)).
  { intros a. rewrite !elem_of_app, elem_of_cons. tauto. }
  pose proof (cnt_nodup _ _ _ _ C) as Hnd. unfold R in Hnd.
  rewrite fmap_app, fmap_cons in Hnd. simpl in Hnd.
  apply NoDup_app in Hnd as (Hnd1 & Hdisj & Hnd2).
  apply NoDup_cons in Hnd2 as [HxR2 Hnd2].
  assert (HxR1 : x ∉ R1.*1).
  { intros Hin. apply (Hdisj x Hin). left. }
  assert (HxR : x ∉ (R1 ++ R2).*1).
  { rewrite fmap_app, elem_of_app. tauto. }
  assert (Hin12 : forall p, p ∈ R1 ++ R2 -> p ∈ R).
  { intros p. unfold R. rewrite !elem_of_app, elem_of_cons. tauto. }
  constructor; simpl.
  - rewrite lookup_insert_ne by congruence. apply (cnt_null _ _ _ _ C).
  - rewrite fmap_app. apply NoDup_app. split; [exact Hnd1|]. split; [|exact Hnd2].
    intros a Ha1 Ha2. apply (Hdisj a Ha1). right. exact Ha2.
  - intros r els' Hin.
    destruct (cnt_list _ _ _ _ C r els' (Hin12 _ Hin)) as (or & cap & Hr & Hty & Hd).
    exists or, cap. split; [|split; assumption].
    rewrite lookup_insert_ne; [exact Hr|]. intros <-. apply HxR.
    apply list_elem_of_fmap. exists (x, els'). auto.
  - intros a oa Ha Hty HaD. apply not_elem_of_cons in HaD as [Hne HaD].
    rewrite lookup_insert_ne in Ha by congruence.
    pose proof (cnt_lists _ _ _ _ C a oa Ha Hty HaD) as HaR.
    unfold R in HaR. rewrite fmap_app, fmap_cons, elem_of_app, elem_of_cons in HaR.
    simpl in HaR. rewrite fmap_app, elem_of_app. tauto.
  - intros a oa Ha HaD. apply not_elem_of_cons in HaD as [Hne HaD].
    rewrite lookup_insert_ne in Ha by congruence.
    destruct (cnt_count _ _ _ _ C a oa Ha HaD) as [H1 H2]. split; [|exact H2].
    rewrite H1, Hrefs, !count_app. rewrite count_cons_ne by congruence. reflexivity.
  - intros a Ha. pose proof (Hmem a Ha) as Ha'.
    destruct (cnt_ref _ _ _ _ C a (Hsub a Ha')) as (HaD & oa & Hoa).
    assert (a <> x) by (intros ->; contradiction).
    split; [rewrite not_elem_of_cons; auto|].
    rewrite lookup_insert_ne by congruence. eauto.
  - intros a Ha. apply elem_of_cons in Ha as [->|Ha].
    + split; [rewrite lookup_insert_eq; eauto | exact HxR].
    + destruct (cnt_dead _ _ _ _ C a Ha) as ([oa Hoa] & HaR).
      split.
      * destruct (decide (x = a)) as [<-|Hne]; [rewrite lookup_insert_eq; eauto|].
        rewrite lookup_insert_ne by assumption. eauto.
      * intros Hin. apply HaR. unfold R.
        rewrite fmap_app, elem_of_app in Hin. rewrite fmap_app, fmap_cons, elem_of_app, elem_of_cons.
        tauto.
Qed.

(** The list set aside is freed once its references are released. *)
Lemma counted_freed D w R ext x :
  counted_gen (x :: D) w R ext -> NoDup (x :: D) ->
  counted_gen D (set_heap (delete x (heap w)) w) R ext.
Proof.
  intros C Hnd. apply NoDup_cons in Hnd as [HxD Hnd].
  destruct (cnt_dead _ _ _ _ C x ltac:(left)) as ([o Ho] & HxR).
  assert (Hx0 : x <> NULL).
  { intros ->. rewrite (cnt_null _ _ _ _ C) in Ho. discriminate. }
  constructor; simpl.
  - rewrite lookup_delete_ne by congruence. apply (cnt_null _ _ _ _ C).
  - apply (cnt_nodup _ _ _ _ C).
  - intros r els Hin. destruct (cnt_list _ _ _ _ C r els Hin) as (or & cap & Hr & Hty & Hd).
    exists or, cap. split; [|split; assumption].
    rewrite lookup_delete_ne; [exact Hr|]. intros <-. apply HxR.
    apply list_elem_of_fmap. exists (x, els). auto.
  - intros a oa Ha Hty HaD. apply lookup_delete_Some in Ha as [Hne Ha].
    apply (cnt_lists _ _ _ _ C a oa Ha Hty). rewrite not_elem_of_cons. auto.
  - intros a oa Ha HaD. apply lookup_delete_Some in Ha as [Hne Ha].
    apply (cnt_count _ _ _ _ C a oa Ha). rewrite not_elem_of_cons. auto.
  - intros a Ha. destruct (cnt_ref _ _ _ _ C a Ha) as (HaD & Hlive).
    apply not_elem_of_cons in HaD as [Hne HaD]. split; [exact HaD|].
    rewrite lookup_delete_ne by congruence. exact Hlive.
  - intros a Ha. destruct (cnt_dead _ _ _ _ C a ltac:(right; exact Ha)) as (Hlive & HaR).
    split; [|exact HaR]. rewrite lookup_delete_ne; [exact Hlive|]. intros <-. contradiction.
Qed.

(** [decrementReferenceCount] on any block.  Each level of the
    recursion puts one more list under destruction, so the fuel that is
    left and the number of lists under destruction together exceed the
    number of blocks. *)
Lemma wp_release fuel : release_spec fuel.
Proof.
  induction fuel as [|fuel IH]; intros D w R ext x E C Hnd Hsz.
  - pose proof (counted_fuel _ _ _ _ C Hnd). simpl in Hsz. lia.
  - destruct (counted_live _ _ _ _ _ C) as (o & Ho & Hx0 & HxD & Hrc).
    cbn [decrementReferenceCount_fuel].
    destruct (Nat.eqb_spec x NULL) as [|_]; [contradiction|].
    apply wp_bind. eapply wp_load; [exact Ho|].
    apply wp_bind. eapply wp_store; [exact Ho|].
    set (o0 := {| type := type o; refcount := refcount o - 1; data := data o |}).
    set (w1 := set_heap (<[x := o0]> (heap w)) w).
    assert (Hio1 : same_io w w1) by apply same_io_set_heap.
    destruct (Z.eqb_spec (refcount o - 1) 0) as [Hz|Hnz].
    + unfold freeObject_with.
      destruct (Nat.eqb_spec x NULL) as [|_]; [contradiction|].
      apply wp_bind. eapply wp_load; [simpl; apply lookup_insert_eq|].
      cbn [type o0].
      destruct (type_eqb (type o) TF_OBJ_LIST) eqn:Hty.
      * (* a list: its elements are released first *)
        apply type_eqb_list in Hty.
        pose proof (cnt_lists _ _ _ _ C x o Ho Hty HxD) as HxR.
        apply list_elem_of_fmap in HxR as ([x' els] & Hx' & Hin). simpl in Hx'. subst x'.
        destruct (cnt_list _ _ _ _ C x els Hin) as (o' & cap & Ho' & _ & Hd).
        assert (o' = o) by congruence. subst o'.
        apply list_elem_of_split in Hin as (R1 & R2 & ->).
        pose proof (counted_doomed _ _ _ _ _ _ _ _ C Ho Hz) as C1. fold o0 w1 in C1.
        assert (Hnd1 : NoDup (x :: D)) by (apply NoDup_cons; auto).
        assert (Hsz1 : (size (heap w1) < fuel + length (x :: D))%nat).
        { unfold w1. simpl. rewrite (size_insert_live _ _ _ _ Ho). lia. }
        apply wp_bind. apply wp_bind. unfold get_list. cbn [data o0]. rewrite Hd.
        apply wp_ret. cbn [fst].
        eapply wp_mono;
          [apply (wp_release_each fuel IH els (x :: D) w1 (R1 ++ R2) ext E C1 Hnd1 Hsz1) | | auto].
        intros _ w2 ((R' & C2 & Hsh2) & Hf2).
        destruct Hf2 as (Hio2 & Hbrk2 & Hd2 & Hs2).
        assert (Hx2 : heap w2 !! x = Some o0).
        { rewrite Hd2 by left. unfold w1. simpl. apply lookup_insert_eq. }
        eapply wp_free; [exact Hx2|].
        split; [|split].
        -- exists R'. split; [apply counted_freed; assumption|].
           intros a. specialize (Hsh2 a). rewrite !refs_app, refs_cons, !count_app in *.
           pose proof (count_nonneg a els). lia.
        -- split; [eapply same_io_trans; [exact Hio1|]; exact Hio2|].
           split; [simpl; rewrite Hbrk2; reflexivity|]. split.
           ++ intros a Ha. simpl.
              assert (a <> x) by (intros ->; contradiction).
              rewrite lookup_delete_ne by congruence.
              rewrite Hd2 by (right; exact Ha). unfold w1. simpl.
              rewrite lookup_insert_ne by congruence. reflexivity.
           ++ intros a o' Ha. simpl in Ha. apply lookup_delete_Some in Ha as [Hne Ha].
              destruct (Hs2 a o' Ha) as (o1 & Ha1 & Hrest).
              unfold w1 in Ha1. simpl in Ha1. rewrite lookup_insert_ne in Ha1 by congruence.
              exists o1. split; [exact Ha1 | exact Hrest].
        -- intros oo Hoo [Hnl|Hn1]; assert (oo = o) by congruence; subst oo;
             [contradiction | lia].
      * (* not a list *)
        assert (Hnl : type o <> TF_OBJ_LIST).
        { intros Heq. apply type_eqb_list in Heq. congruence. }
        apply wp_bind. apply wp_ret.
        eapply wp_free; [simpl; apply lookup_insert_eq|].
        unfold w1. cbn [heap set_heap brk out err]. rewrite delete_insert_eq.
        split; [|split].
        -- exists R. split; [|apply shrunk_refl].
           apply (counted_last _ _ _ _ _ _ C Ho Hz Hnl).
        -- split; [split; reflexivity|]. split; [reflexivity|]. split.
           ++ intros a Ha. simpl. rewrite lookup_delete_ne; [reflexivity|].
              intros <-. contradiction.
           ++ intros a o' Ha. simpl in Ha. apply lookup_delete_Some in Ha as [Hne Ha].
              exists o'. split; [exact Ha|]. repeat split; lia.
        -- intros o' Ho' _. unfold release_one. rewrite Ho'.
           assert (o' = o) by congruence. subst o'.
           destruct (Z.eqb_spec (refcount o - 1) 0); [reflexivity | contradiction].
    + apply wp_ret. split; [|split].
      * exists R. split; [|apply shrunk_refl].
        apply (counted_shared _ _ _ _ _ _ C Ho Hnz).
      * split; [exact Hio1|]. split; [reflexivity|]. split.
        -- intros a Ha. simpl. rewrite lookup_insert_ne; [reflexivity|].
           intros <-. contradiction.
        -- intros a o' Ha. simpl in Ha. destruct (decide (x = a)) as [<-|Hne].
           ++ rewrite lookup_insert_eq in Ha. injection Ha as <-. exists o.
              split; [exact Ho|]. simpl. repeat split; lia.
           ++ rewrite lookup_insert_ne in Ha by assumption.
              exists o'. split; [exact Ha|]. repeat split; lia.
      * intros o' Ho' _. unfold release_one. rewrite Ho'.
        assert (o' = o) by congruence. subst o'.
        destruct (Z.eqb_spec (refcount o - 1) 0); [contradiction | reflexivity].
Qed.

(** The fuel [decrementReferenceCount] starts with is enough. *)
Lemma wp_release_counted w R ext x E :
  counted_gen [] w R (x :: ext) ->
  wp (decrementReferenceCount x) w
     (fun _ w' => (exists R', counted_gen [] w' R' ext /\ shrunk R R')
                  /\ follows [] w w'
                  /\ (forall o, heap w !! x = Some o ->
                        type o <> TF_OBJ_LIST \/ refcount o <> 1 ->
                        heap w' = release_one x (heap w))) E.
Proof.
  intros C.
  pose proof (wp_release (S (size (heap w))) [] w R ext x E C (NoDup_nil_2 (A:=nat))) as H.
  unfold wp in *. unfold decrementReferenceCount. apply H. simpl. lia.
Qed.

(** Taking the last element off a list: the reference passes from the
    list to the caller. *)
Lemma counted_pop w R ext s so els x cap :
  counted_gen [] w R ext -> heap w !! s = Some so ->
  type so = TF_OBJ_LIST -> data so = list_obj (els ++ [x]) cap ->
  exists R',
    counted_gen []
      (set_heap (<[s := {| type := type so; refcount := refcount so;
                           data := list_obj els cap |}]> (heap w)) w)
      R' (x :: ext)
    /\ forall a, count a (refs R') + count a [x] = count a (refs R).
Proof.
  intros C Hs Hty Hd.
  pose proof (cnt_lists _ _ _ _ C s so Hs Hty (not_elem_of_nil _)) as HsR.
  apply list_elem_of_fmap in HsR as ([s' els0] & Hs' & Hin). simpl in Hs'. subst s'.
  destruct (cnt_list _ _ _ _ C s els0 Hin) as (o' & cap' & Ho' & _ & Hd').
  assert (o' = so) by congruence. subst o'.
  assert (els0 = els ++ [x]) by congruence. subst els0.
  apply list_elem_of_split in Hin as (R1 & R2 & ->).
  set (R := R1 ++ (s, els ++ [x]) :: R2) in *.
  exists (R1 ++ (s, els) :: R2).
  assert (Hcnt : forall a, count a (refs (R1 ++ (s, els) :: R2)) + count a [x]
                           = count a (refs R)).
  { intros a. unfold R. rewrite !refs_app, !refs_cons, !count_app. lia. }
  split; [|exact Hcnt].
  assert (Hcnt' : forall a, count a (refs (R1 ++ (s, els) :: R2) ++ x :: ext)
                            = count a (refs R ++ ext)).
  { intros a. rewrite !count_app, <- Hcnt. simpl. lia. }
  assert (Hfst : (R1 ++ (s, els) :: R2).*1 = R.*1).
  { unfold R. rewrite !fmap_app, !fmap_cons. reflexivity. }
  assert (Hs0 : s <> NULL).
  { intros ->. rewrite (cnt_null _ _ _ _ C) in Hs. discriminate. }
  constructor; cbn [heap set_heap].
  - rewrite lookup_insert_ne by congruence. apply (cnt_null _ _ _ _ C).
  - rewrite Hfst. apply (cnt_nodup _ _ _ _ C).
  - intros r els' Hin. rewrite elem_of_app, elem_of_cons in Hin.
    destruct (decide (s = r)) as [<-|Hne].
    + rewrite lookup_insert_eq. eexists _, cap. split; [reflexivity|].
      split; [exact Hty|]. simpl. f_equal.
      assert (Hin' : (s, els') ∈ R1 ++ (s, els) :: R2).
      { rewrite elem_of_app, elem_of_cons. exact Hin. }
      pose proof (cnt_nodup _ _ _ _ C) as Hnd. rewrite <- Hfst in Hnd.
      assert (Hin'' : (s, els) ∈ R1 ++ (s, els) :: R2).
      { rewrite elem_of_app, elem_of_cons. auto. }
      apply list_elem_of_lookup in Hin' as [i Hi]. apply list_elem_of_lookup in Hin'' as [j Hj].
      assert (i = j).
      { eapply NoDup_lookup; [exact Hnd| |]; rewrite list_lookup_fmap.
        - rewrite Hi. reflexivity.
        - rewrite Hj. reflexivity. }
      subst j. congruence.
    + rewrite lookup_insert_ne by assumption.
      apply (cnt_list _ _ _ _ C). unfold R. rewrite elem_of_app, elem_of_cons.
      destruct Hin as [Hin|[Heq|Hin]]; auto. injection Heq as -> _. contradiction.
  - intros a oa Ha Hta _. rewrite Hfst. destruct (decide (s = a)) as [<-|Hne].
    + apply (cnt_lists _ _ _ _ C s so Hs Hty (not_elem_of_nil _)).
    + rewrite lookup_insert_ne in Ha by assumption.
      apply (cnt_lists _ _ _ _ C a oa Ha Hta (not_elem_of_nil _)).
  - intros a oa Ha _. rewrite Hcnt'. destruct (decide (s = a)) as [<-|Hne].
    + rewrite lookup_insert_eq in Ha. injection Ha as <-. simpl.
      apply (cnt_count _ _ _ _ C s so Hs (not_elem_of_nil _)).
    + rewrite lookup_insert_ne in Ha by assumption.
      apply (cnt_count _ _ _ _ C a oa Ha (not_elem_of_nil _)).
  - intros a Ha. split; [apply not_elem_of_nil|].
    assert (Ha' : a ∈ (refs R ++ ext)).
    { apply count_pos_elem. rewrite <- Hcnt'. now apply count_pos_elem. }
    destruct (cnt_ref _ _ _ _ C a Ha') as (_ & oa & Hoa).
    destruct (decide (s = a)) as [<-|Hne]; [rewrite lookup_insert_eq; eauto|].
    rewrite lookup_insert_ne by assumption. eauto.
  - intros a Ha. inversion Ha.
Qed.

Lemma stackPop_last ctx w so els x cap :
  heap w !! stack ctx = Some so -> data so = list_obj (els ++ [x]) cap ->
  stackPop ctx w
  = Ret x (set_heap (<[stack ctx := {| type := type so; refcount := refcount so;
                                       data := list_obj els cap |}]> (heap w)) w).
Proof.
  intros Hs Hd. destruct (last_index els x) as [Hl Ht].
  unfold stackPop, bind at 1, load at 1. rewrite Hs.
  unfold bind at 1, get_list. rewrite Hd. unfold ret at 1. cbn [fst snd].
  destruct (Nat.eqb_spec (length (els ++ [x])) 0) as [Hz|_].
  { rewrite length_app in Hz. simpl in Hz. lia. }
  rewrite Hl, Ht. unfold bind, store. rewrite Hs. reflexivity.
Qed.

Lemma list_elements_Some w l els :
  list_elements w l = Some els ->
  exists o cap, heap w !! l = Some o /\ type o = TF_OBJ_LIST /\ data o = list_obj els cap.
Proof.
  unfold list_elements. destruct (heap w !! l) as [o|]; [|discriminate].
  destruct (type o) eqn:Hty; try discriminate.
  destruct (data o) as [| | |els' cap] eqn:Hd; try discriminate.
  intros Heq. injection Heq as <-. eauto.
Qed.

Lemma release_one_lookup p h x :
  release_one p h !! x
  = if decide (x = p) then
      match h !! p with
      | Some o => if refcount o - 1 =? 0 then None
                  else Some {| type := type o; refcount := refcount o - 1; data := data o |}
      | None => None
      end
    else h !! x.
Proof.
  unfold release_one. destruct (decide (x = p)) as [->|Hne].
  - destruct (h !! p) as [o|] eqn:Hp; [|exact Hp].
    destruct (refcount o - 1 =? 0); [apply lookup_delete_eq | apply lookup_insert_eq].
  - destruct (h !! p) as [o|]; [|reflexivity].
    destruct (refcount o - 1 =? 0);
      [apply lookup_delete_ne | apply lookup_insert_ne]; congruence.
Qed.

(** The arithmetic primitives on two operands that are not both
    Integers, whatever the operands are. *)
Lemma binop_releases K ctx w R ext els pa pb oa ob :
  counted_gen [] w R (stack ctx :: ext) ->
  list_elements w (stack ctx) = Some (els ++ [pa; pb]) ->
  heap w !! pa = Some oa -> heap w !! pb = Some ob ->
  both_int oa ob = false ->
  exists w',
    binop K ctx w = Ret tt w'
    /\ list_elements w' (stack ctx) = Some els
    /\ brk w' = brk w /\ out w' = out w /\ err w' = err w
    /\ counted w' (stack ctx :: ext)
    /\ (forall x o', heap w' !! x = Some o' ->
          exists o, heap w !! x = Some o /\ type o' = type o
                    /\ (x <> stack ctx -> data o' = data o)
                    /\ refcount o' <= refcount o - count x [pa; pb])
    /\ (forall x o, x ∈ [pa; pb] -> heap w !! x = Some o ->
          refcount o = count x [pa; pb] -> heap w' !! x = None)
    /\ ((type oa <> TF_OBJ_LIST \/ refcount oa <> count pa [pa; pb]) ->
        (type ob <> TF_OBJ_LIST \/ refcount ob <> count pb [pa; pb]) ->
        released ctx [pa; pb] w w').
Proof.
  intros C Hel Hoa Hob Hni.
  destruct (list_elements_Some _ _ _ Hel) as (so & cap & Hs & Hty & Hd).
  (* the two pops *)
  replace (els ++ [pa; pb]) with ((els ++ [pa]) ++ [pb]) in Hd
    by (rewrite <- app_assoc; reflexivity).
  set (so1 := {| type := type so; refcount := refcount so; data := list_obj (els ++ [pa]) cap |}).
  set (w1 := set_heap (<[stack ctx := so1]> (heap w)) w).
  destruct (counted_pop _ _ _ _ _ _ _ _ C Hs Hty Hd) as (R1 & C1 & Hc1).
  fold so1 w1 in C1.
  assert (Hs1 : heap w1 !! stack ctx = Some so1) by (simpl; apply lookup_insert_eq).
  set (so2 := {| type := type so; refcount := refcount so; data := list_obj els cap |}).
  set (w2 := set_heap (<[stack ctx := so2]> (heap w)) w).
  destruct (counted_pop _ _ _ _ _ _ _ _ C1 Hs1 Hty eq_refl) as (R2 & C2 & Hc2).
  assert (Hw2 : set_heap (<[stack ctx := {| type := type so1; refcount := refcount so1;
                                            data := list_obj els cap |}]> (heap w1)) w1 = w2).
  { unfold w2, w1, set_heap. simpl. rewrite insert_insert_eq. reflexivity. }
  rewrite Hw2 in C2.
  assert (Hpop1 : stackPop ctx w = Ret pb w1) by (apply stackPop_last; assumption).
  assert (Hpop2 : stackPop ctx w1 = Ret pa w2).
  { rewrite <- Hw2. apply (stackPop_last ctx w1 so1 els pa cap Hs1 eq_refl). }
  assert (Hw2x : forall x, x <> stack ctx -> heap w2 !! x = heap w !! x).
  { intros x Hx. simpl. apply lookup_insert_ne. congruence. }
  assert (Hs2 : heap w2 !! stack ctx = Some so2) by (simpl; apply lookup_insert_eq).
  (* the operands after the pops *)
  assert (Hlive2 : forall x o, heap w !! x = Some o ->
            exists o2, heap w2 !! x = Some o2 /\ type o2 = type o /\ refcount o2 = refcount o
                       /\ (x <> stack ctx -> o2 = o)).
  { intros x o Hx. destruct (decide (x = stack ctx)) as [->|Hne].
    - exists so2. assert (o = so) by congruence. subst o. split; [exact Hs2|].
      split; [reflexivity|]. split; [reflexivity|]. contradiction.
    - exists o. rewrite Hw2x by assumption. auto. }
  destruct (Hlive2 pa oa Hoa) as (oa2 & Hoa2 & Hta2 & Hra2 & Hea2).
  destruct (Hlive2 pb ob Hob) as (ob2 & Hob2 & Htb2 & Hrb2 & Heb2).
  assert (Hni2 : both_int oa2 ob2 = false).
  { unfold both_int in *. rewrite Hta2, Htb2. exact Hni. }
  (* the two releases *)
  pose proof (wp_release_counted w2 R2 (pb :: stack ctx :: ext) pa (fun _ _ => False) C2) as Hr3.
  apply wp_returns in Hr3 as ([] & w3 & Hrun3 & (R3 & C3 & Hsh3) & Hf3 & Hx3).
  pose proof (wp_release_counted w3 R3 (stack ctx :: ext) pb (fun _ _ => False) C3) as Hr4.
  apply wp_returns in Hr4 as ([] & w4 & Hrun4 & (R4 & C4 & Hsh4) & Hf4 & Hx4).
  assert (Hf : follows [] w2 w4) by (eapply follows_trans; eauto).
  destruct Hf as ([Ho He] & Hbrk & _ & Hkeep).
  exists w4. split.
  { unfold binop. rewrite (bind_Ret _ _ _ _ _ Hpop1), (bind_Ret _ _ _ _ _ Hpop2).
    unfold bind at 1, load at 1. rewrite Hoa2.
    unfold bind at 1, load at 1. rewrite Hob2.
    rewrite Hni2. rewrite (bind_Ret _ _ _ tt w2 eq_refl).
    rewrite (bind_Ret _ _ _ _ _ Hrun3). exact Hrun4. }
  assert (Hcount : forall x, count x (refs R4) <= count x (refs R) - count x [pa; pb]).
  { intros x. specialize (Hc1 x). specialize (Hc2 x). specialize (Hsh3 x). specialize (Hsh4 x).
    simpl in *. lia. }
  assert (Hsurv : forall x o', heap w4 !! x = Some o' ->
            exists o, heap w !! x = Some o /\ type o' = type o
                      /\ (x <> stack ctx -> data o' = data o)
                      /\ refcount o' <= refcount o - count x [pa; pb]).
  { intros x o' Hx'. destruct (Hkeep x o' Hx') as (o2 & Hx2 & Ht & Hdt & _).
    assert (Hx : exists o, heap w !! x = Some o /\ type o2 = type o
                           /\ (x <> stack ctx -> data o2 = data o)).
    { destruct (decide (x = stack ctx)) as [->|Hne].
      - exists so. assert (o2 = so2) by congruence. subst o2.
        split; [exact Hs|]. split; [reflexivity|]. contradiction.
      - exists o2. rewrite <- Hw2x by assumption. auto. }
    destruct Hx as (o & Hx & Ht2 & Hdt2). exists o. split; [exact Hx|].
    split; [congruence|]. split; [intros Hne; rewrite Hdt; auto|].
    destruct (cnt_count _ _ _ _ C4 x o' Hx' (not_elem_of_nil _)) as [Hrc' _].
    destruct (cnt_count _ _ _ _ C x o Hx (not_elem_of_nil _)) as [Hrc _].
    rewrite Hrc', Hrc, !count_app. specialize (Hcount x). lia. }
  split.
  { assert (Hin : stack ctx ∈ (refs R4 ++ stack ctx :: ext)).
    { rewrite elem_of_app. right. left. }
    destruct (cnt_ref _ _ _ _ C4 _ Hin) as (_ & o4 & Ho4).
    destruct (Hkeep _ _ Ho4) as (o2 & Hx2 & Ht & Hdt & _).
    assert (o2 = so2) by congruence. subst o2. simpl in Ht, Hdt.
    unfold list_elements. rewrite Ho4, Ht, Hty, Hdt. reflexivity. }
  split; [exact Hbrk|]. split; [exact Ho|]. split; [exact He|].
  split; [exists R4; exact C4|].
  split; [exact Hsurv|].
  split.
  { intros x o Hin Hx Hrc. destruct (heap w4 !! x) as [o'|] eqn:Hx'; [|reflexivity].
    destruct (Hsurv x o' Hx') as (o0 & Hx0 & _ & _ & Hle).
    assert (o0 = o) by congruence. subst o0.
    destruct (cnt_count _ _ _ _ C4 x o' Hx' (not_elem_of_nil _)) as [_ Hpos]. lia. }
  (* when no list is freed the effect is exact *)
  intros Ha Hb.
  assert (Hrca : refcount oa2 = count pa (refs R2 ++ pa :: pb :: stack ctx :: ext)).
  { apply (cnt_count _ _ _ _ C2 pa oa2 Hoa2 (not_elem_of_nil _)). }
  assert (Hrcb : refcount ob2 = count pb (refs R2 ++ pa :: pb :: stack ctx :: ext)).
  { apply (cnt_count _ _ _ _ C2 pb ob2 Hob2 (not_elem_of_nil _)). }
  rewrite count_app in Hrca, Hrcb.
  pose proof (count_nonneg pa (refs R2)) as Hnna.
  pose proof (count_nonneg pb (refs R2)) as Hnnb.
  pose proof (count_nonneg pa (stack ctx :: ext)) as Hnna'.
  pose proof (count_nonneg pb (stack ctx :: ext)) as Hnnb'.
  destruct (decide (pa = pb)) as [Heq|Hne].
  - (* the same block twice *)
    subst pb. assert (ob2 = oa2) by congruence. subst ob2.
    assert (ob = oa) by congruence. subst ob.
    rewrite !count_cons_eq in Hrca. rewrite !count_cons_eq in Ha. change (count pa []) with 0 in Ha.
    assert (Hh3 : heap w3 = release_one pa (heap w2)).
    { apply (Hx3 oa2 Hoa2). right. lia. }
    assert (Hoa3 : heap w3 !! pa
                   = Some {| type := type oa2; refcount := refcount oa2 - 1; data := data oa2 |}).
    { rewrite Hh3, release_one_lookup. destruct (decide (pa = pa)); [|congruence].
      rewrite Hoa2. destruct (Z.eqb_spec (refcount oa2 - 1) 0); [lia | reflexivity]. }
    assert (Hh4 : heap w4 = release_one pa (heap w3)).
    { apply (Hx4 _ Hoa3). simpl. destruct Ha as [Ha|Ha]; [left; congruence|right; lia]. }
    intros x o Hx Hxs.
    rewrite Hh4, release_one_lookup, Hoa3, Hh3, release_one_lookup, Hoa2.
    rewrite (Hw2x x Hxs), Hx. cbn [refcount type data].
    destruct (decide (x = pa)) as [->|Hxa].
    + assert (oa2 = o) by (rewrite (Hw2x pa Hxs) in Hoa2; congruence). subst oa2.
      rewrite !count_cons_eq. change (count pa []) with 0.
      destruct (Z.eqb_spec (refcount o - 1 - 1) 0); [lia|].
      split; [reflexivity|]. split; [reflexivity|]. simpl. lia.
    + rewrite !count_cons_ne by congruence. change (count x []) with 0.
      split; [reflexivity|]. split; [reflexivity|]. lia.
  - (* two blocks *)
    rewrite count_cons_eq in Hrca. rewrite (count_cons_ne pa pb) in Hrca by congruence.
    rewrite (count_cons_ne pb pa) in Hrcb by congruence. rewrite count_cons_eq in Hrcb.
    rewrite count_cons_eq in Ha. rewrite (count_cons_ne pa pb) in Ha by congruence.
    rewrite (count_cons_ne pb pa) in Hb by congruence. rewrite count_cons_eq in Hb.
    change (count pa []) with 0 in Ha. change (count pb []) with 0 in Hb.
    assert (Hh3 : heap w3 = release_one pa (heap w2)).
    { apply (Hx3 oa2 Hoa2). destruct Ha as [Ha|Ha]; [left; congruence|right; lia]. }
    assert (Hob3 : heap w3 !! pb = Some ob2).
    { rewrite Hh3, release_one_lookup. destruct (decide (pb = pa)); [congruence|exact Hob2]. }
    assert (Hh4 : heap w4 = release_one pb (heap w3)).
    { apply (Hx4 _ Hob3). destruct Hb as [Hb|Hb]; [left; congruence|right; lia]. }
    intros x o Hx Hxs.
    rewrite Hh4, release_one_lookup, Hob3, Hh3, release_one_lookup, Hoa2.
    rewrite (Hw2x x Hxs), Hx.
    destruct (decide (x = pb)) as [->|Hxb].
    + assert (ob2 = o) by (rewrite (Hw2x pb Hxs) in Hob2; congruence). subst ob2.
      rewrite (count_cons_ne pb pa) by congruence. rewrite count_cons_eq.
      change (count pb []) with 0.
      destruct (Z.eqb_spec (refcount o - 1) 0); [lia|].
      split; [reflexivity|]. split; [reflexivity|]. simpl. lia.
    + destruct (decide (x = pa)) as [->|Hxa].
      * assert (oa2 = o) by (rewrite (Hw2x pa Hxs) in Hoa2; congruence). subst oa2.
        rewrite count_cons_eq. rewrite (count_cons_ne pa pb) by congruence.
        change (count pa []) with 0.
        destruct (Z.eqb_spec (refcount o - 1) 0); [lia|].
        split; [reflexivity|]. split; [reflexivity|]. simpl. lia.
      * rewrite !count_cons_ne by congruence. change (count x []) with 0.
        split; [reflexivity|]. split; [reflexivity|]. lia.
Qed.

(** The states of the interpreter have exact reference counts: each
    root is referenced once, from outside the heap. *)
Lemma inv_counted w R V : inv w R [] V -> counted_gen [] w R (R.*1).
Proof.
  intros I.
  assert (Hroot : forall r, r ∈ R.*1 -> r ∉ refs R).
  { intros r Hr Hin.
    assert (Hin' : r ∈ (refs R ++ [])) by (rewrite app_nil_r; exact Hin).
    destruct (inv_ref _ _ _ _ _ I r Hin') as (Hnr & _). contradiction. }
  constructor.
  - destruct (heap w !! NULL) as [o|] eqn:Ho; [|reflexivity].
    apply (inv_dom _ _ _ _ _ I) in Ho. unfold NULL in Ho. lia.
  - apply (inv_nodup _ _ _ _ _ I).
  - intros r els Hin. destruct (inv_root _ _ _ _ _ I r els Hin) as (cap & Hr & _).
    eexists _, cap. split; [exact Hr|]. split; reflexivity.
  - intros a o Ha Hty _. destruct (decide (a ∈ R.*1)) as [Hin|Hnin]; [exact Hin|].
    destruct (inv_obj _ _ _ _ _ I a o Ha Hnin (not_elem_of_nil _)) as (_ & Hv & _).
    apply val_of_not_list in Hv. apply type_eqb_list in Hty. congruence.
  - intros a o Ha _. rewrite count_app. destruct (decide (a ∈ R.*1)) as [Hin|Hnin].
    + rewrite (count_nodup a (R.*1) (inv_nodup _ _ _ _ _ I) Hin).
      rewrite (count_not_elem a (refs R) (Hroot a Hin)).
      apply list_elem_of_fmap in Hin as ([r els] & -> & Hin).
      destruct (inv_root _ _ _ _ _ I r els Hin) as (cap & Hr & _).
      simpl in Ha. assert (o = mk_tfobj TF_OBJ_LIST 1 (list_obj els cap)) by congruence.
      subst o. simpl. lia.
    + destruct (inv_obj _ _ _ _ _ I a o Ha Hnin (not_elem_of_nil _)) as (_ & _ & Hrc & Hpos).
      rewrite app_nil_r in Hrc. rewrite (count_not_elem a (R.*1) Hnin). lia.
  - intros a Ha. split; [apply not_elem_of_nil|]. apply elem_of_app in Ha as [Ha|Ha].
    + assert (Hin' : a ∈ (refs R ++ [])) by (rewrite app_nil_r; exact Ha).
      apply (inv_ref _ _ _ _ _ I a Hin').
    + apply list_elem_of_fmap in Ha as ([r els] & -> & Hin).
      destruct (inv_root _ _ _ _ _ I r els Hin) as (cap & Hr & _). simpl. eauto.
  - intros a Ha. inversion Ha.
Qed.

Lemma well_formed_counted w ctx :
  well_formed w ctx -> exists ext, counted w (stack ctx :: ext).
Proof.
  intros (sels & R & V & I). exists (R.*1), ((stack ctx, sels) :: R).
  exact (inv_counted _ _ _ I).
Qed.

(** The arithmetic primitives on two operands that are not both
    Integers, read on values, in the states of the interpreter, where
    every operand is a scalar. *)
Lemma arithmetic_on_values (op : Operation) (ctx : tfcontext) (w : world)
    (rest : list val) (va vb : val) :
  In op [operationAdd; operationSub; operationMul; operationDiv] ->
  well_formed w ctx ->
  list_values w (stack ctx) = Some (rest ++ [va; vb]) ->
  (forall a b, ~ (va = VInt a /\ vb = VInt b)) ->
  exists els pa pb w',
    list_elements w (stack ctx) = Some (els ++ [pa; pb])
    /\ op ctx w = Ret tt w'
    /\ list_elements w' (stack ctx) = Some els
    /\ list_values w' (stack ctx) = Some rest
    /\ well_formed w' ctx
    /\ brk w' = brk w /\ out w' = out w /\ err w' = err w
    /\ released ctx [pa; pb] w w'.
Proof.
  intros Hop Hwf Hvs Hni.
  assert (Hbin : is_binop op).
  { destruct arith_ops_are_binops as (H1 & H2 & H3 & H4).
    simpl in Hop. destruct Hop as [<-|[<-|[<-|[<-|[]]]]]; assumption. }
  destruct Hbin as [K ->].
  destruct (well_formed_stack _ _ _ Hwf Hvs) as (sels & R & V & I & HV & Hel).
  replace (rest ++ [va; vb]) with ((rest ++ [va]) ++ [vb]) in HV
    by (rewrite <- app_assoc; reflexivity).
  apply vals_snoc_inv in HV as (els1 & pb & -> & HV1 & Hb).
  apply vals_snoc_inv in HV1 as (els & pa & -> & HV2 & Ha).
  rewrite <- app_assoc in I, Hel. simpl in I, Hel.
  assert (Hint : is_int va && is_int vb = false).
  { destruct va as [a| | |], vb as [b| | |]; try reflexivity.
    exfalso. apply (Hni a b). auto. }
  pose proof (binop_skips K ctx w els pa pb R V va vb I Ha Hb Hint) as Hwp.
  apply wp_returns in Hwp as ([] & w' & Hrun & I' & [Ho He] & Hbrk).
  exists els, pa, pb, w'. split; [exact Hel|]. split; [exact Hrun|].
  destruct (inv_list_values _ _ _ _ _ (stack ctx) els I') as (Hel' & _); [left|].
  split; [exact Hel'|]. split; [eapply inv_stack_values; eauto|].
  split; [exists els, R, V; exact I'|].
  split; [exact Hbrk|]. split; [exact Ho|]. split; [exact He|].
  eapply inv_released; eauto.
Qed.

(* ================================================================== *)
(** * Scanning integer literals and words *)
(* ================================================================== *)

Lemma strtol_digits_all s : forall acc rest,
  string_forall isdigit s = true -> starts_with_digit rest = false ->
  strtol_digits acc (s ++ rest)
  = (acc * 10 ^ Z.of_nat (String.length s) + decimal_value s, rest).
Proof.
  induction s as [|c s IH]; intros acc rest Hd Hr.
  - simpl. destruct rest as [|c r]; simpl in *; [f_equal; lia|].
    rewrite Hr. f_equal. lia.
  - simpl in Hd. apply andb_prop in Hd as [Hc Hd].
    rewrite string_app_cons. cbn [strtol_digits]. rewrite Hc.
    rewrite IH by assumption. f_equal.
    cbn [String.length decimal_value]. rewrite Nat2Z.inj_succ, Z.pow_succ_r by lia. lia.
Qed.

Lemma take_while_all f s rest :
  string_forall f s = true ->
  match rest with String c _ => f c = false | EmptyString => True end ->
  take_while f (s ++ rest) = s /\ drop_while f (s ++ rest) = rest.
Proof.
  intros Hs Hr. induction s as [|c s IH].
  - simpl. destruct rest as [|c r]; simpl; [auto|]. rewrite Hr. auto.
  - simpl in Hs. apply andb_prop in Hs as [Hc Hs]. rewrite string_app_cons. simpl.
    rewrite Hc. destruct (IH Hs) as [-> ->]. auto.
Qed.

Lemma starts_with_digit_head rest :
  starts_with_digit rest = false ->
  match rest with String c _ => isdigit c = false | EmptyString => True end.
Proof. destruct rest; simpl; auto. Qed.

Lemma digits_forall s : digits s = true -> string_forall isdigit s = true.
Proof. destruct s; [discriminate | auto]. Qed.

Lemma literal_scan lit rest lc :
  is_literal lit = true -> starts_with_digit rest = false ->
  is_nul (parserPeek (at_pos (lit ++ rest) lc)) = false
  /\ drop_while is_blank (lit ++ rest) = (lit ++ rest)%string
  /\ take_while is_blank (lit ++ rest) = ""
  /\ is_number_start (at_pos (lit ++ rest) lc) = true
  /\ number_text (lit ++ rest) = lit
  /\ number_rest (lit ++ rest) = rest
  /\ number_value (lit ++ rest) = literal_value lit.
Proof.
  intros Hlit Hrest. pose proof (starts_with_digit_head _ Hrest) as Hhead.
  destruct lit as [|c t]; [discriminate|]. unfold is_literal in Hlit.
  rewrite string_app_cons.
  unfold is_number_start, number_text, number_rest, number_value, literal_value, parserPeek.
  cbn [program at_pos drop_while take_while].
  destruct (N_of_ascii c =? 45)%N eqn:Hm.
  - pose proof (minus_facts c Hm) as ->.
    apply digits_forall in Hlit as Hall.
    destruct (take_while_all isdigit t rest Hall Hhead) as [Htk Hdr].
    rewrite Htk, Hdr. rewrite (strtol_digits_all t 0 rest Hall Hrest). cbn [fst].
    destruct t as [|d t']; [discriminate|]. simpl in Hlit.
    apply andb_prop in Hlit as [Hd _].
    rewrite string_app_cons. cbn [second_char]. rewrite Hd.
    repeat split; reflexivity.
  - apply digits_forall in Hlit as Hall.
    pose proof Hall as Hall'. simpl in Hall'. apply andb_prop in Hall' as [Hc _].
    destruct (isdigit_facts c Hc) as (Hsp & Hn & _).
    destruct (take_while_all isdigit (String c t) rest Hall Hhead) as [Htk Hdr].
    rewrite string_app_cons in Htk, Hdr. cbn [take_while drop_while] in Htk, Hdr.
    rewrite Htk, Hdr. rewrite <- string_app_cons.
    rewrite (strtol_digits_all (String c t) 0 rest Hall Hrest). cbn [fst].
    rewrite Hc, Hn. unfold is_blank. rewrite Hsp, andb_false_r.
    rewrite string_app_cons. simpl. repeat split; reflexivity.
Qed.

Lemma tokens_from_end `{HostABI} fuel lc : tokens_from fuel (at_pos "" lc) = Some ([], None).
Proof. destruct fuel; reflexivity. Qed.

(** A literal at the head of the text becomes one Integer. *)
Lemma tokens_literal `{HostABI} fuel lit rest lc :
  is_literal lit = true -> starts_with_digit rest = false ->
  tokens_from (S fuel) (at_pos (lit ++ rest) lc)
  = scanned_cons (VInt (to_int (clamp_long (literal_value lit))))
                 (tokens_from fuel (at_pos rest (position_after lit lc))).
Proof.
  intros Hlit Hrest.
  destruct (literal_scan lit rest lc Hlit Hrest) as (Hn & Hdr & Htk & Hns & Hnt & Hnr & Hnv).
  cbn [tokens_from]. rewrite Hn. rewrite parserSkipWhiteSpace_spec.
  cbn [program line column at_pos fst snd]. rewrite Hdr, Htk. cbn [position_after fst snd].
  change (at_pos (lit ++ rest) (lc.1, lc.2)) with (at_pos (lit ++ rest) lc) in *.
  replace (lc.1, lc.2) with lc by (destruct lc; reflexivity).
  rewrite Hn, Hns.
  destruct (parseNumber_loop_spec (at_pos (lit ++ rest) lc) Hns) as (Hloop & Hv & _).
  cbn [program line column at_pos fst snd] in *.
  rewrite Hloop, Hv, Hnt, Hnr, Hnv.
  replace (lc.1, lc.2) with lc by (destruct lc; reflexivity). reflexivity.
Qed.

(** Blanks before a token are skipped. *)
Lemma tokens_blank `{HostABI} fuel c rest lc :
  is_blank c = true ->
  tokens_from (S fuel) (at_pos (String c rest) lc)
  = tokens_from (S fuel) (at_pos rest (next_pos c lc)).
Proof.
  intros Hc.
  assert (Hn : is_nul c = false).
  { unfold is_blank in Hc. now destruct (is_nul c). }
  cbn [tokens_from]. rewrite !parserSkipWhiteSpace_spec.
  cbn [program line column at_pos fst snd parserPeek drop_while take_while].
  rewrite Hn, Hc. cbn [position_after].
  replace (lc.1, lc.2) with lc by (destruct lc; reflexivity).
  replace ((next_pos c lc).1, (next_pos c lc).2) with (next_pos c lc)
    by (destruct (next_pos c lc); reflexivity).
  destruct rest as [|d r].
  - reflexivity.
  - cbn [drop_while take_while].
    replace (parserPeek (at_pos (String d r) (next_pos c lc))) with d by reflexivity.
    destruct (is_blank d) eqn:Hd.
    + assert (Hnd : is_nul d = false).
      { unfold is_blank in Hd. now destruct (is_nul d). }
      rewrite Hnd. reflexivity.
    + cbn [position_after].
      replace (parserPeek (at_pos (String d r) (next_pos c lc))) with d by reflexivity.
      destruct (is_nul d); reflexivity.
Qed.

Lemma substring_prefix (a b : string) : substring 0 (String.length a) (a ++ b) = a.
Proof.
  induction a as [|c a IH].
  - destruct b; reflexivity.
  - change (String c (substring 0 (String.length a) (a ++ b)) = String c a).
    now rewrite IH.
Qed.

(** A run of word characters, ended by a blank or by the end of the
    text, is looked up as one word. *)
Lemma word_scan tok rest lc :
  tok <> "" -> string_forall is_word_char tok = true ->
  match rest with String c _ => is_word_char c = false | EmptyString => True end ->
  is_nul (parserPeek (at_pos (tok ++ rest) lc)) = false
  /\ drop_while is_blank (tok ++ rest) = (tok ++ rest)%string
  /\ take_while is_blank (tok ++ rest) = ""
  /\ parseSymbol_loop (String.length (tok ++ rest)) (at_pos (tok ++ rest) lc)
     = Some (at_pos rest (position_after tok lc))
  /\ symbol_text (tok ++ rest) (at_pos rest (position_after tok lc)) = tok.
Proof.
  intros Hne Hall Hrest.
  destruct (take_while_all is_word_char tok rest Hall Hrest) as [Htk Hdr].
  assert (Hloop := parseSymbol_loop_spec (at_pos (tok ++ rest) lc)).
  cbn [program line column at_pos fst snd] in Hloop. rewrite Htk, Hdr in Hloop.
  replace (lc.1, lc.2) with lc in Hloop by (destruct lc; reflexivity).
  assert (Hsym : symbol_text (tok ++ rest) (at_pos rest (position_after tok lc)) = tok).
  { unfold symbol_text. cbn [program at_pos]. rewrite string_length_app.
    replace (String.length tok + String.length rest - String.length rest)%nat
      with (String.length tok) by lia.
    apply substring_prefix. }
  destruct tok as [|c t]; [congruence|].
  simpl in Hall. apply andb_prop in Hall as [Hc _].
  assert (Hcn : is_nul c = false /\ is_blank c = false).
  { unfold is_word_char in Hc. unfold is_blank.
    destruct (is_nul c), (isspace c); simpl in *; auto; discriminate. }
  destruct Hcn as [Hn Hb].
  rewrite string_app_cons in *. unfold parserPeek. cbn [program at_pos drop_while take_while].
  rewrite Hn, Hb. auto.
Qed.

Lemma tokens_word `{HostABI} fuel tok rest lc p :
  tok <> "" -> string_forall is_word_char tok = true ->
  match rest with String c _ => is_word_char c = false | EmptyString => True end ->
  is_number_start (at_pos (tok ++ rest) lc) = false ->
  lookup_prim tok = Some p ->
  tokens_from (S fuel) (at_pos (tok ++ rest) lc)
  = scanned_cons (VSym tok) (tokens_from fuel (at_pos rest (position_after tok lc))).
Proof.
  intros Hne Hall Hrest Hns Hl.
  destruct (word_scan tok rest lc Hne Hall Hrest) as (Hn & Hdr & Htk & Hloop & Hsym).
  cbn [tokens_from]. rewrite Hn. rewrite parserSkipWhiteSpace_spec.
  cbn [program line column at_pos fst snd]. rewrite Hdr, Htk. cbn [position_after].
  replace (lc.1, lc.2) with lc by (destruct lc; reflexivity).
  rewrite Hn, Hns, Hloop. cbv zeta. rewrite Hsym, Hl. reflexivity.
Qed.

Lemma tokens_unknown_word `{HostABI} fuel tok rest lc :
  tok <> "" -> string_forall is_word_char tok = true ->
  match rest with String c _ => is_word_char c = false | EmptyString => True end ->
  is_number_start (at_pos (tok ++ rest) lc) = false ->
  lookup_prim tok = None ->
  tokens_from (S fuel) (at_pos (tok ++ rest) lc) = Some ([], Some lc).
Proof.
  intros Hne Hall Hrest Hns Hl.
  destruct (word_scan tok rest lc Hne Hall Hrest) as (Hn & Hdr & Htk & Hloop & Hsym).
  cbn [tokens_from]. rewrite Hn. rewrite parserSkipWhiteSpace_spec.
  cbn [program line column at_pos fst snd]. rewrite Hdr, Htk. cbn [position_after].
  replace (lc.1, lc.2) with lc by (destruct lc; reflexivity).
  rewrite Hn, Hns, Hloop. cbv zeta. rewrite Hsym, Hl.
  destruct lc; reflexivity.
Qed.

Lemma tokens_from_mono `{HostABI} fuel : forall p r fuel',
  tokens_from fuel p = Some r -> (fuel <= fuel')%nat -> tokens_from fuel' p = Some r.
Proof.
  induction fuel as [|fuel IH]; intros p r fuel' Htok Hle.
  - simpl in Htok. destruct (is_nul (parserPeek p)) eqn:Hn; [|discriminate].
    destruct fuel'; simpl; now rewrite Hn.
  - destruct fuel' as [|fuel']; [lia|].
    cbn [tokens_from] in *.
    destruct (is_nul (parserPeek p)); [exact Htok|].
    destruct (parserSkipWhiteSpace p) as [p1|]; [|discriminate].
    destruct (is_nul (parserPeek p1)); [exact Htok|].
    destruct (is_number_start p1).
    + destruct (parseNumber_loop _ _ p1) as [p2|]; [|discriminate].
      destruct (tokens_from fuel p2) as [r2|] eqn:Hrest; [|discriminate].
      rewrite (IH p2 r2 fuel' Hrest) by lia. exact Htok.
    + destruct (parseSymbol_loop _ p1) as [p2|]; [|discriminate].
      cbv zeta in *. destruct (lookup_prim _); [|exact Htok].
      destruct (tokens_from fuel p2) as [r2|] eqn:Hrest; [|discriminate].
      rewrite (IH p2 r2 fuel' Hrest) by lia. exact Htok.
Qed.

Lemma literal_length lit : is_literal lit = true -> (1 <= String.length lit)%nat.
Proof. destruct lit; [discriminate | simpl; lia]. Qed.

Lemma tokens_unfold `{HostABI} text :
  tokens text = tokens_from (String.length text) (at_pos text (1, 1)).
Proof. reflexivity. Qed.

Lemma tokens_one_literal `{HostABI} lit :
  is_literal lit = true ->
  tokens lit = Some ([VInt (to_int (clamp_long (literal_value lit)))], None).
Proof.
  intros Hlit. rewrite tokens_unfold. pose proof (literal_length lit Hlit) as Hlen.
  apply (tokens_from_mono 1); [|lia].
  rewrite <- (string_app_nil_r lit) at 1.
  rewrite tokens_literal by auto. now rewrite tokens_from_end.
Qed.

Lemma tokens_two_literals `{HostABI} la lb :
  is_literal la = true -> is_literal lb = true ->
  tokens (la ++ " " ++ lb)
  = Some ([VInt (to_int (clamp_long (literal_value la)));
           VInt (to_int (clamp_long (literal_value lb)))], None).
Proof.
  intros Ha Hb. rewrite tokens_unfold.
  pose proof (literal_length la Ha). pose proof (literal_length lb Hb).
  apply (tokens_from_mono 2).
  2:{ rewrite !string_length_app. simpl. lia. }
  rewrite tokens_literal by auto.
  change (" " ++ lb)%string with (String " " lb).
  rewrite tokens_blank by reflexivity.
  rewrite <- (string_app_nil_r lb) at 1.
  rewrite tokens_literal by auto. now rewrite tokens_from_end.
Qed.

Lemma tokens_binary `{HostABI} la lb op p :
  is_literal la = true -> is_literal lb = true ->
  op <> "" -> string_forall is_word_char op = true ->
  is_number_start (at_pos op (1, 1)) = false -> lookup_prim op = Some p ->
  tokens (la ++ " " ++ lb ++ " " ++ op)
  = Some ([VInt (to_int (clamp_long (literal_value la)));
           VInt (to_int (clamp_long (literal_value lb)));
           VSym op], None).
Proof.
  intros Ha Hb Hne Hw Hns Hl. rewrite tokens_unfold.
  pose proof (literal_length la Ha). pose proof (literal_length lb Hb).
  apply (tokens_from_mono 3).
  2:{ rewrite !string_length_app. simpl. lia. }
  rewrite tokens_literal by auto.
  change (" " ++ lb ++ " " ++ op)%string with (String " " (lb ++ String " " op)).
  rewrite tokens_blank by reflexivity.
  rewrite tokens_literal by auto.
  rewrite tokens_blank by reflexivity.
  rewrite <- (string_app_nil_r op) at 1.
  rewrite (tokens_word _ op "" _ p); auto.
  rewrite string_app_nil_r. exact Hns.
Qed.

Lemma literal_in_int `{HostABI} lit :
  in_int (literal_value lit) -> to_int (clamp_long (literal_value lit)) = literal_value lit.
Proof.
  intros Hr. rewrite clamp_long_small by exact Hr. now apply to_int_small.
Qed.

Lemma compile_finished `{HostABI} text toks :
  tokens text = Some (toks, None) ->
  exists w, compile text initial_world = Ret 1%nat w
            /\ list_values w 1%nat = Some toks /\ out w = "" /\ err w = "".
Proof.
  intros Htok.
  pose proof (compile_sound text _ initial_world [] ∅ Htok inv_initial) as Hs.
  apply wp_returns in Hs as (pl & w & Hc & Hpost). simpl in Hpost.
  destruct Hpost as (-> & pels & V' & I & _ & HV & [Ho He] & _).
  exists w. split; [exact Hc|].
  destruct (inv_list_values _ _ _ _ _ 1%nat pels I) as (_ & vs & Hvs & HV'); [left|].
  rewrite Hvs, (vals_functional _ _ _ _ HV' HV). auto.
Qed.

(* ================================================================== *)
(** * Scanning a text in two parts *)
(* ================================================================== *)

(** One turn of the loop of [compile], on the text alone. *)
Lemma symbol_text_spec s lc :
  symbol_text s (at_pos (drop_while is_word_char s) lc) = take_while is_word_char s.
Proof.
  unfold symbol_text. cbn [program at_pos].
  rewrite <- (take_drop_while is_word_char s) at 1 3.
  rewrite string_length_app.
  replace (String.length (take_while is_word_char s)
           + String.length (drop_while is_word_char s)
           - String.length (drop_while is_word_char s))%nat
    with (String.length (take_while is_word_char s)) by lia.
  apply substring_prefix.
Qed.

Lemma tokens_from_step `{HostABI} fuel s lc :
  is_nul (parserPeek (at_pos s lc)) = false ->
  tokens_from (S fuel) (at_pos s lc)
  = let s1 := drop_while is_blank s in
    let lc1 := position_after (take_while is_blank s) lc in
    if is_nul (parserPeek (at_pos s1 lc1)) then Some ([], None)
    else if is_number_start (at_pos s1 lc1) then
      scanned_cons (VInt (to_int (clamp_long (number_value s1))))
        (tokens_from fuel (at_pos (number_rest s1) (position_after (number_text s1) lc1)))
    else
      match lookup_prim (take_while is_word_char s1) with
      | None => Some ([], Some lc1)
      | Some _ =>
          scanned_cons (VSym (take_while is_word_char s1))
            (tokens_from fuel (at_pos (drop_while is_word_char s1)
                                      (position_after (take_while is_word_char s1) lc1)))
      end.
Proof.
  intros Hn. cbn [tokens_from]. rewrite Hn, parserSkipWhiteSpace_spec.
  cbn [program line column at_pos fst snd]. cbv zeta.
  replace (lc.1, lc.2) with lc by (destruct lc; reflexivity).
  set (s1 := drop_while is_blank s). set (lc1 := position_after _ lc).
  destruct (is_nul (parserPeek (at_pos s1 lc1))); [reflexivity|].
  destruct (is_number_start (at_pos s1 lc1)) eqn:Hns.
  - destruct (parseNumber_loop_spec _ Hns) as (Hloop & Hv & _).
    cbn [program line column at_pos fst snd] in *. rewrite Hloop, Hv.
    replace (lc1.1, lc1.2) with lc1 by (destruct lc1; reflexivity). reflexivity.
  - rewrite (word_spec s1 (String.length s1) lc1) by lia.
    cbn [program line column at_pos fst snd].
    replace (lc1.1, lc1.2) with lc1 by (destruct lc1; reflexivity).
    rewrite symbol_text_spec. destruct (lookup_prim _); reflexivity.
Qed.

Lemma ends_blank_tail c t : t <> "" -> ends_blank (String c t) = ends_blank t.
Proof. destruct t; [congruence | reflexivity]. Qed.

Lemma ends_blank_drop f s : ends_blank s = true -> ends_blank (drop_while f s) = true.
Proof.
  induction s as [|c t IH]; [auto|]. intros He. cbn [drop_while].
  destruct (f c); [|exact He].
  destruct t as [|d t']; [reflexivity|]. apply IH. exact He.
Qed.

Lemma drop_while_stops f s :
  (forall c, is_blank c = true -> f c = false) ->
  ends_blank s = true -> s <> "" -> drop_while f s <> "".
Proof.
  intros Hf. induction s as [|c t IH]; [congruence|]. intros He _. cbn [drop_while].
  destruct (f c) eqn:Hc; [|discriminate].
  destruct t as [|d t'].
  - simpl in He. rewrite (Hf c He) in Hc. discriminate.
  - apply IH; [exact He | discriminate].
Qed.

Lemma not_nul_drop f s :
  string_forall not_nul s = true -> string_forall not_nul (drop_while f s) = true.
Proof.
  induction s as [|c t IH]; [auto|]. intros Hn. cbn [drop_while].
  destruct (f c); [|exact Hn]. simpl in Hn. apply andb_prop in Hn as [_ Hn]. auto.
Qed.

Lemma take_drop_app_stop f a b :
  drop_while f a <> "" ->
  take_while f (a ++ b) = take_while f a
  /\ drop_while f (a ++ b) = (drop_while f a ++ b)%string.
Proof.
  induction a as [|c a IH]; [simpl; congruence|]. intros Hd.
  rewrite string_app_cons. cbn [take_while drop_while] in *.
  destruct (f c); [|auto]. destruct (IH Hd) as [-> ->]. auto.
Qed.

Lemma position_after_app a b lc :
  position_after (a ++ b) lc = position_after b (position_after a lc).
Proof.
  revert lc. induction a as [|c a IH]; intros lc; [reflexivity|].
  rewrite string_app_cons. simpl. apply IH.
Qed.

Lemma strtol_digits_app_stop a b : forall acc,
  drop_while isdigit a <> "" ->
  fst (strtol_digits acc (a ++ b)) = fst (strtol_digits acc a).
Proof.
  induction a as [|c a IH]; intros acc Hd; [simpl in Hd; congruence|].
  rewrite string_app_cons. cbn [strtol_digits drop_while] in *.
  destruct (isdigit c); [apply IH; exact Hd | reflexivity].
Qed.

Lemma blank_not_digit c : is_blank c = true -> isdigit c = false.
Proof.
  intros Hb. destruct (isdigit c) eqn:Hd; [|reflexivity].
  destruct (isdigit_facts c Hd) as (Hs & _). unfold is_blank in Hb.
  rewrite Hs, andb_false_r in Hb. discriminate.
Qed.

Lemma blank_not_word c : is_blank c = true -> is_word_char c = false.
Proof.
  unfold is_blank, is_word_char. destruct (is_nul c), (isspace c); simpl; congruence.
Qed.

Lemma not_word_not_digit c : is_word_char c = false -> isdigit c = false.
Proof.
  intros Hw. destruct (isdigit c) eqn:Hd; [|reflexivity].
  destruct (isdigit_facts c Hd) as (Hs & Hn & _). unfold is_word_char in Hw.
  rewrite Hs, Hn in Hw. discriminate.
Qed.

(** A number at the head of a text that ends with a blank is the same
    when more text follows. *)
Lemma number_app_stop s tail lc lc' :
  ends_blank s = true -> string_forall not_nul s = true ->
  is_number_start (at_pos s lc) = true ->
  is_number_start (at_pos (s ++ tail) lc') = true
  /\ number_text (s ++ tail) = number_text s
  /\ number_rest (s ++ tail) = (number_rest s ++ tail)%string
  /\ number_value (s ++ tail) = number_value s
  /\ ends_blank (number_rest s) = true
  /\ string_forall not_nul (number_rest s) = true.
Proof.
  intros He Hn Hns. destruct s as [|c t]; [discriminate|].
  unfold is_number_start, parserPeek in *. cbn [program at_pos] in *.
  rewrite string_app_cons.
  unfold number_text, number_rest, number_value.
  destruct (N_of_ascii c =? 45)%N eqn:Hm.
  - pose proof (minus_facts c Hm) as ->. simpl in Hns.
    destruct t as [|d t']; [discriminate|]. cbn [second_char] in Hns.
    rewrite ends_blank_tail in He by discriminate.
    simpl in Hn.
    assert (Hstop : drop_while isdigit (String d t') <> "").
    { apply drop_while_stops; [apply blank_not_digit | exact He | discriminate]. }
    destruct (take_drop_app_stop isdigit (String d t') tail Hstop) as [-> ->].
    rewrite (strtol_digits_app_stop (String d t') tail 0 Hstop).
    rewrite string_app_cons. cbn [second_char]. rewrite Hns.
    split; [reflexivity|]. split; [reflexivity|]. split; [reflexivity|]. split; [reflexivity|].
    split; [apply ends_blank_drop; exact He | apply not_nul_drop; exact Hn].
  - rewrite andb_false_l, orb_false_r in Hns.
    assert (Hstop : drop_while isdigit (String c t) <> "").
    { apply drop_while_stops; [apply blank_not_digit | exact He | discriminate]. }
    rewrite <- string_app_cons.
    destruct (take_drop_app_stop isdigit (String c t) tail Hstop) as [-> ->].
    rewrite (strtol_digits_app_stop (String c t) tail 0 Hstop).
    rewrite Hns.
    split; [reflexivity|]. split; [reflexivity|]. split; [reflexivity|]. split; [reflexivity|].
    split; [apply ends_blank_drop; exact He | apply not_nul_drop; exact Hn].
Qed.

Lemma number_start_app_false s tail lc lc' :
  ends_blank s = true -> s <> "" ->
  is_blank (parserPeek (at_pos s lc)) = false ->
  is_number_start (at_pos s lc) = false ->
  is_number_start (at_pos (s ++ tail) lc') = false.
Proof.
  intros He Hne Hb Hns. destruct s as [|c t]; [congruence|].
  unfold is_number_start, parserPeek in *. cbn [program at_pos] in *.
  destruct t as [|d t'].
  - simpl in He. congruence.
  - rewrite !string_app_cons. exact Hns.
Qed.

Lemma tokens_blanks `{HostABI} fuel ws : forall tail lc,
  string_forall is_blank ws = true ->
  tokens_from (S fuel) (at_pos (ws ++ tail) lc)
  = tokens_from (S fuel) (at_pos tail (position_after ws lc)).
Proof.
  induction ws as [|c ws IH]; intros tail lc Hws; [reflexivity|].
  simpl in Hws. apply andb_prop in Hws as [Hc Hws].
  rewrite string_app_cons, tokens_blank by exact Hc. cbn [position_after]. now apply IH.
Qed.

Lemma scanned_cons_Some v r toks e :
  scanned_cons v r = Some (toks, e) ->
  exists toks', r = Some (toks', e) /\ toks = v :: toks'.
Proof.
  destruct r as [[t e']|]; [|discriminate]. simpl. intros Hr. injection Hr as <- <-. eauto.
Qed.

(** The tokens of [pre ++ tail], when [pre] ends with a blank and
    compiles: those of [pre], and then those of [tail], scanned from
    the position [pre] ends at. *)
Lemma tokens_from_app `{HostABI} fuel : forall pre lc toks tail fuel2 r,
  string_forall not_nul pre = true -> ends_blank pre = true ->
  tokens_from fuel (at_pos pre lc) = Some (toks, None) ->
  tokens_from fuel2 (at_pos tail (position_after pre lc)) = Some r ->
  tokens_from (fuel + fuel2) (at_pos (pre ++ tail) lc) = Some (toks ++ fst r, snd r).
Proof.
  induction fuel as [|fuel IH]; intros pre lc toks tail fuel2 r Hnn He Hpre Htail.
  - destruct pre as [|c t].
    + simpl in Hpre. injection Hpre as <-.
      change (tokens_from fuel2 (at_pos tail lc) = Some r) in Htail.
      change (tokens_from fuel2 (at_pos tail lc) = Some ([] ++ r.1, r.2)).
      rewrite Htail. now destruct r.
    + simpl in Hnn. apply andb_prop in Hnn as [Hc _]. unfold not_nul in Hc.
      simpl in Hpre. unfold parserPeek in Hpre. simpl in Hpre.
      destruct (is_nul c); discriminate.
  - destruct pre as [|c t].
    + rewrite tokens_from_end in Hpre. injection Hpre as <-.
      change (tokens_from fuel2 (at_pos tail lc) = Some r) in Htail.
      change (tokens_from (S fuel + fuel2) (at_pos tail lc) = Some ([] ++ r.1, r.2)).
      rewrite (tokens_from_mono fuel2 _ r) by (assumption || lia).
      now destruct r.
    + assert (Hc : is_nul c = false).
      { simpl in Hnn. apply andb_prop in Hnn as [Hc _]. unfold not_nul in Hc.
        now destruct (is_nul c). }
      rewrite tokens_from_step in Hpre by exact Hc. cbv zeta in Hpre.
      set (pre0 := String c t) in *.
      set (s1 := drop_while is_blank pre0) in *.
      set (ws := take_while is_blank pre0) in *.
      assert (Hsplit : pre0 = (ws ++ s1)%string).
      { unfold ws, s1. now rewrite take_drop_while. }
      assert (Hws : string_forall is_blank ws = true) by apply take_while_forall.
      assert (He1 : ends_blank s1 = true) by (apply ends_blank_drop; exact He).
      assert (Hnn1 : string_forall not_nul s1 = true) by (apply not_nul_drop; exact Hnn).
      rewrite Hsplit, position_after_app in Htail.
      rewrite Hsplit, string_app_assoc.
      change (S fuel + fuel2)%nat with (S (fuel + fuel2)).
      rewrite tokens_blanks by exact Hws.
      set (lc1 := position_after ws lc) in *.
      destruct s1 as [|c1 t1] eqn:Es1.
      * (* only blanks were left *)
        simpl in Hpre. injection Hpre as <-.
        change (tokens_from fuel2 (at_pos tail lc1) = Some r) in Htail.
        change (tokens_from (S (fuel + fuel2)) (at_pos tail lc1) = Some ([] ++ r.1, r.2)).
        rewrite (tokens_from_mono fuel2 _ r) by (assumption || lia). now destruct r.
      * assert (Hc1 : is_nul c1 = false).
        { simpl in Hnn1. apply andb_prop in Hnn1 as [Hx _]. unfold not_nul in Hx.
          now destruct (is_nul c1). }
        assert (Hb1 : is_blank c1 = false).
        { pose proof (take_while_forall is_blank pre0) as _.
          assert (Hd : drop_while is_blank pre0 = String c1 t1) by exact Es1.
          clear - Hd. induction pre0 as [|a p IHp]; [discriminate|].
          simpl in Hd. destruct (is_blank a) eqn:Ha; [auto|]. injection Hd as <- _. exact Ha. }
        replace (parserPeek (at_pos (String c1 t1) lc1)) with c1 in Hpre by reflexivity.
        rewrite Hc1 in Hpre.
        rewrite tokens_from_step by exact Hc1. cbv zeta.
        assert (Hstop : drop_while is_blank (String c1 t1) = String c1 t1
                        /\ take_while is_blank (String c1 t1) = "").
        { simpl. rewrite Hb1. auto. }
        rewrite string_app_cons. cbn [drop_while take_while]. rewrite Hb1.
        cbn [position_after]. rewrite <- string_app_cons.
        replace (parserPeek (at_pos (String c1 t1 ++ tail)%string lc1)) with c1 by reflexivity.
        rewrite Hc1.
        destruct (is_number_start (at_pos (String c1 t1) lc1)) eqn:Hns.
        -- destruct (number_app_stop (String c1 t1) tail lc1 lc1 He1 Hnn1 Hns)
             as (Hns' & Hnt & Hnr & Hnv & He2 & Hnn2).
           rewrite Hns', Hnt, Hnr, Hnv.
           apply scanned_cons_Some in Hpre as (toks' & Hrest & ->).
           assert (Hs1 : String c1 t1 = (number_text (String c1 t1)
                                          ++ number_rest (String c1 t1))%string).
           { destruct (strtol_number_start _ _ Hns) as (_ & Hs & _). exact Hs. }
           rewrite Hs1, position_after_app in Htail.
           rewrite (IH _ _ toks' tail fuel2 r Hnn2 He2 Hrest Htail). reflexivity.
        -- rewrite (number_start_app_false (String c1 t1) tail lc1 lc1 He1) by
             (try discriminate; auto).
           assert (Hstopw : drop_while is_word_char (String c1 t1) <> "").
           { apply drop_while_stops; [apply blank_not_word | exact He1 | discriminate]. }
           destruct (take_drop_app_stop is_word_char (String c1 t1) tail Hstopw) as [-> ->].
           destruct (lookup_prim (take_while is_word_char (String c1 t1))); [|discriminate].
           apply scanned_cons_Some in Hpre as (toks' & Hrest & ->).
           assert (Hs1 : String c1 t1 = (take_while is_word_char (String c1 t1)
                                          ++ drop_while is_word_char (String c1 t1))%string).
           { now rewrite take_drop_while. }
           rewrite Hs1, position_after_app in Htail.
           rewrite (IH _ _ toks' tail fuel2 r) ; auto.
           ++ apply not_nul_drop; exact Hnn1.
           ++ apply ends_blank_drop; exact He1.
Qed.

Lemma compile_rejected `{HostABI} text toks l c :
  tokens text = Some (toks, Some (l, c)) ->
  exists w, compile text initial_world = Ret NULL w
            /\ err w = syntax_error_message l c /\ out w = "" /\ heap w = ∅.
Proof.
  intros Htok.
  pose proof (compile_sound text _ initial_world [] ∅ Htok inv_initial) as Hs.
  apply wp_returns in Hs as (pl & w & Hc & Hpost). simpl in Hpost.
  destruct Hpost as (-> & V' & I & _ & Ho & He).
  exists w. split; [exact Hc|]. split; [exact He|]. split; [exact Ho|].
  eapply inv_no_roots_empty; eauto.
Qed.

Lemma compile_success_tokens `{HostABI} text pl w :
  compile text initial_world = Ret pl w -> pl <> NULL ->
  exists toks, tokens text = Some (toks, None).
Proof.
  intros Hc Hpl. destruct (tokens_total text) as [[toks [[l c]|]] Htok]; [|eauto].
  destruct (compile_rejected text toks l c Htok) as (w' & Hc' & _).
  rewrite Hc in Hc'. injection Hc' as -> _. contradiction.
Qed.

Lemma lookup_prim_None s : lookupOperation s = None -> lookup_prim s = None.
Proof. rewrite lookupOperation_prim. destruct (lookup_prim s); [discriminate | reflexivity]. Qed.

Lemma number_start_word tok rest lc lc' :
  tok <> "" ->
  match rest with String c _ => is_word_char c = false | EmptyString => True end ->
  is_number_start (at_pos tok lc) = false ->
  is_number_start (at_pos (tok ++ rest) lc') = false.
Proof.
  intros Hne Hrest Hns. destruct tok as [|c t]; [congruence|].
  unfold is_number_start, parserPeek in *. cbn [program at_pos] in *.
  destruct t as [|d t']; [|rewrite !string_app_cons; exact Hns].
  rewrite string_app_cons. simpl "++". cbn [second_char] in *.
  apply orb_false_elim in Hns as [Hd _]. rewrite Hd. simpl.
  destruct rest as [|r rest']; cbn [second_char]; [now rewrite andb_false_r|].
  change ((N_of_ascii c =? 45)%N && isdigit r = false).
  rewrite (not_word_not_digit r Hrest). now rewrite andb_false_r.
Qed.

(** ** Numbers glued to a word *)

Lemma digits_app s rest :
  starts_with_digit rest = false ->
  take_while isdigit (s ++ rest) = take_while isdigit s
  /\ drop_while isdigit (s ++ rest) = (drop_while isdigit s ++ rest)%string
  /\ forall acc, fst (strtol_digits acc (s ++ rest)) = fst (strtol_digits acc s).
Proof.
  intros Hr. induction s as [|c s IH].
  - simpl. destruct rest as [|d r]; simpl in *; [auto|]. rewrite Hr. auto.
  - rewrite string_app_cons. simpl. destruct IH as (IH1 & IH2 & IH3).
    destruct (isdigit c); [|auto]. rewrite IH1, IH2. auto.
Qed.

Lemma number_app s rest lc lc' :
  s <> "" -> starts_with_digit rest = false ->
  is_number_start (at_pos (s ++ rest) lc') = is_number_start (at_pos s lc)
  /\ number_text (s ++ rest) = number_text s
  /\ number_rest (s ++ rest) = (number_rest s ++ rest)%string
  /\ number_value (s ++ rest) = number_value s.
Proof.
  intros Hne Hr. destruct s as [|c t]; [congruence|].
  rewrite string_app_cons.
  destruct (digits_app t rest Hr) as (Ht1 & Ht2 & Ht3).
  destruct (digits_app (String c t) rest Hr) as (Hs1 & Hs2 & Hs3).
  rewrite string_app_cons in Hs1, Hs2, Hs3.
  split.
  - unfold is_number_start, parserPeek. cbn [program at_pos].
    f_equal. f_equal. destruct t as [|d t']; [|reflexivity].
    simpl. destruct rest as [|d r]; [reflexivity|]. exact Hr.
  - unfold number_text, number_rest, number_value.
    destruct (N_of_ascii c =? 45)%N.
    + rewrite Ht1, Ht2, Ht3. auto.
    + rewrite Hs1, Hs2, Hs3. auto.
Qed.

Lemma string_forall_drop f g s :
  string_forall f s = true -> string_forall f (drop_while g s) = true.
Proof.
  induction s as [|c t IH]; [reflexivity|]. simpl. intros Hs.
  destruct (g c); [|exact Hs]. apply andb_prop in Hs as [_ Ht]. auto.
Qed.

Lemma number_rest_forall f s :
  string_forall f s = true -> string_forall f (number_rest s) = true.
Proof.
  destruct s as [|c t]; [reflexivity|]. unfold number_rest. intros Hs.
  destruct (N_of_ascii c =? 45)%N.
  - simpl in Hs. apply andb_prop in Hs as [_ Ht]. now apply string_forall_drop.
  - now apply string_forall_drop.
Qed.

Lemma string_forall_app f s t :
  string_forall f (s ++ t) = string_forall f s && string_forall f t.
Proof.
  induction s as [|c s IH]; [reflexivity|]. rewrite string_app_cons. simpl.
  rewrite IH. now rewrite andb_assoc.
Qed.

Lemma position_after_word s : forall lc,
  string_forall is_word_char s = true ->
  position_after s lc = (fst lc, snd lc + Z.of_nat (String.length s)).
Proof.
  induction s as [|c t IH]; intros lc Hs.
  - simpl. destruct lc. simpl. f_equal. lia.
  - simpl in Hs. apply andb_prop in Hs as [Hc Ht].
    cbn [position_after]. rewrite IH by assumption. unfold next_pos.
    destruct (N.eqb_spec (N_of_ascii c) 10) as [Heq|_].
    + unfold is_word_char, isspace in Hc. rewrite Heq in Hc. discriminate.
    + cbn [fst snd String.length]. f_equal. lia.
Qed.

(** The text of the numbers and what follows them make up the run. *)
Lemma glued_numbers_split n : forall s,
  s = (fst (glued_numbers n s) ++ snd (glued_numbers n s))%string.
Proof.
  induction n as [|n IH]; intros s; [reflexivity|]. cbn [glued_numbers].
  destruct (is_number_start (at_pos s (1, 1))) eqn:Hns; [|reflexivity].
  cbn [fst snd]. rewrite string_app_assoc, <- IH.
  apply (@strtol_number_start LP64 s (1, 1) Hns).
Qed.

Lemma glued_numbers_forall f n : forall s,
  string_forall f s = true -> string_forall f (snd (glued_numbers n s)) = true.
Proof.
  induction n as [|n IH]; intros s Hs; [exact Hs|]. cbn [glued_numbers].
  destruct (is_number_start (at_pos s (1, 1))); [|exact Hs].
  cbn [snd]. apply IH. now apply number_rest_forall.
Qed.

(** With enough fuel, what is left does not start a number. *)
Lemma glued_numbers_stop n : forall s lc,
  (String.length s <= n)%nat ->
  is_number_start (at_pos (snd (glued_numbers n s)) lc) = false.
Proof.
  induction n as [|n IH]; intros s lc Hn.
  - destruct s; [reflexivity | simpl in Hn; lia].
  - cbn [glued_numbers].
    destruct (is_number_start (at_pos s (1, 1))) eqn:Hns; [|exact Hns].
    cbn [snd]. apply IH.
    destruct (@strtol_number_start LP64 s (1, 1) Hns) as (_ & Hs & Hlen & _).
    rewrite Hs, string_length_app in Hn. lia.
Qed.

Lemma scanned_cons_Some' v r res :
  scanned_cons v r = Some res ->
  exists toks e, r = Some (toks, e) /\ res = (v :: toks, e).
Proof.
  destruct r as [[t e]|]; [|discriminate]. simpl. intros Hr. injection Hr as <-. eauto.
Qed.

(** The numbers glued to the front of a run are read one after the
    other; scanning then goes on with what is left. *)
Lemma tokens_glued `{HostABI} n : forall run rest lc,
  string_forall is_word_char run = true ->
  match rest with String c _ => is_word_char c = false | EmptyString => True end ->
  exists vs, forall fuel r,
    fold_right scanned_cons
      (tokens_from fuel (at_pos (snd (glued_numbers n run) ++ rest)
                                (position_after (fst (glued_numbers n run)) lc)))
      vs = Some r ->
    tokens_from (n + fuel) (at_pos (run ++ rest) lc) = Some r.
Proof.
  induction n as [|n IH]; intros run rest lc Hw Hrest.
  - exists []. intros fuel r Hr. exact Hr.
  - cbn [glued_numbers].
    destruct (is_number_start (at_pos run (1, 1))) eqn:Hns.
    2:{ exists []. intros fuel r Hr. cbn [fst snd position_after fold_right] in Hr.
        eapply tokens_from_mono; [exact Hr | lia]. }
    assert (Hne : run <> "") by (intros ->; discriminate Hns).
    assert (Hd : starts_with_digit rest = false).
    { destruct rest as [|c r]; [reflexivity|]. simpl. now apply not_word_not_digit. }
    destruct (number_app run rest (1, 1) lc Hne Hd) as (Hns' & Hnt & Hnr & Hnv).
    rewrite Hns in Hns'.
    destruct (word_scan run rest lc Hne Hw Hrest) as (Hn & Hdr & Htk & _).
    destruct (IH (number_rest run) rest (position_after (number_text run) lc)
                (number_rest_forall _ _ Hw) Hrest) as [vs Hvs].
    exists (VInt (to_int (clamp_long (number_value run))) :: vs).
    intros fuel r Hr. cbn [fst snd fold_right] in Hr.
    apply scanned_cons_Some' in Hr as (toks' & e & Hr & ->).
    rewrite position_after_app in Hr. apply Hvs in Hr.
    change (S n + fuel)%nat with (S (n + fuel)).
    rewrite (tokens_from_step _ _ _ Hn). cbv zeta.
    rewrite Hdr, Htk. cbn [position_after]. rewrite Hn, Hns', Hnt, Hnr, Hnv, Hr.
    reflexivity.
Qed.

Lemma tokens_any_fuel `{HostABI} fuel text r :
  tokens_from fuel (at_pos text (1, 1)) = Some r -> tokens text = Some r.
Proof.
  intros Hr. destruct (tokens_total text) as [sc Hsc].
  rewrite Hsc. rewrite tokens_unfold in Hsc.
  pose proof (tokens_from_mono _ _ _ (fuel + String.length text) Hr ltac:(lia)) as H1.
  pose proof (tokens_from_mono _ _ _ (fuel + String.length text) Hsc ltac:(lia)) as H2.
  congruence.
Qed.

(** The scanning of [pre ++ run ++ rest], where the run starts after a
    blank or at the start of the text. *)
Lemma tokens_run `{HostABI} pre run rest toks :
  string_forall not_nul pre = true -> ends_blank pre = true ->
  tokens pre = Some (toks, None) ->
  string_forall is_word_char run = true ->
  match rest with String c _ => is_word_char c = false | EmptyString => True end ->
  exists vs, forall fuel r,
    fold_right scanned_cons
      (tokens_from fuel (at_pos (trailing_word run ++ rest)
                                (position_after (pre ++ leading_numbers run) (1, 1))))
      vs = Some r ->
    tokens (pre ++ run ++ rest) = Some (toks ++ fst r, snd r).
Proof.
  intros Hnn He Htok Hw Hrest. rewrite tokens_unfold in Htok.
  destruct (tokens_glued (String.length run) run rest (position_after pre (1, 1)) Hw Hrest)
    as [vs Hvs].
  exists vs. intros fuel r Hr. rewrite position_after_app in Hr.
  apply Hvs in Hr.
  apply (tokens_any_fuel (String.length pre + (String.length run + fuel))).
  exact (tokens_from_app _ pre (1, 1) toks (run ++ rest) _ _ Hnn He Htok Hr).
Qed.

Lemma scanned_cons_all vs toks e :
  fold_right scanned_cons (Some (toks, e)) vs = Some (vs ++ toks, e).
Proof. induction vs as [|v vs IH]; [reflexivity|]. simpl. rewrite IH. reflexivity. Qed.

Lemma leading_numbers_word run :
  string_forall is_word_char run = true ->
  string_forall is_word_char (leading_numbers run) = true.
Proof.
  intros Hw. rewrite (glued_numbers_split (String.length run) run) in Hw.
  rewrite string_forall_app in Hw. now apply andb_prop in Hw as [H1 _].
Qed.

(* ================================================================== *)
(** * The instances are well formed *)
(* ================================================================== *)

Lemma nested_heap :
  heap nested_state
  = <[1%nat := mk_tfobj TF_OBJ_LIST 1 (list_obj [2%nat; 4%nat] 16)]>
      (<[2%nat := mk_tfobj TF_OBJ_LIST 1 (list_obj [3%nat] 16)]>
         (<[3%nat := mk_tfobj TF_OBJ_INT 1 (number 7)]>
            (<[4%nat := mk_tfobj TF_OBJ_INT 1 (number 5)]> ∅))).
Proof. vm_compute. reflexivity. Qed.

Lemma nested_state_counted : counted nested_state [1%nat].
Proof.
  exists [(1%nat, [2%nat; 4%nat]); (2%nat, [3%nat])].
  assert (Hlook : forall a o, heap nested_state !! a = Some o ->
            (a = 1%nat /\ o = mk_tfobj TF_OBJ_LIST 1 (list_obj [2%nat; 4%nat] 16))
            \/ (a = 2%nat /\ o = mk_tfobj TF_OBJ_LIST 1 (list_obj [3%nat] 16))
            \/ (a = 3%nat /\ o = mk_tfobj TF_OBJ_INT 1 (number 7))
            \/ (a = 4%nat /\ o = mk_tfobj TF_OBJ_INT 1 (number 5))).
  { intros a o. rewrite nested_heap.
    rewrite !lookup_insert_Some, lookup_empty. intuition (try discriminate; auto). }
  constructor.
  - reflexivity.
  - simpl. apply NoDup_cons. split; [rewrite list_elem_of_singleton; discriminate|].
    apply NoDup_singleton.
  - intros r els Hin. rewrite !elem_of_cons in Hin.
    destruct Hin as [Heq|[Heq|Hin]]; [| |inversion Hin]; injection Heq as -> ->;
      eexists _, _; (split; [vm_compute; reflexivity|]); split; reflexivity.
  - intros a o Ha Hty _. destruct (Hlook a o Ha) as [[-> ->]|[[-> ->]|[[-> ->]|[-> ->]]]];
      try discriminate; simpl; rewrite !elem_of_cons; auto.
  - intros a o Ha _. destruct (Hlook a o Ha) as [[-> ->]|[[-> ->]|[[-> ->]|[-> ->]]]];
      vm_compute; split; reflexivity.
  - intros a Ha. split; [apply not_elem_of_nil|]. simpl in Ha.
    rewrite !elem_of_cons in Ha.
    destruct Ha as [->|[->|[->|[->|Ha]]]]; [| | | |inversion Ha]; vm_compute; eauto.
  - intros a Ha. inversion Ha.
Qed.

(* ================================================================== *)
(** * Properties of the interpreter *)
(* ================================================================== *)

(** C1.  Whenever [compile] succeeds, every element of the program it
    returns is an Integer or a Symbol that [lookupOperation] resolves;
    and running the compiled program, as [main] does, never takes the
    unknown-word or the unexecutable-object exit of the engine.  The
    run returns; or it exits, and then on stack underflow or on
    division by zero; or it faults, and then in [/], at the division of
    [INT_MIN] by [-1], which is where the run of the program on values
    is [Crashed].  The loops never exhaust their fuel. *)
Theorem compiled_program_resolves `{HostABI} (text : string) (pl : addr) (w : world) :
  compile text initial_world = Ret pl w -> pl <> NULL ->
  (exists vs, list_values w pl = Some vs /\ Forall valid_token vs)
  /\ match compile_and_execute text initial_world with
     | Ret _ _ => True
     | Exit f _ => f <> UnknownWord /\ f <> UnexecutableObject
                   /\ (f = StackUnderflow \/ f = DivisionByZero)
     | Fault => exists vs, list_values w pl = Some vs /\ sem_program vs [] = Crashed
     | Timeout => False
     end.
Proof.
  intros Hc Hpl.
  destruct (tokens_total text) as [[toks e] Htok].
  pose proof (compile_sound text _ initial_world [] ∅ Htok inv_initial) as Hs.
  pose proof (wp_Ret_inv _ _ _ _ _ _ Hs Hc) as Hpost. simpl in Hpost.
  destruct e as [[l c]|].
  { destruct Hpost as [-> _]. contradiction. }
  destruct Hpost as (-> & pels & V' & I & _ & HV & _).
  pose proof (tokens_from_valid _ _ _ _ Htok) as Hval.
  destruct (inv_list_values _ _ _ _ _ 1%nat pels I) as (_ & vs & Hvs & HV'); [left|].
  rewrite (vals_functional _ _ _ _ HV' HV) in Hvs.
  split.
  - exists toks. split; [exact Hvs | exact Hval].
  - pose proof (compile_and_execute_sound text toks initial_world ∅ Htok inv_initial) as Hr.
    unfold wpx in Hr.
    destruct (compile_and_execute text initial_world) as [r w'|f w'| |];
      try contradiction.
    + exact Logic.I.
    + destruct Hr as (st & o & e & ext & Hsem & _).
      destruct (sem_program_valid _ _ _ _ _ _ Hval Hsem) as [-> | ->];
        (split; [discriminate|]; split; [discriminate|]; auto).
    + exists toks. split; [exact Hvs | exact Hr].
Qed.

Lemma compiled_program_resolves_witness :
  @compile LP64 "1 2 +" initial_world = Ret 1%nat (compiled_state "1 2 +")
  /\ 1%nat <> NULL
  /\ exists vs, list_values (compiled_state "1 2 +") 1%nat = Some vs
                /\ Forall valid_token vs.
Proof.
  assert (Hc : @compile LP64 "1 2 +" initial_world = Ret 1%nat (compiled_state "1 2 +"))
    by (vm_compute; reflexivity).
  assert (Hn : 1%nat <> NULL) by discriminate.
  split; [exact Hc|]. split; [exact Hn|].
  exact (proj1 (@compiled_program_resolves LP64 "1 2 +" 1%nat _ Hc Hn)).
Defined.

(** C2.  For literals [la] and [lb] with values [a] and [b] in the range
    of [int], the programs ["la lb +"], ["la lb -"] and ["la lb *"], run
    from the empty stack, each leave exactly one Integer: [a + b],
    [a - b] and [a * b] in 32-bit two's complement.  After ["la lb"]
    the stack holds [a] below [b], so [b] is popped first. *)
Theorem arithmetic_programs `{HostABI} (la lb : string) :
  is_literal la = true -> is_literal lb = true ->
  in_int (literal_value la) -> in_int (literal_value lb) ->
  (exists w, compile_and_execute (la ++ " " ++ lb ++ " +") initial_world
             = Ret (1%nat, {| stack := 5%nat |}) w
             /\ list_values w 5%nat
                = Some [VInt (to_int (literal_value la + literal_value lb))])
  /\ (exists w, compile_and_execute (la ++ " " ++ lb ++ " -") initial_world
                = Ret (1%nat, {| stack := 5%nat |}) w
                /\ list_values w 5%nat
                   = Some [VInt (to_int (literal_value la - literal_value lb))])
  /\ (exists w, compile_and_execute (la ++ " " ++ lb ++ " *") initial_world
                = Ret (1%nat, {| stack := 5%nat |}) w
                /\ list_values w 5%nat
                   = Some [VInt (to_int (literal_value la * literal_value lb))])
  /\ (exists w, compile_and_execute (la ++ " " ++ lb) initial_world
                = Ret (1%nat, {| stack := 4%nat |}) w
                /\ list_values w 4%nat
                   = Some [VInt (literal_value la); VInt (literal_value lb)]).
Proof.
  intros Ha Hb Hra Hrb.
  pose proof (literal_in_int la Hra) as Ea. pose proof (literal_in_int lb Hrb) as Eb.
  assert (Hbin : forall op p f,
    op <> "" -> string_forall is_word_char op = true ->
    is_number_start (at_pos op (1, 1)) = false -> lookup_prim op = Some p ->
    (forall x y, sem_prim p [VInt x; VInt y] = Next [VInt (to_int (f x y))] "") ->
    exists w, compile_and_execute (la ++ " " ++ lb ++ " " ++ op) initial_world
              = Ret (1%nat, {| stack := 5%nat |}) w
              /\ list_values w 5%nat
                 = Some [VInt (to_int (f (literal_value la) (literal_value lb)))]).
  { intros op p f Hne Hw Hns Hl Hsem.
    pose proof (tokens_binary la lb op p Ha Hb Hne Hw Hns Hl) as Htok.
    rewrite Ea, Eb in Htok.
    destruct (run_finished _ _ [VInt (to_int (f (literal_value la) (literal_value lb)))] ""
                Htok) as (w & Hrun & Hran).
    { simpl. rewrite Hl, Hsem. reflexivity. }
    exists w. split; [exact Hrun|].
    destruct (ran_values _ _ _ _ _ _ _ Hran) as [Hst _]. exact Hst. }
  split; [|split; [|split]].
  - apply (Hbin "+" PAdd Z.add); try reflexivity; discriminate.
  - apply (Hbin "-" PSub Z.sub); try reflexivity; discriminate.
  - apply (Hbin "*" PMul Z.mul); try reflexivity; discriminate.
  - pose proof (tokens_two_literals la lb Ha Hb) as Htok. rewrite Ea, Eb in Htok.
    destruct (run_finished _ _ [VInt (literal_value la); VInt (literal_value lb)] "" Htok)
      as (w & Hrun & Hran); [reflexivity|].
    exists w. split; [exact Hrun|].
    destruct (ran_values _ _ _ _ _ _ _ Hran) as [Hst _]. exact Hst.
Qed.

Lemma arithmetic_programs_witness :
  is_literal "7" = true /\ is_literal "-3" = true
  /\ in_int (literal_value "7") /\ in_int (literal_value "-3")
  /\ exists w, @compile_and_execute LP64 "7 -3 -" initial_world
               = Ret (1%nat, {| stack := 5%nat |}) w
               /\ list_values w 5%nat = Some [VInt 10].
Proof.
  assert (H7 : in_int (literal_value "7")) by (vm_compute; split; intros Hx; discriminate Hx).
  assert (H3 : in_int (literal_value "-3")) by (vm_compute; split; intros Hx; discriminate Hx).
  split; [reflexivity|]. split; [reflexivity|]. split; [exact H7|]. split; [exact H3|].
  exact (proj1 (proj2 (@arithmetic_programs LP64 "7" "-3" eq_refl eq_refl H7 H3))).
Defined.




(** C4.  A well-formed literal whose value [n] is in the range of [int]
    compiles, and running it from the empty stack leaves exactly one
    value, the Integer [n]. *)
Theorem literal_program `{HostABI} (lit : string) :
  is_literal lit = true -> in_int (literal_value lit) ->
  exists w, compile_and_execute lit initial_world = Ret (1%nat, {| stack := 3%nat |}) w
            /\ list_values w 1%nat = Some [VInt (literal_value lit)]
            /\ list_values w 3%nat = Some [VInt (literal_value lit)]
            /\ out w = "" /\ err w = "".
Proof.
  intros Hlit Hr. pose proof (tokens_one_literal lit Hlit) as Htok.
  rewrite (literal_in_int lit Hr) in Htok.
  destruct (run_finished _ _ [VInt (literal_value lit)] "" Htok) as (w & Hrun & Hran);
    [reflexivity|].
  exists w. split; [exact Hrun|].
  destruct (ran_values _ _ _ _ _ _ _ Hran) as [Hst Hpl].
  destruct (ran_io _ _ _ _ _ _ Hran). auto.
Qed.

Lemma literal_program_witness :
  is_literal "-42" = true /\ in_int (literal_value "-42")
  /\ exists w, @compile_and_execute LP64 "-42" initial_world
               = Ret (1%nat, {| stack := 3%nat |}) w
               /\ list_values w 3%nat = Some [VInt (-42)].
Proof.
  assert (Hr : in_int (literal_value "-42")) by (vm_compute; split; intros Hx; discriminate Hx).
  split; [reflexivity|]. split; [exact Hr|].
  destruct (@literal_program LP64 "-42" eq_refl Hr) as (w & Hrun & _ & Hv & _).
  exists w. split; [exact Hrun | exact Hv].
Defined.

(** C5.  On an empty stack [dup] returns without touching anything, so
    the program goes on, whereas [drop] writes the underflow diagnostic
    and exits at once.  So the program ["dup"] completes with an empty
    stack and nothing on [stderr], and the program ["drop"] is a fatal
    stack underflow. *)
Theorem dup_drop_empty_stack `{HostABI} (ctx : tfcontext) (w : world) (o : tfobj) (cap : Z) :
  heap w !! stack ctx = Some o -> data o = list_obj [] cap ->
  operationDup ctx w = Ret tt w
  /\ operationDrop ctx w = Exit StackUnderflow (add_err underflow_message w)
  /\ (exists w1, compile_and_execute "dup" initial_world = Ret (1%nat, {| stack := 3%nat |}) w1
                 /\ list_values w1 3%nat = Some [] /\ out w1 = "" /\ err w1 = "")
  /\ (exists w2, compile_and_execute "drop" initial_world = Exit StackUnderflow w2
                 /\ list_values w2 3%nat = Some []
                 /\ out w2 = "" /\ err w2 = underflow_message).
Proof.
  intros Ho Hd. split; [|split; [|split]].
  - unfold operationDup, bind, load, get_list. rewrite Ho, Hd. reflexivity.
  - unfold operationDrop, bind. erewrite stackPop_empty; eauto.
  - destruct (run_finished "dup" [VSym "dup"] [] "") as (w1 & Hrun & Hran);
      [tokens_of_text | reflexivity |].
    exists w1. split; [exact Hrun|].
    destruct (ran_values _ _ _ _ _ _ _ Hran) as [Hst _].
    destruct (ran_io _ _ _ _ _ _ Hran). auto.
  - destruct (run_aborted "drop" [VSym "drop"] StackUnderflow [] "" underflow_message)
      as (w2 & ext & Hrun & Hran); [tokens_of_text | reflexivity |].
    exists w2. split; [exact Hrun|].
    destruct (ran_values _ _ _ _ _ _ _ Hran) as [Hst _].
    destruct (ran_io _ _ _ _ _ _ Hran). auto.
Qed.

Lemma dup_drop_empty_stack_witness :
  heap (state_after "") !! 2%nat
  = Some (mk_tfobj TF_OBJ_LIST 1 (list_obj [] INITIAL_STACK_CAPACITY))
  /\ operationDup {| stack := 2%nat |} (state_after "") = Ret tt (state_after "")
  /\ operationDrop {| stack := 2%nat |} (state_after "")
     = Exit StackUnderflow (add_err underflow_message (state_after "")).
Proof.
  assert (Hs : heap (state_after "") !! stack {| stack := 2%nat |}
               = Some (mk_tfobj TF_OBJ_LIST 1 (list_obj [] INITIAL_STACK_CAPACITY)))
    by (vm_compute; reflexivity).
  split; [exact Hs|].
  destruct (@dup_drop_empty_stack LP64 {| stack := 2%nat |} (state_after "") _ _ Hs eq_refl)
    as (Hdup & Hdrop & _).
  split; [exact Hdup | exact Hdrop].
Defined.

(** C6.  Let the text be [pre ++ run ++ rest], where [pre] is free of
    NUL, is empty or ends with a blank, and compiles on its own; [run]
    is made of characters that are neither blank nor NUL; and [rest] is
    empty or starts with a blank or NUL: [run] is a maximal token that
    compilation reaches.  [compile] first reads the integer literals
    glued to the front of the run, [leading_numbers run]: none when the
    run starts with neither a digit nor a minus sign and a digit.  What
    is left, [trailing_word run], is looked up as one word.  When that
    word is not empty and not in the dictionary, [compile] fails: it
    returns the null pointer, having freed every block and written the
    diagnostic with the 1-based line and column of the first character
    of the word, which is the position reached after reading [pre],
    moved right by the length of the glued numbers; this is the first
    character of the run when no number is glued to it.  Otherwise the
    run is accepted.  So ["3 foo"] is rejected at line 1, column 3. *)
Theorem unknown_word_position `{HostABI} (pre run rest : string) :
  string_forall not_nul pre = true ->
  ends_blank pre = true ->
  (exists pl w, compile pre initial_world = Ret pl w /\ pl <> NULL) ->
  string_forall is_word_char run = true ->
  match rest with String c _ => is_word_char c = false | EmptyString => True end ->
  run = (leading_numbers run ++ trailing_word run)%string
  /\ is_number_start (at_pos (trailing_word run) (1, 1)) = false
  /\ (is_number_start (at_pos run (1, 1)) = false ->
      leading_numbers run = "" /\ trailing_word run = run)
  /\ (trailing_word run <> "" -> lookupOperation (trailing_word run) = None ->
      exists w, compile (pre ++ run ++ rest) initial_world = Ret NULL w
                /\ err w = syntax_error_message
                             (fst (position_after pre (1, 1)))
                             (snd (position_after pre (1, 1))
                              + Z.of_nat (String.length (leading_numbers run)))
                /\ out w = "" /\ heap w = ∅)
  /\ (trailing_word run = "" \/ lookupOperation (trailing_word run) <> None ->
      exists pl w, compile (pre ++ run) initial_world = Ret pl w /\ pl <> NULL
                   /\ err w = "")
  /\ (exists w, compile "3 foo" initial_world = Ret NULL w
                /\ err w = ("Syntax error. Check line 1 column 3." ++ nl)%string
                /\ out w = "" /\ heap w = ∅).
Proof.
  intros Hnn He (pl & w0 & Hc & Hpl) Hw Hrest.
  destruct (compile_success_tokens pre pl w0 Hc Hpl) as [toks Htok].
  pose proof (glued_numbers_stop (String.length run) run (1, 1) (le_n _)) as Hstop.
  fold (trailing_word run) in Hstop.
  pose proof (glued_numbers_forall is_word_char (String.length run) run Hw) as Hww.
  fold (trailing_word run) in Hww.
  split; [apply glued_numbers_split|]. split; [exact Hstop|]. split; [|split; [|split]].
  - intros Hns. unfold leading_numbers, trailing_word.
    destruct run as [|c t]; [auto|]. cbn [String.length glued_numbers]. rewrite Hns. auto.
  - intros Hne Hl.
    set (lc := position_after (pre ++ leading_numbers run) (1, 1)).
    assert (Htail : tokens_from 1 (at_pos (trailing_word run ++ rest) lc) = Some ([], Some lc)).
    { apply tokens_unknown_word; auto.
      - eapply number_start_word; eauto.
      - now apply lookup_prim_None. }
    destruct (tokens_run pre run rest toks Hnn He Htok Hw Hrest) as [vs Hvs].
    specialize (Hvs 1%nat (vs ++ [], Some lc)). fold lc in Hvs.
    rewrite Htail, scanned_cons_all in Hvs. specialize (Hvs eq_refl). cbn [fst snd] in Hvs.
    assert (Hlc : lc = (fst (position_after pre (1, 1)),
                        snd (position_after pre (1, 1))
                        + Z.of_nat (String.length (leading_numbers run)))).
    { unfold lc. rewrite position_after_app.
      apply position_after_word. now apply leading_numbers_word. }
    rewrite Hlc in Hvs.
    destruct (compile_rejected _ _ _ _ Hvs) as (w & Hcw & Herr & Hout & Hheap).
    exists w. auto.
  - intros Hacc.
    destruct (tokens_run pre run "" toks Hnn He Htok Hw I) as [vs Hvs].
    set (lc := position_after (pre ++ leading_numbers run) (1, 1)) in *.
    assert (Htail : exists ts, tokens_from 1 (at_pos (trailing_word run ++ "") lc)
                               = Some (ts, None)).
    { destruct (string_dec (trailing_word run) "") as [Hemp|Hne].
      - rewrite Hemp. exists []. apply tokens_from_end.
      - destruct Hacc as [Hemp|Hl]; [contradiction|].
        rewrite lookupOperation_prim in Hl.
        destruct (lookup_prim (trailing_word run)) as [p|] eqn:Hp; [|contradiction].
        exists [VSym (trailing_word run)].
        rewrite (tokens_word _ _ _ _ p); auto.
        rewrite string_app_nil_r. exact Hstop. }
    destruct Htail as [ts Htail].
    specialize (Hvs 1%nat (vs ++ ts, None)).
    rewrite Htail, scanned_cons_all in Hvs. specialize (Hvs eq_refl). cbn [fst snd] in Hvs.
    rewrite string_app_nil_r in Hvs.
    destruct (compile_finished _ _ Hvs) as (w & Hcw & _ & _ & Herr).
    exists 1%nat, w. split; [exact Hcw|]. split; [discriminate | exact Herr].
  - destruct (compile_rejected "3 foo" [VInt 3] 1 3) as (w & Hcw & Herr & Hout & Hheap);
      [tokens_of_text|].
    exists w. auto.
Qed.

Lemma unknown_word_position_witness :
  string_forall not_nul "dup " = true /\ ends_blank "dup " = true
  /\ string_forall is_word_char "3foo" = true
  /\ leading_numbers "3foo" = "3" /\ trailing_word "3foo" = "foo"
  /\ lookupOperation "foo" = None
  /\ exists w, @compile LP64 "dup 3foo" initial_world = Ret NULL w
               /\ err w = syntax_error_message 1 6.
Proof.
  split; [reflexivity|]. split; [reflexivity|]. split; [reflexivity|].
  split; [reflexivity|]. split; [reflexivity|]. split; [reflexivity|].
  assert (Hpre : exists pl w, @compile LP64 "dup " initial_world = Ret pl w /\ pl <> NULL).
  { exists 1%nat, (compiled_state "dup "). split; [vm_compute; reflexivity | discriminate]. }
  destruct (@unknown_word_position LP64 "dup " "3foo" "" eq_refl eq_refl Hpre eq_refl I)
    as (_ & _ & _ & Hrej & _).
  assert (Hne : trailing_word "3foo" <> "") by discriminate.
  destruct (Hrej Hne eq_refl) as (w & Hc & He & _).
  exists w. split; [exact Hc | exact He].
Defined.

(** The column is not always that of the first character of the
    token, and a token that is neither a literal nor in the dictionary
    can be accepted.  ["5abc"] is one token; it is rejected at column
    2, where the word [abc] starts, after the number [5].  ["2dup"] is
    neither an integer literal nor a word of the dictionary, and it
    compiles, to the Integer [2] and the word [dup]. *)
Lemma unknown_word_glued_to_number :
  string_forall is_word_char "5abc" = true /\ is_literal "5abc" = false
  /\ lookupOperation "5abc" = None
  /\ @compile LP64 "5abc" initial_world = Ret NULL (compiled_state "5abc")
  /\ err (compiled_state "5abc") = ("Syntax error. Check line 1 column 2." ++ nl)%string
  /\ string_forall is_word_char "2dup" = true /\ is_literal "2dup" = false
  /\ lookupOperation "2dup" = None
  /\ @compile LP64 "2dup" initial_world = Ret 1%nat (compiled_state "2dup")
  /\ list_values (compiled_state "2dup") 1%nat = Some [VInt 2; VSym "dup"]
  /\ err (compiled_state "2dup") = "".
Proof. vm_compute. repeat split. Qed.

(** C7.  For every text, [compile] returns: either the program list,
    holding exactly the objects of the tokens of the text, each owned
    by the list alone, with nothing written to [stderr]; or the null
    pointer, after the diagnostic, with every block allocated on the
    way freed again. *)
Theorem compile_all_or_nothing `{HostABI} (text : string) :
  exists pl w,
    compile text initial_world = Ret pl w
    /\ ((pl <> NULL
         /\ (exists toks pels V,
               tokens text = Some (toks, None)
               /\ inv w [(pl, pels)] [] V
               /\ list_values w pl = Some toks)
         /\ err w = "" /\ out w = "")
        \/ (pl = NULL
            /\ heap w = ∅
            /\ (exists toks l c,
                  tokens text = Some (toks, Some (l, c))
                  /\ err w = syntax_error_message l c)
            /\ out w = "")).
Proof.
  destruct (tokens_total text) as [[toks e] Htok].
  pose proof (compile_sound text _ initial_world [] ∅ Htok inv_initial) as Hs.
  apply wp_returns in Hs as (pl & w & Hc & Hpost).
  exists pl, w. split; [exact Hc|]. simpl in Hpost.
  destruct e as [[l c]|].
  - right. destruct Hpost as (-> & V' & I & _ & Ho & He).
    split; [reflexivity|]. split; [eapply inv_no_roots_empty; eauto|].
    split; [|exact Ho]. exists toks, l, c. split; [exact Htok|]. exact He.
  - left. destruct Hpost as (-> & pels & V' & I & _ & HV & [Ho He] & _).
    split; [discriminate|]. split; [|split; assumption].
    exists toks, pels, V'. split; [exact Htok|]. split; [exact I|].
    destruct (inv_list_values _ _ _ _ _ 1%nat pels I) as (_ & vs & Hvs & HV'); [left|].
    now rewrite Hvs, (vals_functional _ _ _ _ HV' HV).
Qed.

(** C8.  The program ["1 2 swap"] leaves [2] at the bottom of the stack
    and [1] on top; printing twice from there writes ["1 2 "], and so
    does the program ["1 2 swap . ."]. *)
Theorem swap_then_print `{HostABI} :
  exists w,
    compile_and_execute "1 2 swap" initial_world = Ret (1%nat, {| stack := 5%nat |}) w
    /\ list_values w 5%nat = Some [VInt 2; VInt 1]
    /\ out w = ""
    /\ (exists w',
          (operationPrint {| stack := 5%nat |} ;;; operationPrint {| stack := 5%nat |}) w
          = Ret tt w'
          /\ out w' = "1 2 " /\ list_values w' 5%nat = Some [])
    /\ (exists w'',
          compile_and_execute "1 2 swap . ." initial_world
          = Ret (1%nat, {| stack := 7%nat |}) w''
          /\ out w'' = "1 2 " /\ list_values w'' 7%nat = Some []).
Proof.
  destruct (run_finished "1 2 swap" [VInt 1; VInt 2; VSym "swap"] [VInt 2; VInt 1] "")
    as (w & Hrun & Hran); [tokens_of_text | reflexivity |].
  exists w. split; [exact Hrun|].
  destruct (ran_values _ _ _ _ _ _ _ Hran) as [Hst _].
  destruct (ran_io _ _ _ _ _ _ Hran) as [Ho He].
  split; [exact Hst|]. split; [exact Ho|]. split.
  - destruct Hran as (sels & pels & V & I & HVs & _).
    set (ctx := {| stack := 5%nat |}).
    pose proof (sim_print ctx _ w sels V _ I HVs) as H1.
    unfold wp, bind in *.
    destruct (operationPrint ctx w) as [[] w1|f w1| |]; try contradiction.
    2:{ destruct H1 as (? & ? & ? & ? & ? & Hsem & _). discriminate Hsem. }
    destruct H1 as (svs1 & o1 & sels1 & V1 & Hsem1 & I1 & _ & HV1 & Ho1 & _).
    injection Hsem1 as <- <-.
    pose proof (sim_print ctx _ w1 sels1 V1 _ I1 HV1) as H2. unfold wp in H2.
    destruct (operationPrint ctx w1) as [[] w2|f w2| |]; try contradiction.
    2:{ destruct H2 as (? & ? & ? & ? & ? & Hsem & _). discriminate Hsem. }
    destruct H2 as (svs2 & o2 & sels2 & V2 & Hsem2 & I2 & _ & HV2 & Ho2 & _).
    injection Hsem2 as <- <-.
    exists w2. split; [reflexivity|]. split.
    + rewrite Ho2, Ho1, Ho. reflexivity.
    + exact (inv_stack_values _ _ ctx _ _ _ _ _ I2 HV2).
  - destruct (run_finished "1 2 swap . ."
                [VInt 1; VInt 2; VSym "swap"; VSym "."; VSym "."] [] "1 2 ")
      as (w'' & Hrun' & Hran'); [tokens_of_text | reflexivity |].
    exists w''. split; [exact Hrun'|].
    destruct (ran_values _ _ _ _ _ _ _ Hran') as [Hst' _].
    destruct (ran_io _ _ _ _ _ _ Hran') as [Ho' _]. auto.
Qed.

(** C9.  Each of [+], [-], [*] and [/], on a stack whose two topmost
    elements [pa] (below) and [pb] (on top) are not both Integers,
    whatever they are: Booleans, Strings, Symbols, lists, the same
    block twice.  The state is any state whose reference counts are
    exact, the context holding one reference to the stack; every state
    the interpreter reaches is one ([well_formed_counted]).  The
    primitive returns normally; the stack is two elements shorter;
    nothing was pushed, allocated or printed; the reference counts are
    exact again, for the same outside references, so that the two
    references the stack held are gone.  A block that remains kept
    its type and its contents, and lost at least the references the
    stack held; an operand with no other reference was freed (a list
    with the references it holds, in turn).  When no list is freed,
    nothing else changed: each operand lost exactly the references the
    stack held. *)
Theorem arithmetic_on_non_integers (op : Operation) (ctx : tfcontext) (w : world)
    (ext els : list addr) (pa pb : addr) (oa ob : tfobj) :
  In op [operationAdd; operationSub; operationMul; operationDiv] ->
  counted w (stack ctx :: ext) ->
  list_elements w (stack ctx) = Some (els ++ [pa; pb]) ->
  heap w !! pa = Some oa -> heap w !! pb = Some ob ->
  both_int oa ob = false ->
  exists w',
    op ctx w = Ret tt w'
    /\ list_elements w' (stack ctx) = Some els
    /\ brk w' = brk w /\ out w' = out w /\ err w' = err w
    /\ counted w' (stack ctx :: ext)
    /\ (forall x o', heap w' !! x = Some o' ->
          exists o, heap w !! x = Some o /\ type o' = type o
                    /\ (x <> stack ctx -> data o' = data o)
                    /\ refcount o' <= refcount o - count x [pa; pb])
    /\ (forall x o, x ∈ [pa; pb] -> heap w !! x = Some o ->
          refcount o = count x [pa; pb] -> heap w' !! x = None)
    /\ ((type oa <> TF_OBJ_LIST \/ refcount oa <> count pa [pa; pb]) ->
        (type ob <> TF_OBJ_LIST \/ refcount ob <> count pb [pa; pb]) ->
        released ctx [pa; pb] w w').
Proof.
  intros Hop [R C] Hel Hoa Hob Hni.
  assert (Hbin : is_binop op).
  { destruct arith_ops_are_binops as (H1 & H2 & H3 & H4).
    simpl in Hop. destruct Hop as [<-|[<-|[<-|[<-|[]]]]]; assumption. }
  destruct Hbin as [K ->].
  exact (binop_releases K ctx w R ext els pa pb oa ob C Hel Hoa Hob Hni).
Qed.

Lemma arithmetic_on_non_integers_witness :
  counted nested_state [1%nat]
  /\ list_elements nested_state 1%nat = Some [2%nat; 4%nat]
  /\ list_elements nested_state 2%nat = Some [3%nat]
  /\ exists w', operationAdd {| stack := 1%nat |} nested_state = Ret tt w'
                /\ list_elements w' 1%nat = Some []
                /\ heap w' !! 2%nat = None.
Proof.
  assert (Hel : list_elements nested_state (stack {| stack := 1%nat |})
                = Some ([] ++ [2%nat; 4%nat])) by (vm_compute; reflexivity).
  assert (Hoa : heap nested_state !! 2%nat
                = Some (mk_tfobj TF_OBJ_LIST 1 (list_obj [3%nat] 16)))
    by (vm_compute; reflexivity).
  assert (Hob : heap nested_state !! 4%nat = Some (mk_tfobj TF_OBJ_INT 1 (number 5)))
    by (vm_compute; reflexivity).
  split; [exact nested_state_counted|]. split; [exact Hel|].
  split; [vm_compute; reflexivity|].
  destruct (arithmetic_on_non_integers operationAdd {| stack := 1%nat |} nested_state
              [] [] 2%nat 4%nat _ _ (or_introl eq_refl) nested_state_counted Hel Hoa Hob
              eq_refl)
    as (w' & Hop & Hst & _ & _ & _ & _ & _ & Hfreed & _).
  exists w'. split; [exact Hop|]. split; [exact Hst|].
  apply (Hfreed 2%nat _ ltac:(left) Hoa). reflexivity.
Defined.

(** C10.  Every well-formed literal compiles, whatever its size.  The
    value [strtol] returns is the value of the literal clamped to the
    range of [long], and the Integer that is built holds that value
    converted to [int], that is, reduced modulo [2^32] into the range
    of [int].  With a 64-bit [long], ["4294967296"] compiles to the
    Integer [0]. *)
Theorem literal_truncation `{HostABI} (lit : string) :
  is_literal lit = true ->
  strtol lit = (clamp_long (literal_value lit), "")
  /\ (exists w, compile lit initial_world = Ret 1%nat w
                /\ list_values w 1%nat = Some [VInt (to_int (fst (strtol lit)))]
                /\ err w = "")
  /\ in_int (to_int (fst (strtol lit)))
  /\ (to_int (fst (strtol lit)) - fst (strtol lit)) mod 4294967296 = 0
  /\ (exists w, @compile LP64 "4294967296" initial_world = Ret 1%nat w
                /\ list_values w 1%nat = Some [VInt 0]).
Proof.
  intros Hlit.
  destruct (literal_scan lit "" (1, 1) Hlit eq_refl) as (_ & _ & _ & Hns & _ & Hnr & Hnv).
  rewrite string_app_nil_r in *.
  destruct (strtol_number_start lit (1, 1) Hns) as (Hst & _).
  rewrite Hnr, Hnv in Hst.
  split; [exact Hst|]. rewrite Hst. cbn [fst].
  split; [|split; [apply to_int_range | split; [apply to_int_congruent|]]].
  - destruct (compile_finished lit _ (tokens_one_literal lit Hlit)) as (w & Hc & Hv & _ & He).
    eauto.
  - destruct (@compile_finished LP64 "4294967296" [VInt 0]) as (w & Hc & Hv & _).
    + vm_compute. reflexivity.
    + eauto.
Qed.

Lemma literal_truncation_witness :
  is_literal "4294967296" = true
  /\ @strtol LP64 "4294967296" = (4294967296, "")
  /\ exists w, @compile LP64 "4294967296" initial_world = Ret 1%nat w
               /\ list_values w 1%nat = Some [VInt 0].
Proof.
  destruct (@literal_truncation LP64 "4294967296" eq_refl) as (Hst & (w & Hc & Hv & _) & _).
  split; [reflexivity|]. split; [exact Hst|].
  exists w. split; [exact Hc | exact Hv].
Defined.

(* ================================================================== *)
(** * Auxiliary lemmas for the further properties *)
(* ================================================================== *)

(** ** Running the heap primitives *)

(** Equations for running the heap primitives. *)
Lemma bind_ret_l {A B} (a : A) (k : A -> M B) w : bind (ret a) k w = k a w.
Proof. reflexivity. Qed.

Lemma bind_load {B} p o (k : tfobj -> M B) w :
  heap w !! p = Some o -> bind (load p) k w = k o w.
Proof. intros Hp. unfold bind, load. rewrite Hp. reflexivity. Qed.

Lemma bind_store {B} p o o0 (k : unit -> M B) w :
  heap w !! p = Some o0 ->
  bind (store p o) k w = k tt (set_heap (<[p := o]> (heap w)) w).
Proof. intros Hp. unfold bind, store. rewrite Hp. reflexivity. Qed.

Lemma set_heap_set_heap h h' w : set_heap h (set_heap h' w) = set_heap h w.
Proof. reflexivity. Qed.

Lemma set_heap_id w : set_heap (heap w) w = w.
Proof. destruct w; reflexivity. Qed.

Lemma incrementReferenceCount_live p o w :
  heap w !! p = Some o -> p <> NULL ->
  incrementReferenceCount p w
  = Ret tt (set_heap (<[p := mk_tfobj (type o) (refcount o + 1) (data o)]> (heap w)) w).
Proof.
  intros Hp Hn. unfold incrementReferenceCount.
  destruct (Nat.eqb_spec p NULL) as [->|_]; [contradiction|].
  rewrite (bind_load _ _ _ _ Hp). unfold store. rewrite Hp. reflexivity.
Qed.

(** Releasing a reference that is not the last one. *)
Lemma decrementReferenceCount_shared p o w :
  heap w !! p = Some o -> p <> NULL -> refcount o <> 1 ->
  decrementReferenceCount p w
  = Ret tt (set_heap (<[p := mk_tfobj (type o) (refcount o - 1) (data o)]> (heap w)) w).
Proof.
  intros Hp Hn Hrc. unfold decrementReferenceCount. simpl.
  destruct (Nat.eqb_spec p NULL) as [->|_]; [contradiction|].
  rewrite (bind_load _ _ _ _ Hp). rewrite (bind_store _ _ _ _ _ Hp).
  destruct (Z.eqb_spec (refcount o - 1) 0) as [Hz|_]; [lia|]. reflexivity.
Qed.

Lemma createStringObject_alloc s len w :
  (len <= String.length s)%nat ->
  createStringObject s len w
  = Ret (brk w) (alloc (mk_tfobj TF_OBJ_STR 1
                          (str_obj (substring 0 len s) (Z.of_nat len))) w).
Proof.
  intros Hlen.
  unfold createStringObject, createObject, bind, malloc, load; simpl.
  rewrite !lookup_insert_eq.
  destruct (Nat.leb_spec len (String.length s)); [|lia].
  unfold store, ret, set_heap, alloc; simpl.
  repeat (rewrite lookup_insert_eq; simpl).
  now rewrite !insert_insert_eq.
Qed.

Lemma decrementReferenceCount_last p o w :
  heap w !! p = Some o -> p <> NULL -> refcount o = 1 ->
  type_eqb (type o) TF_OBJ_LIST = false ->
  decrementReferenceCount p w = Ret tt (set_heap (delete p (heap w)) w).
Proof.
  intros Hp Hn Hrc Hty. unfold decrementReferenceCount. simpl.
  destruct (Nat.eqb_spec p NULL) as [->|_]; [contradiction|].
  rewrite (bind_load _ _ _ _ Hp). rewrite (bind_store _ _ _ _ _ Hp).
  destruct (Z.eqb_spec (refcount o - 1) 0) as [_|Hz]; [|lia].
  unfold freeObject_with.
  destruct (Nat.eqb_spec p NULL) as [->|_]; [contradiction|].
  erewrite bind_load; [|simpl; apply lookup_insert_eq].
  simpl. rewrite Hty. unfold bind at 1. simpl. unfold free. simpl.
  rewrite lookup_insert_eq. unfold set_heap. simpl. rewrite delete_insert_eq.
  reflexivity.
Qed.

Lemma alloc_release o w :
  heap w !! brk w = None ->
  set_heap (delete (brk w) (heap (alloc o w))) (alloc o w)
  = mk_world (heap w) (S (brk w)) (out w) (err w).
Proof.
  intros Hf. unfold set_heap, alloc. simpl. rewrite delete_insert_eq.
  rewrite delete_id by exact Hf. reflexivity.
Qed.

Lemma listAppendObject_live l ty rc els cap x ox w :
  heap w !! l = Some (mk_tfobj ty rc (list_obj els cap)) ->
  heap w !! x = Some ox -> x <> l -> x <> NULL ->
  0 < cap -> Z.of_nat (length els) <= cap ->
  listAppendObject l x w
  = Ret tt (set_heap
              (<[x := mk_tfobj (type ox) (refcount ox + 1) (data ox)]>
                 (<[l := mk_tfobj ty rc
                          (list_obj (els ++ [x])
                             (if Z.of_nat (length els) >=? cap then cap * 2 else cap))]>
                    (heap w))) w).
Proof.
  intros Hl Hx Hxl Hn Hcap Hlen. unfold listAppendObject.
  rewrite (bind_load _ _ _ _ Hl). change (get_list _) with (@ret (list addr * Z) (els, cap)). rewrite bind_ret_l. simpl.
  set (cap' := if Z.of_nat (length els) >=? cap then cap * 2 else cap).
  assert (Hlt : (Z.of_nat (length els) <? cap') = true).
  { apply Z.ltb_lt. unfold cap'. destruct (Z.geb_spec (Z.of_nat (length els)) cap); lia. }
  rewrite Hlt. rewrite (bind_store _ _ _ _ _ Hl).
  erewrite incrementReferenceCount_live;
    [reflexivity | simpl; rewrite lookup_insert_ne by congruence; exact Hx | exact Hn].
Qed.

Lemma stackPop_live ctx ty rc els x cap w :
  heap w !! stack ctx = Some (mk_tfobj ty rc (list_obj (els ++ [x]) cap)) ->
  stackPop ctx w
  = Ret x (set_heap (<[stack ctx := mk_tfobj ty rc (list_obj els cap)]> (heap w)) w).
Proof.
  intros Hs. unfold stackPop.
  rewrite (bind_load _ _ _ _ Hs). change (get_list _) with (@ret (list addr * Z) (els ++ [x], cap)). rewrite bind_ret_l. simpl.
  destruct (last_index els x) as [Hlast Htake].
  destruct (Nat.eqb_spec (length (els ++ [x])) 0) as [Hz|_].
  { rewrite length_app in Hz. simpl in Hz. lia. }
  rewrite Hlast, Htake. rewrite (bind_store _ _ _ _ _ Hs). reflexivity.
Qed.

Ltac heap_lookup :=
  simpl;
  repeat first [rewrite lookup_insert_eq | rewrite lookup_insert_ne by congruence];
  first [eassumption | reflexivity].

Lemma operationSwap_live ctx ty rc els a b cap oa ob w :
  heap w !! stack ctx = Some (mk_tfobj ty rc (list_obj (els ++ [a; b]) cap)) ->
  heap w !! a = Some oa -> heap w !! b = Some ob ->
  a <> stack ctx -> b <> stack ctx -> a <> NULL -> b <> NULL ->
  0 < refcount oa -> 0 < refcount ob ->
  Z.of_nat (length els) + 2 <= cap ->
  operationSwap ctx w
  = Ret tt (set_heap (<[stack ctx := mk_tfobj ty rc (list_obj (els ++ [b; a]) cap)]> (heap w)) w).
Proof.
  intros Hs Ha Hb Has Hbs Han Hbn Hra Hrb Hlen.
  unfold operationSwap.
  change (els ++ [a; b]) with (els ++ [a] ++ [b]) in Hs. rewrite app_assoc in Hs.
  unfold bind at 1. rewrite (stackPop_live _ _ _ _ _ _ _ Hs).
  unfold bind at 1. erewrite stackPop_live; [|heap_lookup].
  unfold bind at 1. unfold stackPush.
  erewrite (listAppendObject_live _ _ _ els cap b ob); [|heap_lookup|heap_lookup|congruence|congruence|lia|lia].
  destruct (Z.geb_spec (Z.of_nat (length els)) cap) as [Hge|_]; [lia|].
  destruct (decide (a = b)) as [->|Hab].
  - unfold bind at 1.
    erewrite (listAppendObject_live _ _ _ (els ++ [b]) cap b);
      [|heap_lookup|heap_lookup|congruence|congruence|lia|rewrite length_app; simpl; lia].
    destruct (Z.geb_spec (Z.of_nat (length (els ++ [b]))) cap) as [Hge|_];
      [rewrite length_app in Hge; simpl in Hge; lia|].
    unfold bind at 1.
    erewrite decrementReferenceCount_shared; [|heap_lookup|congruence|simpl; lia].
    erewrite decrementReferenceCount_shared; [|heap_lookup|congruence|simpl; lia].
    simpl. f_equal. unfold set_heap. simpl. f_equal.
    rewrite <- app_assoc. simpl.
    replace (refcount ob + 1 + 1 - 1 - 1) with (refcount ob) by lia.
    apply map_eq. intros i.
    destruct (decide (i = stack ctx)) as [->|His].
    { repeat first [rewrite lookup_insert_eq | rewrite lookup_insert_ne by congruence]. reflexivity. }
    destruct (decide (i = b)) as [->|Hib].
    { repeat first [rewrite lookup_insert_eq | rewrite lookup_insert_ne by congruence].
      rewrite Hb. destruct ob; reflexivity. }
    repeat first [rewrite lookup_insert_eq | rewrite lookup_insert_ne by congruence]. reflexivity.
  - unfold bind at 1.
    erewrite (listAppendObject_live _ _ _ (els ++ [b]) cap a oa);
      [|heap_lookup|heap_lookup|congruence|congruence|lia|rewrite length_app; simpl; lia].
    destruct (Z.geb_spec (Z.of_nat (length (els ++ [b]))) cap) as [Hge|_];
      [rewrite length_app in Hge; simpl in Hge; lia|].
    unfold bind at 1.
    erewrite decrementReferenceCount_shared; [|heap_lookup|congruence|simpl; lia].
    erewrite decrementReferenceCount_shared; [|heap_lookup|congruence|simpl; lia].
    simpl. f_equal. unfold set_heap. simpl. f_equal.
    rewrite <- app_assoc. simpl.
    replace (refcount oa + 1 - 1) with (refcount oa) by lia.
    replace (refcount ob + 1 - 1) with (refcount ob) by lia.
    apply map_eq. intros i.
    destruct (decide (i = stack ctx)) as [->|His].
    { repeat first [rewrite lookup_insert_eq | rewrite lookup_insert_ne by congruence]. reflexivity. }
    destruct (decide (i = b)) as [->|Hib].
    { repeat first [rewrite lookup_insert_eq | rewrite lookup_insert_ne by congruence].
      rewrite Hb. destruct ob; reflexivity. }
    destruct (decide (i = a)) as [->|Hia].
    { repeat first [rewrite lookup_insert_eq | rewrite lookup_insert_ne by congruence].
      rewrite Ha. destruct oa; reflexivity. }
    repeat first [rewrite lookup_insert_eq | rewrite lookup_insert_ne by congruence]. reflexivity.
Qed.

Lemma decrementReferenceCount_last_list p o cap w :
  heap w !! p = Some o -> p <> NULL -> refcount o = 1 ->
  data o = list_obj [] cap ->
  decrementReferenceCount p w = Ret tt (set_heap (delete p (heap w)) w).
Proof.
  intros Hp Hn Hrc Hd. unfold decrementReferenceCount. simpl.
  destruct (Nat.eqb_spec p NULL) as [->|_]; [contradiction|].
  rewrite (bind_load _ _ _ _ Hp). rewrite (bind_store _ _ _ _ _ Hp).
  destruct (Z.eqb_spec (refcount o - 1) 0) as [_|Hz]; [|lia].
  unfold freeObject_with.
  destruct (Nat.eqb_spec p NULL) as [->|_]; [contradiction|].
  erewrite bind_load; [|simpl; apply lookup_insert_eq].
  simpl. unfold get_list. simpl. rewrite Hd.
  assert (Hfree : free p (set_heap (<[p:={| type := type o; refcount := refcount o - 1; data := list_obj [] cap |}]> (heap w)) w)
                  = Ret tt (set_heap (delete p (heap w)) w)).
  { unfold free. simpl. rewrite lookup_insert_eq. unfold set_heap. simpl.
    rewrite delete_insert_eq. reflexivity. }
  destruct (type_eqb (type o) TF_OBJ_LIST); unfold bind; simpl; exact Hfree.
Qed.

(** ** The driver *)

Lemma inv_roots_swap D w r1 e1 r2 e2 R ext V :
  inv_gen D w ((r1, e1) :: (r2, e2) :: R) ext V ->
  inv_gen D w ((r2, e2) :: (r1, e1) :: R) ext V.
Proof.
  intros I.
  assert (Hmem : forall a, a ∈ ((r2, e2) :: (r1, e1) :: R).*1
                           <-> a ∈ ((r1, e1) :: (r2, e2) :: R).*1).
  { intros a. simpl. rewrite !elem_of_cons. tauto. }
  assert (Hcnt : forall a, count a (refs ((r2, e2) :: (r1, e1) :: R) ++ ext)
                           = count a (refs ((r1, e1) :: (r2, e2) :: R) ++ ext)).
  { intros a. rewrite !refs_cons, !count_app. lia. }
  assert (Hrefs : forall a, a ∈ (refs ((r2, e2) :: (r1, e1) :: R) ++ ext)
                            <-> a ∈ (refs ((r1, e1) :: (r2, e2) :: R) ++ ext)).
  { intros a. rewrite !refs_cons, !elem_of_app. tauto. }
  constructor.
  - exact (inv_brk _ _ _ _ _ I).
  - exact (inv_dom _ _ _ _ _ I).
  - exact (inv_ghost _ _ _ _ _ I).
  - pose proof (inv_nodup _ _ _ _ _ I) as Hnd. simpl in *.
    rewrite !NoDup_cons in *. rewrite !elem_of_cons in *.
    destruct Hnd as (H1 & H2 & H3). split; [|split; [|exact H3]].
    + intros [->|Hin]; [apply H1; left; reflexivity | contradiction].
    + intros Hin. apply H1. right. exact Hin.
  - intros r els Hin. apply (inv_root _ _ _ _ _ I).
    rewrite !elem_of_cons in *. tauto.
  - intros a o Ha Hnr HnD. rewrite Hcnt. apply (inv_obj _ _ _ _ _ I a o Ha); [|exact HnD].
    intros Hin. apply Hnr. apply Hmem. exact Hin.
  - intros a Ha. apply Hrefs in Ha.
    destruct (inv_ref _ _ _ _ _ I a Ha) as (Hnr & HnD & Hlive).
    split; [|split; assumption]. intros Hin. apply Hnr. apply Hmem. exact Hin.
Qed.

Lemma main_unfold `{HostABI} text w :
  main text w
  = (r <- compile_and_execute text ;;
     decrementReferenceCount (fst r) ;;;
     freeContext (snd r) ;;;
     ret EXIT_SUCCESS) w.
Proof.
  unfold main, compile_and_execute, bind.
  destruct (compile text w) as [pl w1|f w1| |]; try reflexivity.
  destruct (createContext w1) as [ctx w2|f w2| |]; try reflexivity.
  destruct (execute pl (Some ctx) w2) as [u w3|f w3| |]; reflexivity.
Qed.

(** The clean-up at the end of [main], from a state with the stack and
    the program as the only roots. *)
Lemma wp_cleanup w ctx sels pl pels V :
  inv w [(stack ctx, sels); (pl, pels)] [] V ->
  wp (decrementReferenceCount pl ;;; freeContext ctx ;;; ret EXIT_SUCCESS) w
     (fun r w' => r = EXIT_SUCCESS /\ heap w' = ∅ /\ same_io w w') (fun _ _ => False).
Proof.
  intros I. apply inv_roots_swap in I.
  apply wp_bind. eapply wp_post; [apply (wp_decrement_root _ _ _ _ _ _ _ I)|].
  intros _ w1 (I1 & Hio1 & _).
  apply wp_bind. unfold freeContext.
  eapply wp_post; [apply (wp_decrement_root _ _ _ _ _ _ _ I1)|].
  intros _ w2 (I2 & Hio2 & _). apply wp_ret.
  split; [reflexivity|]. split; [exact (inv_no_roots_empty _ _ I2)|].
  eapply same_io_trans; eauto.
Qed.

Lemma wp_cleanup_rejected w ctx V :
  inv w [(stack ctx, [])] [] V ->
  wp (decrementReferenceCount NULL ;;; freeContext ctx ;;; ret EXIT_SUCCESS) w
     (fun r w' => r = EXIT_SUCCESS /\ heap w' = ∅ /\ same_io w w') (fun _ _ => False).
Proof.
  intros I. apply wp_bind. unfold wp at 1. simpl.
  apply wp_bind. unfold freeContext.
  eapply wp_post; [apply (wp_decrement_root _ _ _ _ _ _ _ I)|].
  intros _ w2 (I2 & Hio2 & _). apply wp_ret.
  split; [reflexivity|]. split; [exact (inv_no_roots_empty _ _ I2)|exact Hio2].
Qed.

(** [main], by the result of scanning the text. *)
Lemma main_sound `{HostABI} text :
  match tokens text with
  | Some (toks, None) =>
      match sem_program toks [] with
      | Finished st o =>
          exists w, main text initial_world = Ret EXIT_SUCCESS w
                    /\ heap w = ∅ /\ out w = o /\ err w = ""
      | Aborted f st o e =>
          exists w, main text initial_world = Exit f w
                    /\ (f = StackUnderflow \/ f = DivisionByZero)
                    /\ out w = o /\ err w = e
      | Crashed => main text initial_world = Fault
      end
  | Some (toks, Some (l, c)) =>
      exists w, main text initial_world = Ret EXIT_SUCCESS w
                /\ heap w = ∅ /\ out w = "" /\ err w = syntax_error_message l c
  | None => False
  end.
Proof.
  destruct (tokens_total text) as [[toks [[l c]|]] Htok]; rewrite Htok.
  - pose proof (compile_and_execute_rejected text toks l c initial_world ∅ Htok inv_initial) as Hr.
    rewrite main_unfold. unfold wp in Hr.
    destruct (compile_and_execute text initial_world) as [[pl ctx] w1|f w1| |] eqn:Hce;
      try contradiction.
    rewrite (bind_Ret _ _ _ _ _ Hce).
    simpl in Hr. destruct Hr as (-> & (V & I) & Ho & He).
    destruct (wp_returns _ _ _ (wp_cleanup_rejected w1 ctx V I))
      as (r & w2 & Heq & -> & Hh & Ho2 & He2).
    exists w2. split; [exact Heq|]. split; [exact Hh|].
      split; [rewrite Ho2, Ho; reflexivity | rewrite He2, He; reflexivity].
  - pose proof (compile_and_execute_sound text toks initial_world ∅ Htok inv_initial) as Hr.
    rewrite main_unfold. unfold wpx in Hr.
    destruct (compile_and_execute text initial_world) as [[pl ctx] w1|f w1| |] eqn:Hce;
      try contradiction.
    3:{ rewrite Hr. unfold bind. rewrite Hce. reflexivity. }
    + rewrite (bind_Ret _ _ _ _ _ Hce).
      destruct Hr as (Heq & st & o & Hsem & Hran). rewrite Hsem.
      injection Heq as -> ->.
      destruct Hran as (sels & pels & V & I & _ & _ & Ho & He).
      destruct (wp_returns _ _ _
                  (wp_cleanup w1 {| stack := (brk initial_world + 1 + length toks)%nat |}
                     sels _ pels V I))
        as (r & w2 & Heq & -> & Hh & Ho2 & He2).
      exists w2. split; [exact Heq|]. split; [exact Hh|].
      split; [rewrite Ho2, Ho; reflexivity | rewrite He2, He; reflexivity].
    + rewrite (bind_Exit _ _ _ _ _ Hce).
      destruct Hr as (st & o & e & ext & Hsem & Hran). rewrite Hsem.
      exists w1. split; [reflexivity|].
      split.
      { eapply sem_program_valid; [|exact Hsem]. unfold tokens in Htok.
        eapply tokens_from_valid; eauto. }
      destruct Hran as (sels & pels & V & I & _ & _ & Ho & He).
      split; [rewrite Ho; reflexivity | rewrite He; reflexivity].
Qed.

(** ** Diagnostics and ranges *)

Lemma sem_prim_diagnostic p st f st' e :
  sem_prim p st = Halt f st' e ->
  (f = StackUnderflow \/ f = DivisionByZero) /\ e = diagnostic f.
Proof.
  destruct p; simpl; unfold sem_arith, sem_div, sem_print, sem_dup, sem_drop, sem_swap;
    repeat match goal with
           | |- context [match unsnoc ?x with _ => _ end] => destruct (unsnoc x) as [[? ?]|]
           | |- context [match ?v with VInt _ => _ | _ => _ end] => destruct v
           | |- context [if ?c then _ else _] => destruct c
           end;
    intros Hh; inversion Hh; auto.
Qed.

Lemma sem_program_diagnostic toks : forall st f st' o e,
  Forall valid_token toks ->
  sem_program toks st = Aborted f st' o e ->
  (f = StackUnderflow \/ f = DivisionByZero) /\ e = diagnostic f.
Proof.
  induction toks as [|v toks IH]; intros st f st' o e Hval Hrun.
  - discriminate.
  - inversion Hval as [|? ? Hv Hval']; subst. simpl in Hrun.
    destruct (sem_object v st) as [st1 o1|f1 st1 e1|] eqn:Hobj; [| |discriminate].
    + destruct (sem_program toks st1) as [st2 o2|f2 st2 o2 e2|] eqn:Hrest;
        [discriminate| |discriminate].
      injection Hrun as <- <- <- <-. eapply IH; eauto.
    + injection Hrun as <- <- <- <-.
      destruct v as [n|n|s|s]; simpl in *; try contradiction; try discriminate.
      rewrite lookupOperation_prim in Hv.
      destruct (lookup_prim s) as [p|]; [|contradiction].
      eapply sem_prim_diagnostic; eauto.
Qed.

Lemma tokens_valid `{HostABI} text toks e :
  tokens text = Some (toks, e) -> Forall valid_token toks.
Proof. unfold tokens. apply tokens_from_valid. Qed.

Lemma tokens_from_int `{HostABI} fuel : forall p toks e,
  tokens_from fuel p = Some (toks, e) ->
  Forall (fun v => match v with VInt n => in_int n | _ => True end) toks.
Proof.
  induction fuel as [|fuel IH]; intros p toks e; simpl.
  - destruct (is_nul (parserPeek p)); [|discriminate].
    intros Heq. injection Heq as <- <-. constructor.
  - destruct (is_nul (parserPeek p)).
    { intros Heq. injection Heq as <- <-. constructor. }
    destruct (parserSkipWhiteSpace p) as [p1|]; [|discriminate].
    destruct (is_nul (parserPeek p1)).
    { intros Heq. injection Heq as <- <-. constructor. }
    destruct (is_number_start p1).
    + destruct (parseNumber_loop _ _ p1) as [p2|]; [|discriminate].
      destruct (tokens_from fuel p2) as [[toks2 e2]|] eqn:Hrec; [|discriminate].
      simpl. intros Heq. injection Heq as <- <-.
      constructor; [apply to_int_range | eapply IH; eauto].
    + destruct (parseSymbol_loop _ p1) as [p2|]; [|discriminate].
      destruct (lookup_prim _).
      * destruct (tokens_from fuel p2) as [[toks2 e2]|] eqn:Hrec; [|discriminate].
        simpl. intros Heq. injection Heq as <- <-.
        constructor; [exact I | eapply IH; eauto].
      * intros Heq. injection Heq as <- <-. constructor.
Qed.

Lemma Forall_unsnoc (P : val -> Prop) st st1 v :
  unsnoc st = Some (st1, v) -> Forall P st -> Forall P st1 /\ P v.
Proof.
  intros Hu HP. apply unsnoc_Some in Hu. subst st.
  apply Forall_app in HP as [H1 H2]. split; [exact H1|]. now inversion H2.
Qed.

Lemma sem_prim_int p st st' o :
  Forall int_value st -> sem_prim p st = Next st' o -> Forall int_value st'.
Proof.
  intros HP.
  destruct p; simpl; unfold sem_arith, sem_div, sem_print, sem_dup, sem_drop, sem_swap;
    destruct (unsnoc st) as [[st1 b]|] eqn:H1;
    try (destruct (Forall_unsnoc _ _ _ _ H1 HP) as [HP1 Hb]);
    try (destruct (unsnoc st1) as [[st2 a]|] eqn:H2;
         try (destruct (Forall_unsnoc _ _ _ _ H2 HP1) as [HP2 Ha]));
    try (destruct a; try contradiction); try (destruct b; try contradiction);
    repeat match goal with
           | |- context [if ?c then _ else _] => destruct c
           end;
    intros Hh; inversion Hh; subst;
    try assumption;
    try (apply Forall_app; split; [assumption|]);
    repeat constructor; simpl; try assumption; try apply to_int_range;
    simpl in *; unfold in_int in *; lia.
Qed.

Lemma sem_program_int toks : forall st st' o,
  Forall (fun v => match v with VInt n => in_int n | _ => True end) toks ->
  Forall valid_token toks ->
  Forall int_value st -> sem_program toks st = Finished st' o -> Forall int_value st'.
Proof.
  induction toks as [|v toks IH]; intros st st' o Hr Hval HP Hrun.
  - injection Hrun as <- <-. exact HP.
  - inversion Hr as [|? ? Hrv Hr']; subst. inversion Hval as [|? ? Hv Hval']; subst.
    simpl in Hrun.
    destruct (sem_object v st) as [st1 o1|f1 st1 e1|] eqn:Hobj; [|discriminate..].
    destruct (sem_program toks st1) as [st2 o2|f2 st2 o2 e2|] eqn:Hrest; [|discriminate..].
    injection Hrun as <- <-.
    apply (IH st1 st2 o2 Hr' Hval'); [|exact Hrest].
    destruct v as [n|n|s|s]; simpl in *; try contradiction.
    + injection Hobj as <- <-. apply Forall_app. split; [exact HP|].
      constructor; [exact Hrv | constructor].
    + destruct (lookup_prim s) as [p|]; [|discriminate].
      eapply sem_prim_int; eauto.
Qed.

(** ** Primitives and the engine on well-formed states *)

(** A primitive on a well-formed state, read off its effect on the
    values. *)
Lemma prim_on_values p ctx w st :
  well_formed w ctx -> list_values w (stack ctx) = Some st ->
  match sem_prim p st with
  | Next st' o =>
      exists w', denote p ctx w = Ret tt w' /\ well_formed w' ctx
                 /\ list_values w' (stack ctx) = Some st'
                 /\ out w' = (out w ++ o)%string /\ err w' = err w
  | Halt f st' e =>
      exists w', denote p ctx w = Exit f w'
                 /\ list_values w' (stack ctx) = Some st'
                 /\ out w' = out w /\ err w' = (err w ++ e)%string
  | Undefined => denote p ctx w = Fault
  end.
Proof.
  intros Hwf Hvs.
  destruct (well_formed_stack _ _ _ Hwf Hvs) as (sels & R & V & I & HV & _).
  pose proof (sim_prim ctx R p w sels V st I HV) as Hsim. unfold wpx in Hsim.
  destruct (denote p ctx w) as [[] w'|f w'| |]; try contradiction.
  - destruct Hsim as (st' & o & sels' & V' & -> & I' & _ & HV' & Ho & He).
    exists w'. split; [reflexivity|]. split; [exists sels', R, V'; exact I'|].
    split; [eapply inv_stack_values; eauto|]. split; assumption.
  - destruct Hsim as (st' & e & sels' & ext' & V' & -> & I' & _ & HV' & Ho & He).
    exists w'. split; [reflexivity|].
    split; [eapply inv_stack_values; eauto|]. split; assumption.
  - rewrite Hsim. reflexivity.
Qed.

(** ** Comparing names *)

Lemma N_of_ascii_inj c1 c2 : N_of_ascii c1 = N_of_ascii c2 -> c1 = c2.
Proof.
  intros Heq. rewrite <- (ascii_N_embedding c1), <- (ascii_N_embedding c2).
  now rewrite Heq.
Qed.

Lemma is_nul_spec c : is_nul c = true <-> N_of_ascii c = 0%N.
Proof. unfold is_nul. apply N.eqb_eq. Qed.

(** [strcmp] returns zero exactly on strings that agree up to their
    terminator. *)
Lemma strcmp_zero s1 : forall s2, strcmp s1 s2 = 0 <-> c_str s1 = c_str s2.
Proof.
  induction s1 as [|c1 t1 IH]; intros [|c2 t2]; simpl.
  - tauto.
  - destruct (is_nul c2) eqn:Hn.
    + apply is_nul_spec in Hn. rewrite Hn. simpl. tauto.
    + split; [|discriminate]. intros Hz.
      assert (Hc : N_of_ascii c2 = 0%N) by lia.
      apply is_nul_spec in Hc. congruence.
  - destruct (is_nul c1) eqn:Hn.
    + apply is_nul_spec in Hn. rewrite Hn. simpl. tauto.
    + split; [|discriminate]. intros Hz.
      assert (Hc : N_of_ascii c1 = 0%N) by lia.
      apply is_nul_spec in Hc. congruence.
  - destruct (N.eqb_spec (N_of_ascii c1) (N_of_ascii c2)) as [Heq|Hne].
    + apply N_of_ascii_inj in Heq. subst c2.
      destruct (is_nul c1); [tauto|]. rewrite IH. split; [congruence|].
      intros Hs. now injection Hs.
    + split; [lia|]. intros Hs.
      destruct (is_nul c1) eqn:Hn1, (is_nul c2) eqn:Hn2; try discriminate.
      * apply is_nul_spec in Hn1, Hn2. congruence.
      * injection Hs as -> _. contradiction.
Qed.

Lemma c_str_idempotent s : c_str (c_str s) = c_str s.
Proof.
  induction s as [|c t IH]; simpl; [reflexivity|].
  destruct (is_nul c) eqn:Hn; simpl; [reflexivity|]. now rewrite Hn, IH.
Qed.

Lemma lookupOperation_in_c_str table s :
  lookupOperation_in table (c_str s) = lookupOperation_in table s.
Proof.
  induction table as [|[name op] table IH]; simpl; [reflexivity|].
  rewrite IH.
  destruct (Z.eqb_spec (strcmp (c_str s) name) 0) as [H1|H1],
           (Z.eqb_spec (strcmp s name) 0) as [H2|H2]; try reflexivity;
    rewrite strcmp_zero in *; rewrite c_str_idempotent in *; contradiction.
Qed.

Lemma lookupOperation_in_None table s :
  lookupOperation_in table s = None
  <-> Forall (fun e => c_str s <> c_str (fst e)) table.
Proof.
  induction table as [|[name op] table IH]; simpl.
  - split; [constructor | reflexivity].
  - destruct (Z.eqb_spec (strcmp s name) 0) as [H1|H1]; rewrite strcmp_zero in H1.
    + split; [discriminate|]. intros Hf. inversion Hf; subst. simpl in *. contradiction.
    + rewrite IH. split.
      * intros Hf. constructor; [exact H1 | exact Hf].
      * intros Hf. now inversion Hf.
Qed.

(** ** Texts and their tokens *)

Lemma isspace_is_blank c : isspace c = true -> is_blank c = true.
Proof.
  intros Hs. unfold is_blank. rewrite Hs, andb_true_r.
  destruct (is_nul c) eqn:Hn; [|reflexivity].
  apply is_nul_spec in Hn. unfold isspace in Hs. rewrite Hn in Hs. discriminate.
Qed.

Lemma string_forall_impl (f g : ascii -> bool) s :
  (forall c, f c = true -> g c = true) ->
  string_forall f s = true -> string_forall g s = true.
Proof.
  intros Hfg. induction s as [|c t IH]; simpl; [reflexivity|].
  intros Hs. apply andb_prop in Hs as [Hc Ht]. now rewrite (Hfg c Hc), IH.
Qed.

Lemma tokens_blank_text `{HostABI} text :
  string_forall isspace text = true -> tokens text = Some ([], None).
Proof.
  intros Hs. apply (string_forall_impl _ is_blank _ isspace_is_blank) in Hs.
  rewrite tokens_unfold. destruct text as [|c t]; [reflexivity|].
  cbn [String.length]. rewrite <- (string_app_nil_r (String c t)).
  rewrite tokens_blanks by exact Hs. apply tokens_from_end.
Qed.

(** The tokens of a text that compiles do not depend on the position
    the scan starts from. *)
Lemma tokens_from_position `{HostABI} fuel : forall s lc lc' toks,
  tokens_from fuel (at_pos s lc) = Some (toks, None) ->
  tokens_from fuel (at_pos s lc') = Some (toks, None).
Proof.
  induction fuel as [|fuel IH]; intros s lc lc' toks.
  - simpl. exact (fun H => H).
  - destruct (is_nul (parserPeek (at_pos s lc))) eqn:Hn.
    + simpl. change (parserPeek (at_pos s lc')) with (parserPeek (at_pos s lc)).
      simpl in Hn. rewrite Hn. exact (fun H => H).
    + rewrite (tokens_from_step fuel s lc Hn), (tokens_from_step fuel s lc' Hn).
      cbv zeta.
      set (s1 := drop_while is_blank s).
      set (lc1 := position_after (take_while is_blank s) lc).
      set (lc1' := position_after (take_while is_blank s) lc').
      change (parserPeek (at_pos s1 lc1')) with (parserPeek (at_pos s1 lc1)).
      change (is_number_start (at_pos s1 lc1')) with (is_number_start (at_pos s1 lc1)).
      destruct (is_nul (parserPeek (at_pos s1 lc1))); [exact (fun H => H)|].
      destruct (is_number_start (at_pos s1 lc1)).
      * destruct (tokens_from fuel (at_pos (number_rest s1) _)) as [[t1 [e1|]]|] eqn:Hrec;
          simpl; try discriminate.
        intros Heq. injection Heq as <-.
        erewrite IH by exact Hrec. reflexivity.
      * destruct (lookup_prim (take_while is_word_char s1)); [|discriminate].
        destruct (tokens_from fuel (at_pos (drop_while is_word_char s1) _))
          as [[t1 [e1|]]|] eqn:Hrec; simpl; try discriminate.
        intros Heq. injection Heq as <-.
        erewrite IH by exact Hrec. reflexivity.
Qed.

Lemma compile_tokens `{HostABI} text pl w toks :
  compile text initial_world = Ret pl w -> pl <> NULL ->
  list_values w pl = Some toks -> tokens text = Some (toks, None).
Proof.
  intros Hc Hpl Hvs.
  destruct (compile_success_tokens text pl w Hc Hpl) as [toks' Htok].
  destruct (compile_finished text toks' Htok) as (w' & Hc' & Hvs' & _).
  rewrite Hc in Hc'. injection Hc' as -> <-. congruence.
Qed.

Lemma lookupOperation_Some_prim s :
  lookupOperation s <> None -> exists p, lookup_prim s = Some p.
Proof.
  rewrite lookupOperation_prim. destruct (lookup_prim s) as [p|]; [eauto|].
  intros Hn. now contradiction Hn.
Qed.

Lemma digits_minus_literal b :
  digits b = true ->
  is_literal (String "-" b) = true /\ literal_value (String "-" b) = - decimal_value b.
Proof. intros Hb. split; [exact Hb | reflexivity]. Qed.

(** ** Printing and reading decimal numbers *)

Lemma strtol_digits_uint_acc d : forall acc,
  strtol_digits (Z.pos acc) (NilEmpty.string_of_uint d)
  = (Z.pos (Pos.of_uint_acc d acc), "").
Proof.
  induction d as [|d IH|d IH|d IH|d IH|d IH|d IH|d IH|d IH|d IH|d IH]; intros acc;
    [reflexivity|..];
    cbn [NilEmpty.string_of_uint strtol_digits Pos.of_uint_acc];
    match goal with
    | |- context [isdigit ?c] => change (isdigit c) with true; cbv iota
    end;
    match goal with
    | |- context [digit_val ?c] =>
        let v := eval vm_compute in (digit_val c) in change (digit_val c) with v
    end;
    rewrite <- IH; f_equal; lia.
Qed.

Lemma strtol_digits_uint d :
  strtol_digits 0 (NilEmpty.string_of_uint d) = (Z.of_N (Pos.of_uint d), "").
Proof.
  induction d as [|d IH|d IH|d IH|d IH|d IH|d IH|d IH|d IH|d IH|d IH];
    [reflexivity|..];
    cbn [NilEmpty.string_of_uint strtol_digits Pos.of_uint];
    match goal with
    | |- context [isdigit ?c] => change (isdigit c) with true; cbv iota
    end;
    match goal with
    | |- context [digit_val ?c] =>
        let v := eval vm_compute in (digit_val c) in change (digit_val c) with v
    end;
    first [exact IH | apply (strtol_digits_uint_acc d)].
Qed.

Lemma string_of_uint_digits d :
  string_forall isdigit (NilEmpty.string_of_uint d) = true.
Proof.
  induction d as [|d IH|d IH|d IH|d IH|d IH|d IH|d IH|d IH|d IH|d IH];
    [reflexivity|..]; cbn [NilEmpty.string_of_uint string_forall];
    match goal with
    | |- context [isdigit ?c && _] => change (isdigit c) with true
    end; exact IH.
Qed.

Lemma decimal_value_uint d :
  decimal_value (NilEmpty.string_of_uint d) = Z.of_N (Pos.of_uint d).
Proof.
  pose proof (strtol_digits_all (NilEmpty.string_of_uint d) 0 ""
                (string_of_uint_digits d) eq_refl) as Hall.
  rewrite string_app_nil_r, strtol_digits_uint in Hall.
  injection Hall as Hv. lia.
Qed.

Lemma digit_not_minus c : isdigit c = true -> (N_of_ascii c =? 45)%N = false.
Proof.
  unfold isdigit. intros Hd. apply andb_prop in Hd as [Hlo _].
  apply N.leb_le in Hlo. apply N.eqb_neq. lia.
Qed.

Lemma digits_is_literal s : digits s = true -> is_literal s = true /\ literal_value s = decimal_value s.
Proof.
  destruct s as [|c t]; [discriminate|]. intros Hd.
  assert (Hc : isdigit c = true).
  { simpl in Hd. now apply andb_prop in Hd as [Hc _]. }
  unfold is_literal, literal_value. rewrite (digit_not_minus c Hc). auto.
Qed.

Lemma string_of_pos p :
  digits (NilEmpty.string_of_uint (Pos.to_uint p)) = true
  /\ decimal_value (NilEmpty.string_of_uint (Pos.to_uint p)) = Z.pos p
  /\ NilZero.string_of_uint (Pos.to_uint p) = NilEmpty.string_of_uint (Pos.to_uint p).
Proof.
  pose proof (DecimalPos.Unsigned.to_uint_nonnil p) as Hnil.
  split; [|split].
  - pose proof (string_of_uint_digits (Pos.to_uint p)) as Hd.
    destruct (Pos.to_uint p); [contradiction|..]; exact Hd.
  - rewrite decimal_value_uint, DecimalPos.Unsigned.of_to. reflexivity.
  - destruct (Pos.to_uint p); [contradiction|..]; reflexivity.
Qed.

(** What [printf "%d"] writes is a literal that reads back as the
    number printed. *)
Lemma printf_d_literal n : is_literal (printf_d n) = true /\ literal_value (printf_d n) = n.
Proof.
  unfold printf_d. destruct n as [|p|p]; [split; reflexivity|..];
    destruct (string_of_pos p) as (Hd & Hv & Hs); cbn [Z.to_int NilZero.string_of_int];
    rewrite Hs.
  - destruct (digits_is_literal _ Hd) as [Hl Hlv]. split; [exact Hl|]. congruence.
  - split; [exact Hd|]. cbn [literal_value]. change (N_of_ascii "-" =? 45)%N with true.
    cbv iota. rewrite Hv. reflexivity.
Qed.

(** ** Positions *)

Lemma newlines_nonneg s : 0 <= newlines s.
Proof. induction s as [|c t IH]; simpl; [lia|]. destruct (_ =? _)%N; lia. Qed.

Lemma position_after_closed s : forall l c,
  position_after s (l, c)
  = (l + newlines s,
     if newlines s =? 0 then c + Z.of_nat (String.length s)
     else 1 + Z.of_nat (String.length (after_last_newline s))).
Proof.
  induction s as [|ch t IH]; intros l c.
  - simpl. f_equal; lia.
  - cbn [position_after newlines after_last_newline]. unfold next_pos. cbn [fst snd].
    pose proof (newlines_nonneg t) as Hnn.
    destruct (N_of_ascii ch =? 10)%N; rewrite IH.
    + destruct (Z.eqb_spec (newlines t) 0) as [Hz|Hz].
      * rewrite Hz. simpl. f_equal; lia.
      * destruct (Z.eqb_spec (1 + newlines t) 0); [lia|]. f_equal; lia.
    + change (0 + newlines t) with (newlines t).
      destruct (Z.eqb_spec (newlines t) 0) as [Hz|Hz].
      * f_equal. cbn [String.length]. lia.
      * reflexivity.
Qed.

Lemma advance_text pre : forall rest lc,
  string_forall not_nul pre = true ->
  advance (String.length pre) (at_pos (pre ++ rest) lc) = at_pos rest (position_after pre lc).
Proof.
  induction pre as [|ch t IH]; intros rest lc Hnn; [reflexivity|].
  simpl in Hnn. apply andb_prop in Hnn as [Hc Ht].
  rewrite string_app_cons. cbn [String.length advance position_after].
  rewrite advance_at by (unfold not_nul in Hc; now apply negb_true_iff in Hc).
  apply IH. exact Ht.
Qed.

Lemma advance_at_end n : forall p, is_nul (parserPeek p) = true -> advance n p = p.
Proof.
  induction n as [|n IH]; intros p Hn; [reflexivity|].
  cbn [advance]. unfold parserAdvance at 1. rewrite Hn. apply IH. exact Hn.
Qed.

Lemma word_has_no_newline s :
  string_forall is_word_char s = true -> newlines s = 0.
Proof.
  induction s as [|c t IH]; simpl; [reflexivity|].
  intros Hs. apply andb_prop in Hs as [Hc Ht]. rewrite (IH Ht).
  destruct (N.eqb_spec (N_of_ascii c) 10) as [Heq|_]; [|reflexivity].
  unfold is_word_char, isspace in Hc. rewrite Heq in Hc. discriminate.
Qed.

Lemma blank_is_not_nul c : is_blank c = true -> not_nul c = true.
Proof. unfold is_blank, not_nul. intros Hb. now apply andb_prop in Hb as [Hn _]. Qed.

(** ** Lists that were not compiled *)

Lemma sem_program_pushed lits : forall prog st,
  forallb is_pushed lits = true ->
  sem_program (lits ++ prog) st = sem_program prog (st ++ lits).
Proof.
  induction lits as [|v lits IH]; intros prog st Hl.
  - simpl. now rewrite app_nil_r.
  - simpl in Hl. apply andb_prop in Hl as [Hv Hl].
    change ((v :: lits) ++ prog) with (v :: (lits ++ prog)).
    cbn [sem_program].
    assert (Hobj : sem_object v st = Next (st ++ [v]) "").
    { destruct v; try discriminate; reflexivity. }
    rewrite Hobj, (IH prog (st ++ [v]) Hl). rewrite <- app_assoc. simpl.
    destruct (sem_program prog (st ++ v :: lits)); reflexivity.
Qed.

Lemma loaded_values w pl ctx pvs svs :
  loaded w pl ctx -> list_values w pl = Some pvs -> list_values w (stack ctx) = Some svs ->
  exists sels pels V, inv w [(stack ctx, sels); (pl, pels)] [] V
                      /\ vals V pels pvs /\ vals V sels svs.
Proof.
  intros (sels & pels & V & I) Hp Hs. exists sels, pels, V. split; [exact I|].
  destruct (inv_list_values _ _ _ _ _ (stack ctx) sels I) as (_ & vs & Hvs & HV); [left|].
  destruct (inv_list_values _ _ _ _ _ pl pels I) as (_ & vp & Hvp & HV'); [right; left|].
  split; congruence.
Qed.

(** [execute] on a loaded state, read off the values. *)
Lemma execute_on_values pl ctx w pvs svs :
  loaded w pl ctx -> list_values w pl = Some pvs -> list_values w (stack ctx) = Some svs ->
  match sem_program pvs svs with
  | Finished st o =>
      exists w', execute pl (Some ctx) w = Ret tt w' /\ loaded w' pl ctx
                 /\ list_values w' (stack ctx) = Some st
                 /\ out w' = (out w ++ o)%string /\ err w' = err w
  | Aborted f st o e =>
      exists w', execute pl (Some ctx) w = Exit f w'
                 /\ list_values w' (stack ctx) = Some st
                 /\ out w' = (out w ++ o)%string /\ err w' = (err w ++ e)%string
  | Crashed => execute pl (Some ctx) w = Fault
  end.
Proof.
  intros Hl Hp Hs.
  destruct (loaded_values _ _ _ _ _ Hl Hp Hs) as (sels & pels & V & I & HVp & HVs).
  pose proof (sim_execute ctx [(pl, pels)] pl pels w sels V pvs svs I
                ltac:(left) HVp HVs) as Hsim.
  unfold wpx in Hsim.
  destruct (execute pl (Some ctx) w) as [[] w'|f w'| |]; try contradiction.
  - destruct Hsim as (st & o & sels' & V' & -> & I' & _ & HV' & Ho & He).
    exists w'. split; [reflexivity|]. split; [exists sels', pels, V'; exact I'|].
    split; [eapply inv_stack_values; eauto|]. split; assumption.
  - destruct Hsim as (st & o & e & sels' & ext' & V' & -> & I' & _ & HV' & Ho & He).
    exists w'. split; [reflexivity|].
    split; [eapply inv_stack_values; eauto|]. split; assumption.
  - rewrite Hsim. reflexivity.
Qed.

Lemma number_text_no_newline s : newlines (number_text s) = 0.
Proof.
  assert (Hd : forall t, newlines (take_while isdigit t) = 0).
  { induction t as [|c t IH]; simpl; [reflexivity|].
    destruct (isdigit c) eqn:Hc; [|reflexivity]. simpl. rewrite IH.
    destruct (N.eqb_spec (N_of_ascii c) 10) as [Heq|_]; [|reflexivity].
    unfold isdigit in Hc. rewrite Heq in Hc. discriminate. }
  destruct s as [|c t]; [reflexivity|]. unfold number_text.
  destruct (N.eqb_spec (N_of_ascii c) 45) as [Heq|_]; [|apply Hd].
  cbn [newlines]. rewrite Hd. rewrite Heq. reflexivity.
Qed.

Lemma foreign_state_loaded : loaded foreign_state 1%nat {| stack := 4%nat |}.
Proof.
  assert (Hwp : wp foreign_setup initial_world
                  (fun r w => r = (1%nat, {| stack := 4%nat |}) /\ loaded w (fst r) (snd r))
                  (fun _ _ => False)).
  { unfold foreign_setup.
    apply wp_bind. unfold wp at 1. rewrite createListObject_alloc.
    assert (I1 := inv_alloc_root initial_world [] [] ∅ INITIAL_STACK_CAPACITY
                    inv_initial eq_refl).
    set (w1 := alloc _ initial_world) in *.
    apply wp_bind. unfold wp at 1. rewrite createBooleanObject_alloc.
    destruct (inv_alloc_scalar w1 _ _ ∅ (mk_tfobj TF_OBJ_BOOL 1 (number 1)) (VBool 1)
                I1 eq_refl eq_refl) as [I2 _].
    apply wp_bind. eapply wp_post.
    { eapply wp_listAppendObject; [exact I2|]. rewrite elem_of_app. right. left. }
    intros _ w3 (I3 & _ & Hb3).
    apply wp_bind. eapply wp_post; [eapply wp_decrementReferenceCount; exact I3|].
    intros _ w4 (I4 & _ & Hb4 & _).
    apply wp_bind. unfold wp at 1.
    rewrite (createStringObject_alloc "hi" 2 w4) by (simpl; lia).
    destruct (inv_alloc_scalar w4 _ _ _
                (mk_tfobj TF_OBJ_STR 1 (str_obj (substring 0 2 "hi") (Z.of_nat 2)))
                (VStr "hi") I4 eq_refl eq_refl) as [I5 _].
    apply wp_bind. eapply wp_post.
    { eapply wp_listAppendObject; [exact I5|]. rewrite elem_of_app. right. left. }
    intros _ w6 (I6 & _ & Hb6).
    apply wp_bind. eapply wp_post; [eapply wp_decrementReferenceCount; exact I6|].
    intros _ w7 (I7 & _ & Hb7 & _).
    apply wp_bind. unfold createContext. apply wp_bind.
    unfold wp at 1. rewrite createListObject_alloc.
    assert (I8 := inv_alloc_root w7 _ [] _ INITIAL_STACK_CAPACITY I7 eq_refl).
    apply wp_ret. apply wp_ret.
    assert (Hbrk : brk w7 = 4%nat).
    { rewrite Hb7, Hb6. simpl. rewrite Hb4, Hb3. reflexivity. }
    rewrite Hbrk in *. split; [reflexivity|]. eexists _, _, _. exact I8. }
  assert (Hrun : foreign_setup initial_world = Ret (1%nat, {| stack := 4%nat |}) foreign_state)
    by (vm_compute; reflexivity).
  exact (proj2 (wp_Ret_inv _ _ _ _ _ _ Hwp Hrun)).
Qed.

(** ** A text and its first NUL *)

Lemma take_drop_app_head f a c rest :
  f c = false ->
  take_while f (a ++ String c rest) = take_while f a
  /\ drop_while f (a ++ String c rest) = (drop_while f a ++ String c rest)%string.
Proof.
  intros Hc. induction a as [|d a IH].
  - simpl. rewrite Hc. split; reflexivity.
  - rewrite string_app_cons. cbn [take_while drop_while].
    destruct (f d); [|split; reflexivity]. destruct IH as [-> ->]. split; reflexivity.
Qed.

Lemma strtol_digits_app_head a c rest : forall acc,
  isdigit c = false ->
  fst (strtol_digits acc (a ++ String c rest)) = fst (strtol_digits acc a).
Proof.
  induction a as [|d a IH]; intros acc Hc.
  - simpl. rewrite Hc. reflexivity.
  - rewrite string_app_cons. cbn [strtol_digits].
    destruct (isdigit d); [apply IH; exact Hc | reflexivity].
Qed.

Lemma nul_classes c :
  is_nul c = true ->
  is_blank c = false /\ is_word_char c = false /\ isdigit c = false
  /\ (N_of_ascii c =? 45)%N = false.
Proof.
  intros Hn. pose proof Hn as Hz. apply is_nul_spec in Hz.
  unfold is_blank, is_word_char, isdigit. rewrite Hn, Hz.
  repeat split; try reflexivity. simpl. apply andb_false_r.
Qed.

Lemma number_app_head s c rest lc lc' :
  is_nul c = true -> s <> "" ->
  is_number_start (at_pos (s ++ String c rest) lc') = is_number_start (at_pos s lc)
  /\ number_text (s ++ String c rest) = number_text s
  /\ number_rest (s ++ String c rest) = (number_rest s ++ String c rest)%string
  /\ number_value (s ++ String c rest) = number_value s.
Proof.
  intros Hn Hne. destruct (nul_classes c Hn) as (_ & _ & Hd & Hm).
  destruct s as [|a t]; [contradiction|].
  rewrite string_app_cons.
  unfold is_number_start, parserPeek, number_text, number_rest, number_value.
  cbn [program at_pos].
  assert (Hsec : isdigit (second_char (String a (t ++ String c rest)))
                 = isdigit (second_char (String a t))).
  { destruct t as [|b u]; simpl; [|reflexivity]. rewrite Hd.
    symmetry. reflexivity. }
  rewrite Hsec. split; [reflexivity|].
  destruct (take_drop_app_head isdigit t c rest Hd) as [Ht Hdr].
  destruct (take_drop_app_head isdigit (String a t) c rest Hd) as [Ht' Hdr'].
  rewrite string_app_cons in Ht', Hdr'.
  destruct (N_of_ascii a =? 45)%N.
  - rewrite Ht, Hdr, (strtol_digits_app_head t c rest 0 Hd). repeat split; reflexivity.
  - rewrite Ht', Hdr'.
    pose proof (strtol_digits_app_head (String a t) c rest 0 Hd) as Hv.
    rewrite string_app_cons in Hv. rewrite Hv. repeat split; reflexivity.
Qed.

Lemma number_rest_not_nul s :
  string_forall not_nul s = true -> string_forall not_nul (number_rest s) = true.
Proof.
  intros Hs. destruct s as [|a t]; [reflexivity|]. unfold number_rest.
  destruct (N_of_ascii a =? 45)%N.
  - simpl in Hs. apply andb_prop in Hs as [_ Ht]. now apply not_nul_drop.
  - now apply not_nul_drop.
Qed.

Lemma tokens_from_nul_head `{HostABI} fuel c rest lc :
  is_nul c = true -> tokens_from fuel (at_pos (String c rest) lc) = Some ([], None).
Proof.
  intros Hn. destruct fuel; cbn [tokens_from];
    change (parserPeek (at_pos (String c rest) lc)) with c; rewrite Hn; reflexivity.
Qed.

Lemma tokens_from_nul `{HostABI} fuel : forall s c rest lc,
  is_nul c = true -> string_forall not_nul s = true ->
  tokens_from fuel (at_pos (s ++ String c rest) lc) = tokens_from fuel (at_pos s lc).
Proof.
  induction fuel as [|fuel IH]; intros s c rest lc Hn Hs.
  - destruct s as [|a t]; [|reflexivity].
    change ("" ++ String c rest)%string with (String c rest).
    rewrite tokens_from_nul_head by exact Hn. reflexivity.
  - destruct s as [|a t].
    { change ("" ++ String c rest)%string with (String c rest).
      rewrite tokens_from_nul_head by exact Hn. reflexivity. }
    assert (Ha : is_nul a = false).
    { simpl in Hs. apply andb_prop in Hs as [Ha _]. unfold not_nul in Ha.
      now apply negb_true_iff in Ha. }
    destruct (nul_classes c Hn) as (Hb & Hw & Hd & _).
    rewrite (tokens_from_step fuel (String a t ++ String c rest) lc)
      by (rewrite string_app_cons; exact Ha).
    rewrite (tokens_from_step fuel (String a t) lc) by exact Ha.
    cbv zeta.
    destruct (take_drop_app_head is_blank (String a t) c rest Hb) as [-> ->].
    set (s1 := drop_while is_blank (String a t)).
    set (lc1 := position_after (take_while is_blank (String a t)) lc).
    assert (Hs1 : string_forall not_nul s1 = true) by (apply not_nul_drop; exact Hs).
    destruct s1 as [|a1 t1] eqn:Es1.
    { change ("" ++ String c rest)%string with (String c rest).
      change (parserPeek (at_pos (String c rest) lc1)) with c. rewrite Hn. reflexivity. }
    assert (Hpeek : parserPeek (at_pos (String a1 t1 ++ String c rest) lc1)
                    = parserPeek (at_pos (String a1 t1) lc1)) by reflexivity.
    rewrite Hpeek.
    destruct (is_nul (parserPeek (at_pos (String a1 t1) lc1))); [reflexivity|].
    destruct (number_app_head (String a1 t1) c rest lc1 lc1 Hn ltac:(discriminate))
      as (-> & -> & -> & ->).
    destruct (is_number_start (at_pos (String a1 t1) lc1)).
    + rewrite IH; [reflexivity | exact Hn | apply number_rest_not_nul; exact Hs1].
    + destruct (take_drop_app_head is_word_char (String a1 t1) c rest Hw) as [-> ->].
      destruct (lookup_prim (take_while is_word_char (String a1 t1))); [|reflexivity].
      rewrite IH; [reflexivity | exact Hn | apply not_nul_drop; exact Hs1].
Qed.

Lemma c_str_not_nul s : string_forall not_nul (c_str s) = true.
Proof.
  induction s as [|c t IH]; simpl; [reflexivity|].
  destruct (is_nul c) eqn:Hn; [reflexivity|]. simpl. unfold not_nul at 1.
  rewrite Hn. exact IH.
Qed.

Lemma c_str_split s :
  s = c_str s \/ exists c rest, is_nul c = true /\ s = (c_str s ++ String c rest)%string.
Proof.
  induction s as [|c t IH]; simpl; [left; reflexivity|].
  destruct (is_nul c) eqn:Hn.
  - right. exists c, t. split; [exact Hn | reflexivity].
  - destruct IH as [IH|(c' & rest & Hn' & IH)].
    + left. f_equal. exact IH.
    + right. exists c', rest. split; [exact Hn'|]. rewrite string_app_cons. f_equal. exact IH.
Qed.

Lemma c_str_length s : (String.length (c_str s) <= String.length s)%nat.
Proof.
  induction s as [|c t IH]; simpl; [lia|]. destruct (is_nul c); simpl; lia.
Qed.

Lemma tokens_c_str `{HostABI} text : tokens (c_str text) = tokens text.
Proof.
  destruct (c_str_split text) as [Heq|(c & rest & Hn & Heq)]; [now rewrite <- Heq|].
  destruct (tokens_total (c_str text)) as [sc Hsc]. rewrite Hsc.
  rewrite tokens_unfold in *. symmetry.
  rewrite Heq at 2. rewrite (tokens_from_nul _ _ _ _ _ Hn (c_str_not_nul text)).
  eapply tokens_from_mono; [exact Hsc | apply c_str_length].
Qed.

(** ** Destroying a list *)

Lemma inv_root_released ctx w w' gone R V :
  inv w ((stack ctx, gone) :: R) [] V -> inv w' R [] V ->
  heap w' !! stack ctx = None /\ released ctx gone w w'.
Proof.
  intros I I'.
  pose proof (inv_nodup _ _ _ _ _ I) as Hnd. simpl in Hnd.
  apply NoDup_cons in Hnd as [HsR _].
  split.
  - destruct (heap w' !! stack ctx) as [o'|] eqn:Hs; [|reflexivity]. exfalso.
    destruct (inv_obj _ _ _ _ _ I' _ o' Hs HsR (not_elem_of_nil _)) as (_ & _ & Hrc & Hpos).
    assert (Hin : stack ctx ∈ (refs R ++ [])).
    { apply count_pos_elem. lia. }
    assert (Hin' : stack ctx ∈ (refs ((stack ctx, gone) :: R) ++ [])).
    { rewrite refs_cons. rewrite !elem_of_app in *. tauto. }
    apply (inv_ref _ _ _ _ _ I) in Hin' as (Hnr & _). apply Hnr. simpl. left.
  - intros x o Hx Hxs.
    destruct (decide (x ∈ R.*1)) as [Hr|Hr].
    + apply list_elem_of_fmap in Hr as [[r elr] [Heq Hin]]. simpl in Heq. subst r.
      destruct (inv_root _ _ _ _ _ I x elr) as (c & Ho & _); [right; exact Hin|].
      destruct (inv_root _ _ _ _ _ I' x elr Hin) as (c' & Ho' & _).
      rewrite Ho'. rewrite Ho in Hx. injection Hx as <-. simpl.
      assert (Hc : count x gone = 0).
      { apply count_zero_not_elem. intros Hg.
        assert (Hin' : x ∈ (refs ((stack ctx, gone) :: R) ++ [])).
        { rewrite refs_cons, !elem_of_app. left. left. exact Hg. }
        apply (inv_ref _ _ _ _ _ I) in Hin' as (Hnr & _). apply Hnr. simpl. right.
        apply list_elem_of_fmap. exists (x, elr). auto. }
      rewrite Hc. repeat split; lia.
    + assert (Hnr : x ∉ ((stack ctx, gone) :: R).*1).
      { simpl. rewrite not_elem_of_cons. auto. }
      destruct (inv_obj _ _ _ _ _ I x o Hx Hnr (not_elem_of_nil x)) as (HV & Hsome & Hrc & _).
      rewrite refs_cons, !count_app in Hrc. simpl in Hrc.
      destruct (heap w' !! x) as [o'|] eqn:Hx'.
      * destruct (inv_obj _ _ _ _ _ I' x o' Hx' Hr (not_elem_of_nil x)) as (HV' & _ & Hrc' & _).
        rewrite !count_app in Hrc'. simpl in Hrc'.
        assert (Heq : val_of o = val_of o') by congruence.
        split; [congruence|]. split; [symmetry; now apply val_of_same_type | lia].
      * assert (Hc : count x (refs R) = 0).
        { apply count_zero_not_elem. intros Hin.
          assert (Hin' : x ∈ (refs R ++ [])) by (rewrite elem_of_app; left; exact Hin).
          apply (inv_ref _ _ _ _ _ I') in Hin' as (_ & _ & [? ?]). congruence. }
        lia.
Qed.

(** ** Programs of literals *)

Lemma tokens_spaced `{HostABI} lits : forall fuel lc,
  Forall (fun s => is_literal s = true) lits -> (length lits <= fuel)%nat ->
  tokens_from (S fuel) (at_pos (spaced lits) lc) = Some (map literal_token lits, None).
Proof.
  induction lits as [|x r IH]; intros fuel lc Hl Hf.
  - apply tokens_from_end.
  - inversion Hl as [|? ? Hx Hr]; subst.
    destruct fuel as [|f]; [simpl in Hf; lia|].
    cbn [spaced]. rewrite tokens_literal by auto.
    change (" " ++ spaced r)%string with (String " " (spaced r)).
    rewrite tokens_blank by reflexivity.
    rewrite IH by (auto; simpl in Hf; lia). reflexivity.
Qed.

Lemma spaced_length lits :
  Forall (fun s => is_literal s = true) lits ->
  (2 * length lits <= String.length (spaced lits))%nat.
Proof.
  induction 1 as [|x r Hx Hr IH]; [simpl; lia|].
  cbn [spaced length]. rewrite !string_length_app.
  pose proof (literal_length x Hx). simpl. lia.
Qed.

Lemma tokens_of_spaced `{HostABI} lits :
  Forall (fun s => is_literal s = true) lits ->
  tokens (spaced lits) = Some (map literal_token lits, None).
Proof.
  intros Hl. rewrite tokens_unfold. destruct lits as [|x r]; [reflexivity|].
  apply (tokens_from_mono (S (length (x :: r)))).
  - apply tokens_spaced; [exact Hl | lia].
  - pose proof (spaced_length _ Hl) as Hlen. simpl in *. lia.
Qed.

Lemma sem_program_literals `{HostABI} lits :
  sem_program (map literal_token lits) [] = Finished (map literal_token lits) "".
Proof.
  assert (Hp : forallb is_pushed (map literal_token lits) = true).
  { induction lits as [|x r IH]; [reflexivity | exact IH]. }
  pose proof (sem_program_pushed (map literal_token lits) [] [] Hp) as Hs.
  rewrite app_nil_r in Hs. rewrite Hs. reflexivity.
Qed.

(* ================================================================== *)
(** * Further properties of the code *)
(* ================================================================== *)

(** ** mem.c *)

(** X1.  Taking a reference to an object and releasing it again leaves
    the whole state exactly as it was: for the null pointer, on which
    both functions do nothing, and for every live object whose
    reference count is not zero. *)
Theorem reference_taken_and_released (p : addr) (w : world) :
  (p = NULL \/ exists o, heap w !! p = Some o /\ refcount o <> 0) ->
  (incrementReferenceCount p ;;; decrementReferenceCount p) w = Ret tt w.
Proof.
  intros [->|(o & Hp & Hrc)]; [reflexivity|].
  destruct (Nat.eq_dec p NULL) as [->|Hn]; [reflexivity|].
  unfold bind. rewrite (incrementReferenceCount_live _ _ _ Hp Hn).
  erewrite decrementReferenceCount_shared;
    [| simpl; apply lookup_insert_eq | exact Hn | simpl; lia].
  simpl. rewrite set_heap_set_heap. f_equal.
  rewrite insert_insert_eq.
  replace (refcount o + 1 - 1) with (refcount o) by lia.
  rewrite (insert_id (heap w) p); [apply set_heap_id|].
  rewrite Hp. destruct o; reflexivity.
Qed.

Lemma reference_taken_and_released_witness :
  (incrementReferenceCount 2%nat ;;; decrementReferenceCount 2%nat) (state_after "7")
  = Ret tt (state_after "7").
Proof.
  apply (reference_taken_and_released 2%nat (state_after "7")).
  right. exists (mk_tfobj TF_OBJ_INT 2 (number 7)).
  split; [vm_compute; reflexivity | simpl; lia].
Defined.

(** X2.  An object that is created and whose only reference is released
    at once leaves no trace in the heap: in a state where the address
    [malloc] hands out next is free and is not the null pointer, creating
    an Integer, a Boolean, a String or a Symbol (of at most the length of
    the source text), an empty list or a context, and then releasing it,
    returns
    with the heap, the output and the diagnostics unchanged; only the
    next address to allocate has moved on by one. *)
Theorem created_then_released (w : world) :
  heap w !! brk w = None -> brk w <> NULL ->
  let w' := mk_world (heap w) (S (brk w)) (out w) (err w) in
  (forall n, (p <- createIntegerObject n ;; decrementReferenceCount p) w = Ret tt w')
  /\ (forall n, (p <- createBooleanObject n ;; decrementReferenceCount p) w = Ret tt w')
  /\ (forall s len, (len <= String.length s)%nat ->
        (p <- createStringObject s len ;; decrementReferenceCount p) w = Ret tt w')
  /\ (forall s len, (len <= String.length s)%nat ->
        (p <- createSymbolObject s len ;; decrementReferenceCount p) w = Ret tt w')
  /\ (p <- createListObject ;; decrementReferenceCount p) w = Ret tt w'
  /\ (context <- createContext ;; freeContext context) w = Ret tt w'.
Proof.
  intros Hf Hn w'.
  assert (Hscalar : forall o, refcount o = 1 -> type_eqb (type o) TF_OBJ_LIST = false ->
            decrementReferenceCount (brk w) (alloc o w) = Ret tt w').
  { intros o Hrc Hty.
    erewrite decrementReferenceCount_last;
      [|simpl; apply lookup_insert_eq|exact Hn|exact Hrc|exact Hty].
    f_equal. apply alloc_release. exact Hf. }
  assert (Hlist : decrementReferenceCount (brk w)
                    (alloc (mk_tfobj TF_OBJ_LIST 1 (list_obj [] INITIAL_STACK_CAPACITY)) w)
                  = Ret tt w').
  { erewrite decrementReferenceCount_last_list;
      [|simpl; apply lookup_insert_eq|exact Hn|reflexivity|reflexivity].
    f_equal. apply alloc_release. exact Hf. }
  split; [|split; [|split; [|split; [|split]]]].
  - intros n. unfold bind. rewrite createIntegerObject_alloc. apply Hscalar; reflexivity.
  - intros n. unfold bind. rewrite createBooleanObject_alloc. apply Hscalar; reflexivity.
  - intros s len Hlen. unfold bind. rewrite createStringObject_alloc by exact Hlen.
    apply Hscalar; reflexivity.
  - intros s len Hlen. unfold bind. rewrite createSymbolObject_alloc by exact Hlen.
    apply Hscalar; reflexivity.
  - unfold bind. rewrite createListObject_alloc. exact Hlist.
  - unfold createContext, freeContext, bind. rewrite createListObject_alloc. simpl. exact Hlist.
Qed.

Lemma created_then_released_witness :
  heap initial_world !! brk initial_world = None
  /\ (p <- createIntegerObject 5 ;; decrementReferenceCount p) initial_world
     = Ret tt (mk_world ∅ 2%nat "" "").
Proof.
  assert (Hf : heap initial_world !! brk initial_world = None) by apply lookup_empty.
  assert (Hn : brk initial_world <> NULL) by discriminate.
  split; [exact Hf|].
  exact (proj1 (created_then_released initial_world Hf Hn) 5).
Defined.

(** X3.  [freeContext] on a well-formed state destroys the stack and
    releases one reference for every slot of the stack: it returns; the
    stack list is no longer in the heap; every other block either remains,
    with the same type and value and its reference count lowered by the
    number of slots that held it, or has been freed, in which case the
    slots of the stack held all its references; nothing is written. *)
Theorem freeContext_releases_stack (ctx : tfcontext) (w : world) (sels : list addr) :
  well_formed w ctx -> list_elements w (stack ctx) = Some sels ->
  exists w', freeContext ctx w = Ret tt w'
             /\ heap w' !! stack ctx = None
             /\ released ctx sels w w'
             /\ out w' = out w /\ err w' = err w.
Proof.
  intros (sels' & R & V & I) Hel.
  destruct (inv_list_values _ _ _ _ _ (stack ctx) sels' I) as (Hel' & _); [left|].
  assert (sels' = sels) by congruence. subst sels'.
  destruct (wp_returns _ _ _ (wp_decrement_root w (stack ctx) sels R [] V _ I))
    as ([] & w' & Hrun & I' & [Ho He] & _).
  exists w'. split; [exact Hrun|].
  destruct (inv_root_released _ _ _ _ _ _ I I') as [Hgone Hrel].
  split; [exact Hgone|]. split; [exact Hrel|]. split; assumption.
Qed.

Lemma freeContext_releases_stack_witness :
  well_formed (state_after "7") {| stack := 3%nat |}
  /\ exists w', freeContext {| stack := 3%nat |} (state_after "7") = Ret tt w'
                /\ heap w' !! 3%nat = None.
Proof.
  assert (Hrun : @compile_and_execute LP64 "7" initial_world
                 = Ret (1%nat, {| stack := 3%nat |}) (state_after "7"))
    by (vm_compute; reflexivity).
  assert (Hn : 1%nat <> NULL) by discriminate.
  assert (Hwf := @reachable_well_formed LP64 "7" 1%nat _ _ Hrun Hn).
  assert (Hel : list_elements (state_after "7") (stack {| stack := 3%nat |}) = Some [2%nat])
    by (vm_compute; reflexivity).
  split; [exact Hwf|].
  destruct (freeContext_releases_stack {| stack := 3%nat |} (state_after "7") [2%nat] Hwf Hel)
    as (w' & Hfree & Hgone & _).
  exists w'. split; [exact Hfree | exact Hgone].
Defined.

(** ** list.c and stack.c *)

(** X4.  [stackPush] followed by [stackPop] returns the object pushed
    and leaves the elements of the stack as they were.  The stack must be
    a list with positive capacity whose length does not exceed it, and
    the object a live block other than the stack.  What remains of the
    push is the reference the caller now owns (the reference count of the
    object is one higher) and, when the stack was full, a capacity twice
    as large. *)
Theorem push_then_pop (ctx : tfcontext) (x : addr) (w : world) ty rc els cap ox :
  heap w !! stack ctx = Some (mk_tfobj ty rc (list_obj els cap)) ->
  heap w !! x = Some ox -> x <> stack ctx -> x <> NULL ->
  0 < cap -> Z.of_nat (length els) <= cap ->
  (stackPush ctx x ;;; stackPop ctx) w
  = Ret x (set_heap
             (<[stack ctx := mk_tfobj ty rc
                   (list_obj els (if Z.of_nat (length els) =? cap then cap * 2 else cap))]>
                (<[x := mk_tfobj (type ox) (refcount ox + 1) (data ox)]> (heap w))) w).
Proof.
  intros Hs Hx Hxs Hn Hcap Hlen. unfold bind, stackPush.
  rewrite (listAppendObject_live _ _ _ _ _ _ _ _ Hs Hx Hxs Hn Hcap Hlen).
  erewrite stackPop_live;
    [| simpl; rewrite lookup_insert_ne by congruence; apply lookup_insert_eq].
  simpl. rewrite set_heap_set_heap. f_equal. f_equal.
  rewrite (insert_insert_ne _ x (stack ctx)) by congruence.
  rewrite insert_insert_eq.
  f_equal. f_equal. f_equal.
  destruct (Z.geb_spec (Z.of_nat (length els)) cap), (Z.eqb_spec (Z.of_nat (length els)) cap);
    lia || reflexivity.
Qed.

Lemma push_then_pop_witness :
  exists w', (stackPush {| stack := 3%nat |} 2%nat ;;; stackPop {| stack := 3%nat |})
               (state_after "7") = Ret 2%nat w'
             /\ list_elements w' 3%nat = Some [2%nat].
Proof.
  eexists. split.
  - apply (push_then_pop {| stack := 3%nat |} 2%nat (state_after "7")
             TF_OBJ_LIST 1 [2%nat] 16 (mk_tfobj TF_OBJ_INT 2 (number 7)));
      [vm_compute; reflexivity | vm_compute; reflexivity | discriminate | discriminate
      | lia | simpl; lia].
  - vm_compute. reflexivity.
Defined.

(** ** ops.c *)

(** X5.  On a stack within its capacity whose two topmost slots hold
    live objects [a] and [b] with positive reference counts, [swap]
    exchanges the two slots and changes nothing else: no reference
    count, no capacity, no other block.  Two [swap]s in a row therefore
    give back exactly the state they started from. *)
Theorem swap_twice (ctx : tfcontext) (w : world) ty rc els a b cap oa ob :
  heap w !! stack ctx = Some (mk_tfobj ty rc (list_obj (els ++ [a; b]) cap)) ->
  heap w !! a = Some oa -> heap w !! b = Some ob ->
  a <> stack ctx -> b <> stack ctx -> a <> NULL -> b <> NULL ->
  0 < refcount oa -> 0 < refcount ob ->
  Z.of_nat (length els) + 2 <= cap ->
  operationSwap ctx w
  = Ret tt (set_heap (<[stack ctx := mk_tfobj ty rc (list_obj (els ++ [b; a]) cap)]> (heap w)) w)
  /\ (operationSwap ctx ;;; operationSwap ctx) w = Ret tt w.
Proof.
  intros Hs Ha Hb Has Hbs Han Hbn Hra Hrb Hlen.
  pose proof (operationSwap_live _ _ _ _ _ _ _ _ _ _ Hs Ha Hb Has Hbs Han Hbn Hra Hrb Hlen) as H1.
  split; [exact H1|].
  unfold bind. rewrite H1.
  erewrite (operationSwap_live _ _ _ els b a cap ob oa);
    [|heap_lookup|heap_lookup|heap_lookup|congruence|congruence|congruence|congruence|lia|lia|lia].
  f_equal. unfold set_heap. simpl. rewrite insert_insert_eq.
  rewrite insert_id by exact Hs. destruct w; reflexivity.
Qed.

Lemma swap_twice_witness :
  (operationSwap {| stack := 4%nat |} ;;; operationSwap {| stack := 4%nat |})
    (state_after "1 2") = Ret tt (state_after "1 2").
Proof.
  apply (swap_twice {| stack := 4%nat |} (state_after "1 2") TF_OBJ_LIST 1 [] 2%nat 3%nat 16
           (mk_tfobj TF_OBJ_INT 2 (number 1)) (mk_tfobj TF_OBJ_INT 2 (number 2)));
    [vm_compute; reflexivity | vm_compute; reflexivity | vm_compute; reflexivity
    | discriminate | discriminate | discriminate | discriminate
    | simpl; lia | simpl; lia | simpl; lia].
Defined.

(** X6.  [dup] on a non-empty stack does not copy the object on top:
    the same address fills the two topmost slots, nothing is allocated,
    and the reference count of the object goes up by one.  When the
    stack was full its capacity doubles.  The stack must be within its
    capacity and the object on top live, with a positive reference
    count. *)
Theorem dup_shares_object (ctx : tfcontext) (w : world) ty rc els x cap ox :
  heap w !! stack ctx = Some (mk_tfobj ty rc (list_obj (els ++ [x]) cap)) ->
  heap w !! x = Some ox -> x <> stack ctx -> x <> NULL -> 0 < refcount ox ->
  Z.of_nat (length els) + 1 <= cap ->
  operationDup ctx w
  = Ret tt (set_heap
              (<[x := mk_tfobj (type ox) (refcount ox + 1) (data ox)]>
                 (<[stack ctx := mk_tfobj ty rc
                       (list_obj (els ++ [x; x])
                          (if Z.of_nat (length els) + 1 =? cap then cap * 2 else cap))]>
                    (heap w))) w).
Proof.
  intros Hs Hx Hxs Hn Hrc Hlen. unfold operationDup.
  rewrite (bind_load _ _ _ _ Hs).
  change (get_list _) with (@ret (list addr * Z) (els ++ [x], cap)). rewrite bind_ret_l.
  cbn [fst snd]. destruct (Nat.eqb_spec (length (els ++ [x])) 0) as [Hz|_].
  { rewrite length_app in Hz. simpl in Hz. lia. }
  unfold bind at 1. rewrite (stackPop_live _ _ _ _ _ _ _ Hs).
  unfold bind at 1. unfold stackPush.
  erewrite (listAppendObject_live _ _ _ els cap x ox);
    [|heap_lookup|heap_lookup|congruence|congruence|lia|lia].
  destruct (Z.geb_spec (Z.of_nat (length els)) cap) as [Hge|_]; [lia|].
  unfold bind at 1.
  erewrite (listAppendObject_live _ _ _ (els ++ [x]) cap x);
    [|heap_lookup|heap_lookup|congruence|congruence|lia|rewrite length_app; simpl; lia].
  erewrite decrementReferenceCount_shared; [|heap_lookup|congruence|simpl; lia].
  simpl. f_equal. unfold set_heap. simpl. f_equal.
  rewrite <- app_assoc. simpl.
  replace (refcount ox + 1 + 1 - 1) with (refcount ox + 1) by lia.
  replace (Z.of_nat (length (els ++ [x])) >=? cap) with (Z.of_nat (length els) + 1 =? cap).
  2:{ rewrite length_app. simpl.
      destruct (Z.eqb_spec (Z.of_nat (length els) + 1) cap),
               (Z.geb_spec (Z.of_nat (length els + 1)) cap); lia || reflexivity. }
  apply map_eq. intros i.
  destruct (decide (i = x)) as [->|Hix].
  { repeat first [rewrite lookup_insert_eq | rewrite lookup_insert_ne by congruence]. reflexivity. }
  destruct (decide (i = stack ctx)) as [->|His].
  { repeat first [rewrite lookup_insert_eq | rewrite lookup_insert_ne by congruence]. reflexivity. }
  repeat first [rewrite lookup_insert_eq | rewrite lookup_insert_ne by congruence]. reflexivity.
Qed.

Lemma dup_shares_object_witness :
  exists w', operationDup {| stack := 3%nat |} (state_after "7") = Ret tt w'
             /\ list_elements w' 3%nat = Some [2%nat; 2%nat]
             /\ brk w' = brk (state_after "7").
Proof.
  eexists. split.
  - apply (dup_shares_object {| stack := 3%nat |} (state_after "7")
             TF_OBJ_LIST 1 [] 2%nat 16 (mk_tfobj TF_OBJ_INT 2 (number 7)));
      [vm_compute; reflexivity | vm_compute; reflexivity | discriminate | discriminate
      | simpl; lia | simpl; lia].
  - split; vm_compute; reflexivity.
Defined.

(** X7.  [drop] removes the topmost slot and releases its reference:
    when the reference count of the object on top, a live scalar, was
    one, the object is freed; otherwise it stays, with its count lowered
    by one. *)
Theorem drop_releases_top (ctx : tfcontext) (w : world) ty rc els x cap ox :
  heap w !! stack ctx = Some (mk_tfobj ty rc (list_obj (els ++ [x]) cap)) ->
  heap w !! x = Some ox -> x <> stack ctx -> x <> NULL ->
  type_eqb (type ox) TF_OBJ_LIST = false ->
  operationDrop ctx w
  = Ret tt (set_heap
              ((if refcount ox =? 1 then delete x
                else <[x := mk_tfobj (type ox) (refcount ox - 1) (data ox)]>)
                 (<[stack ctx := mk_tfobj ty rc (list_obj els cap)]> (heap w))) w).
Proof.
  intros Hs Hx Hxs Hn Hty. unfold operationDrop.
  unfold bind at 1. rewrite (stackPop_live _ _ _ _ _ _ _ Hs).
  destruct (Z.eqb_spec (refcount ox) 1) as [H1|H1].
  - erewrite decrementReferenceCount_last; [|heap_lookup|congruence|exact H1|exact Hty].
    reflexivity.
  - erewrite decrementReferenceCount_shared; [|heap_lookup|congruence|exact H1].
    reflexivity.
Qed.

Lemma drop_releases_top_witness :
  exists w', operationDrop {| stack := 3%nat |} (state_after "7") = Ret tt w'
             /\ list_elements w' 3%nat = Some []
             /\ heap w' !! 2%nat = Some (mk_tfobj TF_OBJ_INT 1 (number 7)).
Proof.
  eexists. split.
  - apply (drop_releases_top {| stack := 3%nat |} (state_after "7")
             TF_OBJ_LIST 1 [] 2%nat 16 (mk_tfobj TF_OBJ_INT 2 (number 7)));
      [vm_compute; reflexivity | vm_compute; reflexivity | discriminate | discriminate
      | reflexivity].
  - split; vm_compute; reflexivity.
Defined.

(** X8.  A primitive that finds fewer values on the stack than it
    consumes ends the process with the stack-underflow error: [+], [-],
    [*], [/] and [swap] with fewer than two values, [.] and [drop] on the
    empty stack.  The state must be well formed.  The diagnostic is
    appended to the standard error, nothing is printed, and the stack is
    empty at that point (a single value has already been popped). *)
Theorem primitive_needs_its_operands (op : Operation) (n : nat) (ctx : tfcontext)
    (w : world) (st : list val) :
  In (op, n) [(operationAdd, 2%nat); (operationSub, 2%nat); (operationMul, 2%nat);
              (operationDiv, 2%nat); (operationSwap, 2%nat);
              (operationPrint, 1%nat); (operationDrop, 1%nat)] ->
  well_formed w ctx -> list_values w (stack ctx) = Some st ->
  (length st < n)%nat ->
  exists w', op ctx w = Exit StackUnderflow w'
             /\ list_values w' (stack ctx) = Some []
             /\ out w' = out w /\ err w' = (err w ++ underflow_message)%string.
Proof.
  intros Hop Hwf Hvs Hlen.
  assert (Hp : exists p, op = denote p
                         /\ sem_prim p st = Halt StackUnderflow [] underflow_message).
  { simpl in Hop.
    destruct Hop as [Heq|[Heq|[Heq|[Heq|[Heq|[Heq|[Heq|[]]]]]]]]; injection Heq as <- <-;
      [exists PAdd | exists PSub | exists PMul | exists PDiv | exists PSwap
      | exists PPrint | exists PDrop];
      (split; [reflexivity|]);
      destruct st as [|v [|v' st]]; try reflexivity; simpl in Hlen; lia. }
  destruct Hp as (p & -> & Hsem).
  pose proof (prim_on_values p ctx w st Hwf Hvs) as Hr. rewrite Hsem in Hr. exact Hr.
Qed.

Lemma primitive_needs_its_operands_witness :
  well_formed (state_after "7") {| stack := 3%nat |}
  /\ list_values (state_after "7") 3%nat = Some [VInt 7]
  /\ exists w', operationAdd {| stack := 3%nat |} (state_after "7") = Exit StackUnderflow w'
                /\ list_values w' 3%nat = Some [].
Proof.
  assert (Hrun : @compile_and_execute LP64 "7" initial_world
                 = Ret (1%nat, {| stack := 3%nat |}) (state_after "7"))
    by (vm_compute; reflexivity).
  assert (Hn : 1%nat <> NULL) by discriminate.
  assert (Hwf := @reachable_well_formed LP64 "7" 1%nat _ _ Hrun Hn).
  assert (Hvs : list_values (state_after "7") (stack {| stack := 3%nat |}) = Some [VInt 7])
    by (vm_compute; reflexivity).
  split; [exact Hwf|]. split; [exact Hvs|].
  destruct (primitive_needs_its_operands operationAdd 2%nat {| stack := 3%nat |}
              (state_after "7") [VInt 7] (or_introl eq_refl) Hwf Hvs ltac:(simpl; lia))
    as (w' & Hop & Hv & _).
  exists w'. split; [exact Hop | exact Hv].
Defined.

(** X9.  [.] on a well-formed state with a value on top of the stack
    pops that value and writes it to the standard output according to its
    type: an Integer in decimal, a Boolean as [TRUE] (non-zero) or
    [FALSE] (zero), a String as its bytes up to the terminator, each
    followed by one space, and nothing at all for a Symbol.  The rest of
    the stack and the standard error are unchanged. *)
Theorem print_by_type (ctx : tfcontext) (w : world) (rest : list val) (v : val) :
  well_formed w ctx -> list_values w (stack ctx) = Some (rest ++ [v]) ->
  exists w', operationPrint ctx w = Ret tt w'
             /\ well_formed w' ctx
             /\ list_values w' (stack ctx) = Some rest
             /\ err w' = err w
             /\ out w' = (out w ++
                  match v with
                  | VInt n => printf_d n ++ " "
                  | VBool n => (if (n =? 0)%Z then "FALSE" else "TRUE") ++ " "
                  | VStr s => c_str s ++ " "
                  | VSym _ => ""
                  end)%string.
Proof.
  intros Hwf Hvs.
  pose proof (prim_on_values PPrint ctx w _ Hwf Hvs) as Hr.
  simpl in Hr. unfold sem_print in Hr. rewrite unsnoc_snoc in Hr.
  destruct Hr as (w' & Hrun & Hwf' & Hvs' & Ho & He).
  exists w'. split; [exact Hrun|]. split; [exact Hwf'|]. split; [exact Hvs'|].
  split; [exact He|]. rewrite Ho. destruct v; reflexivity.
Qed.

Lemma print_by_type_witness :
  well_formed (state_after "7") {| stack := 3%nat |}
  /\ exists w', operationPrint {| stack := 3%nat |} (state_after "7") = Ret tt w'
                /\ out w' = "7 ".
Proof.
  assert (Hrun : @compile_and_execute LP64 "7" initial_world
                 = Ret (1%nat, {| stack := 3%nat |}) (state_after "7"))
    by (vm_compute; reflexivity).
  assert (Hn : 1%nat <> NULL) by discriminate.
  assert (Hwf := @reachable_well_formed LP64 "7" 1%nat _ _ Hrun Hn).
  assert (Hvs : list_values (state_after "7") (stack {| stack := 3%nat |})
                = Some ([] ++ [VInt 7])) by (vm_compute; reflexivity).
  split; [exact Hwf|].
  destruct (print_by_type {| stack := 3%nat |} (state_after "7") [] (VInt 7) Hwf Hvs)
    as (w' & Hop & _ & _ & _ & Ho).
  exists w'. split; [exact Hop | exact Ho].
Defined.

(** ** dictionary.c *)

(** X10.  [lookupOperation] finds a name exactly when the name, read up
    to its terminator, is one of the eight entries of the table; the
    comparison is exact, so it is sensitive to case.  Text after a NUL
    byte plays no role, and every entry of the table is found under its
    own name (no entry is hidden by an earlier one). *)
Theorem lookup_is_exact (operation : string) :
  (lookupOperation operation <> None
   <-> In (c_str operation) ["+"; "-"; "*"; "/"; "."; "dup"; "drop"; "swap"])
  /\ lookupOperation (c_str operation) = lookupOperation operation
  /\ Forall (fun e => lookupOperation (fst e) = Some (snd e)) operations.
Proof.
  split; [|split].
  - unfold lookupOperation. split.
    + intros Hl.
      destruct (In_dec string_dec (c_str operation)
                  ["+"; "-"; "*"; "/"; "."; "dup"; "drop"; "swap"]) as [Hin|Hnin];
        [exact Hin|].
      exfalso. apply Hl. apply lookupOperation_in_None.
      unfold operations. repeat constructor; simpl; intros Heq; apply Hnin; simpl;
        rewrite Heq; tauto.
    + intros Hin Hl. rewrite lookupOperation_in_None in Hl.
      unfold operations in Hl.
      repeat match goal with
             | H : Forall _ (_ :: _) |- _ => inversion H; clear H; subst
             end.
      simpl in *. intuition congruence.
  - apply lookupOperation_in_c_str.
  - unfold operations. repeat constructor.
Qed.

(** ** parser.c *)

(** X11.  Reading a NUL-free text [pre] character by character with
    [parserAdvance] leaves the parser at the text that follows, with the
    line advanced by the number of newlines in [pre] and the column equal
    to the old column plus the length of [pre] when [pre] has no newline,
    and to one plus the number of characters after the last newline
    otherwise.  At the terminator [parserAdvance] does nothing, however
    often it is called. *)
Theorem position_tracking (pre rest : string) (l c : Z) :
  string_forall not_nul pre = true ->
  advance (String.length pre) {| program := pre ++ rest; line := l; column := c |}
  = {| program := rest;
       line := l + newlines pre;
       column := if newlines pre =? 0 then c + Z.of_nat (String.length pre)
                 else 1 + Z.of_nat (String.length (after_last_newline pre)) |}
  /\ (forall n p, is_nul (parserPeek p) = true -> advance n p = p).
Proof.
  intros Hnn. split; [|intros n p; apply advance_at_end].
  pose proof (advance_text pre rest (l, c) Hnn) as Ha.
  rewrite position_after_closed in Ha. exact Ha.
Qed.

Lemma position_tracking_witness :
  advance 5 {| program := "1 2" ++ nl ++ "3 foo"; line := 1; column := 1 |}
  = {| program := " foo"; line := 2; column := 2 |}.
Proof.
  exact (proj1 (position_tracking ("1 2" ++ nl ++ "3") " foo" 1 1 eq_refl)).
Defined.

(** X12.  [parserSkipWhiteSpace] always stops (the length of the
    remaining text is enough fuel).  It removes exactly the longest
    prefix of white space from the text, so the parser then stands at the
    terminator or at a character that is not white space; the line has
    advanced by the number of newlines skipped; and skipping again
    changes nothing. *)
Theorem skip_white_space (parser : tfparser) :
  let ws := take_while is_blank (program parser) in
  exists parser',
    parserSkipWhiteSpace parser = Some parser'
    /\ program parser = (ws ++ program parser')%string
    /\ string_forall isspace ws = true
    /\ (is_nul (parserPeek parser') = true \/ isspace (parserPeek parser') = false)
    /\ line parser' = line parser + newlines ws
    /\ parserSkipWhiteSpace parser' = Some parser'.
Proof.
  intros ws. eexists. split; [apply parserSkipWhiteSpace_spec|].
  set (s := program parser) in *.
  assert (Hstop : is_blank (parserPeek (at_pos (drop_while is_blank s)
                    (position_after ws (line parser, column parser)))) = false).
  { unfold parserPeek. simpl. clear. induction s as [|c t IH]; [reflexivity|].
    simpl. destruct (is_blank c) eqn:Hb; [exact IH|]. simpl. exact Hb. }
  split; [simpl; symmetry; apply take_drop_while|].
  split.
  { apply (string_forall_impl is_blank); [|apply take_while_forall].
    intros c Hb. unfold is_blank in Hb. now apply andb_prop in Hb as [_ Hs]. }
  split.
  { unfold is_blank in Hstop.
    destruct (is_nul (parserPeek _)); [left; reflexivity|right; exact Hstop]. }
  split.
  { simpl. rewrite position_after_closed. reflexivity. }
  rewrite parserSkipWhiteSpace_spec. simpl.
  assert (Hd : take_while is_blank (drop_while is_blank s) = ""
               /\ drop_while is_blank (drop_while is_blank s) = drop_while is_blank s).
  { clear. induction s as [|c t IH]; [split; reflexivity|].
    simpl. destruct (is_blank c) eqn:Hb; [exact IH|]. simpl. rewrite Hb. split; reflexivity. }
  destruct Hd as [-> ->]. simpl. unfold at_pos. simpl. f_equal.
Qed.

(** X13.  [parseSymbol] reads the longest run of characters that are
    neither white space nor NUL, moving the column by its length and
    leaving the line as it is.  When the dictionary knows the word, it
    returns a fresh Symbol object with reference count one that holds a
    copy of the word.  When it does not, it returns the null pointer and
    has freed the object again: the heap is as before.  The address
    [malloc] hands out next must be free and not null. *)
Theorem parseSymbol_result (parser : tfparser) (w : world) :
  let tok := take_while is_word_char (program parser) in
  let parser' := {| program := drop_while is_word_char (program parser);
                    line := line parser;
                    column := column parser + Z.of_nat (String.length tok) |} in
  heap w !! brk w = None -> brk w <> NULL ->
  parseSymbol parser w
  = match lookupOperation tok with
    | Some _ =>
        Ret (brk w, parser')
            (alloc (mk_tfobj TF_OBJ_SYMBOL 1 (str_obj tok (Z.of_nat (String.length tok)))) w)
    | None =>
        Ret (NULL, parser') (mk_world (heap w) (S (brk w)) (out w) (err w))
    end.
Proof.
  intros tok parser' Hf Hn. unfold parseSymbol.
  rewrite parseSymbol_loop_spec. unfold within_fuel. rewrite bind_ret_l.
  assert (Hpos : at_pos (drop_while is_word_char (program parser))
                   (position_after (take_while is_word_char (program parser))
                      (line parser, column parser)) = parser').
  { rewrite position_after_closed.
    rewrite (word_has_no_newline _ (take_while_forall is_word_char (program parser))).
    unfold at_pos, parser'. simpl. f_equal. lia. }
  rewrite Hpos.
  assert (Hlen : (String.length (program parser) - String.length (program parser'))%nat
                 = String.length tok).
  { unfold parser', tok. simpl.
    rewrite <- (take_drop_while is_word_char (program parser)) at 1.
    rewrite string_length_app. lia. }
  assert (Hsub : substring 0 (String.length tok) (program parser) = tok).
  { unfold tok. rewrite <- (take_drop_while is_word_char (program parser)) at 2.
    apply substring_prefix. }
  rewrite Hlen.
  assert (Hle : (String.length tok <= String.length (program parser))%nat).
  { rewrite <- Hlen. lia. }
  unfold bind at 1. rewrite (createSymbolObject_alloc _ _ _ Hle). rewrite Hsub.
  erewrite bind_load; [|simpl; apply lookup_insert_eq].
  change (get_str _) with (@ret string tok). rewrite bind_ret_l.
  destruct (lookupOperation tok) as [op|]; [reflexivity|].
  unfold bind at 1.
  erewrite decrementReferenceCount_last;
    [|simpl; apply lookup_insert_eq|exact Hn|reflexivity|reflexivity].
  unfold ret. f_equal. apply alloc_release. exact Hf.
Qed.

Lemma parseSymbol_result_witness :
  parseSymbol {| program := "dup 1"; line := 1; column := 1 |} initial_world
  = Ret (1%nat, {| program := " 1"; line := 1; column := 4 |})
        (alloc (mk_tfobj TF_OBJ_SYMBOL 1 (str_obj "dup" 3)) initial_world).
Proof.
  exact (parseSymbol_result {| program := "dup 1"; line := 1; column := 1 |} initial_world
           (lookup_empty _) ltac:(discriminate)).
Defined.

(** X14.  At the start of a number (a digit, or a minus sign followed
    by a digit) [parseNumber] consumes the optional sign and the digits,
    moving the column by the number of characters consumed and leaving
    the line as it is, and returns a fresh Integer object with reference
    count one holding the value read by [strtol], clamped to [long] and
    converted to [int]. *)
Theorem parseNumber_result `{HostABI} (parser : tfparser) (w : world) :
  is_number_start parser = true ->
  parseNumber parser w
  = Ret (brk w,
         {| program := number_rest (program parser);
            line := line parser;
            column := column parser
                      + Z.of_nat (String.length (number_text (program parser))) |})
        (alloc (mk_tfobj TF_OBJ_INT 1
                  (number (to_int (clamp_long (number_value (program parser)))))) w).
Proof.
  intros Hns. destruct (parseNumber_loop_spec parser Hns) as (Hloop & Hval & _).
  unfold parseNumber. rewrite Hloop, Hval. unfold within_fuel. rewrite bind_ret_l.
  unfold bind. rewrite createIntegerObject_alloc. unfold ret. f_equal. f_equal.
  rewrite position_after_closed, number_text_no_newline. unfold at_pos. simpl.
  f_equal. lia.
Qed.

Lemma parseNumber_result_witness :
  @parseNumber LP64 {| program := "-12+"; line := 3; column := 5 |} initial_world
  = Ret (1%nat, {| program := "+"; line := 3; column := 8 |})
        (alloc (mk_tfobj TF_OBJ_INT 1 (number (-12))) initial_world).
Proof.
  exact (@parseNumber_result LP64 {| program := "-12+"; line := 3; column := 5 |}
           initial_world eq_refl).
Defined.

(** X15.  A text that consists of white space only, the empty text
    included, compiles to the empty program, and [main], once it has
    read such a text, returns [EXIT_SUCCESS] having written nothing to
    either stream and having freed every object. *)
Theorem blank_text_is_empty_program `{HostABI} (text : string) :
  string_forall isspace text = true ->
  (exists w, compile text initial_world = Ret 1%nat w
             /\ list_values w 1%nat = Some [] /\ out w = "" /\ err w = "")
  /\ (exists w, main text initial_world = Ret EXIT_SUCCESS w
                /\ heap w = ∅ /\ out w = "" /\ err w = "").
Proof.
  intros Hs. pose proof (tokens_blank_text text Hs) as Htok. split.
  - exact (compile_finished text [] Htok).
  - pose proof (main_sound text) as Hm. rewrite Htok in Hm. exact Hm.
Qed.

Lemma blank_text_is_empty_program_witness :
  exists w, @main LP64 "   " initial_world = Ret EXIT_SUCCESS w /\ out w = "".
Proof.
  destruct (@blank_text_is_empty_program LP64 "   " eq_refl) as (_ & w & Hm & _ & Ho & _).
  exists w. split; [exact Hm | exact Ho].
Defined.

(** X16.  Compilation is compositional: when [pre] is free of NUL, is
    empty or ends with a blank, and compiles to a program with values
    [va], and [tail] compiles to a program with values [vb], then
    [pre ++ tail] compiles to a program with values [va ++ vb], without
    any diagnostic. *)
Theorem compile_concatenation `{HostABI} (pre tail : string) pl1 w1 pl2 w2 va vb :
  string_forall not_nul pre = true -> ends_blank pre = true ->
  compile pre initial_world = Ret pl1 w1 -> pl1 <> NULL ->
  list_values w1 pl1 = Some va ->
  compile tail initial_world = Ret pl2 w2 -> pl2 <> NULL ->
  list_values w2 pl2 = Some vb ->
  exists w, compile (pre ++ tail) initial_world = Ret 1%nat w
            /\ list_values w 1%nat = Some (va ++ vb) /\ out w = "" /\ err w = "".
Proof.
  intros Hnn Heb Hc1 Hp1 Hv1 Hc2 Hp2 Hv2.
  pose proof (compile_tokens _ _ _ _ Hc1 Hp1 Hv1) as Ht1.
  pose proof (compile_tokens _ _ _ _ Hc2 Hp2 Hv2) as Ht2.
  apply compile_finished. rewrite tokens_unfold in *.
  rewrite string_length_app.
  apply (tokens_from_position _ _ _ (position_after pre (1, 1))) in Ht2.
  exact (tokens_from_app _ _ _ _ _ _ _ Hnn Heb Ht1 Ht2).
Qed.

Lemma compile_concatenation_witness :
  exists w, @compile LP64 ("1 " ++ "2 +") initial_world = Ret 1%nat w
            /\ list_values w 1%nat = Some ([VInt 1] ++ [VInt 2; VSym "+"]).
Proof.
  assert (H1 : @compile LP64 "1 " initial_world = Ret 1%nat (compiled_state "1 "))
    by (vm_compute; reflexivity).
  assert (H2 : @compile LP64 "2 +" initial_world = Ret 1%nat (compiled_state "2 +"))
    by (vm_compute; reflexivity).
  destruct (@compile_concatenation LP64 "1 " "2 +" _ _ _ _ [VInt 1] [VInt 2; VSym "+"]
              eq_refl eq_refl H1 ltac:(discriminate) ltac:(vm_compute; reflexivity)
              H2 ltac:(discriminate) ltac:(vm_compute; reflexivity))
    as (w & Hc & Hv & _).
  exists w. split; [exact Hc | exact Hv].
Defined.

(** X17.  No blank is needed after a number: a literal directly
    followed by a word of the dictionary (which is not itself the start
    of a number) compiles to two objects, the Integer and the Symbol.
    So ["2dup"] is the program [2 dup]. *)
Theorem literal_then_word `{HostABI} (lit tok : string) :
  is_literal lit = true ->
  tok <> "" -> string_forall is_word_char tok = true ->
  is_number_start (at_pos tok (1, 1)) = false ->
  lookupOperation tok <> None ->
  exists w, compile (lit ++ tok) initial_world = Ret 1%nat w
            /\ list_values w 1%nat
               = Some [VInt (to_int (clamp_long (literal_value lit))); VSym tok].
Proof.
  intros Hlit Hne Hw Hns Hl.
  destruct (lookupOperation_Some_prim tok Hl) as [p Hp].
  assert (Hd : starts_with_digit tok = false).
  { destruct tok as [|c t]; [reflexivity|].
    unfold is_number_start in Hns. simpl in Hns.
    now apply orb_false_iff in Hns as [Hc _]. }
  assert (Htok : tokens (lit ++ tok)
                 = Some ([VInt (to_int (clamp_long (literal_value lit))); VSym tok], None)).
  { rewrite tokens_unfold. pose proof (literal_length lit Hlit) as Hlen.
    apply (tokens_from_mono 2).
    2:{ rewrite string_length_app. destruct tok; [contradiction|]. simpl. lia. }
    rewrite tokens_literal by auto.
    rewrite <- (string_app_nil_r tok) at 1.
    rewrite (tokens_word _ tok "" _ p); auto.
    rewrite string_app_nil_r. exact Hns. }
  destruct (compile_finished _ _ Htok) as (w & Hc & Hv & _). eauto.
Qed.

Lemma literal_then_word_witness :
  exists w, @compile LP64 ("2" ++ "dup") initial_world = Ret 1%nat w
            /\ list_values w 1%nat = Some [VInt 2; VSym "dup"].
Proof.
  exact (@literal_then_word LP64 "2" "dup" eq_refl ltac:(discriminate) eq_refl eq_refl
           ltac:(vm_compute; discriminate)).
Defined.

(** X18.  A minus sign directly followed by a digit is always the sign
    of a literal, never the subtraction: for decimal numerals [a] and
    [b], the text [a-b] compiles to the two Integers [a] and [-b], while
    [a - b] compiles to the Integer [a], the Symbol [-] and the Integer
    [b]. *)
Theorem minus_before_digit_is_a_sign `{HostABI} (a b : string) :
  digits a = true -> digits b = true ->
  (exists w, compile (a ++ "-" ++ b) initial_world = Ret 1%nat w
             /\ list_values w 1%nat
                = Some [VInt (to_int (clamp_long (decimal_value a)));
                        VInt (to_int (clamp_long (- decimal_value b)))])
  /\ (exists w, compile (a ++ " - " ++ b) initial_world = Ret 1%nat w
                /\ list_values w 1%nat
                   = Some [VInt (to_int (clamp_long (decimal_value a)));
                           VSym "-";
                           VInt (to_int (clamp_long (decimal_value b)))]).
Proof.
  intros Ha Hb.
  assert (Hla : is_literal a = true /\ literal_value a = decimal_value a).
  { destruct a as [|c t]; [discriminate|].
    assert (Hc : isdigit c = true) by (simpl in Ha; now apply andb_prop in Ha as [Hc _]).
    unfold is_literal, literal_value.
    assert (Hm : (N_of_ascii c =? 45)%N = false).
    { destruct (N.eqb_spec (N_of_ascii c) 45) as [Heq|]; [|reflexivity].
      unfold isdigit in Hc. rewrite Heq in Hc. discriminate. }
    rewrite Hm. auto. }
  destruct Hla as [Hla Hva].
  assert (Hlb : is_literal b = true /\ literal_value b = decimal_value b).
  { destruct b as [|c t]; [discriminate|].
    assert (Hc : isdigit c = true) by (simpl in Hb; now apply andb_prop in Hb as [Hc _]).
    unfold is_literal, literal_value.
    assert (Hm : (N_of_ascii c =? 45)%N = false).
    { destruct (N.eqb_spec (N_of_ascii c) 45) as [Heq|]; [|reflexivity].
      unfold isdigit in Hc. rewrite Heq in Hc. discriminate. }
    rewrite Hm. auto. }
  destruct Hlb as [Hlb Hvb].
  destruct (digits_minus_literal b Hb) as [Hlm Hvm].
  pose proof (literal_length a Hla) as Hna. pose proof (literal_length b Hlb) as Hnb.
  split.
  - assert (Htok : tokens (a ++ "-" ++ b)
                   = Some ([VInt (to_int (clamp_long (decimal_value a)));
                            VInt (to_int (clamp_long (- decimal_value b)))], None)).
    { rewrite tokens_unfold. apply (tokens_from_mono 2).
      2:{ rewrite !string_length_app. simpl. lia. }
      change ("-" ++ b)%string with (String "-" b).
      rewrite tokens_literal by auto. rewrite Hva.
      rewrite <- (string_app_nil_r (String "-" b)).
      rewrite tokens_literal by auto. rewrite Hvm. now rewrite tokens_from_end. }
    destruct (compile_finished _ _ Htok) as (w & Hc & Hv & _). eauto.
  - assert (Htok : tokens (a ++ " - " ++ b)
                   = Some ([VInt (to_int (clamp_long (decimal_value a)));
                            VSym "-";
                            VInt (to_int (clamp_long (decimal_value b)))], None)).
    { rewrite tokens_unfold. apply (tokens_from_mono 3).
      2:{ rewrite !string_length_app. simpl. lia. }
      rewrite tokens_literal by auto. rewrite Hva.
      change (" - " ++ b)%string with (String " " ("-" ++ String " " b)).
      rewrite tokens_blank by reflexivity.
      rewrite (tokens_word _ "-" (String " " b) _ PSub);
        [|discriminate|reflexivity|reflexivity|reflexivity|reflexivity].
      rewrite tokens_blank by reflexivity.
      rewrite <- (string_app_nil_r b) at 1.
      rewrite tokens_literal by auto. rewrite Hvb. now rewrite tokens_from_end. }
    destruct (compile_finished _ _ Htok) as (w & Hc & Hv & _). eauto.
Qed.

Lemma minus_before_digit_is_a_sign_witness :
  exists w, @compile LP64 ("5" ++ "-" ++ "3") initial_world = Ret 1%nat w
            /\ list_values w 1%nat = Some [VInt 5; VInt (-3)].
Proof.
  exact (proj1 (@minus_before_digit_is_a_sign LP64 "5" "3" eq_refl eq_refl)).
Defined.

(** X19.  Printing and reading a number are inverse to each other: for
    every [n] in the range of [int], the text that [printf "%d"] writes
    for [n] compiles to the single Integer [n], and the program made of
    that text followed by [ .] prints the same text again, followed by
    one space. *)
Theorem print_parse_round_trip `{HostABI} (n : Z) :
  in_int n ->
  (exists w, compile (printf_d n) initial_world = Ret 1%nat w
             /\ list_values w 1%nat = Some [VInt n])
  /\ (exists w, main (printf_d n ++ " .") initial_world = Ret EXIT_SUCCESS w
                /\ out w = (printf_d n ++ " ")%string /\ err w = "").
Proof.
  intros Hn. destruct (printf_d_literal n) as [Hlit Hval].
  assert (Hv : to_int (clamp_long (literal_value (printf_d n))) = n).
  { rewrite literal_in_int; rewrite Hval; [reflexivity | exact Hn]. }
  split.
  - pose proof (tokens_one_literal _ Hlit) as Htok. rewrite Hv in Htok.
    destruct (compile_finished _ _ Htok) as (w & Hc & Hvs & _). eauto.
  - assert (Htok : tokens (printf_d n ++ " .") = Some ([VInt n; VSym "."], None)).
    { rewrite tokens_unfold. pose proof (literal_length _ Hlit) as Hlen.
      apply (tokens_from_mono 2).
      2:{ rewrite string_length_app. simpl. lia. }
      rewrite tokens_literal by auto. rewrite Hv.
      change (" .")%string with (String " " ("." ++ "")).
      rewrite tokens_blank by reflexivity.
      rewrite (tokens_word _ "." "" _ PPrint);
        [|discriminate|reflexivity|exact I|reflexivity|reflexivity].
      now rewrite tokens_from_end. }
    pose proof (main_sound (printf_d n ++ " .")%string) as Hm. rewrite Htok in Hm.
    assert (Hsem : sem_program [VInt n; VSym "."] [] = Finished [] (printf_d n ++ " ")%string).
    { cbv -[printf_d String.append]. rewrite !string_app_nil_r. reflexivity. }
    rewrite Hsem in Hm. destruct Hm as (w & Hmain & _ & Ho & He). eauto.
Qed.

Lemma print_parse_round_trip_witness :
  exists w, @main LP64 (printf_d (-42) ++ " .") initial_world = Ret EXIT_SUCCESS w
            /\ out w = "-42 ".
Proof.
  destruct (@print_parse_round_trip LP64 (-42) ltac:(unfold in_int, INT_MIN, INT_MAX; lia))
    as (_ & w & Hm & Ho & _).
  exists w. split; [exact Hm | exact Ho].
Defined.

(** X20.  The text ends at its first NUL byte: whatever follows it has
    no effect.  [main], once it has read the text, ends the same way on a
    text and on the part of the text before its first NUL: both return,
    with the same status, or both end the process, with the same fatal
    error, in either case with the same output and the same diagnostics;
    or both fault, at a division of [INT_MIN] by [-1].  And [compile]
    returns programs with the same values. *)
Theorem text_ends_at_first_nul `{HostABI} (text : string) :
  match main text initial_world, main (c_str text) initial_world with
  | Ret status w, Ret status' w' => status = status' /\ out w = out w' /\ err w = err w'
  | Exit f w, Exit f' w' => f = f' /\ out w = out w' /\ err w = err w'
  | Fault, Fault => True
  | _, _ => False
  end
  /\ match compile text initial_world, compile (c_str text) initial_world with
     | Ret pl w, Ret pl' w' =>
         pl = pl' /\ list_values w pl = list_values w' pl' /\ err w = err w'
     | _, _ => False
     end.
Proof.
  pose proof (main_sound text) as Hm. pose proof (main_sound (c_str text)) as Hm'.
  rewrite tokens_c_str in Hm'.
  destruct (tokens text) as [[toks [[l c]|]]|] eqn:Htok; [| |contradiction].
  - split.
    + destruct Hm as (w & -> & _ & Ho & He). destruct Hm' as (w' & -> & _ & Ho' & He').
      split; [reflexivity|]. split; congruence.
    + destruct (compile_rejected text toks l c Htok) as (w & -> & He & _ & Hh).
      destruct (compile_rejected (c_str text) toks l c) as (w' & -> & He' & _ & Hh');
        [rewrite tokens_c_str; exact Htok|].
      split; [reflexivity|]. split; [|congruence].
      unfold list_values, list_elements. rewrite Hh, Hh'. reflexivity.
  - split.
    + destruct (sem_program toks []) as [st o|f st o e|].
      * destruct Hm as (w & -> & _ & Ho & He). destruct Hm' as (w' & -> & _ & Ho' & He').
        split; [reflexivity|]. split; congruence.
      * destruct Hm as (w & -> & _ & Ho & He). destruct Hm' as (w' & -> & _ & Ho' & He').
        split; [reflexivity|]. split; congruence.
      * rewrite Hm, Hm'. exact I.
    + destruct (compile_finished text toks Htok) as (w & -> & Hv & _ & He).
      destruct (compile_finished (c_str text) toks) as (w' & -> & Hv' & _ & He');
        [rewrite tokens_c_str; exact Htok|].
      split; [reflexivity|]. split; congruence.
Qed.

(** ** engine.c *)

(** X21.  [execute] on a list that was not produced by [compile]: when
    the program starts with Integers and Booleans followed by a String,
    or by a Symbol the dictionary does not know, the engine pushes the
    Integers and Booleans in order and then ends the process, with the
    unexecutable-object error for the String and the unknown-word error,
    naming the word, for the Symbol.  The diagnostic goes to the standard
    error and nothing is printed. *)
Theorem execute_stops_at_bad_object (program_list : addr) (ctx : tfcontext) (w : world)
    (lits : list val) (bad : val) (rest svs : list val) :
  loaded w program_list ctx ->
  list_values w program_list = Some (lits ++ bad :: rest) ->
  list_values w (stack ctx) = Some svs ->
  forallb is_pushed lits = true ->
  match bad with
  | VStr _ =>
      exists w', execute program_list (Some ctx) w = Exit UnexecutableObject w'
                 /\ list_values w' (stack ctx) = Some (svs ++ lits)
                 /\ out w' = out w
                 /\ err w' = (err w ++ "Found an unexecutable object during execution." ++ nl)%string
  | VSym s =>
      lookupOperation s = None ->
      exists w', execute program_list (Some ctx) w = Exit UnknownWord w'
                 /\ list_values w' (stack ctx) = Some (svs ++ lits)
                 /\ out w' = out w
                 /\ err w' = (err w ++ "Unknown word: " ++ c_str s ++ nl)%string
  | VInt _ | VBool _ => True
  end.
Proof.
  intros Hl Hp Hs Hlits.
  pose proof (execute_on_values _ _ _ _ _ Hl Hp Hs) as Hr.
  rewrite (sem_program_pushed lits (bad :: rest) svs Hlits) in Hr.
  destruct bad as [n|n|s|s]; try exact I.
  - simpl in Hr. destruct Hr as (w' & Hrun & Hst & Ho & He).
    exists w'. split; [exact Hrun|]. split; [exact Hst|].
    split; [rewrite Ho; apply string_app_nil_r | exact He].
  - intros Hno. apply lookup_prim_None in Hno. simpl in Hr. rewrite Hno in Hr.
    destruct Hr as (w' & Hrun & Hst & Ho & He).
    exists w'. split; [exact Hrun|]. split; [exact Hst|].
    split; [rewrite Ho; apply string_app_nil_r | exact He].
Qed.

Lemma execute_stops_at_bad_object_witness :
  loaded foreign_state 1%nat {| stack := 4%nat |}
  /\ list_values foreign_state 1%nat = Some ([VBool 1] ++ VStr "hi" :: [])
  /\ exists w', execute 1%nat (Some {| stack := 4%nat |}) foreign_state
                = Exit UnexecutableObject w'
                /\ list_values w' 4%nat = Some [VBool 1].
Proof.
  assert (Hp : list_values foreign_state 1%nat = Some ([VBool 1] ++ VStr "hi" :: []))
    by (vm_compute; reflexivity).
  assert (Hs : list_values foreign_state (stack {| stack := 4%nat |}) = Some [])
    by (vm_compute; reflexivity).
  split; [exact foreign_state_loaded|]. split; [exact Hp|].
  destruct (execute_stops_at_bad_object 1%nat {| stack := 4%nat |} foreign_state
              [VBool 1] (VStr "hi") [] [] foreign_state_loaded Hp Hs eq_refl)
    as (w' & Hrun & Hst & _).
  exists w'. split; [exact Hrun | exact Hst].
Defined.

(** X22.  A program of literals leaves exactly its Integers on the
    stack, in the order of the text, however many they are: the stack
    grows beyond its initial capacity as needed.  Nothing is written to
    either stream. *)
Theorem literals_fill_the_stack `{HostABI} (lits : list string) :
  Forall (fun s => is_literal s = true) lits ->
  exists w, compile_and_execute (spaced lits) initial_world
            = Ret (1%nat, {| stack := (2 + length lits)%nat |}) w
            /\ list_values w (2 + length lits)%nat = Some (map literal_token lits)
            /\ out w = "" /\ err w = "".
Proof.
  intros Hl.
  destruct (run_finished (spaced lits) _ _ _ (tokens_of_spaced lits Hl)
              (sem_program_literals lits)) as (w & Hrun & Hran).
  exists w. rewrite length_map in Hrun. split; [exact Hrun|].
  destruct (ran_values _ _ _ _ _ _ _ Hran) as [Hst _].
  destruct (ran_io _ _ _ _ _ _ Hran) as [Ho He].
  rewrite length_map in Hst. simpl in Hst. split; [exact Hst|]. split; assumption.
Qed.

Lemma literals_fill_the_stack_witness :
  exists w, @compile_and_execute LP64
              "3 1 4 1 5 9 2 6 5 3 5 8 9 7 9 3 2 " initial_world
            = Ret (1%nat, {| stack := 19%nat |}) w
            /\ list_values w 19%nat
               = Some (map VInt [3; 1; 4; 1; 5; 9; 2; 6; 5; 3; 5; 8; 9; 7; 9; 3; 2]).
Proof.
  destruct (@literals_fill_the_stack LP64
              ["3"; "1"; "4"; "1"; "5"; "9"; "2"; "6"; "5"; "3"; "5"; "8"; "9"; "7";
               "9"; "3"; "2"]
              ltac:(repeat constructor)) as (w & Hrun & Hst & _).
  exists w. split; [exact Hrun | exact Hst].
Defined.

(** ** main.c *)

(** X23.  [main] leaks nothing: once it has read the text, whatever
    the text, it either returns [EXIT_SUCCESS], and then the heap is
    empty, every object having been freed, or it ends the process on a
    stack underflow or a division by zero, or it faults.  It faults
    only where the program, which then compiled, divides [INT_MIN] by
    [-1], the one place where its run on values is [Crashed]: it never
    dereferences a dangling or null pointer and never writes outside an
    array.  Its loops always terminate. *)
Theorem main_releases_everything `{HostABI} (text : string) :
  match main text initial_world with
  | Ret status w => status = EXIT_SUCCESS /\ heap w = ∅
  | Exit f w => f = StackUnderflow \/ f = DivisionByZero
  | Fault => exists toks, tokens text = Some (toks, None) /\ sem_program toks [] = Crashed
  | Timeout => False
  end.
Proof.
  pose proof (main_sound text) as Hm.
  destruct (tokens text) as [[toks [[l c]|]]|]; [| |contradiction].
  - destruct Hm as (w & -> & Hh & _). split; [reflexivity | exact Hh].
  - destruct (sem_program toks []) as [st o|f st o e|] eqn:Hsem.
    + destruct Hm as (w & -> & Hh & _). split; [reflexivity | exact Hh].
    + destruct Hm as (w & -> & Hf & _). exact Hf.
    + rewrite Hm. exists toks. split; [reflexivity | exact Hsem].
Qed.

(** X24.  What [main], once it has read the text, leaves on the
    standard error tells how it ended.  When it returns, the standard
    error is empty, or it holds the syntax-error line (and then nothing
    was printed).  When the process ends through [exit], the cause is a
    stack underflow or a division by zero, and the standard error holds
    exactly the one line for that cause.  When it faults, which it only
    does where the compiled program divides [INT_MIN] by [-1], there is
    no diagnostic to speak of. *)
Theorem main_diagnostics `{HostABI} (text : string) :
  match main text initial_world with
  | Ret _ w =>
      err w = "" \/ (out w = "" /\ exists l c, err w = syntax_error_message l c)
  | Exit f w =>
      (f = StackUnderflow \/ f = DivisionByZero) /\ err w = diagnostic f
  | Fault => exists toks, tokens text = Some (toks, None) /\ sem_program toks [] = Crashed
  | Timeout => False
  end.
Proof.
  pose proof (main_sound text) as Hm.
  destruct (tokens text) as [[toks [[l c]|]]|] eqn:Htok; [| |contradiction].
  - destruct Hm as (w & -> & _ & Ho & He). right. split; [exact Ho|]. eauto.
  - destruct (sem_program toks []) as [st o|f st o e|] eqn:Hsem.
    + destruct Hm as (w & -> & _ & _ & He). left. exact He.
    + destruct Hm as (w & -> & _ & _ & He). rewrite He.
      eapply sem_program_diagnostic; [|exact Hsem]. eapply tokens_valid; eauto.
    + rewrite Hm. exists toks. split; [reflexivity | exact Hsem].
Qed.

(** X25.  A syntax error does not change the exit status: when
    [compile] returns the null pointer, [main] still creates the context,
    skips the execution, frees everything and returns [EXIT_SUCCESS].
    The standard output is empty and the standard error holds the
    syntax-error line that [compile] wrote. *)
Theorem main_after_syntax_error `{HostABI} (text : string) (w1 : world) :
  compile text initial_world = Ret NULL w1 ->
  exists w, main text initial_world = Ret EXIT_SUCCESS w
            /\ heap w = ∅ /\ out w = "" /\ err w = err w1
            /\ exists l c, err w1 = syntax_error_message l c.
Proof.
  intros Hc. pose proof (main_sound text) as Hm.
  destruct (tokens text) as [[toks [[l c]|]]|] eqn:Htok; [| |contradiction].
  - destruct (compile_rejected text toks l c Htok) as (w1' & Hc' & He1 & _).
    rewrite Hc in Hc'. injection Hc' as <-.
    destruct Hm as (w & Hmain & Hh & Ho & He). exists w.
    split; [exact Hmain|]. split; [exact Hh|]. split; [exact Ho|].
    split; [congruence|eauto].
  - destruct (compile_finished text toks Htok) as (w1' & Hc' & _).
    rewrite Hc in Hc'. discriminate Hc'.
Qed.

Lemma main_after_syntax_error_witness :
  @compile LP64 "3 foo" initial_world = Ret NULL (compiled_state "3 foo")
  /\ exists w, @main LP64 "3 foo" initial_world = Ret EXIT_SUCCESS w /\ out w = "".
Proof.
  assert (Hc : @compile LP64 "3 foo" initial_world = Ret NULL (compiled_state "3 foo"))
    by (vm_compute; reflexivity).
  split; [exact Hc|].
  destruct (@main_after_syntax_error LP64 "3 foo" _ Hc) as (w & Hm & _ & Ho & _).
  exists w. split; [exact Hm | exact Ho].
Defined.

(** X26.  After a compiled program has run to completion, the stack
    holds nothing but Integers, each within the range of a 32-bit [int]:
    no literal and no arithmetic result ever leaves that range. *)
Theorem stack_holds_ints_in_range `{HostABI} (text : string) pl ctx w :
  compile_and_execute text initial_world = Ret (pl, ctx) w -> pl <> NULL ->
  exists st, list_values w (stack ctx) = Some st /\ Forall int_value st.
Proof.
  intros Hrun Hpl. destruct (tokens_total text) as [[toks [[l c]|]] Htok].
  - pose proof (compile_and_execute_rejected text toks l c initial_world ∅ Htok inv_initial) as Hr.
    apply (wp_Ret_inv _ _ _ _ _ _ Hr) in Hrun. simpl in Hrun. destruct Hrun as [-> _].
    contradiction.
  - pose proof (compile_and_execute_sound text toks initial_world ∅ Htok inv_initial) as Hr.
    apply (wpx_Ret_inv _ _ _ _ _ _ _ Hr) in Hrun. destruct Hrun as (Heq & st & o & Hsem & Hran).
    injection Heq as -> ->. exists st.
    split; [exact (proj1 (ran_values _ _ _ _ _ _ _ Hran))|].
    eapply sem_program_int; [| |constructor|exact Hsem].
    + unfold tokens in Htok. eapply tokens_from_int; eauto.
    + eapply tokens_valid; eauto.
Qed.

Lemma stack_holds_ints_in_range_witness :
  exists st, list_values (state_after "2147483647 1 +") 5%nat = Some st
             /\ Forall int_value st.
Proof.
  assert (Hrun : @compile_and_execute LP64 "2147483647 1 +" initial_world
                 = Ret (1%nat, {| stack := 5%nat |}) (state_after "2147483647 1 +"))
    by (vm_compute; reflexivity).
  exact (@stack_holds_ints_in_range LP64 "2147483647 1 +" 1%nat {| stack := 5%nat |} _ Hrun
           ltac:(discriminate)).
Defined.

(** X27.  Reference counts are exact.  After a compiled program has run
    to completion, the program list and the stack are two distinct live
    lists with reference count one; every slot of either list points to
    a live object that is neither of the two lists; and every other block
    of the heap is a scalar whose reference count is positive and equals
    the number of slots, of the program and of the stack together, that
    point to it. *)
Theorem reference_counts_are_exact `{HostABI} (text : string) pl ctx w :
  compile_and_execute text initial_world = Ret (pl, ctx) w -> pl <> NULL ->
  exists pels sels pcap scap,
    heap w !! pl = Some (mk_tfobj TF_OBJ_LIST 1 (list_obj pels pcap))
    /\ heap w !! stack ctx = Some (mk_tfobj TF_OBJ_LIST 1 (list_obj sels scap))
    /\ pl <> stack ctx
    /\ (forall x, x ∈ (pels ++ sels) -> x <> pl /\ x <> stack ctx /\ is_Some (heap w !! x))
    /\ (forall x o, heap w !! x = Some o -> x <> pl -> x <> stack ctx ->
          refcount o = count x (pels ++ sels) /\ 0 < refcount o
          /\ type_eqb (type o) TF_OBJ_LIST = false).
Proof.
  intros Hrun Hpl. destruct (tokens_total text) as [[toks [[l c]|]] Htok].
  - pose proof (compile_and_execute_rejected text toks l c initial_world ∅ Htok inv_initial) as Hr.
    apply (wp_Ret_inv _ _ _ _ _ _ Hr) in Hrun. simpl in Hrun. destruct Hrun as [-> _].
    contradiction.
  - pose proof (compile_and_execute_sound text toks initial_world ∅ Htok inv_initial) as Hr.
    apply (wpx_Ret_inv _ _ _ _ _ _ _ Hr) in Hrun. destruct Hrun as (Heq & st & o & _ & Hran).
    injection Heq as -> ->.
    destruct Hran as (sels & pels & V & I & _).
    set (s := (brk initial_world + 1 + length toks)%nat) in *.
    set (p := brk initial_world) in *.
    destruct (inv_root _ _ _ _ _ I s sels) as (scap & Hs & _); [left|].
    destruct (inv_root _ _ _ _ _ I p pels) as (pcap & Hp & _); [right; left|].
    exists pels, sels, pcap, scap.
    split; [exact Hp|]. split; [exact Hs|].
    split; [unfold s, p; simpl; lia|].
    assert (Hrefs : forall x, x ∈ (pels ++ sels) <-> x ∈ (refs [(s, sels); (p, pels)] ++ [])).
    { intros x. rewrite !refs_cons. unfold refs. simpl. rewrite !elem_of_app.
      rewrite elem_of_nil. tauto. }
    split.
    + intros x Hx. apply Hrefs in Hx.
      destruct (inv_ref _ _ _ _ _ I x Hx) as (Hnr & _ & Hlive).
      simpl in Hnr. rewrite !not_elem_of_cons in Hnr. simpl. tauto.
    + intros x ox Hx Hxp Hxs.
      assert (Hnr : x ∉ [(s, sels); (p, pels)].*1).
      { simpl. rewrite !not_elem_of_cons. repeat split; auto. apply not_elem_of_nil. }
      destruct (inv_obj _ _ _ _ _ I x ox Hx Hnr (not_elem_of_nil x)) as (_ & Hv & Hrc & Hpos).
      split; [|split; [exact Hpos | apply val_of_not_list; exact Hv]].
      rewrite Hrc, !refs_cons. unfold refs. simpl. rewrite !count_app. simpl. lia.
Qed.

Lemma reference_counts_are_exact_witness :
  exists pels sels pcap scap,
    heap (state_after "7 dup") !! 1%nat = Some (mk_tfobj TF_OBJ_LIST 1 (list_obj pels pcap))
    /\ heap (state_after "7 dup") !! 4%nat = Some (mk_tfobj TF_OBJ_LIST 1 (list_obj sels scap))
    /\ forall x o, heap (state_after "7 dup") !! x = Some o -> x <> 1%nat -> x <> 4%nat ->
         refcount o = count x (pels ++ sels).
Proof.
  assert (Hrun : @compile_and_execute LP64 "7 dup" initial_world
                 = Ret (1%nat, {| stack := 4%nat |}) (state_after "7 dup"))
    by (vm_compute; reflexivity).
  destruct (@reference_counts_are_exact LP64 "7 dup" 1%nat {| stack := 4%nat |} _ Hrun
              ltac:(discriminate)) as (pels & sels & pcap & scap & Hp & Hs & _ & _ & Hrc).
  exists pels, sels, pcap, scap. split; [exact Hp|]. split; [exact Hs|].
  intros x o Hx H1 H4. exact (proj1 (Hrc x o Hx H1 H4)).
Defined.
